(** * A shallow embedding of the chess engine (chess_ubuntu.c)

    The legality engine, the terminal-state detector, the move generator,
    the search (minimax and quiescence with the evaluation cache) and the
    FEN encoder and decoder of [chess_ubuntu.c], written as Rocq functions
    over an explicit [GameState], followed by the properties of the
    specification settled against them.

    Conventions of the embedding:
    - a C [int] is a [Z]; the quantities involved (coordinates, scores,
      clocks) stay far from the 32-bit bounds, so no wrap-around is written;
      C's [/] and [%] are [Z.quot] and [Z.rem];
    - a C [char] is an [ascii];
    - [char board[8][8]] is the row-major list of its 64 cells, so that
      [board[r][c]] is cell [8 * r + c];
    - a function taking [GameState* state] and writing through it returns the
      final state next to its result; a function that only reads it is pure;
    - [printf] output is not modelled; the characters [promotePawn] reads
      from the terminal are an explicit input list. *)

From Stdlib Require Import ZArith Ascii String List Bool Lia DecimalString DecimalPos.
From stdpp Require Import base list.
Import ListNotations.

Local Open Scope Z_scope.

(** ** Characters *)

Definition code (c : ascii) : Z := Z.of_N (N_of_ascii c).

Definition isupper (c : ascii) : bool := (65 <=? code c) && (code c <=? 90).
Definition islower (c : ascii) : bool := (97 <=? code c) && (code c <=? 122).
Definition isdigit (c : ascii) : bool := (48 <=? code c) && (code c <=? 57).
Definition isspace (c : ascii) : bool :=
  (code c =? 32) || ((9 <=? code c) && (code c <=? 13)).

Definition chr (z : Z) : ascii := ascii_of_N (Z.to_N z).

Definition toupper (c : ascii) : ascii := if islower c then chr (code c - 32) else c.
Definition tolower (c : ascii) : ascii := if isupper c then chr (code c + 32) else c.

(** ** Piece representations *)

Definition EMPTY : ascii := " "%char.
Definition WHITE_PAWN : ascii := "P"%char.
Definition WHITE_ROOK : ascii := "R"%char.
Definition WHITE_KNIGHT : ascii := "N"%char.
Definition WHITE_BISHOP : ascii := "B"%char.
Definition WHITE_QUEEN : ascii := "Q"%char.
Definition WHITE_KING : ascii := "K"%char.
Definition BLACK_PAWN : ascii := "p"%char.
Definition BLACK_ROOK : ascii := "r"%char.
Definition BLACK_KNIGHT : ascii := "n"%char.
Definition BLACK_BISHOP : ascii := "b"%char.
Definition BLACK_QUEEN : ascii := "q"%char.
Definition BLACK_KING : ascii := "k"%char.

Definition BOARD_SIZE : Z := 8.

(** ** The board and the game state *)

Abbreviation Board := (list ascii).

Definition cell (r c : Z) : nat := Z.to_nat (8 * r + c).

Definition inBoard (r c : Z) : bool :=
  (0 <=? r) && (r <? BOARD_SIZE) && (0 <=? c) && (c <? BOARD_SIZE).

(** [board[r][c]] as an rvalue and as an lvalue. *)
Definition getSq (b : Board) (r c : Z) : ascii :=
  match b !! cell r c with Some x => x | None => EMPTY end.

Definition setSq (b : Board) (r c : Z) (x : ascii) : Board := <[cell r c := x]> b.

Record GameState : Type := mkGameState {
  whiteCastleKingside : bool;
  whiteCastleQueenside : bool;
  blackCastleKingside : bool;
  blackCastleQueenside : bool;
  enPassantTargetRow : Z;
  enPassantTargetCol : Z;
  halfmoveClock : Z;
  fullmoveNumber : Z;
  board : Board;
  isWhiteTurn : bool;
  canWhiteCastleKingside : bool;
  canWhiteCastleQueenside : bool;
  canBlackCastleKingside : bool;
  canBlackCastleQueenside : bool
}.

(** [state->board = b] and [state->isWhiteTurn = t]. *)
Definition withBoard (st : GameState) (b : Board) : GameState :=
  mkGameState (whiteCastleKingside st) (whiteCastleQueenside st)
    (blackCastleKingside st) (blackCastleQueenside st)
    (enPassantTargetRow st) (enPassantTargetCol st)
    (halfmoveClock st) (fullmoveNumber st) b (isWhiteTurn st)
    (canWhiteCastleKingside st) (canWhiteCastleQueenside st)
    (canBlackCastleKingside st) (canBlackCastleQueenside st).

Definition withTurn (st : GameState) (t : bool) : GameState :=
  mkGameState (whiteCastleKingside st) (whiteCastleQueenside st)
    (blackCastleKingside st) (blackCastleQueenside st)
    (enPassantTargetRow st) (enPassantTargetCol st)
    (halfmoveClock st) (fullmoveNumber st) (board st) t
    (canWhiteCastleKingside st) (canWhiteCastleQueenside st)
    (canBlackCastleKingside st) (canBlackCastleQueenside st).

(** [state->board[r][c] = x]. *)
Definition poke (st : GameState) (r c : Z) (x : ascii) : GameState :=
  withBoard st (setSq (board st) r c x).

Definition peek (st : GameState) (r c : Z) : ascii := getSq (board st) r c.

(** The array type [char[8][8]]: the board has its 64 cells. *)
Definition wf (st : GameState) : Prop := length (board st) = 64%nat.

(** The index ranges of the [for] loops over the board, in loop order. *)
Definition idx8 : list Z := [0; 1; 2; 3; 4; 5; 6; 7].
Definition allSquares : list (Z * Z) := list_prod idx8 idx8.

(** ** Piece movement patterns *)

(** The ray walk of [isValidRookMove]: the body of
    [while (row != toRow || col != toCol)].  The walk leaves the board after
    at most eight in-board squares, so the loop budget is never exhausted
    (see [rookWalk_budget]). *)
Fixpoint rookWalk (budget : nat) (b : Board) (row col rowStep colStep toRow toCol : Z)
  : bool :=
  match budget with
  | O => false
  | S budget' =>
    if negb (row =? toRow) || negb (col =? toCol) then
      if negb (inBoard row col) then false
      else if negb (Ascii.eqb (getSq b row col) EMPTY) then false
      else rookWalk budget' b (row + rowStep) (col + colStep) rowStep colStep toRow toCol
    else true
  end.

Definition walkBudget : nat := 10.

Definition isValidRookMove (st : GameState) (fromRow fromCol toRow toCol : Z) : bool :=
  if negb (fromRow =? toRow) && negb (fromCol =? toCol) then false
  else if (fromRow =? toRow) && (fromCol =? toCol) then false
  else
    let rowStep := if toRow >? fromRow then 1 else if toRow <? fromRow then -1 else 0 in
    let colStep := if toCol >? fromCol then 1 else if toCol <? fromCol then -1 else 0 in
    rookWalk walkBudget (board st) (fromRow + rowStep) (fromCol + colStep)
      rowStep colStep toRow toCol.

Definition isValidKnightMove (st : GameState) (fromRow fromCol toRow toCol : Z) : bool :=
  let rowDiff := Z.abs (toRow - fromRow) in
  let colDiff := Z.abs (toCol - fromCol) in
  ((rowDiff =? 2) && (colDiff =? 1)) || ((rowDiff =? 1) && (colDiff =? 2)).

(** The ray walk of [isValidBishopMove]: the body of
    [while (row != toRow && col != toCol)]. *)
Fixpoint bishopWalk (budget : nat) (b : Board) (row col rowStep colStep toRow toCol : Z)
  : bool :=
  match budget with
  | O => false
  | S budget' =>
    if negb (row =? toRow) && negb (col =? toCol) then
      if negb (inBoard row col) then false
      else if negb (Ascii.eqb (getSq b row col) EMPTY) then false
      else bishopWalk budget' b (row + rowStep) (col + colStep) rowStep colStep toRow toCol
    else true
  end.

Definition isValidBishopMove (st : GameState) (fromRow fromCol toRow toCol : Z) : bool :=
  if negb (Z.abs (toRow - fromRow) =? Z.abs (toCol - fromCol)) then false
  else if (fromRow =? toRow) && (fromCol =? toCol) then false
  else
    let rowStep := if toRow >? fromRow then 1 else -1 in
    let colStep := if toCol >? fromCol then 1 else -1 in
    bishopWalk walkBudget (board st) (fromRow + rowStep) (fromCol + colStep)
      rowStep colStep toRow toCol.

Definition isValidQueenMove (st : GameState) (fromRow fromCol toRow toCol : Z) : bool :=
  isValidRookMove st fromRow fromCol toRow toCol
  || isValidBishopMove st fromRow fromCol toRow toCol.

Definition isValidPawnMove (st : GameState) (fromRow fromCol toRow toCol : Z) : bool :=
  let piece := peek st fromRow fromCol in
  let direction := if isupper piece then -1 else 1 in
  let startRow := if isupper piece then 6 else 1 in
  if negb (inBoard toRow toCol) then false
  else if (fromCol =? toCol) && (toRow =? fromRow + direction)
          && Ascii.eqb (peek st toRow toCol) EMPTY then true
  else if (fromCol =? toCol) && (fromRow =? startRow)
          && (toRow =? fromRow + 2 * direction) then
    if Ascii.eqb (peek st (fromRow + direction) fromCol) EMPTY
       && Ascii.eqb (peek st toRow toCol) EMPTY then true else false
  else if (Z.abs (fromCol - toCol) =? 1) && (toRow =? fromRow + direction)
          && negb (Ascii.eqb (peek st toRow toCol) EMPTY)
          && ((isupper piece && islower (peek st toRow toCol))
              || (islower piece && isupper (peek st toRow toCol))) then true
  else if (Z.abs (fromCol - toCol) =? 1) && (toRow =? fromRow + direction)
          && Ascii.eqb (peek st toRow toCol) EMPTY
          && (toRow =? enPassantTargetRow st)
          && (toCol =? enPassantTargetCol st) then true
  else false.

(** ** Loops over the board *)

(** [for (...) for (...) { if (body) return true; } return false;]: the
    squares are visited in order, the state is threaded through the bodies,
    and the first hit leaves the loop. *)
Fixpoint anySquare (body : GameState -> Z * Z -> bool * GameState)
    (sqs : list (Z * Z)) (st : GameState) : bool * GameState :=
  match sqs with
  | [] => (false, st)
  | sq :: rest =>
    let '(hit, st) := body st sq in
    if hit then (true, st) else anySquare body rest st
  end.

(** The values taken by [col] in [for (col = start; col != stop; col += step)]. *)
Fixpoint colRange (budget : nat) (col stop step : Z) : list Z :=
  match budget with
  | O => []
  | S budget' =>
    if col =? stop then [] else col :: colRange budget' (col + step) stop step
  end.

(** The first square, in loop order, that holds [p]. *)
Definition findPiece (b : Board) (p : ascii) : option (Z * Z) :=
  find (fun sq => Ascii.eqb (getSq b (fst sq) (snd sq)) p) allSquares.

(** ** Attack and check detection *)

(** The [switch (pieceType)] of [isSquareAttacked]. *)
Definition attackPattern (st : GameState) (i j row col : Z) (piece : ascii) : bool :=
  let pieceType := toupper piece in
  if Ascii.eqb pieceType WHITE_PAWN then
    let direction := if isupper piece then -1 else 1 in
    if (Z.abs (j - col) =? 1) && (row =? i + direction) then true else false
  else if Ascii.eqb pieceType WHITE_ROOK then
    if (i =? row) || (j =? col) then isValidRookMove st i j row col else false
  else if Ascii.eqb pieceType WHITE_KNIGHT then
    isValidKnightMove st i j row col
  else if Ascii.eqb pieceType WHITE_BISHOP then
    if Z.abs (i - row) =? Z.abs (j - col) then isValidBishopMove st i j row col else false
  else if Ascii.eqb pieceType WHITE_QUEEN then
    if (i =? row) || (j =? col) || (Z.abs (i - row) =? Z.abs (j - col))
    then isValidQueenMove st i j row col else false
  else if Ascii.eqb pieceType WHITE_KING then
    if (Z.abs (i - row) <=? 1) && (Z.abs (j - col) <=? 1)
       && (negb (i =? row) || negb (j =? col)) then true else false
  else false.

Definition isSquareAttacked_body (row col : Z) (byWhite : bool)
    (st : GameState) (sq : Z * Z) : bool * GameState :=
  let '(i, j) := sq in
  let piece := peek st i j in
  if negb (Ascii.eqb piece EMPTY)
     && ((byWhite && isupper piece) || (negb byWhite && islower piece)) then
    let originalTurn := isWhiteTurn st in
    let st := withTurn st byWhite in
    let validMove := attackPattern st i j row col piece in
    let st := withTurn st originalTurn in
    (validMove, st)
  else (false, st).

Definition isSquareAttacked (st : GameState) (row col : Z) (byWhite : bool)
  : bool * GameState :=
  anySquare (isSquareAttacked_body row col byWhite) allSquares st.

Definition kingOf (isWhiteKing : bool) : ascii :=
  if isWhiteKing then WHITE_KING else BLACK_KING.

Definition isInCheck (st : GameState) (isWhiteKing : bool) : bool * GameState :=
  let kingPiece := kingOf isWhiteKing in
  match findPiece (board st) kingPiece with
  | None => (false, st)
  | Some (kingRow, kingCol) => isSquareAttacked st kingRow kingCol (negb isWhiteKing)
  end.

Definition doesMovePutKingInCheck (st : GameState) (fromRow fromCol toRow toCol : Z)
  : bool * GameState :=
  let tempPiece := peek st toRow toCol in
  let st := poke st toRow toCol (peek st fromRow fromCol) in
  let st := poke st fromRow fromCol EMPTY in
  let '(kingInCheck, st) := isInCheck st (isWhiteTurn st) in
  let st := poke st fromRow fromCol (peek st toRow toCol) in
  let st := poke st toRow toCol tempPiece in
  (kingInCheck, st).

(** ** Castling *)

Definition isValidCastling (st : GameState) (fromRow fromCol toRow toCol : Z)
  : bool * GameState :=
  let piece := peek st fromRow fromCol in
  let isWhite := isupper piece in
  let isKingSide := toCol >? fromCol in
  if negb (Ascii.eqb (toupper piece) WHITE_KING)
     || negb (fromRow =? (if isWhite then 7 else 0)) || negb (fromCol =? 4)
  then (false, st)
  else if negb (Z.abs (toCol - fromCol) =? 2) || negb (toRow =? fromRow)
  then (false, st)
  else
    let '(inCheck, st) := isInCheck st isWhite in
    if inCheck then (false, st)
    else if (if isWhite
             then (isKingSide && negb (canWhiteCastleKingside st))
                  || (negb isKingSide && negb (canWhiteCastleQueenside st))
             else (isKingSide && negb (canBlackCastleKingside st))
                  || (negb isKingSide && negb (canBlackCastleQueenside st)))
    then (false, st)
    else
      let rookCol := if isKingSide then 7 else 0 in
      let expectedRook := if isWhite then WHITE_ROOK else BLACK_ROOK in
      if negb (Ascii.eqb (peek st fromRow rookCol) expectedRook) then (false, st)
      else
        let step := if isKingSide then 1 else -1 in
        if existsb (fun col => negb (Ascii.eqb (peek st fromRow col) EMPTY))
             (colRange 8 (fromCol + step) rookCol step)
        then (false, st)
        else
          let startCol := fromCol in
          let endCol := toCol in
          let '(attacked, st) :=
            anySquare (fun st sq => isSquareAttacked st (fst sq) (snd sq) (negb isWhite))
              (map (fun col => (fromRow, col)) (colRange 8 startCol (endCol + step) step))
              st in
          if attacked then (false, st) else (true, st).

Definition isValidKingMove (st : GameState) (fromRow fromCol toRow toCol : Z)
  : bool * GameState :=
  if (Z.abs (toRow - fromRow) <=? 1) && (Z.abs (toCol - fromCol) <=? 1) then (true, st)
  else if (Z.abs (fromCol - toCol) =? 2) && (fromRow =? toRow)
  then isValidCastling st fromRow fromCol toRow toCol
  else (false, st).

(** ** Pin detection *)

Record PinInfo : Type := mkPinInfo {
  isPinned : bool;
  pinDirection : Z * Z;
  pinningPieceRow : Z;
  pinningPieceCol : Z
}.

Definition noPin : PinInfo := mkPinInfo false (0, 0) (-1) (-1).

(** The [while] loop of [getPinInfo], entered at [(checkRow, checkCol)]. *)
Fixpoint pinScan (budget : nat) (b : Board) (isWhitePiece : bool)
    (stepR stepC checkRow checkCol : Z) : PinInfo :=
  match budget with
  | O => noPin
  | S budget' =>
    if inBoard checkRow checkCol then
      let checkPiece := getSq b checkRow checkCol in
      if negb (Ascii.eqb checkPiece EMPTY) then
        let isEnemyPiece :=
          (isWhitePiece && islower checkPiece) || (negb isWhitePiece && isupper checkPiece) in
        if isEnemyPiece then
          let pieceType := toupper checkPiece in
          let canPin :=
            (((stepR =? 0) || (stepC =? 0))
             && (Ascii.eqb pieceType "R" || Ascii.eqb pieceType "Q"))
            || ((Z.abs stepR =? Z.abs stepC)
                && (Ascii.eqb pieceType "B" || Ascii.eqb pieceType "Q")) in
          if canPin then mkPinInfo true (stepR, stepC) checkRow checkCol
          else noPin
        else noPin
      else pinScan budget' b isWhitePiece stepR stepC (checkRow + stepR) (checkCol + stepC)
    else noPin
  end.

Definition getPinInfo (st : GameState) (row col : Z) : PinInfo :=
  let piece := peek st row col in
  if Ascii.eqb piece EMPTY then noPin
  else
    let isWhitePiece := isupper piece in
    let kingPiece := kingOf isWhitePiece in
    match findPiece (board st) kingPiece with
    | None => noPin
    | Some (kingRow, kingCol) =>
      let dr := kingRow - row in
      let dc := kingCol - col in
      let stepR := if negb (dr =? 0) then Z.quot dr (Z.abs dr) else 0 in
      let stepC := if negb (dc =? 0) then Z.quot dc (Z.abs dc) else 0 in
      if negb ((dr =? 0) || (dc =? 0) || (Z.abs dr =? Z.abs dc)) then noPin
      else pinScan walkBudget (board st) isWhitePiece stepR stepC
             (kingRow + stepR) (kingCol + stepC)
    end.

Definition isMoveAlongPinRay (fromRow fromCol toRow toCol : Z) (pin : PinInfo) : bool :=
  if negb (isPinned pin) then true
  else
    let moveDir0 := toRow - fromRow in
    let moveDir1 := toCol - fromCol in
    let moveDirNorm0 := if negb (moveDir0 =? 0) then Z.quot moveDir0 (Z.abs moveDir0) else 0 in
    let moveDirNorm1 := if negb (moveDir1 =? 0) then Z.quot moveDir1 (Z.abs moveDir1) else 0 in
    ((moveDirNorm0 =? fst (pinDirection pin)) && (moveDirNorm1 =? snd (pinDirection pin)))
    || ((moveDirNorm0 =? - fst (pinDirection pin))
        && (moveDirNorm1 =? - snd (pinDirection pin))).

(** ** Move legality *)

Definition isValidMove (st : GameState) (fromRow fromCol toRow toCol : Z)
  : bool * GameState :=
  if negb (inBoard fromRow fromCol) || negb (inBoard toRow toCol) then (false, st)
  else
    let piece := peek st fromRow fromCol in
    if Ascii.eqb piece EMPTY then (false, st)
    else if isWhiteTurn st && negb (isupper piece) then (false, st)
    else if negb (isWhiteTurn st) && isupper piece then (false, st)
    else if isWhiteTurn st && isupper (peek st toRow toCol) then (false, st)
    else if negb (isWhiteTurn st) && islower (peek st toRow toCol) then (false, st)
    else
      let pieceType := toupper piece in
      let '(known, (validPieceMove, st)) :=
        if Ascii.eqb pieceType WHITE_PAWN
        then (true, (isValidPawnMove st fromRow fromCol toRow toCol, st))
        else if Ascii.eqb pieceType WHITE_ROOK
        then (true, (isValidRookMove st fromRow fromCol toRow toCol, st))
        else if Ascii.eqb pieceType WHITE_KNIGHT
        then (true, (isValidKnightMove st fromRow fromCol toRow toCol, st))
        else if Ascii.eqb pieceType WHITE_BISHOP
        then (true, (isValidBishopMove st fromRow fromCol toRow toCol, st))
        else if Ascii.eqb pieceType WHITE_QUEEN
        then (true, (isValidQueenMove st fromRow fromCol toRow toCol, st))
        else if Ascii.eqb pieceType WHITE_KING
        then (true, isValidKingMove st fromRow fromCol toRow toCol)
        else (false, (false, st)) in
      if negb known then (false, st)
      else if negb validPieceMove then (false, st)
      else
        let pinInfo := getPinInfo st fromRow fromCol in
        if isPinned pinInfo && negb (isMoveAlongPinRay fromRow fromCol toRow toCol pinInfo)
        then (false, st)
        else
          let '(inCheck, st) := doesMovePutKingInCheck st fromRow fromCol toRow toCol in
          if inCheck then (false, st) else (true, st).

Definition isPieceUnderAttack_body (row col : Z) (isWhitePiece : bool)
    (st : GameState) (sq : Z * Z) : bool * GameState :=
  let '(i, j) := sq in
  let attackingPiece := peek st i j in
  if negb (Ascii.eqb attackingPiece EMPTY)
     && ((isWhitePiece && islower attackingPiece)
         || (negb isWhitePiece && isupper attackingPiece)) then
    let originalTurn := isWhiteTurn st in
    let st := withTurn st (isupper attackingPiece) in
    let '(valid, st) := isValidMove st i j row col in
    if valid then (true, withTurn st originalTurn)
    else (false, withTurn st originalTurn)
  else (false, st).

Definition isPieceUnderAttack (st : GameState) (row col : Z) : bool * GameState :=
  let piece := peek st row col in
  if Ascii.eqb piece EMPTY then (false, st)
  else
    let isWhitePiece := isupper piece in
    anySquare (isPieceUnderAttack_body row col isWhitePiece) allSquares st.

(** ** Setting up and making moves *)

Definition initialBoard : Board :=
  list_ascii_of_string
    "rnbqkbnrpppppppp                                PPPPPPPPRNBQKBNR".

Definition initializeGameState : GameState :=
  mkGameState true true true true (-1) (-1) 0 1 initialBoard true true true true true.

Definition withCastling (st : GameState) (wk wq bk bq : bool) : GameState :=
  mkGameState (whiteCastleKingside st) (whiteCastleQueenside st)
    (blackCastleKingside st) (blackCastleQueenside st)
    (enPassantTargetRow st) (enPassantTargetCol st)
    (halfmoveClock st) (fullmoveNumber st) (board st) (isWhiteTurn st)
    wk wq bk bq.

Definition withEnPassant (st : GameState) (r c : Z) : GameState :=
  mkGameState (whiteCastleKingside st) (whiteCastleQueenside st)
    (blackCastleKingside st) (blackCastleQueenside st)
    r c
    (halfmoveClock st) (fullmoveNumber st) (board st) (isWhiteTurn st)
    (canWhiteCastleKingside st) (canWhiteCastleQueenside st)
    (canBlackCastleKingside st) (canBlackCastleQueenside st).

Definition withClocks (st : GameState) (h f : Z) : GameState :=
  mkGameState (whiteCastleKingside st) (whiteCastleQueenside st)
    (blackCastleKingside st) (blackCastleQueenside st)
    (enPassantTargetRow st) (enPassantTargetCol st)
    h f (board st) (isWhiteTurn st)
    (canWhiteCastleKingside st) (canWhiteCastleQueenside st)
    (canBlackCastleKingside st) (canBlackCastleQueenside st).

(** The [do ... while] loop of [promotePawn] over the characters typed at the
    terminal: [scanf(" %c")] skips white space and reads one character,
    until a letter among Q, R, B, N (in either case) is read.  [None]: the
    input ends before that, and the loop does not exit. *)
Fixpoint readPromotion (input : list ascii) : option (ascii * list ascii) :=
  match input with
  | [] => None
  | c :: rest =>
    if isspace c then readPromotion rest
    else
      let promotion := toupper c in
      if negb (Ascii.eqb promotion "Q") && negb (Ascii.eqb promotion "R")
         && negb (Ascii.eqb promotion "B") && negb (Ascii.eqb promotion "N")
      then readPromotion rest
      else Some (promotion, rest)
  end.

Definition promotePawn (st : GameState) (input : list ascii) (row col : Z)
  : option (GameState * list ascii) :=
  match readPromotion input with
  | None => None
  | Some (promotion, rest) =>
    if isupper (peek st row col) then Some (poke st row col promotion, rest)
    else Some (poke st row col (tolower promotion), rest)
  end.

Definition updateCastlingRights (st : GameState) (fromRow fromCol toRow toCol : Z)
  : GameState :=
  let piece := peek st toRow toCol in
  let wk := canWhiteCastleKingside st in
  let wq := canWhiteCastleQueenside st in
  let bk := canBlackCastleKingside st in
  let bq := canBlackCastleQueenside st in
  let '(wk, wq, bk, bq) :=
    if Ascii.eqb piece WHITE_KING then (false, false, bk, bq)
    else if Ascii.eqb piece BLACK_KING then (wk, wq, false, false)
    else if Ascii.eqb piece WHITE_ROOK then
      let wq := if (fromRow =? 7) && (fromCol =? 0) then false else wq in
      let wk := if (fromRow =? 7) && (fromCol =? 7) then false else wk in
      (wk, wq, bk, bq)
    else if Ascii.eqb piece BLACK_ROOK then
      let bq := if (fromRow =? 0) && (fromCol =? 0) then false else bq in
      let bk := if (fromRow =? 0) && (fromCol =? 7) then false else bk in
      (wk, wq, bk, bq)
    else (wk, wq, bk, bq) in
  let bq := if (toRow =? 0) && (toCol =? 0) then false else bq in
  let bk := if (toRow =? 0) && (toCol =? 7) then false else bk in
  let wq := if (toRow =? 7) && (toCol =? 0) then false else wq in
  let wk := if (toRow =? 7) && (toCol =? 7) then false else wk in
  withCastling st wk wq bk bq.

Definition makeMove (st : GameState) (input : list ascii)
    (fromRow fromCol toRow toCol : Z) : option (GameState * list ascii) :=
  let piece := peek st fromRow fromCol in
  let capturedPiece := peek st toRow toCol in
  let st := poke st toRow toCol (peek st fromRow fromCol) in
  let st := poke st fromRow fromCol EMPTY in
  (* castling *)
  let st :=
    if Ascii.eqb (toupper piece) WHITE_KING && (Z.abs (fromCol - toCol) =? 2) then
      let rookFromCol := if toCol >? fromCol then 7 else 0 in
      let rookToCol := if toCol >? fromCol then toCol - 1 else toCol + 1 in
      let st := poke st toRow rookToCol (peek st fromRow rookFromCol) in
      poke st fromRow rookFromCol EMPTY
    else st in
  (* en passant capture *)
  let st :=
    if Ascii.eqb (toupper piece) WHITE_PAWN && (toCol =? enPassantTargetCol st)
       && (toRow =? enPassantTargetRow st)
    then poke st fromRow toCol EMPTY
    else st in
  (* pawn promotion *)
  match (if (Ascii.eqb piece WHITE_PAWN && (toRow =? 0))
            || (Ascii.eqb piece BLACK_PAWN && (toRow =? 7))
         then promotePawn st input toRow toCol
         else Some (st, input)) with
  | None => None
  | Some (st, input) =>
    let st := updateCastlingRights st fromRow fromCol toRow toCol in
    let st := withEnPassant st (-1) (-1) in
    let st :=
      if Ascii.eqb (toupper piece) WHITE_PAWN && (Z.abs (fromRow - toRow) =? 2)
      then withEnPassant st (Z.quot (fromRow + toRow) 2) toCol
      else st in
    let st :=
      if Ascii.eqb (toupper piece) WHITE_PAWN || negb (Ascii.eqb capturedPiece EMPTY)
      then withClocks st 0 (fullmoveNumber st)
      else withClocks st (halfmoveClock st + 1) (fullmoveNumber st) in
    let st :=
      if negb (isWhiteTurn st) then withClocks st (halfmoveClock st) (fullmoveNumber st + 1)
      else st in
    Some (st, input)
  end.

(** ** Terminal states *)

Definition kingSteps : list (Z * Z) := list_prod [-1; 0; 1] [-1; 0; 1].

Definition ownPiece (white : bool) (piece : ascii) : bool :=
  (white && isupper piece) || (negb white && islower piece).

(** [for (toRow ...) for (toCol ...) if (isValidMove(...)) return ...]. *)
Definition anyValidMoveFrom (st : GameState) (fromRow fromCol : Z) : bool * GameState :=
  anySquare (fun st sq => isValidMove st fromRow fromCol (fst sq) (snd sq)) allSquares st.

Definition isCheckmate (st : GameState) : bool * GameState :=
  let isWhiteKing := isWhiteTurn st in
  let '(inCheck, st) := isInCheck st isWhiteKing in
  if negb inCheck then (false, st)
  else
    let kingPiece := kingOf isWhiteKing in
    let '(escape, st) :=
      match findPiece (board st) kingPiece with
      | Some (kingRow, kingCol) =>
        anySquare (fun st d =>
          let '(dr, dc) := d in
          if (dr =? 0) && (dc =? 0) then (false, st)
          else
            let newRow := kingRow + dr in
            let newCol := kingCol + dc in
            if inBoard newRow newCol then isValidMove st kingRow kingCol newRow newCol
            else (false, st)) kingSteps st
      | None => (false, st)
      end in
    if escape then (false, st)
    else
      let '(other, st) :=
        anySquare (fun st sq =>
          let '(fromRow, fromCol) := sq in
          let piece := peek st fromRow fromCol in
          if ownPiece isWhiteKing piece then
            if Ascii.eqb (toupper piece) WHITE_KING then (false, st)
            else anyValidMoveFrom st fromRow fromCol
          else (false, st)) allSquares st in
      if other then (false, st) else (true, st).

Definition isStalemate (st : GameState) : bool * GameState :=
  let '(inCheck, st) := isInCheck st (isWhiteTurn st) in
  if inCheck then (false, st)
  else
    let '(found, st) :=
      anySquare (fun st sq =>
        let '(fromRow, fromCol) := sq in
        let piece := peek st fromRow fromCol in
        if ownPiece (isWhiteTurn st) piece then anyValidMoveFrom st fromRow fromCol
        else (false, st)) allSquares st in
    if found then (false, st) else (true, st).

Record Material : Type := mkMaterial {
  whitePieces : Z; blackPieces : Z;
  whiteKnights : Z; blackKnights : Z;
  whiteBishops : Z; blackBishops : Z;
  whiteBishopSquareColor : Z; blackBishopSquareColor : Z
}.

(** The counting loop of [isInsufficientMaterial]; [None] when the loop
    returns [false] on a pawn, a rook or a queen. *)
Fixpoint countMaterial (b : Board) (sqs : list (Z * Z)) (m : Material) : option Material :=
  match sqs with
  | [] => Some m
  | (i, j) :: rest =>
    let piece := getSq b i j in
    if Ascii.eqb piece WHITE_PAWN || Ascii.eqb piece WHITE_ROOK || Ascii.eqb piece WHITE_QUEEN
    then None
    else if Ascii.eqb piece BLACK_PAWN || Ascii.eqb piece BLACK_ROOK
            || Ascii.eqb piece BLACK_QUEEN
    then None
    else
      let 'mkMaterial wp bp wn bn wb bb wc bc := m in
      countMaterial b rest
        (if Ascii.eqb piece WHITE_KNIGHT then mkMaterial (wp + 1) bp (wn + 1) bn wb bb wc bc
         else if Ascii.eqb piece BLACK_KNIGHT then mkMaterial wp (bp + 1) wn (bn + 1) wb bb wc bc
         else if Ascii.eqb piece WHITE_BISHOP
         then mkMaterial (wp + 1) bp wn bn (wb + 1) bb (Z.rem (i + j) 2) bc
         else if Ascii.eqb piece BLACK_BISHOP
         then mkMaterial wp (bp + 1) wn bn wb (bb + 1) wc (Z.rem (i + j) 2)
         else if Ascii.eqb piece WHITE_KING then mkMaterial (wp + 1) bp wn bn wb bb wc bc
         else if Ascii.eqb piece BLACK_KING then mkMaterial wp (bp + 1) wn bn wb bb wc bc
         else m)
  end.

Definition isInsufficientMaterial (st : GameState) : bool :=
  match countMaterial (board st) allSquares (mkMaterial 0 0 0 0 0 0 (-1) (-1)) with
  | None => false
  | Some (mkMaterial wp bp wn bn wb bb wc bc) =>
    if (wp =? 1) && (bp =? 1) then true
    else if ((wp =? 2) && (bp =? 1) && ((wb =? 1) || (wn =? 1)))
            || ((bp =? 2) && (wp =? 1) && ((bb =? 1) || (bn =? 1))) then true
    else if (wp =? 2) && (bp =? 2) && (wb =? 1) && (bb =? 1) && (wc =? bc) then true
    else if (wp =? 2) && (bp =? 2) && (wn =? 1) && (bn =? 1) then true
    else false
  end.

Definition isThreefoldRepetition (st : GameState) : bool := false.

Definition isFiftyMoveRule (st : GameState) : bool := halfmoveClock st >=? 100.

(** [a || b || c || d] with C's left-to-right short-circuit evaluation. *)
Definition isDraw (st : GameState) : bool * GameState :=
  let '(stalemate, st) := isStalemate st in
  if stalemate then (true, st)
  else if isInsufficientMaterial st then (true, st)
  else if isFiftyMoveRule st then (true, st)
  else (isThreefoldRepetition st, st).

Definition isGameOver (st : GameState) : bool * GameState :=
  let '(mate, st) := isCheckmate st in
  if mate then (true, st)
  else
    let '(stalemate, st) := isStalemate st in
    if stalemate then (true, st) else isDraw st.

(** ** Move generation *)

(** [MoveList]: the first [count] rows of [moves] with their [scores];
    [count] is the length of the list. *)
Record MoveEntry : Type := mkMoveEntry {
  moveFromRow : Z; moveFromCol : Z; moveToRow : Z; moveToCol : Z;
  moveScore : Z
}.

Abbreviation MoveList := (list MoveEntry).

(** A [for] loop over squares that updates an accumulator and the state. *)
Fixpoint foldSquares {A : Type} (body : A -> GameState -> Z * Z -> A * GameState)
    (sqs : list (Z * Z)) (acc : A) (st : GameState) : A * GameState :=
  match sqs with
  | [] => (acc, st)
  | sq :: rest =>
    let '(acc, st) := body acc st sq in
    foldSquares body rest acc st
  end.

Definition isScholarsMateThreat (st : GameState) : bool :=
  let hasQueenOnH5 :=
    existsb (fun sq => Ascii.eqb (peek st (fst sq) (snd sq)) WHITE_QUEEN
                       && (fst sq =? 3) && (snd sq =? 7)) allSquares in
  let hasBishopOnC4 :=
    existsb (fun sq => Ascii.eqb (peek st (fst sq) (snd sq)) WHITE_BISHOP
                       && (fst sq =? 4) && (snd sq =? 2)) allSquares in
  hasQueenOnH5 && hasBishopOnC4.

(** The [switch] giving a piece its ordering value. *)
Definition orderingValue (piece : ascii) : Z :=
  let t := toupper piece in
  if Ascii.eqb t "P" then 100
  else if Ascii.eqb t "N" || Ascii.eqb t "B" then 300
  else if Ascii.eqb t "R" then 500
  else if Ascii.eqb t "Q" then 900
  else 0.

Definition scoreMoveForOrdering (st : GameState) (fromRow fromCol toRow toCol : Z)
  : Z * GameState :=
  let score := 0 in
  let movingPiece := peek st fromRow fromCol in
  let capturedPiece := peek st toRow toCol in
  let score :=
    if negb (Ascii.eqb capturedPiece EMPTY) then
      let victimValue := orderingValue capturedPiece in
      let attackerValue := orderingValue movingPiece in
      score + (victimValue - Z.quot attackerValue 10)
    else score in
  let piece := peek st fromRow fromCol in
  let score :=
    if Ascii.eqb piece BLACK_KNIGHT && (toRow =? 3) && (toCol =? 7) then score + 5000
    else score in
  let score :=
    if Ascii.eqb piece BLACK_KNIGHT && (toRow =? 2) && (toCol =? 5) then score + 1000
    else score in
  let tempPiece := peek st toRow toCol in
  let st := poke st toRow toCol (peek st fromRow fromCol) in
  let st := poke st fromRow fromCol EMPTY in
  let '(givesCheck, st) := isInCheck st (negb (isWhiteTurn st)) in
  let score := if givesCheck then score + 50 else score in
  let score :=
    if negb (isWhiteTurn st) && isScholarsMateThreat st then score + 2000 else score in
  let st := poke st fromRow fromCol (peek st toRow toCol) in
  let st := poke st toRow toCol tempPiece in
  let score :=
    if (toRow >=? 3) && (toRow <=? 4) && ((toCol >=? 3) && (toCol <=? 4))
    then score + 10 else score in
  let '(attacked, st) := isPieceUnderAttack st fromRow fromCol in
  let score := if attacked then score + 20 else score in
  (score, st).

Definition generateAllMoves_to (fromRow fromCol : Z)
    (moveList : MoveList) (st : GameState) (sq : Z * Z) : MoveList * GameState :=
  let '(toRow, toCol) := sq in
  let '(valid, st) := isValidMove st fromRow fromCol toRow toCol in
  if valid then
    if (length moveList <? 256)%nat then
      let '(score, st) := scoreMoveForOrdering st fromRow fromCol toRow toCol in
      (moveList ++ [mkMoveEntry fromRow fromCol toRow toCol score], st)
    else (moveList, st)
  else (moveList, st).

Definition generateAllMoves_from (moveList : MoveList) (st : GameState) (sq : Z * Z)
  : MoveList * GameState :=
  let '(fromRow, fromCol) := sq in
  let piece := peek st fromRow fromCol in
  if ownPiece (isWhiteTurn st) piece
  then foldSquares (generateAllMoves_to fromRow fromCol) allSquares moveList st
  else (moveList, st).

Definition generateAllMoves (st : GameState) : MoveList * GameState :=
  foldSquares generateAllMoves_from allSquares [] st.

(** ** Evaluation *)

Definition PAWN_VALUE : Z := 100.
Definition KNIGHT_VALUE : Z := 300.
Definition BISHOP_VALUE : Z := 300.
Definition ROOK_VALUE : Z := 500.
Definition QUEEN_VALUE : Z := 900.

Definition INT_MIN : Z := -2147483648.

Definition pawnPositionValues : list (list Z) :=
  [ [0; 0; 0; 0; 0; 0; 0; 0];
    [50; 50; 50; 50; 50; 50; 50; 50];
    [10; 10; 20; 30; 30; 20; 10; 10];
    [5; 5; 10; 25; 25; 10; 5; 5];
    [0; 0; 0; 20; 20; 0; 0; 0];
    [5; -5; -10; 0; 0; -10; -5; 5];
    [5; 10; 10; -20; -20; 10; 10; 5];
    [0; 0; 0; 0; 0; 0; 0; 0] ].

Definition knightPositionValues : list (list Z) :=
  [ [-50; -40; -30; -30; -30; -30; -40; -50];
    [-40; -20; 0; 0; 0; 0; -20; -40];
    [-30; 0; 10; 15; 15; 10; 0; -30];
    [-30; 5; 15; 20; 20; 15; 5; -30];
    [-30; 0; 15; 20; 20; 15; 0; -30];
    [-30; 5; 10; 15; 15; 10; 5; -30];
    [-40; -20; 0; 5; 5; 0; -20; -40];
    [-50; -40; -30; -30; -30; -30; -40; -50] ].

Definition bishopPositionValues : list (list Z) :=
  [ [-20; -10; -10; -10; -10; -10; -10; -20];
    [-10; 0; 0; 0; 0; 0; 0; -10];
    [-10; 0; 5; 10; 10; 5; 0; -10];
    [-10; 5; 5; 10; 10; 5; 5; -10];
    [-10; 0; 10; 10; 10; 10; 0; -10];
    [-10; 10; 10; 10; 10; 10; 10; -10];
    [-10; 5; 0; 0; 0; 0; 5; -10];
    [-20; -10; -10; -10; -10; -10; -10; -20] ].

Definition rookPositionValues : list (list Z) :=
  [ [0; 0; 0; 0; 0; 0; 0; 0];
    [5; 10; 10; 10; 10; 10; 10; 5];
    [-5; 0; 0; 0; 0; 0; 0; -5];
    [-5; 0; 0; 0; 0; 0; 0; -5];
    [-5; 0; 0; 0; 0; 0; 0; -5];
    [-5; 0; 0; 0; 0; 0; 0; -5];
    [-5; 0; 0; 0; 0; 0; 0; -5];
    [0; 0; 0; 5; 5; 0; 0; 0] ].

Definition queenPositionValues : list (list Z) :=
  [ [-20; -10; -10; -5; -5; -10; -10; -20];
    [-10; 0; 0; 0; 0; 0; 0; -10];
    [-10; 0; 5; 5; 5; 5; 0; -10];
    [-5; 0; 5; 5; 5; 5; 0; -5];
    [0; 0; 5; 5; 5; 5; 0; -5];
    [-10; 5; 5; 5; 5; 5; 0; -10];
    [-10; 0; 5; 0; 0; 0; 0; -10];
    [-20; -10; -10; -5; -5; -10; -10; -20] ].

Definition kingPositionValues : list (list Z) :=
  [ [-30; -40; -40; -50; -50; -40; -40; -30];
    [-30; -40; -40; -50; -50; -40; -40; -30];
    [-30; -40; -40; -50; -50; -40; -40; -30];
    [-30; -40; -40; -50; -50; -40; -40; -30];
    [-20; -30; -30; -40; -40; -30; -30; -20];
    [-10; -20; -20; -20; -20; -20; -20; -10];
    [20; 20; 0; 0; 0; 0; 20; 20];
    [20; 30; 10; 0; 0; 10; 30; 20] ].

Definition tableAt (t : list (list Z)) (row col : Z) : Z :=
  nth (Z.to_nat col) (nth (Z.to_nat row) t []) 0.

(** The evaluation cache: the globals [evalCache] and [cacheIndex]. *)
Record PositionCache : Type := mkPositionCache {
  cacheBoard : Board;
  cacheIsWhiteTurn : bool;
  evaluation : Z;
  isValid : bool
}.

Record EvalCache : Type := mkEvalCache {
  evalCache : list PositionCache;
  cacheIndex : Z
}.

Definition emptyCache : EvalCache :=
  mkEvalCache (replicate 64 (mkPositionCache (replicate 64 "000"%char) false 0 false)) 0.

Definition getCachedEvaluation (c : EvalCache) (st : GameState) : Z :=
  match find (fun e =>
           isValid e
           && Bool.eqb (cacheIsWhiteTurn e) (isWhiteTurn st)
           && forallb (fun sq => Ascii.eqb (getSq (cacheBoard e) (fst sq) (snd sq))
                                   (peek st (fst sq) (snd sq))) allSquares)
         (evalCache c) with
  | Some e => evaluation e
  | None => INT_MIN
  end.

Definition cacheEvaluation (c : EvalCache) (st : GameState) (score : Z) : EvalCache :=
  let index := Z.rem (cacheIndex c) 64 in
  mkEvalCache
    (<[Z.to_nat index := mkPositionCache (board st) (isWhiteTurn st) score true]>
       (evalCache c))
    (cacheIndex c + 1).

Definition columnCount (st : GameState) (col : Z) (p : ascii) : Z :=
  Z.of_nat (length (filter (fun row => Ascii.eqb (peek st row col) p = true) idx8)).

Definition evaluatePawnStructure (st : GameState) : Z :=
  fold_left (fun score col =>
    let whitePawns := columnCount st col WHITE_PAWN in
    let blackPawns := columnCount st col BLACK_PAWN in
    let score := if whitePawns >? 1 then score - 10 * (whitePawns - 1) else score in
    let score := if blackPawns >? 1 then score + 10 * (blackPawns - 1) else score in
    let adjCols := filter (fun adjCol => inBoard 0 adjCol = true) [col - 1; col + 1] in
    let whiteIsolated :=
      negb (existsb (fun adjCol => columnCount st adjCol WHITE_PAWN >? 0) adjCols) in
    let blackIsolated :=
      negb (existsb (fun adjCol => columnCount st adjCol BLACK_PAWN >? 0) adjCols) in
    let score := if (whitePawns >? 0) && whiteIsolated then score - 15 else score in
    let score := if (blackPawns >? 0) && blackIsolated then score + 15 else score in
    score) idx8 0.

(** The last square, in loop order, that holds [p]; [(-1, -1)] when none. *)
Definition lastPiece (st : GameState) (p : ascii) : Z * Z :=
  fold_left (fun found sq => if Ascii.eqb (peek st (fst sq) (snd sq)) p then sq else found)
    allSquares (-1, -1).

Definition evaluateKingSafety (st : GameState) : Z * GameState :=
  let score := 0 in
  let '(whiteKingRow, whiteKingCol) := lastPiece st WHITE_KING in
  let '(blackKingRow, blackKingCol) := lastPiece st BLACK_KING in
  let score :=
    if negb (whiteKingRow =? -1) && negb (whiteKingCol =? -1) then
      fold_left (fun score col =>
        if inBoard 0 col then
          let score :=
            if (whiteKingRow >? 0)
               && Ascii.eqb (peek st (whiteKingRow - 1) col) WHITE_PAWN
            then score + 15 else score in
          if (whiteKingRow >? 1)
             && Ascii.eqb (peek st (whiteKingRow - 2) col) WHITE_PAWN
          then score + 10 else score
        else score) [whiteKingCol - 1; whiteKingCol; whiteKingCol + 1] score
    else score in
  let score :=
    if negb (blackKingRow =? -1) && negb (blackKingCol =? -1) then
      fold_left (fun score col =>
        if inBoard 0 col then
          let score :=
            if (blackKingRow <? 7)
               && Ascii.eqb (peek st (blackKingRow + 1) col) BLACK_PAWN
            then score - 15 else score in
          if (blackKingRow <? 6)
             && Ascii.eqb (peek st (blackKingRow + 2) col) BLACK_PAWN
          then score - 10 else score
        else score) [blackKingCol - 1; blackKingCol; blackKingCol + 1] score
    else score in
  let '(whiteInCheck, st) := isInCheck st true in
  let score := if whiteInCheck then score - 500 else score in
  let '(blackInCheck, st) := isInCheck st false in
  let score := if blackInCheck then score + 500 else score in
  let score :=
    if negb (whiteKingRow =? -1) && negb (whiteKingCol =? -1) then
      if whiteKingRow >=? 6 then score + 50 else score - 100
    else score in
  let score :=
    if negb (blackKingRow =? -1) && negb (blackKingCol =? -1) then
      if blackKingRow <=? 1 then score - 50 else score + 100
    else score in
  (score, st).

Definition evaluateScholarsMateDefense (st : GameState) : Z :=
  let score := 0 in
  if negb (isWhiteTurn st) then
    let score := if Ascii.eqb (peek st 2 5) BLACK_KNIGHT then score + 300 else score in
    if isScholarsMateThreat st then
      let score := score - 1000 in
      if Ascii.eqb (peek st 3 7) WHITE_QUEEN then
        if Ascii.eqb (peek st 2 5) BLACK_KNIGHT then score + 2000 else score
      else score
    else score
  else score.

(** The inner [for (tr ...) for (tc ...)] of [evaluateBoard] counting the
    enemy pieces that the piece on [(row, col)] can capture. *)
Definition countAttacks_body (row col : Z) (white : bool)
    (count : Z) (st : GameState) (sq : Z * Z) : Z * GameState :=
  let '(tr, tc) := sq in
  if negb (Ascii.eqb (peek st tr tc) EMPTY)
     && (if white then islower (peek st tr tc) else isupper (peek st tr tc)) then
    let originalTurn := isWhiteTurn st in
    let st := withTurn st white in
    let '(valid, st) := isValidMove st row col tr tc in
    let count := if valid then count + 1 else count in
    let st := withTurn st originalTurn in
    (count, st)
  else (count, st).

Definition evaluateBoard_body (acc : Z * Z * Z) (st : GameState) (sq : Z * Z)
  : Z * Z * Z * GameState :=
  let '(score, attackWhite, attackBlack) := acc in
  let '(row, col) := sq in
  let piece := peek st row col in
  if Ascii.eqb piece EMPTY then (acc, st)
  else
    let isWhitePiece := isupper piece in
    let t := toupper piece in
    let '(pieceValue, positionValue) :=
      if Ascii.eqb t WHITE_PAWN then (PAWN_VALUE, tableAt pawnPositionValues row col)
      else if Ascii.eqb t WHITE_KNIGHT then (KNIGHT_VALUE, tableAt knightPositionValues row col)
      else if Ascii.eqb t WHITE_BISHOP then (BISHOP_VALUE, tableAt bishopPositionValues row col)
      else if Ascii.eqb t WHITE_ROOK then (ROOK_VALUE, tableAt rookPositionValues row col)
      else if Ascii.eqb t WHITE_QUEEN then (QUEEN_VALUE, tableAt queenPositionValues row col)
      else if Ascii.eqb t WHITE_KING then (0, tableAt kingPositionValues row col)
      else (0, 0) in
    if isWhitePiece then
      let score := score + (pieceValue + positionValue) in
      let '(attackWhite, st) :=
        foldSquares (countAttacks_body row col true) allSquares attackWhite st in
      let '(attacked, st) := isPieceUnderAttack st row col in
      let score := if attacked then score - Z.quot pieceValue 3 else score in
      (score, attackWhite, attackBlack, st)
    else
      let score := score - (pieceValue + positionValue) in
      let '(attackBlack, st) :=
        foldSquares (countAttacks_body row col false) allSquares attackBlack st in
      let '(attacked, st) := isPieceUnderAttack st row col in
      let score := if attacked then score + Z.quot pieceValue 3 else score in
      (score, attackWhite, attackBlack, st).

Definition centerSquares : list (Z * Z) := list_prod [3; 4] [3; 4].

Definition evaluateBoard (st : GameState) (c : EvalCache) : Z * GameState * EvalCache :=
  let cachedEval := getCachedEvaluation c st in
  if negb (cachedEval =? INT_MIN) then (cachedEval, st, c)
  else
    let '(score, attackWhite, attackBlack, st) :=
      foldSquares evaluateBoard_body allSquares (0, 0, 0) st in
    let score :=
      fold_left (fun score sq =>
        if isupper (peek st (fst sq) (snd sq)) then score + 20
        else if islower (peek st (fst sq) (snd sq)) then score - 20
        else score) centerSquares score in
    let score := score + (attackWhite - attackBlack) * 2 in
    let score := score + evaluatePawnStructure st in
    let '(kingSafety, st) := evaluateKingSafety st in
    let score := score + kingSafety in
    let '(whiteInCheck, st) := isInCheck st true in
    let score := if whiteInCheck then score - 200 else score in
    let '(blackInCheck, st) := isInCheck st false in
    let score := if blackInCheck then score + 200 else score in
    let score := score + evaluateScholarsMateDefense st in
    let c := cacheEvaluation c st score in
    (score, st, c).

(** ** Search *)

(** The recursion of [quiescence] and [minimax] is bounded by a budget of
    nested calls: [None] means that the budget ran out before the call
    returned.  [quiescence_total] and [minimax_total] show which budgets are
    enough. *)

Definition SearchResult : Type := option (Z * GameState * EvalCache).

(** The state of a search loop after one iteration: the function has
    returned [v], or the loop goes on with its window. *)
Inductive Flow : Type :=
| Returned (v : Z)
| Running (alpha beta : Z).

Fixpoint searchLoop {X : Type}
    (body : X -> GameState -> EvalCache -> Z -> Z -> option (Flow * GameState * EvalCache))
    (xs : list X) (st : GameState) (c : EvalCache) (alpha beta : Z)
  : option (Flow * GameState * EvalCache) :=
  match xs with
  | [] => Some (Running alpha beta, st, c)
  | x :: rest =>
    match body x st c alpha beta with
    | None => None
    | Some (Returned v, st, c) => Some (Returned v, st, c)
    | Some (Running alpha beta, st, c) => searchLoop body rest st c alpha beta
    end
  end.

Definition quiescence_capture
    (rec : GameState -> EvalCache -> Z -> Z -> bool -> SearchResult)
    (isMaximizingPlayer : bool) (fromRow fromCol : Z) (sq : Z * Z)
    (st : GameState) (c : EvalCache) (alpha beta : Z)
  : option (Flow * GameState * EvalCache) :=
  let '(toRow, toCol) := sq in
  if negb (Ascii.eqb (peek st toRow toCol) EMPTY)
     && ((isMaximizingPlayer && islower (peek st toRow toCol))
         || (negb isMaximizingPlayer && isupper (peek st toRow toCol))) then
    let '(valid, st) := isValidMove st fromRow fromCol toRow toCol in
    if valid then
      let tempPiece := peek st toRow toCol in
      let st := poke st toRow toCol (peek st fromRow fromCol) in
      let st := poke st fromRow fromCol EMPTY in
      match rec st c alpha beta (negb isMaximizingPlayer) with
      | None => None
      | Some (score, st, c) =>
        let st := poke st fromRow fromCol (peek st toRow toCol) in
        let st := poke st toRow toCol tempPiece in
        if isMaximizingPlayer then
          if score >=? beta then Some (Returned beta, st, c)
          else Some (Running (if score >? alpha then score else alpha) beta, st, c)
        else
          if score <=? alpha then Some (Returned alpha, st, c)
          else Some (Running alpha (if score <? beta then score else beta), st, c)
      end
    else Some (Running alpha beta, st, c)
  else Some (Running alpha beta, st, c).

Definition quiescence_from
    (rec : GameState -> EvalCache -> Z -> Z -> bool -> SearchResult)
    (isMaximizingPlayer : bool) (sq : Z * Z)
    (st : GameState) (c : EvalCache) (alpha beta : Z)
  : option (Flow * GameState * EvalCache) :=
  let '(fromRow, fromCol) := sq in
  let piece := peek st fromRow fromCol in
  if ownPiece isMaximizingPlayer piece
  then searchLoop (quiescence_capture rec isMaximizingPlayer fromRow fromCol)
         allSquares st c alpha beta
  else Some (Running alpha beta, st, c).

Fixpoint quiescence (budget : nat) (st : GameState) (c : EvalCache)
    (alpha beta : Z) (isMaximizingPlayer : bool) : SearchResult :=
  match budget with
  | O => None
  | S budget' =>
    let '(standPat, st, c) := evaluateBoard st c in
    if isMaximizingPlayer && (standPat >=? beta) then Some (beta, st, c)
    else if negb isMaximizingPlayer && (standPat <=? alpha) then Some (alpha, st, c)
    else
      let alpha := if isMaximizingPlayer && (alpha <? standPat) then standPat else alpha in
      let beta :=
        if negb isMaximizingPlayer && (beta >? standPat) then standPat else beta in
      match searchLoop (quiescence_from (quiescence budget') isMaximizingPlayer)
              allSquares st c alpha beta with
      | None => None
      | Some (Returned v, st, c) => Some (v, st, c)
      | Some (Running alpha beta, st, c) =>
        Some (if isMaximizingPlayer then alpha else beta, st, c)
      end
  end.

(** The exchange sort of the move list, by descending score. *)
Definition scoreAt (moveList : MoveList) (i : nat) : Z :=
  match moveList !! i with Some e => moveScore e | None => 0 end.

Definition swapMoves (moveList : MoveList) (i j : nat) : MoveList :=
  match moveList !! i, moveList !! j with
  | Some a, Some b => <[j := a]> (<[i := b]> moveList)
  | _, _ => moveList
  end.

Definition sortMoves (moveList : MoveList) : MoveList :=
  let count := length moveList in
  fold_left (fun ml i =>
    fold_left (fun ml j =>
      if scoreAt ml j >? scoreAt ml i then swapMoves ml i j else ml)
      (seq (S i) (count - S i)) ml)
    (seq 0 (count - 1)) moveList.

(** The [for] loop of [minimax] over the sorted moves, with its [break]. *)
Fixpoint minimax_moves
    (rec : GameState -> EvalCache -> Z -> Z -> bool -> SearchResult)
    (isMaximizingPlayer : bool) (moves : MoveList)
    (st : GameState) (c : EvalCache) (bestScore alpha beta : Z) : SearchResult :=
  match moves with
  | [] => Some (bestScore, st, c)
  | m :: rest =>
    let fromRow := moveFromRow m in
    let fromCol := moveFromCol m in
    let toRow := moveToRow m in
    let toCol := moveToCol m in
    let tempPiece := peek st toRow toCol in
    let st := poke st toRow toCol (peek st fromRow fromCol) in
    let st := poke st fromRow fromCol EMPTY in
    match rec st c alpha beta (negb isMaximizingPlayer) with
    | None => None
    | Some (score, st, c) =>
      let st := poke st fromRow fromCol (peek st toRow toCol) in
      let st := poke st toRow toCol tempPiece in
      let '(bestScore, alpha, beta) :=
        if isMaximizingPlayer then
          let bestScore := if score >? bestScore then score else bestScore in
          (bestScore, (if alpha >? bestScore then alpha else bestScore), beta)
        else
          let bestScore := if score <? bestScore then score else bestScore in
          (bestScore, alpha, (if beta <? bestScore then beta else bestScore)) in
      if beta <=? alpha then Some (bestScore, st, c)
      else minimax_moves rec isMaximizingPlayer rest st c bestScore alpha beta
    end
  end.

Fixpoint minimax (budget : nat) (st : GameState) (c : EvalCache)
    (depth alpha beta : Z) (isMaximizingPlayer : bool) : SearchResult :=
  match budget with
  | O => None
  | S budget' =>
    if depth =? 0 then quiescence budget' st c alpha beta isMaximizingPlayer
    else
      let '(moveList, st) := generateAllMoves st in
      if (length moveList =? 0)%nat then
        let '(inCheck, st) := isInCheck st isMaximizingPlayer in
        Some ((if inCheck then -100000 else 0), st, c)
      else
        let moveList := sortMoves moveList in
        let bestScore := if isMaximizingPlayer then -100000 else 100000 in
        minimax_moves (fun st c alpha beta m => minimax budget' st c (depth - 1) alpha beta m)
          isMaximizingPlayer moveList st c bestScore alpha beta
  end.

(** ** Position to and from FEN text *)

Local Open Scope string_scope.

(** [sprintf(buf, "%d", n)]. *)
Definition sprintf_d (n : Z) : string := DecimalString.NilZero.string_of_int (Z.to_int n).

Definition str1 (c : ascii) : string := String c EmptyString.

(** One rank of the piece placement: the inner [for (file ...)] loop with
    its [emptyCount], then the trailing count. *)
Fixpoint fenRank (st : GameState) (rank : Z) (files : list Z) (emptyCount : Z) : string :=
  match files with
  | [] => if (emptyCount >? 0)%Z then str1 (chr (code "0" + emptyCount)) else ""
  | file :: rest =>
    let piece := peek st rank file in
    if Ascii.eqb piece EMPTY then fenRank st rank rest (emptyCount + 1)
    else
      (if (emptyCount >? 0)%Z then str1 (chr (code "0" + emptyCount)) else "")
      ++ str1 piece ++ fenRank st rank rest 0
  end.

Definition gameStateToFEN (st : GameState) : string :=
  let placement :=
    fold_left (fun fen rank =>
      fen ++ fenRank st rank idx8 0 ++ (if (rank <? BOARD_SIZE - 1)%Z then "/" else ""))
      idx8 "" in
  let castling :=
    (if canWhiteCastleKingside st then "K" else "")
    ++ (if canWhiteCastleQueenside st then "Q" else "")
    ++ (if canBlackCastleKingside st then "k" else "")
    ++ (if canBlackCastleQueenside st then "q" else "") in
  let hasCastling :=
    canWhiteCastleKingside st || canWhiteCastleQueenside st
    || canBlackCastleKingside st || canBlackCastleQueenside st in
  placement
  ++ " " ++ (if isWhiteTurn st then "w" else "b")
  ++ " " ++ castling ++ (if hasCastling then "" else "-")
  ++ " " ++ (if negb (enPassantTargetRow st =? -1)%Z && negb (enPassantTargetCol st =? -1)%Z
             then str1 (chr (code "a" + enPassantTargetCol st))
                  ++ str1 (chr (code "8" - enPassantTargetRow st))
             else "-")
  ++ " " ++ sprintf_d (halfmoveClock st)
  ++ " " ++ sprintf_d (fullmoveNumber st).

(** [*ptr] and [ptr++] on a C string: the end of the text reads as NUL. *)
Definition NUL : ascii := "000"%char.
Definition cur (ptr : string) : ascii :=
  match ptr with EmptyString => NUL | String ch _ => ch end.
Definition next (ptr : string) : string :=
  match ptr with EmptyString => EmptyString | String _ rest => rest end.
Definition skipSpace (ptr : string) : string :=
  if Ascii.eqb (cur ptr) " " then next ptr else ptr.

(** [while ( *ptr && *ptr != ' ')] over the piece placement. *)
Fixpoint parsePlacement (ptr : string) (b : Board) (rank file : Z) : Board * string :=
  match ptr with
  | EmptyString => (b, ptr)
  | String ch rest =>
    if Ascii.eqb ch NUL || Ascii.eqb ch " " then (b, ptr)
    else if Ascii.eqb ch "/" then parsePlacement rest b (rank + 1) 0
    else if isdigit ch then parsePlacement rest b rank (file + (code ch - code "0"))
    else if (rank <? BOARD_SIZE)%Z && (file <? BOARD_SIZE)%Z
    then parsePlacement rest (setSq b rank file ch) rank (file + 1)
    else parsePlacement rest b rank file
  end.

(** [while ( *ptr && *ptr != ' ')] over the castling letters; the flags are
    in the order white kingside, white queenside, black kingside, black
    queenside. *)
Fixpoint parseCastling (ptr : string) (flags : bool * bool * bool * bool)
  : bool * bool * bool * bool * string :=
  match ptr with
  | EmptyString => (flags, ptr)
  | String ch rest =>
    if Ascii.eqb ch NUL || Ascii.eqb ch " " then (flags, ptr)
    else
      let '(wk, wq, bk, bq) := flags in
      parseCastling rest
        (if Ascii.eqb ch "K" then (true, wq, bk, bq)
         else if Ascii.eqb ch "Q" then (wk, true, bk, bq)
         else if Ascii.eqb ch "k" then (wk, wq, true, bq)
         else if Ascii.eqb ch "q" then (wk, wq, bk, true)
         else flags)
  end.

(** [while ( *ptr && isdigit( *ptr)) n = n * 10 + ( *ptr - '0')]. *)
Fixpoint parseNumber (ptr : string) (n : Z) : Z * string :=
  match ptr with
  | EmptyString => (n, ptr)
  | String ch rest =>
    if negb (Ascii.eqb ch NUL) && isdigit ch
    then parseNumber rest (n * 10 + (code ch - code "0"))
    else (n, ptr)
  end.

Definition fenToGameState (fen : string) : bool * GameState :=
  let ptr := fen in
  (* 1. piece placement *)
  let '(b, ptr) := parsePlacement ptr (replicate 64 EMPTY) 0 0 in
  let ptr := skipSpace ptr in
  (* 2. active color *)
  let turn := Ascii.eqb (cur ptr) "w" in
  let ptr := next ptr in
  let ptr := skipSpace ptr in
  (* 3. castling rights *)
  let '(wk, wq, bk, bq, ptr) := parseCastling ptr (false, false, false, false) in
  let ptr := skipSpace ptr in
  (* 4. en passant target *)
  let '(epRow, epCol, ptr) :=
    if negb (Ascii.eqb (cur ptr) "-") then
      if (code "a" <=? code (cur ptr))%Z && (code (cur ptr) <=? code "h")%Z then
        let epCol := code (cur ptr) - code "a" in
        let ptr := next ptr in
        if (code "1" <=? code (cur ptr))%Z && (code (cur ptr) <=? code "8")%Z
        then (code "8" - code (cur ptr), epCol, next ptr)
        else (-1, epCol, ptr)
      else (-1, -1, ptr)
    else (-1, -1, next ptr) in
  let ptr := skipSpace ptr in
  (* 5. halfmove clock *)
  let '(halfmove, ptr) := parseNumber ptr 0 in
  let ptr := skipSpace ptr in
  (* 6. fullmove number *)
  let '(fullmove, ptr) := parseNumber ptr 1 in
  (true, mkGameState wk wq bk bq epRow epCol halfmove fullmove b turn wk wq bk bq).

Local Close Scope string_scope.

(** ** The measure of the ray walks *)

(** The in-board squares still ahead of [(r, c)] in the direction of the
    step, [(r, c)] included. *)
Definition room (rowStep colStep r c : Z) : Z :=
  if rowStep =? 1 then 8 - r
  else if rowStep =? -1 then r + 1
  else if colStep =? 1 then 8 - c
  else c + 1.

(** ** The measure of the quiescence recursion *)

Definition occupied (x : ascii) : bool := negb (Ascii.eqb x EMPTY).

(** The number of pieces on the board. *)
Definition pieceCount (b : Board) : nat := length (List.filter occupied b).

(** ** Notions used to state the properties *)

(** Some pair of squares is accepted by the legality query. *)
Definition legalMoveExists (st : GameState) : Prop :=
  exists fromRow fromCol toRow toCol,
    fst (isValidMove st fromRow fromCol toRow toCol) = true.

(** The piece on [sq] is of the attacking colour and has an attack pattern
    onto [(row, col)]: one iteration of [isSquareAttacked]. *)
Definition attacks (st : GameState) (byWhite : bool) (row col : Z) (sq : Z * Z) : bool :=
  let piece := peek st (fst sq) (snd sq) in
  negb (Ascii.eqb piece EMPTY)
  && ((byWhite && isupper piece) || (negb byWhite && islower piece))
  && attackPattern st (fst sq) (snd sq) row col piece.

(** The board on which [doesMovePutKingInCheck] tests the white king's
    safety when it castles on the king's side. *)
Definition castled (st : GameState) : GameState :=
  poke (poke st 7 6 (peek st 7 4)) 7 4 EMPTY.

(** The number of squares that hold [p]. *)
Definition countPiece (b : Board) (p : ascii) : nat :=
  length (List.filter (fun sq => Ascii.eqb (getSq b (fst sq) (snd sq)) p) allSquares).

(** ** Positions used in the examples *)

(** A position given by the 64 characters of its board, rank 8 first, the
    side to move, the en-passant target and one flag for all four castling
    rights, with the clocks of a new game. *)
Definition position (rows : string) (whiteToMove : bool) (epRow epCol : Z)
    (castling : bool) : GameState :=
  mkGameState castling castling castling castling epRow epCol 0 1
    (list_ascii_of_string rows) whiteToMove castling castling castling castling.

(** The caller's [state.isWhiteTurn = !state.isWhiteTurn] after [makeMove]. *)
Definition passTurn (st : GameState) : GameState := withTurn st (negb (isWhiteTurn st)).

(** The number of positions two plies from [st]: the replies to every
    generated move, made with [makeMove] and the change of turn. *)
Definition perft2 (st : GameState) : nat :=
  fold_left (fun n m =>
    match makeMove st [] (moveFromRow m) (moveFromCol m) (moveToRow m) (moveToCol m) with
    | Some (st', _) => (n + length (fst (generateAllMoves (passTurn st'))))%nat
    | None => n
    end) (fst (generateAllMoves st)) 0%nat.

(** White can capture a pawn: pawn e4 takes d5. *)
Definition capturePosition : GameState :=
  position
    ("k       " ++ "        " ++ "        " ++ "   p    "
     ++ "    P   " ++ "        " ++ "        " ++ "K       ")%string
    true (-1) (-1) false.

(** White is mated after 1. f3 e5 2. g4 Qh4. *)
Definition foolsMate : GameState :=
  position
    ("rnb kbnr" ++ "pppp ppp" ++ "        " ++ "    p   "
     ++ "      Pq" ++ "     P  " ++ "PPPPP  P" ++ "RNBQKBNR")%string
    true (-1) (-1) true.

(** White may castle on the king's side: 1. e4 e5 2. Nf3 Nc6 3. Bc4 Bc5. *)
Definition castlingPosition : GameState :=
  position
    ("r bqk nr" ++ "pppp ppp" ++ "  n     " ++ "  b p   "
     ++ "  B P   " ++ "     N  " ++ "PPPP PPP" ++ "RNBQK  R")%string
    true (-1) (-1) true.

(** After 1. e4 a6 2. e5, black to move. *)
Definition beforeDoubleStep : GameState :=
  position
    ("rnbqkbnr" ++ " ppppppp" ++ "p       " ++ "    P   "
     ++ "        " ++ "        " ++ "PPPP PPP" ++ "RNBQKBNR")%string
    false (-1) (-1) true.

(** The position after black's reply 2... d5: [makeMove] and the change of
    turn applied to [beforeDoubleStep]. *)
Definition afterDoubleStep : GameState :=
  match makeMove beforeDoubleStep [] 1 3 3 3 with
  | Some (st, _) => passTurn st
  | None => beforeDoubleStep
  end.

(** A white pawn on (3,4) pinned on its file by a rook; black to move, with
    a pawn on (1,3). *)
Definition beforePinnedCapture : GameState :=
  position
    ("    r  k" ++ "   p    " ++ "        " ++ "    P   "
     ++ "        " ++ "        " ++ "        " ++ "    K   ")%string
    false (-1) (-1) false.

(** The position after that pawn's double step to (3,3). *)
Definition enPassantPinned : GameState :=
  match makeMove beforePinnedCapture [] 1 3 3 3 with
  | Some (st, _) => passTurn st
  | None => beforePinnedCapture
  end.

(** The white king, a white pawn and a black rook on one rank; black to
    move, with a pawn on (1,3). *)
Definition beforeExposedCapture : GameState :=
  position
    ("       k" ++ "   p    " ++ "        " ++ "K   P  r"
     ++ "        " ++ "        " ++ "        " ++ "        ")%string
    false (-1) (-1) false.

(** The position after that pawn's double step to (3,3), which puts it on
    the rank of the king, next to the white pawn. *)
Definition enPassantExposed : GameState :=
  match makeMove beforeExposedCapture [] 1 3 3 3 with
  | Some (st, _) => passTurn st
  | None => beforeExposedCapture
  end.

(** A white knight on (4,2), its king on (4,4) and a black rook on (4,0):
    the knight stands between the king and the rook, with (4,1) and (4,3)
    empty. *)
Definition pinnedKnight : GameState :=
  position
    ("k       " ++ "        " ++ "        " ++ "        "
     ++ "r N K   " ++ "        " ++ "        " ++ "        ")%string
    true (-1) (-1) false.

(** The same knight and king with the rook on (4,7), on the far side of the
    king: the knight is not between them. *)
Definition unpinnedKnight : GameState :=
  position
    ("k       " ++ "        " ++ "        " ++ "        "
     ++ "  N K  r" ++ "        " ++ "        " ++ "        ")%string
    true (-1) (-1) false.

(** ** The emergency move *)

(** [for (...) for (...) if (body) { *out = square; return; }]: the first
    square, in loop order, on which the body holds. *)
Fixpoint findSquare (body : GameState -> Z * Z -> bool * GameState)
    (sqs : list (Z * Z)) (st : GameState) : option (Z * Z) * GameState :=
  match sqs with
  | [] => (None, st)
  | sq :: rest =>
    let '(hit, st) := body st sq in
    if hit then (Some sq, st) else findSquare body rest st
  end.

(** The four output parameters [*fromRow, *fromCol, *toRow, *toCol]. *)
Definition noMove : Z * Z * Z * Z := (-1, -1, -1, -1).

Fixpoint getEmergencyMove_from (sqs : list (Z * Z)) (st : GameState)
  : option (Z * Z * Z * Z) * GameState :=
  match sqs with
  | [] => (None, st)
  | (fr, fc) :: rest =>
    let piece := peek st fr fc in
    if ownPiece (isWhiteTurn st) piece then
      match findSquare (fun st sq => isValidMove st fr fc (fst sq) (snd sq)) allSquares st with
      | (Some (tr, tc), st) => (Some (fr, fc, tr, tc), st)
      | (None, st) => getEmergencyMove_from rest st
      end
    else getEmergencyMove_from rest st
  end.

Definition getEmergencyMove (st : GameState) : Z * Z * Z * Z * GameState :=
  match getEmergencyMove_from allSquares st with
  | (Some m, st) => (m, st)
  | (None, st) => (noMove, st)
  end.

(** ** The opening book *)

(** The blocks of [getOpeningBookMove], each with the code it returns;
    control falls from a block without a match to the next one. *)
Definition getOpeningBookMove (st : GameState) : Z :=
  let holds r c p := Ascii.eqb (peek st r c) p in
  let n := fullmoveNumber st in
  let white := isWhiteTurn st in
  if (n =? 1) && white && (holds 6 4 WHITE_PAWN && holds 4 4 EMPTY) then 6444
  else if (n =? 1) && white && (holds 6 3 WHITE_PAWN && holds 4 3 EMPTY) then 6343
  else if (n =? 1) && white && (holds 7 6 WHITE_KNIGHT && holds 5 5 EMPTY) then 7655
  else if (n =? 1) && negb white && (holds 4 4 WHITE_PAWN && holds 3 4 EMPTY)
          && (holds 1 4 BLACK_PAWN && holds 3 4 EMPTY) then 1434
  else if (n =? 1) && negb white && holds 4 3 WHITE_PAWN
          && (holds 1 3 BLACK_PAWN && holds 3 3 EMPTY) then 1333
  else if (n =? 1) && negb white && holds 5 5 WHITE_KNIGHT
          && (holds 1 3 BLACK_PAWN && holds 3 3 EMPTY) then 1333
  else if ((n =? 2) && white) && holds 3 4 BLACK_PAWN
          && (holds 7 6 WHITE_KNIGHT && holds 5 5 EMPTY) then 7655
  else if ((n =? 2) && white) && holds 3 3 BLACK_PAWN
          && (holds 7 1 WHITE_KNIGHT && holds 5 2 EMPTY) then 7152
  else if ((n =? 2) && negb white) && holds 4 2 WHITE_BISHOP
          && (holds 0 6 BLACK_KNIGHT && holds 2 5 EMPTY) then 625
  else if ((n =? 2) && negb white) && holds 5 5 WHITE_KNIGHT
          && (holds 0 6 BLACK_KNIGHT && holds 2 5 EMPTY) then 625
  else if ((n =? 2) && negb white) && holds 5 2 WHITE_KNIGHT
          && (holds 0 1 BLACK_KNIGHT && holds 2 2 EMPTY) then 122
  else if ((n =? 3) && negb white) && (holds 3 7 WHITE_QUEEN && holds 2 5 BLACK_KNIGHT) then 2537
  else if ((n =? 3) && negb white) && (holds 4 2 WHITE_BISHOP && holds 2 5 EMPTY)
          && holds 0 6 BLACK_KNIGHT then 625
  else -1.

(** ** The move of the engine *)

(** The [for] loop of [getAIMove] over the sorted moves: each move is made
    on the board, searched and taken back; a strictly better score replaces
    the best move. *)
Fixpoint getAIMove_moves (rec : GameState -> EvalCache -> SearchResult)
    (moves : MoveList) (st : GameState) (c : EvalCache)
    (bestScore : Z) (best : Z * Z * Z * Z)
  : option (Z * (Z * Z * Z * Z) * GameState * EvalCache) :=
  match moves with
  | [] => Some (bestScore, best, st, c)
  | m :: rest =>
    let fr := moveFromRow m in
    let fc := moveFromCol m in
    let tr := moveToRow m in
    let tc := moveToCol m in
    let tempPiece := peek st tr tc in
    let st := poke st tr tc (peek st fr fc) in
    let st := poke st fr fc EMPTY in
    match rec st c with
    | None => None
    | Some (score, st, c) =>
      let st := poke st fr fc (peek st tr tc) in
      let st := poke st tr tc tempPiece in
      if isWhiteTurn st then
        if score >? bestScore
        then getAIMove_moves rec rest st c score (fr, fc, tr, tc)
        else getAIMove_moves rec rest st c bestScore best
      else
        if score <? bestScore
        then getAIMove_moves rec rest st c score (fr, fc, tr, tc)
        else getAIMove_moves rec rest st c bestScore best
    end
  end.

(** [getAIMove] with the global [aiDepth]; [budget] bounds the nested calls
    of the search, as in [minimax]. *)
Definition getAIMove (budget : nat) (aiDepth : Z) (st : GameState) (c : EvalCache)
  : option (Z * Z * Z * Z * GameState * EvalCache) :=
  let '(booked, st) :=
    if fullmoveNumber st <=? 4 then
      let bookMove := getOpeningBookMove st in
      if negb (bookMove =? -1) then
        let fromRow := Z.quot bookMove 1000 in
        let fromCol := Z.quot (Z.rem bookMove 1000) 100 in
        let toRow := Z.quot (Z.rem bookMove 100) 10 in
        let toCol := Z.rem bookMove 10 in
        let '(valid, st) := isValidMove st fromRow fromCol toRow toCol in
        ((if valid then Some (fromRow, fromCol, toRow, toCol) else None), st)
      else (None, st)
    else (None, st) in
  match booked with
  | Some m => Some (m, st, c)
  | None =>
    let bestScore := if isWhiteTurn st then -100000 else 100000 in
    let '(moveList, st) := generateAllMoves st in
    if (length moveList =? 0)%nat then
      let '(m, st) := getEmergencyMove st in Some (m, st, c)
    else
      let moveList := sortMoves moveList in
      match getAIMove_moves
              (fun st c => minimax budget st c (aiDepth - 1) (-100000) 100000
                             (negb (isWhiteTurn st)))
              moveList st c bestScore noMove with
      | None => None
      | Some (_, best, st, c) =>
        if fst (fst (fst best)) =? -1 then
          let '(m, st) := getEmergencyMove st in Some (m, st, c)
        else Some (best, st, c)
      end
  end.

(** ** The cursor *)

(** The globals [cursorRow], [cursorCol], [pieceSelected], [selectedRow] and
    [selectedCol]. *)
Record Cursor : Type := mkCursor {
  cursorRow : Z;
  cursorCol : Z;
  pieceSelected : bool;
  selectedRow : Z;
  selectedCol : Z
}.

Definition initialCursor : Cursor := mkCursor 0 0 false (-1) (-1).

Definition moveCursor (cu : Cursor) (direction : ascii) : Cursor :=
  let 'mkCursor row col sel sr sc := cu in
  if Ascii.eqb direction "w" || Ascii.eqb direction "W"
  then mkCursor (Z.rem (row - 1 + BOARD_SIZE) BOARD_SIZE) col sel sr sc
  else if Ascii.eqb direction "s" || Ascii.eqb direction "S"
  then mkCursor (Z.rem (row + 1) BOARD_SIZE) col sel sr sc
  else if Ascii.eqb direction "a" || Ascii.eqb direction "A"
  then mkCursor row (Z.rem (col - 1 + BOARD_SIZE) BOARD_SIZE) sel sr sc
  else if Ascii.eqb direction "d" || Ascii.eqb direction "D"
  then mkCursor row (Z.rem (col + 1) BOARD_SIZE) sel sr sc
  else cu.

(** [handleCursorSelection]: the space bar selects the piece under the
    cursor, or moves the selected piece to the cursor with [makeMove] and
    the change of turn, or cancels the selection.  [input] is what
    [promotePawn] may read; [None] as in [makeMove]. *)
Definition handleCursorSelection (st : GameState) (cu : Cursor) (input : list ascii)
  : option (bool * GameState * Cursor * list ascii) :=
  if negb (pieceSelected cu) then
    let piece := peek st (cursorRow cu) (cursorCol cu) in
    if (isWhiteTurn st && isupper piece) || (negb (isWhiteTurn st) && islower piece)
    then Some (true, st,
               mkCursor (cursorRow cu) (cursorCol cu) true (cursorRow cu) (cursorCol cu),
               input)
    else Some (false, st, cu, input)
  else
    let '(valid, st) :=
      isValidMove st (selectedRow cu) (selectedCol cu) (cursorRow cu) (cursorCol cu) in
    if valid then
      match makeMove st input (selectedRow cu) (selectedCol cu)
              (cursorRow cu) (cursorCol cu) with
      | None => None
      | Some (st, input) =>
        Some (true, withTurn st (negb (isWhiteTurn st)),
              mkCursor (cursorRow cu) (cursorCol cu) false (-1) (-1), input)
      end
    else if (cursorRow cu =? selectedRow cu) && (cursorCol cu =? selectedCol cu)
    then Some (true, st, mkCursor (cursorRow cu) (cursorCol cu) false (-1) (-1), input)
    else Some (false, st, cu, input).

(** ** Room codes *)







(** ** Notions used to state the properties of the move lists *)

(** The squares of a move entry, and of the output parameters of
    [getAIMove] and [getEmergencyMove]. *)
Definition moveCoords (m : MoveEntry) : Z * Z * Z * Z :=
  (moveFromRow m, moveFromCol m, moveToRow m, moveToCol m).

(** The pairs of squares in the order of the four nested [for] loops. *)
Definition allMoves : list (Z * Z * Z * Z) :=
  map (fun p => (fst (fst p), snd (fst p), fst (snd p), snd (snd p)))
    (list_prod allSquares allSquares).

(** The legality query as a value. *)
Definition accepted (st : GameState) (m : Z * Z * Z * Z) : bool :=
  let '(fr, fc, tr, tc) := m in fst (isValidMove st fr fc tr tc).

(** ** Notions used to state the properties of the evaluation cache *)

(** The test of one cache entry in [getCachedEvaluation]. *)
Definition cacheMatch (st : GameState) (e : PositionCache) : bool :=
  isValid e
  && Bool.eqb (cacheIsWhiteTurn e) (isWhiteTurn st)
  && forallb (fun sq => Ascii.eqb (getSq (cacheBoard e) (fst sq) (snd sq))
                          (peek st (fst sq) (snd sq))) allSquares.

(** The array [evalCache[64]] with a counter that has not wrapped around,
    holding no entry with the value that stands for a miss. *)
Definition cacheOk (c : EvalCache) : Prop :=
  length (evalCache c) = 64%nat
  /\ 0 <= cacheIndex c
  /\ Forall (fun e => isValid e = true -> evaluation e <> INT_MIN) (evalCache c).

(** ** Notions used to state the properties of [makeMove] *)

(** The tests of [makeMove] for a castling move and for an en-passant
    capture. *)
Definition isCastlingMove (st : GameState) (fromRow fromCol toRow toCol : Z) : bool :=
  Ascii.eqb (toupper (peek st fromRow fromCol)) WHITE_KING
  && (Z.abs (fromCol - toCol) =? 2).

Definition isEnPassantMove (st : GameState) (fromRow fromCol toRow toCol : Z) : bool :=
  Ascii.eqb (toupper (peek st fromRow fromCol)) WHITE_PAWN
  && (toCol =? enPassantTargetCol st) && (toRow =? enPassantTargetRow st).

(** The board on which [doesMovePutKingInCheck] tests the move. *)
Definition simulated (st : GameState) (fromRow fromCol toRow toCol : Z) : GameState :=
  poke (poke st toRow toCol (peek st fromRow fromCol)) fromRow fromCol EMPTY.

(** Two boards that hold the same pieces, except that a square may hold two
    different pieces of the side [w], neither of them its king. *)
Definition sameButOwn (w : bool) (b b' : Board) : Prop :=
  forall r c, inBoard r c = true ->
    getSq b r c = getSq b' r c
    \/ (ownPiece w (getSq b r c) = true /\ ownPiece w (getSq b' r c) = true
        /\ getSq b r c <> kingOf w /\ getSq b' r c <> kingOf w).

(** ** Notions used to state the properties of the sliding pieces *)

(** The squares strictly between two squares of one rank, file or
    diagonal, from the first to the second. *)
Definition pathSquares (fromRow fromCol toRow toCol : Z) : list (Z * Z) :=
  let n := Z.max (Z.abs (toRow - fromRow)) (Z.abs (toCol - fromCol)) in
  map (fun k => (fromRow + Z.of_nat k * Z.sgn (toRow - fromRow),
                 fromCol + Z.of_nat k * Z.sgn (toCol - fromCol)))
    (seq 1 (Z.to_nat n - 1)).

Definition pathClear (st : GameState) (fromRow fromCol toRow toCol : Z) : bool :=
  forallb (fun sq => Ascii.eqb (peek st (fst sq) (snd sq)) EMPTY)
    (pathSquares fromRow fromCol toRow toCol).

(** ** Notions used to state the properties of the FEN text *)







(** ** More positions used in the examples *)

(** The position after 1. e4 from the initial position, and after White
    has castled in [castlingPosition], before the change of turn. *)
Definition afterKingPawn : GameState :=
  match makeMove initializeGameState [] 6 4 4 4 with
  | Some (st, _) => st
  | None => initializeGameState
  end.

Definition afterCastling : GameState :=
  match makeMove castlingPosition [] 7 4 7 6 with
  | Some (st, _) => st
  | None => castlingPosition
  end.

(** ** Further notions used to state and prove the properties *)

(** One pass of the inner loop, for [j] from [i + 1]. *)
Definition sortPass (i : nat) (ml : MoveList) (js : list nat) : MoveList :=
  fold_left (fun ml j => if scoreAt ml j >? scoreAt ml i then swapMoves ml i j else ml) js ml.

(** The outer loop, for [i] from 0. *)
Definition sortOuter (count : nat) (ml : MoveList) (idxs : list nat) : MoveList :=
  fold_left (fun ml i => sortPass i ml (seq (S i) (count - S i))) idxs ml.

(** What a search loop has reached: a returned value inside the window
    [lo, hi], or a narrower window inside it. *)
Definition inWindow (lo hi : Z) (fl : Flow) : Prop :=
  match fl with
  | Returned v => lo <= v <= hi
  | Running a b => lo <= a /\ a <= b /\ b <= hi
  end.

(** The position after the board updates of [makeMove] that come before
    the promotion: the piece moved, the rook of a castling move moved, the
    pawn taken en passant removed. *)
Definition placed (st : GameState) (fromRow fromCol toRow toCol : Z) : GameState :=
  let piece := peek st fromRow fromCol in
  let st := poke st toRow toCol (peek st fromRow fromCol) in
  let st := poke st fromRow fromCol EMPTY in
  let st :=
    if Ascii.eqb (toupper piece) WHITE_KING && (Z.abs (fromCol - toCol) =? 2) then
      let rookFromCol := if toCol >? fromCol then 7 else 0 in
      let rookToCol := if toCol >? fromCol then toCol - 1 else toCol + 1 in
      let st := poke st toRow rookToCol (peek st fromRow rookFromCol) in
      poke st fromRow rookFromCol EMPTY
    else st in
  if Ascii.eqb (toupper piece) WHITE_PAWN && (toCol =? enPassantTargetCol st)
     && (toRow =? enPassantTargetRow st)
  then poke st fromRow toCol EMPTY
  else st.

(** The test of [makeMove] for a promotion. *)
Definition isPromotionMove (st : GameState) (fromRow fromCol toRow toCol : Z) : bool :=
  (Ascii.eqb (peek st fromRow fromCol) WHITE_PAWN && (toRow =? 0))
  || (Ascii.eqb (peek st fromRow fromCol) BLACK_PAWN && (toRow =? 7)).

(** What a square adds to the number of pieces. *)
Definition occ (x : ascii) : nat := if occupied x then 1%nat else 0%nat.

(** The four corners of the board. *)
Definition isCorner (r c : Z) : bool := ((r =? 0) || (r =? 7)) && ((c =? 0) || (c =? 7)).

(** The board [b'] is the board [b] with pieces of the side [w], other than
    its king, put on empty squares or taken from corners. *)
Definition blocksOnly (w : bool) (b b' : Board) : Prop :=
  forall r c, inBoard r c = true ->
    getSq b' r c = getSq b r c
    \/ (getSq b r c = EMPTY /\ ownPiece w (getSq b' r c) = true
        /\ getSq b' r c <> kingOf w)
    \/ (getSq b' r c = EMPTY /\ ownPiece w (getSq b r c) = true
        /\ getSq b r c <> kingOf w /\ isCorner r c = true).

(** For a king that castles from column 4: the column its rook leaves and
    the column it enters; the rook of a side; the castling right of a side
    on a wing. *)
Definition rookFromCol (toCol : Z) : Z := if toCol >? 4 then 7 else 0.
Definition rookToCol (toCol : Z) : Z := if toCol >? 4 then toCol - 1 else toCol + 1.
Definition rookOf (w : bool) : ascii := if w then WHITE_ROOK else BLACK_ROOK.
Definition castlingRight (st : GameState) (w kingSide : bool) : bool :=
  if w then (if kingSide then canWhiteCastleKingside st else canWhiteCastleQueenside st)
  else (if kingSide then canBlackCastleKingside st else canBlackCastleQueenside st).

(** The [switch] of [isValidMove] over the kind of the piece. *)
Definition pieceMove (st : GameState) (fromRow fromCol toRow toCol : Z) : bool :=
  let pieceType := toupper (peek st fromRow fromCol) in
  if Ascii.eqb pieceType WHITE_PAWN then isValidPawnMove st fromRow fromCol toRow toCol
  else if Ascii.eqb pieceType WHITE_ROOK then isValidRookMove st fromRow fromCol toRow toCol
  else if Ascii.eqb pieceType WHITE_KNIGHT
  then isValidKnightMove st fromRow fromCol toRow toCol
  else if Ascii.eqb pieceType WHITE_BISHOP
  then isValidBishopMove st fromRow fromCol toRow toCol
  else if Ascii.eqb pieceType WHITE_QUEEN
  then isValidQueenMove st fromRow fromCol toRow toCol
  else if Ascii.eqb pieceType WHITE_KING
  then fst (isValidKingMove st fromRow fromCol toRow toCol)
  else false.

(** The squares that [getAIMove] reads off a code of the opening book. *)
Definition bookSquares (bookMove : Z) : Z * Z * Z * Z :=
  (Z.quot bookMove 1000, Z.quot (Z.rem bookMove 1000) 100,
   Z.quot (Z.rem bookMove 100) 10, Z.rem bookMove 10).

(** The evaluation of a position computed afresh. *)
Definition staticEval (st : GameState) : Z := fst (fst (evaluateBoard st emptyCache)).

(** The array [evalCache[64]] with a counter that has not wrapped around,
    whose valid entries hold the evaluation of the positions they match. *)
Definition coherent (c : EvalCache) : Prop :=
  length (evalCache c) = 64%nat
  /\ 0 <= cacheIndex c
  /\ Forall (fun e => isValid e = true ->
                      forall st, wf st -> cacheMatch st e = true ->
                                 evaluation e = staticEval st) (evalCache c).

(** Two runs that end alike: both run out of budget, or both return the
    same value and the same position, each with a coherent cache. *)
Definition agree {R : Type} (x y : option (R * GameState * EvalCache)) : Prop :=
  match x, y with
  | None, None => True
  | Some (r, s, c), Some (r', s', c') => r = r' /\ s = s' /\ coherent c /\ coherent c'
  | _, _ => False
  end.

(** What a recursive call of the search owes its caller: it ends alike on
    any two coherent caches. *)
Definition transparent
    (rec : GameState -> EvalCache -> Z -> Z -> bool -> SearchResult) : Prop :=
  forall st c1 c2 alpha beta m,
    wf st -> coherent c1 -> coherent c2 ->
    agree (rec st c1 alpha beta m) (rec st c2 alpha beta m).

(** * Properties *)

(** ** Sanity checks of the embedding on the initial position *)

Example initial_board_wf : wf initializeGameState.
Proof. reflexivity. Qed.

(** The perft count of the specification at depth one. *)
Example perft_1 : length (fst (generateAllMoves initializeGameState)) = 20%nat.
Proof. vm_compute. reflexivity. Qed.

(** The perft count of the specification at depth two. *)
Example perft_2 : perft2 initializeGameState = 400%nat.
Proof. vm_compute. reflexivity. Qed.

Example initial_not_over : fst (isGameOver initializeGameState) = false.
Proof. vm_compute. reflexivity. Qed.

Example initial_fen :
  gameStateToFEN initializeGameState
  = "rnbqkbnr/pppppppp/8/8/8/8/PPPPPPPP/RNBQKBNR w KQkq - 0 1"%string.
Proof. vm_compute. reflexivity. Qed.

(** ** Reading and writing squares *)

Lemma inBoard_spec r c : inBoard r c = true <-> (0 <= r < 8 /\ 0 <= c < 8).
Proof. unfold inBoard, BOARD_SIZE. lia. Qed.

Lemma inBoard_false r c : inBoard r c = false <-> ~ (0 <= r < 8 /\ 0 <= c < 8).
Proof. unfold inBoard, BOARD_SIZE. lia. Qed.

Lemma cell_lt r c : inBoard r c = true -> (cell r c < 64)%nat.
Proof. rewrite inBoard_spec. unfold cell. lia. Qed.

Lemma cell_inj r c r' c' :
  inBoard r c = true -> inBoard r' c' = true -> cell r c = cell r' c' -> r = r' /\ c = c'.
Proof. rewrite !inBoard_spec. unfold cell. lia. Qed.

Lemma length_setSq b r c x : length (setSq b r c x) = length b.
Proof. apply length_insert. Qed.

Lemma getSq_setSq_eq b r c x :
  (cell r c < length b)%nat -> getSq (setSq b r c x) r c = x.
Proof.
  intros H. unfold getSq, setSq. now rewrite list_lookup_insert_eq.
Qed.

Lemma getSq_setSq_ne b r c x r' c' :
  cell r c <> cell r' c' -> getSq (setSq b r c x) r' c' = getSq b r' c'.
Proof.
  intros H. unfold getSq, setSq. now rewrite list_lookup_insert_ne.
Qed.

Lemma getSq_setSq b r c x r' c' :
  length b = 64%nat -> inBoard r c = true -> inBoard r' c' = true ->
  getSq (setSq b r c x) r' c' = if (r =? r') && (c =? c') then x else getSq b r' c'.
Proof.
  intros Hl H H'.
  destruct ((r =? r') && (c =? c')) eqn:E.
  - assert (r = r' /\ c = c') as [-> ->] by lia.
    apply getSq_setSq_eq. rewrite Hl. now apply cell_lt.
  - apply getSq_setSq_ne. intros Hc.
    destruct (cell_inj _ _ _ _ H H' Hc). lia.
Qed.

Lemma setSq_getSq b r c : setSq b r c (getSq b r c) = b.
Proof.
  unfold setSq, getSq. apply list_insert_id'. intros H.
  destruct (lookup_lt_is_Some_2 b (cell r c) H) as [x Hx]. now rewrite Hx.
Qed.

(** Moving a piece with the two writes of the search, then taking the
    move back with its two writes, leaves the board as it was. *)
Lemma undo_board b fr fc tr tc :
  length b = 64%nat -> inBoard fr fc = true -> inBoard tr tc = true ->
  let b1 := setSq (setSq b tr tc (getSq b fr fc)) fr fc EMPTY in
  setSq (setSq b1 fr fc (getSq b1 tr tc)) tr tc (getSq b tr tc) = b.
Proof.
  intros Hl Hf Ht b1.
  pose proof (cell_lt _ _ Hf) as Lf. pose proof (cell_lt _ _ Ht) as Lt.
  destruct (decide (cell fr fc = cell tr tc)) as [E | N].
  - subst b1. unfold setSq. rewrite <- E.
    rewrite !list_insert_insert_eq.
    rewrite E. apply (setSq_getSq b tr tc).
  - assert (getSq b1 tr tc = getSq b fr fc) as ->.
    { subst b1. rewrite getSq_setSq_ne by exact N.
      apply getSq_setSq_eq. now rewrite Hl. }
    subst b1. unfold setSq.
    rewrite list_insert_insert_eq.
    rewrite (list_insert_insert_ne _ (cell tr tc) (cell fr fc)) by congruence.
    rewrite list_insert_insert_eq.
    fold (setSq b tr tc (getSq b tr tc)). rewrite setSq_getSq.
    apply (setSq_getSq b fr fc).
Qed.

Lemma withTurn_restore st t : withTurn (withTurn st t) (isWhiteTurn st) = st.
Proof. now destruct st. Qed.

Lemma withBoard_same st : withBoard st (board st) = st.
Proof. now destruct st. Qed.

Lemma wf_withTurn st t : wf (withTurn st t) <-> wf st.
Proof. reflexivity. Qed.

Lemma wf_poke st r c x : wf (poke st r c x) <-> wf st.
Proof. unfold wf, poke. simpl. now rewrite length_setSq. Qed.

Lemma peek_withTurn st t r c : peek (withTurn st t) r c = peek st r c.
Proof. reflexivity. Qed.

(** The state-level form of [undo_board]. *)
Lemma undo_move st fr fc tr tc :
  wf st -> inBoard fr fc = true -> inBoard tr tc = true ->
  let st1 := poke (poke st tr tc (peek st fr fc)) fr fc EMPTY in
  poke (poke st1 fr fc (peek st1 tr tc)) tr tc (peek st tr tc) = st.
Proof.
  intros Hw Hf Ht st1.
  pose proof (undo_board (board st) fr fc tr tc Hw Hf Ht) as H. simpl in H.
  subst st1. unfold poke, peek in *. simpl.
  rewrite H. destruct st; reflexivity.
Qed.

(** ** Loops that restore the state *)

Lemma anySquare_frame (body : GameState -> Z * Z -> bool * GameState) sqs st :
  (forall st sq, In sq sqs -> wf st -> snd (body st sq) = st) ->
  wf st -> snd (anySquare body sqs st) = st.
Proof.
  intros Hb Hw. induction sqs as [| sq rest IH]; simpl; [reflexivity |].
  pose proof (Hb st sq (or_introl eq_refl) Hw) as H.
  destruct (body st sq) as [hit st']. simpl in H. subst st'.
  destruct hit; [reflexivity |].
  apply IH. intros st' sq' Hin. apply Hb. now right.
Qed.

Lemma anySquare_value (body : GameState -> Z * Z -> bool * GameState) sqs st :
  (forall st sq, In sq sqs -> wf st -> snd (body st sq) = st) ->
  wf st -> fst (anySquare body sqs st) = existsb (fun sq => fst (body st sq)) sqs.
Proof.
  intros Hb Hw. induction sqs as [| sq rest IH]; simpl; [reflexivity |].
  pose proof (Hb st sq (or_introl eq_refl) Hw) as H.
  destruct (body st sq) as [hit st']. simpl in H. subst st'. simpl.
  destruct hit; [reflexivity |].
  apply IH. intros st' sq' Hin. apply Hb. now right.
Qed.

Lemma foldSquares_frame {A : Type} (body : A -> GameState -> Z * Z -> A * GameState)
    sqs acc st :
  (forall acc st sq, In sq sqs -> wf st -> snd (body acc st sq) = st) ->
  wf st -> snd (foldSquares body sqs acc st) = st.
Proof.
  intros Hb Hw. revert acc. induction sqs as [| sq rest IH]; intros acc; simpl;
    [reflexivity |].
  pose proof (Hb acc st sq (or_introl eq_refl) Hw) as H.
  destruct (body acc st sq) as [acc' st']. simpl in H. subst st'.
  apply IH. intros acc'' st' sq' Hin. apply Hb. now right.
Qed.

Lemma In_allSquares r c : In (r, c) allSquares <-> inBoard r c = true.
Proof.
  unfold allSquares. rewrite in_prod_iff, inBoard_spec. unfold idx8. simpl. lia.
Qed.

Lemma allSquares_inBoard sq : In sq allSquares -> inBoard (fst sq) (snd sq) = true.
Proof. destruct sq as [r c]. apply In_allSquares. Qed.

Lemma In_kingSteps dr dc : In (dr, dc) kingSteps <-> (-1 <= dr <= 1 /\ -1 <= dc <= 1).
Proof. unfold kingSteps. rewrite in_prod_iff. simpl. lia. Qed.

(** ** The ray walks never exhaust their budget *)

Lemma room_step rs cs r c :
  (rs <> 0 \/ cs <> 0) -> -1 <= rs <= 1 -> -1 <= cs <= 1 -> inBoard r c = true ->
  1 <= room rs cs r c <= 8 /\ room rs cs (r + rs) (c + cs) = room rs cs r c - 1.
Proof.
  intros Hne Hr Hc Hb. apply inBoard_spec in Hb. unfold room.
  destruct (Z.eqb_spec rs 1); [lia |].
  destruct (Z.eqb_spec rs (-1)); [lia |].
  destruct (Z.eqb_spec cs 1); lia.
Qed.

Lemma rookWalk_enough b rs cs tr tc :
  (rs <> 0 \/ cs <> 0) -> -1 <= rs <= 1 -> -1 <= cs <= 1 ->
  forall n m r c,
    (1 <= n)%nat -> (1 <= m)%nat ->
    (inBoard r c = true -> room rs cs r c < Z.of_nat n /\ room rs cs r c < Z.of_nat m) ->
    rookWalk n b r c rs cs tr tc = rookWalk m b r c rs cs tr tc.
Proof.
  intros Hne Hr Hc. induction n as [| n IH]; intros m r c Hn Hm H; [lia |].
  destruct m as [| m]; [lia |]. simpl.
  destruct (negb (r =? tr) || negb (c =? tc)); [| reflexivity].
  destruct (inBoard r c) eqn:Hb; [| reflexivity]. simpl.
  destruct (negb (Ascii.eqb _ _)); [reflexivity |].
  destruct (H eq_refl) as [H1 H2].
  destruct (room_step rs cs r c Hne Hr Hc Hb) as [Hroom Hnext].
  apply IH; lia.
Qed.

Lemma bishopWalk_enough b rs cs tr tc :
  (rs <> 0 \/ cs <> 0) -> -1 <= rs <= 1 -> -1 <= cs <= 1 ->
  forall n m r c,
    (1 <= n)%nat -> (1 <= m)%nat ->
    (inBoard r c = true -> room rs cs r c < Z.of_nat n /\ room rs cs r c < Z.of_nat m) ->
    bishopWalk n b r c rs cs tr tc = bishopWalk m b r c rs cs tr tc.
Proof.
  intros Hne Hr Hc. induction n as [| n IH]; intros m r c Hn Hm H; [lia |].
  destruct m as [| m]; [lia |]. simpl.
  destruct (negb (r =? tr) && negb (c =? tc)); [| reflexivity].
  destruct (inBoard r c) eqn:Hb; [| reflexivity]. simpl.
  destruct (negb (Ascii.eqb _ _)); [reflexivity |].
  destruct (H eq_refl) as [H1 H2].
  destruct (room_step rs cs r c Hne Hr Hc Hb) as [Hroom Hnext].
  apply IH; lia.
Qed.

Lemma pinScan_enough b w rs cs :
  (rs <> 0 \/ cs <> 0) -> -1 <= rs <= 1 -> -1 <= cs <= 1 ->
  forall n m r c,
    (1 <= n)%nat -> (1 <= m)%nat ->
    (inBoard r c = true -> room rs cs r c < Z.of_nat n /\ room rs cs r c < Z.of_nat m) ->
    pinScan n b w rs cs r c = pinScan m b w rs cs r c.
Proof.
  intros Hne Hr Hc. induction n as [| n IH]; intros m r c Hn Hm H; [lia |].
  destruct m as [| m]; [lia |]. simpl.
  destruct (inBoard r c) eqn:Hb; [| reflexivity].
  destruct (negb (Ascii.eqb _ _)); [reflexivity |].
  destruct (H eq_refl) as [H1 H2].
  destruct (room_step rs cs r c Hne Hr Hc Hb) as [Hroom Hnext].
  apply IH; lia.
Qed.

(** A larger budget changes nothing: the budget [walkBudget] of the
    embedding does not cut any walk short. *)
Lemma rookWalk_budget b rs cs tr tc n r c :
  (rs <> 0 \/ cs <> 0) -> -1 <= rs <= 1 -> -1 <= cs <= 1 -> (walkBudget <= n)%nat ->
  rookWalk n b r c rs cs tr tc = rookWalk walkBudget b r c rs cs tr tc.
Proof.
  intros Hne Hr Hc Hn. unfold walkBudget in *.
  apply rookWalk_enough; auto; try lia.
  intros Hb. destruct (room_step rs cs r c Hne Hr Hc Hb). lia.
Qed.

Lemma bishopWalk_budget b rs cs tr tc n r c :
  (rs <> 0 \/ cs <> 0) -> -1 <= rs <= 1 -> -1 <= cs <= 1 -> (walkBudget <= n)%nat ->
  bishopWalk n b r c rs cs tr tc = bishopWalk walkBudget b r c rs cs tr tc.
Proof.
  intros Hne Hr Hc Hn. unfold walkBudget in *.
  apply bishopWalk_enough; auto; try lia.
  intros Hb. destruct (room_step rs cs r c Hne Hr Hc Hb). lia.
Qed.

Lemma pinScan_budget b w rs cs n r c :
  (rs <> 0 \/ cs <> 0) -> -1 <= rs <= 1 -> -1 <= cs <= 1 -> (walkBudget <= n)%nat ->
  pinScan n b w rs cs r c = pinScan walkBudget b w rs cs r c.
Proof.
  intros Hne Hr Hc Hn. unfold walkBudget in *.
  apply pinScan_enough; auto; try lia.
  intros Hb. destruct (room_step rs cs r c Hne Hr Hc Hb). lia.
Qed.

(** With a zero step [getPinInfo] scans from the square of the piece
    itself, which is occupied: the scan stops there. *)
Lemma pinScan_occupied b w rs cs n r c :
  inBoard r c = true -> Ascii.eqb (getSq b r c) EMPTY = false ->
  pinScan (S n) b w rs cs r c = pinScan 1 b w rs cs r c.
Proof. intros Hb Ho. simpl. now rewrite Hb, Ho. Qed.

(** The two [for] loops of [isValidCastling] take at most three values. *)
Example colRange_castling :
  colRange 8 5 7 1 = [5; 6] /\ colRange 8 3 0 (-1) = [3; 2; 1]
  /\ colRange 8 4 7 1 = [4; 5; 6] /\ colRange 8 4 1 (-1) = [4; 3; 2].
Proof. repeat split. Qed.

Lemma walkBudget_S : walkBudget = S 9.
Proof. reflexivity. Qed.

(** From here on the square lists and the loop budget of the ray walks stay
    folded in proofs. *)
Opaque allSquares kingSteps walkBudget.

(** ** The legality query restores the state *)

Lemma isSquareAttacked_body_frame row col byWhite st sq :
  snd (isSquareAttacked_body row col byWhite st sq) = st.
Proof.
  unfold isSquareAttacked_body. destruct sq as [i j].
  destruct (_ && _); simpl; [apply withTurn_restore | reflexivity].
Qed.

Lemma isSquareAttacked_frame st row col byWhite :
  wf st -> snd (isSquareAttacked st row col byWhite) = st.
Proof.
  intros Hw. apply anySquare_frame; [| exact Hw].
  intros. apply isSquareAttacked_body_frame.
Qed.

Lemma isInCheck_frame st w : wf st -> snd (isInCheck st w) = st.
Proof.
  intros Hw. unfold isInCheck.
  destruct (findPiece _ _) as [[kr kc] |]; [| reflexivity].
  now apply isSquareAttacked_frame.
Qed.

Lemma doesMovePutKingInCheck_frame st fr fc tr tc :
  wf st -> inBoard fr fc = true -> inBoard tr tc = true ->
  snd (doesMovePutKingInCheck st fr fc tr tc) = st.
Proof.
  intros Hw Hf Ht. unfold doesMovePutKingInCheck.
  set (st1 := poke (poke st tr tc (peek st fr fc)) fr fc EMPTY).
  assert (wf st1) as Hw1 by (subst st1; now rewrite !wf_poke).
  pose proof (isInCheck_frame st1 (isWhiteTurn st1) Hw1) as H.
  destruct (isInCheck st1 (isWhiteTurn st1)) as [b st2]. simpl in H. subst st2.
  simpl. now apply undo_move.
Qed.

Lemma isValidCastling_frame st fr fc tr tc :
  wf st -> snd (isValidCastling st fr fc tr tc) = st.
Proof.
  intros Hw. unfold isValidCastling.
  destruct (_ || _ || _); [reflexivity |].
  destruct (_ || _); [reflexivity |].
  pose proof (isInCheck_frame st (isupper (peek st fr fc)) Hw) as H.
  destruct (isInCheck st _) as [b st']. simpl in H. subst st'.
  destruct b; [reflexivity |].
  destruct (if isupper (peek st fr fc) then _ else _); [reflexivity |].
  destruct (negb _); [reflexivity |].
  destruct (existsb _ _); [reflexivity |].
  match goal with |- context [ anySquare ?body ?l st ] =>
    pose proof (anySquare_frame body l st) as K;
    destruct (anySquare body l st) as [a st'] end.
  simpl in K. rewrite K.
  - now destruct a.
  - intros st0 sq _ Hw0. now apply isSquareAttacked_frame.
  - exact Hw.
Qed.

Lemma isValidKingMove_frame st fr fc tr tc :
  wf st -> snd (isValidKingMove st fr fc tr tc) = st.
Proof.
  intros Hw. unfold isValidKingMove.
  destruct (_ && _); [reflexivity |].
  destruct (_ && _); [| reflexivity].
  now apply isValidCastling_frame.
Qed.

Lemma isValidMove_frame st fr fc tr tc :
  wf st -> snd (isValidMove st fr fc tr tc) = st.
Proof.
  intros Hw. unfold isValidMove.
  destruct (negb (inBoard fr fc) || negb (inBoard tr tc)) eqn:Hb; [reflexivity |].
  assert (inBoard fr fc = true /\ inBoard tr tc = true) as [Hf Ht].
  { destruct (inBoard fr fc), (inBoard tr tc); simpl in Hb; auto; discriminate. }
  destruct (Ascii.eqb (peek st fr fc) EMPTY); [reflexivity |].
  destruct (isWhiteTurn st && negb (isupper (peek st fr fc))); [reflexivity |].
  destruct (negb (isWhiteTurn st) && isupper (peek st fr fc)); [reflexivity |].
  destruct (isWhiteTurn st && isupper (peek st tr tc)); [reflexivity |].
  destruct (negb (isWhiteTurn st) && islower (peek st tr tc)); [reflexivity |].
  match goal with
  | |- context [ match ?pat with pair _ _ => _ end ] =>
    assert (snd (snd pat) = st) as Hp
  end.
  { repeat (match goal with |- context [ if ?c then _ else _ ] => destruct c end;
            try reflexivity).
    now apply isValidKingMove_frame. }
  match goal with
  | |- context [ match ?pat with pair _ _ => _ end ] =>
    destruct pat as [known [valid st']]
  end.
  simpl in Hp. subst st'.
  destruct (negb known); [reflexivity |].
  destruct (negb valid); [reflexivity |].
  destruct (_ && _); [reflexivity |].
  pose proof (doesMovePutKingInCheck_frame st fr fc tr tc Hw Hf Ht) as H.
  destruct (doesMovePutKingInCheck st fr fc tr tc) as [b st']. simpl in H. subst st'.
  now destruct b.
Qed.

Lemma isPieceUnderAttack_body_frame row col w st sq :
  wf st -> snd (isPieceUnderAttack_body row col w st sq) = st.
Proof.
  intros Hw. unfold isPieceUnderAttack_body. destruct sq as [i j].
  destruct (_ && _); [| reflexivity].
  set (st1 := withTurn st (isupper (peek st i j))).
  pose proof (isValidMove_frame st1 i j row col) as H.
  destruct (isValidMove st1 i j row col) as [b st']. simpl in H.
  rewrite H by exact Hw.
  destruct b; simpl; apply withTurn_restore.
Qed.

Lemma isPieceUnderAttack_frame st row col :
  wf st -> snd (isPieceUnderAttack st row col) = st.
Proof.
  intros Hw. unfold isPieceUnderAttack.
  destruct (Ascii.eqb _ _); [reflexivity |].
  apply anySquare_frame; [| exact Hw].
  intros. now apply isPieceUnderAttack_body_frame.
Qed.

Lemma anyValidMoveFrom_frame st fr fc : wf st -> snd (anyValidMoveFrom st fr fc) = st.
Proof.
  intros Hw. apply anySquare_frame; [| exact Hw].
  intros. now apply isValidMove_frame.
Qed.

Lemma isStalemate_frame st : wf st -> snd (isStalemate st) = st.
Proof.
  intros Hw. unfold isStalemate.
  pose proof (isInCheck_frame st (isWhiteTurn st) Hw) as H.
  destruct (isInCheck st (isWhiteTurn st)) as [b st']. simpl in H. subst st'.
  destruct b; [reflexivity |].
  match goal with |- context [ anySquare ?body ?l st ] =>
    pose proof (anySquare_frame body l st) as K;
    destruct (anySquare body l st) as [a st'] end.
  simpl in K. rewrite K.
  - now destruct a.
  - intros st0 [r c] _ Hw0. destruct (ownPiece _ _); [| reflexivity].
    now apply anyValidMoveFrom_frame.
  - exact Hw.
Qed.

Lemma isCheckmate_frame st : wf st -> snd (isCheckmate st) = st.
Proof.
  intros Hw. unfold isCheckmate.
  pose proof (isInCheck_frame st (isWhiteTurn st) Hw) as H.
  destruct (isInCheck st (isWhiteTurn st)) as [b st']. simpl in H. subst st'.
  destruct b; [| reflexivity]. simpl negb. cbv iota.
  match goal with
  | |- context [ let '(_, _) := ?esc in _ ] => assert (snd esc = st) as He
  end.
  { destruct (findPiece _ _) as [[kr kc] |]; [| reflexivity].
    apply anySquare_frame; [| exact Hw].
    intros st0 [dr dc] _ Hw0.
    destruct (_ && _); [reflexivity |].
    destruct (inBoard _ _); [| reflexivity].
    now apply isValidMove_frame. }
  match goal with
  | |- context [ let '(_, _) := ?esc in _ ] => destruct esc as [e st']
  end.
  simpl in He. subst st'.
  destruct e; [reflexivity |].
  match goal with |- context [ anySquare ?body ?l st ] =>
    pose proof (anySquare_frame body l st) as K;
    destruct (anySquare body l st) as [a st'] end.
  simpl in K. rewrite K.
  - now destruct a.
  - intros st0 [r c] _ Hw0. destruct (ownPiece _ _); [| reflexivity].
    destruct (Ascii.eqb _ _); [reflexivity |].
    now apply anyValidMoveFrom_frame.
  - exact Hw.
Qed.

Lemma isDraw_frame st : wf st -> snd (isDraw st) = st.
Proof.
  intros Hw. unfold isDraw.
  pose proof (isStalemate_frame st Hw) as H.
  destruct (isStalemate st) as [b st']. simpl in H. subst st'.
  destruct b; [reflexivity |].
  destruct (isInsufficientMaterial st); [reflexivity |].
  now destruct (isFiftyMoveRule st).
Qed.

(** ** Move generation and evaluation restore the state *)

Lemma scoreMoveForOrdering_frame st fr fc tr tc :
  wf st -> inBoard fr fc = true -> inBoard tr tc = true ->
  snd (scoreMoveForOrdering st fr fc tr tc) = st.
Proof.
  intros Hw Hf Ht. unfold scoreMoveForOrdering.
  set (st1 := poke (poke st tr tc (peek st fr fc)) fr fc EMPTY).
  assert (wf st1) as Hw1 by (subst st1; now rewrite !wf_poke).
  pose proof (isInCheck_frame st1 (negb (isWhiteTurn st1)) Hw1) as H.
  destruct (isInCheck st1 (negb (isWhiteTurn st1))) as [b st2]. simpl in H. subst st2.
  pose proof (undo_move st fr fc tr tc Hw Hf Ht) as U. simpl in U. fold st1 in U.
  rewrite U.
  pose proof (isPieceUnderAttack_frame st fr fc Hw) as K.
  destruct (isPieceUnderAttack st fr fc) as [a st2]. simpl in K. subst st2.
  reflexivity.
Qed.

Lemma generateAllMoves_to_frame fr fc ml st sq :
  inBoard fr fc = true -> In sq allSquares -> wf st ->
  snd (generateAllMoves_to fr fc ml st sq) = st.
Proof.
  intros Hf Hin Hw. unfold generateAllMoves_to. destruct sq as [tr tc].
  apply In_allSquares in Hin.
  pose proof (isValidMove_frame st fr fc tr tc Hw) as H.
  destruct (isValidMove st fr fc tr tc) as [b st']. simpl in H. subst st'.
  destruct b; [| reflexivity].
  destruct (_ <? _)%nat; [| reflexivity].
  pose proof (scoreMoveForOrdering_frame st fr fc tr tc Hw Hf Hin) as K.
  destruct (scoreMoveForOrdering st fr fc tr tc) as [s st']. simpl in K. now subst st'.
Qed.

Lemma generateAllMoves_from_frame ml st sq :
  In sq allSquares -> wf st -> snd (generateAllMoves_from ml st sq) = st.
Proof.
  intros Hin Hw. unfold generateAllMoves_from. destruct sq as [fr fc].
  apply In_allSquares in Hin.
  destruct (ownPiece _ _); [| reflexivity].
  apply foldSquares_frame; [| exact Hw].
  intros. now apply generateAllMoves_to_frame.
Qed.

Lemma generateAllMoves_frame st : wf st -> snd (generateAllMoves st) = st.
Proof.
  intros Hw. apply foldSquares_frame; [| exact Hw].
  intros. now apply generateAllMoves_from_frame.
Qed.

Lemma countAttacks_body_frame row col w n st sq :
  wf st -> snd (countAttacks_body row col w n st sq) = st.
Proof.
  intros Hw. unfold countAttacks_body. destruct sq as [tr tc].
  destruct (_ && _); [| reflexivity].
  pose proof (isValidMove_frame (withTurn st w) row col tr tc) as H.
  destruct (isValidMove (withTurn st w) row col tr tc) as [b st']. simpl in H.
  rewrite H by exact Hw. simpl. apply withTurn_restore.
Qed.

Lemma evaluateBoard_body_frame acc st sq :
  wf st -> snd (evaluateBoard_body acc st sq) = st.
Proof.
  intros Hw. unfold evaluateBoard_body.
  destruct acc as [[score aw] ab]. destruct sq as [row col].
  destruct (Ascii.eqb _ _); [reflexivity |].
  match goal with
  | |- context [ match ?pat with pair _ _ => _ end ] => destruct pat as [pv posv]
  end.
  destruct (isupper _).
  - match goal with |- context [ foldSquares ?body ?l ?a st ] =>
      pose proof (foldSquares_frame body l a st) as K;
      destruct (foldSquares body l a st) as [n st'] end.
    simpl in K. rewrite K;
      [| intros; now apply countAttacks_body_frame | exact Hw ].
    pose proof (isPieceUnderAttack_frame st row col Hw) as H.
    destruct (isPieceUnderAttack st row col) as [a st'']. simpl in H. now subst st''.
  - match goal with |- context [ foldSquares ?body ?l ?a st ] =>
      pose proof (foldSquares_frame body l a st) as K;
      destruct (foldSquares body l a st) as [n st'] end.
    simpl in K. rewrite K;
      [| intros; now apply countAttacks_body_frame | exact Hw ].
    pose proof (isPieceUnderAttack_frame st row col Hw) as H.
    destruct (isPieceUnderAttack st row col) as [a st'']. simpl in H. now subst st''.
Qed.

Lemma evaluateKingSafety_frame st : wf st -> snd (evaluateKingSafety st) = st.
Proof.
  intros Hw. unfold evaluateKingSafety.
  destruct (lastPiece st WHITE_KING) as [wr wc].
  destruct (lastPiece st BLACK_KING) as [br bc].
  pose proof (isInCheck_frame st true Hw) as H.
  destruct (isInCheck st true) as [a st']. simpl in H. subst st'.
  pose proof (isInCheck_frame st false Hw) as H.
  destruct (isInCheck st false) as [b st']. simpl in H. now subst st'.
Qed.

Lemma evaluateBoard_frame st c : wf st -> snd (fst (evaluateBoard st c)) = st.
Proof.
  intros Hw. unfold evaluateBoard.
  destruct (negb _); [reflexivity |].
  match goal with |- context [ foldSquares ?body ?l ?a st ] =>
    pose proof (foldSquares_frame body l a st) as K;
    destruct (foldSquares body l a st) as [[[score aw] ab] st'] end.
  simpl in K. rewrite K in *;
    [| intros; now apply evaluateBoard_body_frame | exact Hw ].
  pose proof (evaluateKingSafety_frame st Hw) as H.
  destruct (evaluateKingSafety st) as [ks st'']. simpl in H. subst st''.
  pose proof (isInCheck_frame st true Hw) as H.
  destruct (isInCheck st true) as [a st'']. simpl in H. subst st''.
  pose proof (isInCheck_frame st false Hw) as H.
  destruct (isInCheck st false) as [b st'']. simpl in H. now subst st''.
Qed.

(** ** The search restores the position *)

(** What a recursive call of the search owes its caller. *)
Definition restoring (rec : GameState -> EvalCache -> Z -> Z -> bool -> SearchResult) : Prop :=
  forall st c alpha beta m r st' c',
    wf st -> rec st c alpha beta m = Some (r, st', c') -> st' = st.

Lemma searchLoop_frame {X : Type}
    (body : X -> GameState -> EvalCache -> Z -> Z -> option (Flow * GameState * EvalCache))
    (xs : list X) :
  (forall x st c a b r st' c',
      In x xs -> wf st -> body x st c a b = Some (r, st', c') -> st' = st) ->
  forall st c a b r st' c',
    wf st -> searchLoop body xs st c a b = Some (r, st', c') -> st' = st.
Proof.
  induction xs as [| x rest IH]; intros Hb st c a b r st' c' Hw H;
    cbn [searchLoop] in H.
  - now inversion H.
  - destruct (body x st c a b) as [[[fl st1] c1] |] eqn:E; [| discriminate].
    assert (st1 = st) as -> by (eapply Hb; eauto; now left).
    destruct fl as [v | a1 b1].
    + now inversion H.
    + eapply IH; eauto. intros; eapply Hb; eauto. now right.
Qed.

Lemma quiescence_capture_frame rec isMax fr fc sq st c a b r st' c' :
  restoring rec -> inBoard fr fc = true -> In sq allSquares -> wf st ->
  quiescence_capture rec isMax fr fc sq st c a b = Some (r, st', c') -> st' = st.
Proof.
  intros Hrec Hf Hin Hw H. unfold quiescence_capture in H. destruct sq as [tr tc].
  apply In_allSquares in Hin.
  destruct (_ && _); [| now inversion H].
  pose proof (isValidMove_frame st fr fc tr tc Hw) as K.
  destruct (isValidMove st fr fc tr tc) as [valid st1]. simpl in K. subst st1.
  destruct valid; [| now inversion H].
  set (st1 := poke (poke st tr tc (peek st fr fc)) fr fc EMPTY) in H.
  assert (wf st1) as Hw1 by (subst st1; now rewrite !wf_poke).
  destruct (rec st1 c a b (negb isMax)) as [[[score st2] c2] |] eqn:E; [| discriminate].
  apply Hrec in E; [| exact Hw1]. subst st2.
  pose proof (undo_move st fr fc tr tc Hw Hf Hin) as U. simpl in U. fold st1 in U.
  rewrite U in H.
  destruct isMax; simpl in H;
    match type of H with (if ?g then _ else _) = _ => destruct g end;
    now inversion H.
Qed.

Lemma quiescence_from_frame rec isMax sq st c a b r st' c' :
  restoring rec -> In sq allSquares -> wf st ->
  quiescence_from rec isMax sq st c a b = Some (r, st', c') -> st' = st.
Proof.
  intros Hrec Hin Hw H. unfold quiescence_from in H. destruct sq as [fr fc].
  apply In_allSquares in Hin.
  destruct (ownPiece _ _); [| now inversion H].
  eapply searchLoop_frame; [| exact Hw | exact H].
  intros. eapply quiescence_capture_frame; eauto.
Qed.

Lemma quiescence_frame budget : restoring (quiescence budget).
Proof.
  induction budget as [| n IH]; intros st c a b m r st' c' Hw H;
    cbn [quiescence] in H; [discriminate |].
  pose proof (evaluateBoard_frame st c Hw) as K.
  destruct (evaluateBoard st c) as [[sp st1] c1]. simpl in K. subst st1.
  destruct (m && _); [now inversion H |].
  destruct (negb m && _); [now inversion H |].
  match type of H with
  | match ?loop with _ => _ end = _ => destruct loop as [[[fl st2] c2] |] eqn:E
  end; [| discriminate].
  eapply searchLoop_frame in E; [| | exact Hw].
  - subst st2. destruct fl; now inversion H.
  - intros. eapply quiescence_from_frame; eauto.
Qed.

Definition moveInBoard (m : MoveEntry) : Prop :=
  inBoard (moveFromRow m) (moveFromCol m) = true
  /\ inBoard (moveToRow m) (moveToCol m) = true.

Lemma foldSquares_invariant {A : Type} (P : A -> Prop)
    (body : A -> GameState -> Z * Z -> A * GameState) sqs :
  (forall acc st sq, In sq sqs -> P acc -> P (fst (body acc st sq))) ->
  forall acc st, P acc -> P (fst (foldSquares body sqs acc st)).
Proof.
  induction sqs as [| sq rest IH]; intros Hb acc st Hp; simpl; [exact Hp |].
  pose proof (Hb acc st sq (or_introl eq_refl) Hp) as H.
  destruct (body acc st sq) as [acc' st']. simpl in H.
  apply IH; [| exact H]. intros; apply Hb; auto. now right.
Qed.

Lemma generateAllMoves_inBoard st : Forall moveInBoard (fst (generateAllMoves st)).
Proof.
  unfold generateAllMoves.
  apply (foldSquares_invariant (Forall moveInBoard)); [| constructor].
  intros ml st0 [fr fc] Hf Hml. apply In_allSquares in Hf.
  unfold generateAllMoves_from.
  destruct (ownPiece _ _); [| exact Hml].
  apply (foldSquares_invariant (Forall moveInBoard)); [| exact Hml].
  intros ml1 st1 [tr tc] Ht Hml1. apply In_allSquares in Ht.
  unfold generateAllMoves_to.
  destruct (isValidMove st1 fr fc tr tc) as [valid st2].
  destruct valid; [| exact Hml1].
  destruct (_ <? _)%nat; [| exact Hml1].
  destruct (scoreMoveForOrdering st2 fr fc tr tc) as [s st3]. simpl.
  apply Forall_app. split; [exact Hml1 |].
  constructor; [| constructor]. split; assumption.
Qed.

Lemma fold_left_invariant {A B : Type} (P : A -> Prop) (f : A -> B -> A) l :
  (forall a x, P a -> P (f a x)) -> forall a, P a -> P (fold_left f l a).
Proof.
  intros Hf. induction l as [| x rest IH]; intros a Ha; simpl; auto.
Qed.

Lemma swapMoves_Forall (P : MoveEntry -> Prop) ml i j :
  Forall P ml -> Forall P (swapMoves ml i j).
Proof.
  intros H. unfold swapMoves.
  destruct (ml !! i) as [x |] eqn:Ei; [| exact H].
  destruct (ml !! j) as [y |] eqn:Ej; [| exact H].
  apply Forall_insert; [apply Forall_insert |].
  - exact H.
  - eapply Forall_lookup_1; eauto.
  - eapply Forall_lookup_1; eauto.
Qed.

Lemma sortMoves_Forall (P : MoveEntry -> Prop) ml :
  Forall P ml -> Forall P (sortMoves ml).
Proof.
  intros H. unfold sortMoves.
  apply fold_left_invariant; [| exact H].
  intros ml1 i H1. apply fold_left_invariant; [| exact H1].
  intros ml2 j H2. destruct (_ >? _); [| exact H2].
  now apply swapMoves_Forall.
Qed.

Lemma minimax_moves_frame rec isMax moves :
  restoring rec -> Forall moveInBoard moves ->
  forall st c best a b r st' c',
    wf st -> minimax_moves rec isMax moves st c best a b = Some (r, st', c') -> st' = st.
Proof.
  intros Hrec Hm. induction Hm as [| m rest [Hf Ht] Hrest IH];
    intros st c best a b r st' c' Hw H; cbn [minimax_moves] in H.
  - now inversion H.
  - set (st1 := poke (poke st (moveToRow m) (moveToCol m)
                        (peek st (moveFromRow m) (moveFromCol m)))
                  (moveFromRow m) (moveFromCol m) EMPTY) in H.
    assert (wf st1) as Hw1 by (subst st1; now rewrite !wf_poke).
    destruct (rec st1 c a b (negb isMax)) as [[[score st2] c2] |] eqn:E; [| discriminate].
    apply Hrec in E; [| exact Hw1]. subst st2.
    pose proof (undo_move st _ _ _ _ Hw Hf Ht) as U. simpl in U. fold st1 in U.
    rewrite U in H.
    match type of H with
    | (let '(_, _) := ?upd in _) = _ => destruct upd as [[best' a'] b']
    end.
    destruct (b' <=? a'); [now inversion H |].
    eapply IH; eauto.
Qed.

Lemma minimax_frame budget : forall depth,
  restoring (fun st c alpha beta m => minimax budget st c depth alpha beta m).
Proof.
  induction budget as [| n IH]; intros depth st c a b m r st' c' Hw H;
    cbn [minimax] in H; [discriminate |].
  destruct (depth =? 0).
  - eapply quiescence_frame; eauto.
  - pose proof (generateAllMoves_frame st Hw) as K.
    pose proof (generateAllMoves_inBoard st) as Hin.
    destruct (generateAllMoves st) as [ml st1]. simpl in K, Hin. subst st1.
    destruct (_ =? _)%nat.
    + pose proof (isInCheck_frame st m Hw) as K.
      destruct (isInCheck st m) as [ic st1]. simpl in K. subst st1.
      now inversion H.
    + eapply minimax_moves_frame; [apply (IH (depth - 1)) | | exact Hw | exact H].
      now apply sortMoves_Forall.
Qed.

(** ** The search terminates *)

Lemma pieceCount_le b : (pieceCount b <= length b)%nat.
Proof. unfold pieceCount. apply List.filter_length_le. Qed.

Lemma pieceCount_insert (b : Board) i x y :
  b !! i = Some y ->
  (pieceCount (<[i:=x]> b) + (if occupied y then 1 else 0)
   = pieceCount b + (if occupied x then 1 else 0))%nat.
Proof.
  unfold pieceCount. revert i. induction b as [| z rest IH]; intros i H.
  - discriminate.
  - destruct i as [| i]; simpl in *.
    + inversion H; subst. destruct (occupied y), (occupied x); simpl; lia.
    + specialize (IH i H). destruct (occupied z); simpl; lia.
Qed.

Lemma peek_Some st r c :
  wf st -> inBoard r c = true -> board st !! cell r c = Some (peek st r c).
Proof.
  intros Hw Hb. unfold peek, getSq.
  destruct (lookup_lt_is_Some_2 (board st) (cell r c)) as [x Hx].
  - rewrite Hw. now apply cell_lt.
  - now rewrite Hx.
Qed.

Lemma upper_not_lower c : isupper c = true -> islower c = false.
Proof. unfold isupper, islower. lia. Qed.

Lemma upper_occupied c : isupper c = true -> occupied c = true.
Proof.
  unfold isupper, occupied. intros H.
  destruct (Ascii.eqb_spec c EMPTY) as [-> |]; [| reflexivity].
  vm_compute in H. discriminate.
Qed.

Lemma lower_occupied c : islower c = true -> occupied c = true.
Proof.
  unfold islower, occupied. intros H.
  destruct (Ascii.eqb_spec c EMPTY) as [-> |]; [| reflexivity].
  vm_compute in H. discriminate.
Qed.

(** A capture, as the search plays it, takes one piece off the board. *)
Lemma capture_pieceCount st isMax fr fc tr tc :
  wf st -> inBoard fr fc = true -> inBoard tr tc = true ->
  ownPiece isMax (peek st fr fc) = true ->
  (isMax && islower (peek st tr tc)) || (negb isMax && isupper (peek st tr tc)) = true ->
  (pieceCount (board (poke (poke st tr tc (peek st fr fc)) fr fc EMPTY)) + 1
   = pieceCount (board st))%nat.
Proof.
  intros Hw Hf Ht Hown Hcap.
  assert (occupied (peek st fr fc) = true /\ occupied (peek st tr tc) = true
          /\ peek st fr fc <> peek st tr tc) as (Of & Ot & Hne).
  { unfold ownPiece in Hown. destruct isMax; simpl in Hown, Hcap.
    - rewrite orb_false_r in Hown, Hcap. repeat split.
      + now apply upper_occupied.
      + now apply lower_occupied.
      + intros E. rewrite E in Hown. apply upper_not_lower in Hown. congruence.
    - repeat split.
      + now apply lower_occupied.
      + now apply upper_occupied.
      + intros E. rewrite E in Hown. apply upper_not_lower in Hcap. congruence. }
  assert (cell fr fc <> cell tr tc) as Hc.
  { intros E. apply Hne. unfold peek, getSq. now rewrite E. }
  pose proof (peek_Some st tr tc Hw Ht) as Lt.
  pose proof (pieceCount_insert (board st) (cell tr tc) (peek st fr fc) _ Lt) as P1.
  rewrite Of, Ot in P1.
  assert (<[cell tr tc := peek st fr fc]> (board st) !! cell fr fc = Some (peek st fr fc))
    as Lf.
  { rewrite list_lookup_insert_ne by congruence. now apply peek_Some. }
  pose proof (pieceCount_insert _ (cell fr fc) EMPTY _ Lf) as P2.
  rewrite Of in P2. change (occupied EMPTY) with false in P2.
  unfold poke. simpl. unfold setSq in *. lia.
Qed.

(** What a recursive call gives when its budget is enough for every state
    satisfying [ok]: a result, with the state as at the call. *)
Definition returning (ok : GameState -> Prop)
    (rec : GameState -> EvalCache -> Z -> Z -> bool -> SearchResult) : Prop :=
  forall st c alpha beta m,
    wf st -> ok st -> exists r c', rec st c alpha beta m = Some (r, st, c').

Lemma searchLoop_total {X : Type}
    (body : X -> GameState -> EvalCache -> Z -> Z -> option (Flow * GameState * EvalCache))
    (xs : list X) st :
  (forall x c a b, In x xs -> exists fl c', body x st c a b = Some (fl, st, c')) ->
  forall c a b, exists fl c', searchLoop body xs st c a b = Some (fl, st, c').
Proof.
  induction xs as [| x rest IH]; intros Hb c a b; cbn [searchLoop].
  - eauto.
  - destruct (Hb x c a b (or_introl eq_refl)) as (fl & c1 & E). rewrite E.
    destruct fl as [v | a1 b1]; [eauto |].
    apply IH. intros; apply Hb. now right.
Qed.

Lemma quiescence_capture_total rec isMax fr fc sq st c a b :
  returning (fun st' => (pieceCount (board st') < pieceCount (board st))%nat) rec ->
  inBoard fr fc = true -> In sq allSquares -> wf st ->
  ownPiece isMax (peek st fr fc) = true ->
  exists fl c', quiescence_capture rec isMax fr fc sq st c a b = Some (fl, st, c').
Proof.
  intros Hrec Hf Hin Hw Hown. unfold quiescence_capture. destruct sq as [tr tc].
  apply In_allSquares in Hin.
  destruct (negb _ && _) eqn:Hcap; [| eauto].
  apply andb_prop in Hcap. destruct Hcap as [_ Hcap].
  pose proof (isValidMove_frame st fr fc tr tc Hw) as K.
  destruct (isValidMove st fr fc tr tc) as [valid st1]. simpl in K. subst st1.
  destruct valid; [| eauto].
  set (st1 := poke (poke st tr tc (peek st fr fc)) fr fc EMPTY).
  assert (wf st1) as Hw1 by (subst st1; now rewrite !wf_poke).
  destruct (Hrec st1 c a b (negb isMax) Hw1) as (score & c2 & E).
  { pose proof (capture_pieceCount st isMax fr fc tr tc Hw Hf Hin Hown Hcap) as P.
    fold st1 in P. lia. }
  rewrite E.
  pose proof (undo_move st fr fc tr tc Hw Hf Hin) as U. simpl in U. fold st1 in U.
  rewrite U.
  destruct isMax; simpl;
    match goal with |- context [ if ?g then _ else _ ] => destruct g end; eauto.
Qed.

Lemma quiescence_total budget :
  forall st c alpha beta m,
    wf st -> (pieceCount (board st) < budget)%nat ->
    exists r c', quiescence budget st c alpha beta m = Some (r, st, c').
Proof.
  induction budget as [| n IH]; intros st c a b m Hw Hlt; [lia |].
  cbn [quiescence].
  pose proof (evaluateBoard_frame st c Hw) as K.
  destruct (evaluateBoard st c) as [[sp st1] c1]. simpl in K. subst st1.
  destruct (m && _); [eauto |].
  destruct (negb m && _); [eauto |].
  match goal with
  | |- context [ searchLoop ?body ?xs st c1 ?a1 ?b1 ] =>
    destruct (searchLoop_total body xs st) with (c := c1) (a := a1) (b := b1)
      as (fl & c2 & E)
  end.
  - intros [fr fc] c0 a0 b0 Hin. unfold quiescence_from.
    apply In_allSquares in Hin.
    destruct (ownPiece m (peek st fr fc)) eqn:Hown; [| eauto].
    apply searchLoop_total. intros sq c3 a3 b3 Hsq.
    apply quiescence_capture_total; auto.
    intros st' c4 a4 b4 m4 Hw' Hlt'. apply IH; [exact Hw' | lia].
  - rewrite E. destruct fl; eauto.
Qed.

Lemma minimax_moves_total rec isMax moves :
  returning (fun _ => True) rec -> Forall moveInBoard moves ->
  forall st c best a b,
    wf st -> exists r c', minimax_moves rec isMax moves st c best a b = Some (r, st, c').
Proof.
  intros Hrec Hm. induction Hm as [| m rest [Hf Ht] Hrest IH];
    intros st c best a b Hw; cbn [minimax_moves].
  - eauto.
  - set (st1 := poke (poke st (moveToRow m) (moveToCol m)
                        (peek st (moveFromRow m) (moveFromCol m)))
                  (moveFromRow m) (moveFromCol m) EMPTY).
    assert (wf st1) as Hw1 by (subst st1; now rewrite !wf_poke).
    destruct (Hrec st1 c a b (negb isMax) Hw1 I) as (score & c2 & E). rewrite E.
    pose proof (undo_move st _ _ _ _ Hw Hf Ht) as U. simpl in U. fold st1 in U.
    rewrite U.
    match goal with
    | |- context [ let '(_, _) := ?upd in _ ] => destruct upd as [[best' a'] b']
    end.
    destruct (b' <=? a'); [eauto |].
    now apply IH.
Qed.

Lemma minimax_total (d : nat) :
  forall budget st c alpha beta m,
    wf st -> (d + 66 <= budget)%nat ->
    exists r c', minimax budget st c (Z.of_nat d) alpha beta m = Some (r, st, c').
Proof.
  induction d as [| d IH]; intros budget st c a b m Hw Hb;
    (destruct budget as [| n]; [lia |]); cbn [minimax].
  - simpl. apply quiescence_total; [exact Hw |].
    pose proof (pieceCount_le (board st)). rewrite Hw in H. lia.
  - destruct (Z.eqb_spec (Z.of_nat (S d)) 0) as [E | _]; [lia |].
    pose proof (generateAllMoves_frame st Hw) as K.
    pose proof (generateAllMoves_inBoard st) as Hin.
    destruct (generateAllMoves st) as [ml st1]. simpl in K, Hin. subst st1.
    destruct (_ =? _)%nat.
    + pose proof (isInCheck_frame st m Hw) as K.
      destruct (isInCheck st m) as [ic st1]. simpl in K. subst st1. eauto.
    + apply minimax_moves_total; [| now apply sortMoves_Forall | exact Hw].
      intros st' c' a' b' m' Hw' _.
      replace (Z.of_nat (S d) - 1) with (Z.of_nat d) by lia.
      apply IH; [exact Hw' | lia].
Qed.

(** ** C1: the search leaves the position as it found it *)

(** C1.  Whenever a call of [quiescence] or of [minimax] returns, the game
    state (board, side to move and every other field) is the state at entry,
    for every position, depth, window and side, and whatever path the call
    returned by; and the calls do return: [quiescence] with a budget of 65
    nested calls, [minimax] at depth [d >= 0] with a budget of [d + 66]. *)
Theorem search_restores_position (st : GameState) (Hwf : wf st) :
  (forall budget c alpha beta m r st' c',
      quiescence budget st c alpha beta m = Some (r, st', c') -> st' = st)
  /\ (forall budget c depth alpha beta m r st' c',
      minimax budget st c depth alpha beta m = Some (r, st', c') -> st' = st)
  /\ (forall c alpha beta m,
      exists r c', quiescence 65 st c alpha beta m = Some (r, st, c'))
  /\ (forall c (d : nat) alpha beta m,
      exists r c', minimax (d + 66) st c (Z.of_nat d) alpha beta m = Some (r, st, c')).
Proof.
  repeat split.
  - intros. eapply quiescence_frame; eauto.
  - intros budget c depth alpha beta m r st' c' H.
    eapply (minimax_frame budget depth); eauto.
  - intros. apply quiescence_total; [exact Hwf |].
    pose proof (pieceCount_le (board st)) as H. rewrite Hwf in H. lia.
  - intros. apply minimax_total; [exact Hwf | lia].
Qed.

Lemma search_restores_position_witness :
  wf capturePosition
  /\ exists r c',
      minimax 68 capturePosition emptyCache 2 (-100000) 100000 true
      = Some (r, capturePosition, c').
Proof.
  split; [reflexivity |].
  exact (proj2 (proj2 (proj2 (search_restores_position capturePosition eq_refl)))
           emptyCache 2%nat (-100000) 100000 true).
Defined.

(** The same search evaluated: depth two from [capturePosition]. *)
Example minimax_capturePosition :
  match minimax 68 capturePosition emptyCache 2 (-100000) 100000 true with
  | Some (r, st', _) => r = 165 /\ st' = capturePosition
  | None => False
  end.
Proof. vm_compute. split; reflexivity. Qed.

(** ** C9: quiescence terminates *)

(** C9.  [quiescence] returns on every position once its budget of nested
    calls exceeds the number of pieces on the board, which is at most 64:
    it calls itself only after a capture (the destination holds an enemy
    piece; otherwise the iteration goes on without a recursive call), and
    the board it recurses on has exactly one piece less. *)
Theorem quiescence_terminates (st : GameState) (Hwf : wf st) :
  (forall budget c alpha beta m,
      (pieceCount (board st) < budget)%nat ->
      exists r c', quiescence budget st c alpha beta m = Some (r, st, c'))
  /\ (pieceCount (board st) <= 64)%nat
  /\ (forall rec isMax fr fc tr tc c alpha beta,
      negb (Ascii.eqb (peek st tr tc) EMPTY)
      && ((isMax && islower (peek st tr tc)) || (negb isMax && isupper (peek st tr tc)))
      = false ->
      quiescence_capture rec isMax fr fc (tr, tc) st c alpha beta
      = Some (Running alpha beta, st, c))
  /\ (forall isMax fr fc tr tc,
      inBoard fr fc = true -> inBoard tr tc = true ->
      ownPiece isMax (peek st fr fc) = true ->
      (isMax && islower (peek st tr tc)) || (negb isMax && isupper (peek st tr tc)) = true ->
      (pieceCount (board (poke (poke st tr tc (peek st fr fc)) fr fc EMPTY)) + 1
       = pieceCount (board st))%nat).
Proof.
  repeat split.
  - intros. now apply quiescence_total.
  - pose proof (pieceCount_le (board st)) as H. now rewrite Hwf in H.
  - intros rec isMax fr fc tr tc c alpha beta H.
    unfold quiescence_capture. now rewrite H.
  - intros isMax fr fc tr tc Hf Ht Ho Hc.
    exact (capture_pieceCount st isMax fr fc tr tc Hwf Hf Ht Ho Hc).
Qed.

Lemma quiescence_terminates_witness :
  wf capturePosition
  /\ exists r c',
      quiescence 5 capturePosition emptyCache (-100000) 100000 true
      = Some (r, capturePosition, c').
Proof.
  split; [reflexivity |].
  apply (proj1 (quiescence_terminates capturePosition eq_refl)).
  vm_compute. lia.
Defined.

(** ** C10: the legality query is observationally pure *)

(** C10.  [isValidMove] returns with the game state equal to the state at the
    call, for every position and every four coordinates, accepted or not;
    so do the simulation of the move in [doesMovePutKingInCheck] and the
    attack detection that toggles the side to move. *)
Theorem isValidMove_restores_state (st : GameState) (fromRow fromCol toRow toCol : Z)
    (Hwf : wf st) :
  snd (isValidMove st fromRow fromCol toRow toCol) = st
  /\ (inBoard fromRow fromCol = true -> inBoard toRow toCol = true ->
      snd (doesMovePutKingInCheck st fromRow fromCol toRow toCol) = st)
  /\ (forall row col byWhite, snd (isSquareAttacked st row col byWhite) = st).
Proof.
  repeat split.
  - now apply isValidMove_frame.
  - intros. now apply doesMovePutKingInCheck_frame.
  - intros. now apply isSquareAttacked_frame.
Qed.

Lemma isValidMove_restores_state_witness :
  wf initializeGameState
  /\ isValidMove initializeGameState 6 4 4 4 = (true, initializeGameState)
  /\ snd (isValidMove initializeGameState 6 4 3 4) = initializeGameState.
Proof.
  split; [reflexivity |]. split.
  - pose proof (proj1 (isValidMove_restores_state initializeGameState 6 4 4 4 eq_refl)) as H.
    destruct (isValidMove initializeGameState 6 4 4 4) as [b st'] eqn:E.
    simpl in H. subst st'.
    replace b with (fst (isValidMove initializeGameState 6 4 4 4)) by now rewrite E.
    reflexivity.
  - exact (proj1 (isValidMove_restores_state initializeGameState 6 4 3 4 eq_refl)).
Defined.

(** ** C8: draws *)

(** C8.  [isDraw] is true exactly when [isStalemate] is true, or
    [isInsufficientMaterial] is true, or the halfmove clock is at least 100;
    [isThreefoldRepetition] is false on every position, so the fourth
    disjunct never contributes. *)
Theorem isDraw_spec (st : GameState) (Hwf : wf st) :
  fst (isDraw st)
  = fst (isStalemate st) || isInsufficientMaterial st || (100 <=? halfmoveClock st)
  /\ (fst (isDraw st) = true <->
      fst (isStalemate st) = true \/ isInsufficientMaterial st = true
      \/ 100 <= halfmoveClock st)
  /\ (forall st', isThreefoldRepetition st' = false).
Proof.
  assert (fst (isDraw st)
          = fst (isStalemate st) || isInsufficientMaterial st
            || (100 <=? halfmoveClock st)) as E.
  { unfold isDraw.
    pose proof (isStalemate_frame st Hwf) as H.
    destruct (isStalemate st) as [b st']. simpl in H. subst st'. simpl.
    destruct b; [reflexivity |].
    destruct (isInsufficientMaterial st); [reflexivity |].
    unfold isFiftyMoveRule, isThreefoldRepetition. rewrite Z.geb_leb.
    now destruct (100 <=? halfmoveClock st). }
  split; [exact E |]. split; [| reflexivity].
  rewrite E, !orb_true_iff, Z.leb_le. tauto.
Qed.

Lemma isDraw_spec_witness :
  wf (withClocks initializeGameState 100 60)
  /\ fst (isDraw (withClocks initializeGameState 100 60)) = true.
Proof.
  split; [reflexivity |].
  apply (proj1 (proj2 (isDraw_spec (withClocks initializeGameState 100 60) eq_refl))).
  right. right. simpl. lia.
Defined.

(** ** What an accepted move satisfies *)

Lemma toupper_lower c X :
  Ascii.eqb (toupper c) X = true -> isupper X = true -> isupper c = false ->
  islower c = true.
Proof.
  unfold toupper. destruct (islower c); [reflexivity |].
  intros E HX Hc. apply Ascii.eqb_eq in E. subst X. congruence.
Qed.

Lemma isValidMove_true st fr fc tr tc :
  wf st -> fst (isValidMove st fr fc tr tc) = true ->
  inBoard fr fc = true /\ inBoard tr tc = true
  /\ ownPiece (isWhiteTurn st) (peek st fr fc) = true
  /\ ownPiece (isWhiteTurn st) (peek st tr tc) = false
  /\ (Ascii.eqb (toupper (peek st fr fc)) WHITE_KING = true ->
      fst (isValidKingMove st fr fc tr tc) = true).
Proof.
  intros Hw H. unfold isValidMove in H.
  destruct (negb (inBoard fr fc) || negb (inBoard tr tc)) eqn:Hb; [discriminate |].
  assert (inBoard fr fc = true /\ inBoard tr tc = true) as [Hf Ht].
  { destruct (inBoard fr fc), (inBoard tr tc); simpl in Hb; auto; discriminate. }
  destruct (Ascii.eqb (peek st fr fc) EMPTY) eqn:He; [discriminate |].
  destruct (isWhiteTurn st && negb (isupper (peek st fr fc))) eqn:H1; [discriminate |].
  destruct (negb (isWhiteTurn st) && isupper (peek st fr fc)) eqn:H2; [discriminate |].
  destruct (isWhiteTurn st && isupper (peek st tr tc)) eqn:H3; [discriminate |].
  destruct (negb (isWhiteTurn st) && islower (peek st tr tc)) eqn:H4; [discriminate |].
  split; [exact Hf |]. split; [exact Ht |].
  assert (ownPiece (isWhiteTurn st) (peek st tr tc) = false) as Hdest.
  { unfold ownPiece. destruct (isWhiteTurn st); simpl in *; now rewrite ?H3, ?H4. }
  destruct (Ascii.eqb (toupper (peek st fr fc)) WHITE_PAWN) eqn:Tp;
  [| destruct (Ascii.eqb (toupper (peek st fr fc)) WHITE_ROOK) eqn:Tr;
  [| destruct (Ascii.eqb (toupper (peek st fr fc)) WHITE_KNIGHT) eqn:Tn;
  [| destruct (Ascii.eqb (toupper (peek st fr fc)) WHITE_BISHOP) eqn:Tb;
  [| destruct (Ascii.eqb (toupper (peek st fr fc)) WHITE_QUEEN) eqn:Tq;
  [| destruct (Ascii.eqb (toupper (peek st fr fc)) WHITE_KING) eqn:Tk;
  [| discriminate ]]]]]].
  all: (split; [| split; [exact Hdest |]]).
  all: try (intros Hk; apply Ascii.eqb_eq in Hk;
            match goal with T : Ascii.eqb _ _ = true |- _ =>
              apply Ascii.eqb_eq in T; rewrite T in Hk; discriminate end).
  all: try (unfold ownPiece; destruct (isWhiteTurn st); simpl in *;
            [ destruct (isupper (peek st fr fc)); [reflexivity | discriminate]
            | match goal with T : Ascii.eqb (toupper _) ?X = true |- _ =>
                rewrite (toupper_lower _ X T eq_refl H2); reflexivity end ]).
  intros _.
  pose proof (isValidKingMove_frame st fr fc tr tc Hw) as K.
  destruct (isValidKingMove st fr fc tr tc) as [v st']. simpl in K. subst st'.
  simpl in *. destruct v; [reflexivity | discriminate].
Qed.

Lemma ownKing w p :
  ownPiece w p = true -> Ascii.eqb (toupper p) WHITE_KING = true ->
  p = kingOf w /\ isupper p = w.
Proof.
  unfold ownPiece, toupper. intros Ho Hk. destruct w; simpl in *.
  - rewrite orb_false_r in Ho. rewrite (upper_not_lower _ Ho) in Hk.
    apply Ascii.eqb_eq in Hk. now subst p.
  - destruct (islower p) eqn:L; [| discriminate].
    apply Ascii.eqb_eq in Hk.
    assert (code p = 107) as Hc.
    { assert (code (chr (code p - 32)) = 75) as E by now rewrite Hk.
      unfold islower, code, chr in *. rewrite N_ascii_embedding in E; lia. }
    assert (p = "k"%char) as ->.
    { rewrite <- (ascii_N_embedding p). unfold code in Hc.
      replace (N_of_ascii p) with 107%N by lia. reflexivity. }
    split; reflexivity.
Qed.

(** ** Uniqueness of the king *)

Lemma filter_le1_unique {A : Type} (f : A -> bool) (l : list A) x y :
  (length (List.filter f l) <= 1)%nat ->
  In x l -> In y l -> f x = true -> f y = true -> x = y.
Proof.
  induction l as [| a rest IH]; intros Hlen Hx Hy Fx Fy; [contradiction |].
  simpl in Hlen. destruct (f a) eqn:Fa.
  - simpl in Hlen.
    assert (List.filter f rest = []) as Hnil
      by (destruct (List.filter f rest); [reflexivity | simpl in Hlen; lia]).
    assert (forall z, In z rest -> f z = true -> False) as Hno.
    { intros z Hz Fz.
      assert (In z (List.filter f rest)) as Hin by (apply filter_In; auto).
      rewrite Hnil in Hin. contradiction. }
    destruct Hx as [-> | Hx]; [| exfalso; eauto].
    destruct Hy as [-> | Hy]; [reflexivity | exfalso; eauto].
  - destruct Hx as [-> | Hx]; [congruence |].
    destruct Hy as [-> | Hy]; [congruence |].
    now apply IH.
Qed.

Lemma findPiece_unique b p r c r' c' :
  (countPiece b p <= 1)%nat -> findPiece b p = Some (r, c) ->
  inBoard r' c' = true -> getSq b r' c' = p -> (r', c') = (r, c).
Proof.
  intros Hcnt Hfind Hb Hp. unfold findPiece in Hfind.
  apply find_some in Hfind. destruct Hfind as [Hin Hf].
  apply (filter_le1_unique _ allSquares (r', c') (r, c) Hcnt).
  - now apply In_allSquares.
  - exact Hin.
  - simpl. now apply Ascii.eqb_eq.
  - exact Hf.
Qed.

Lemma findPiece_exists b p r c :
  inBoard r c = true -> getSq b r c = p -> exists sq, findPiece b p = Some sq.
Proof.
  intros Hb Hp. unfold findPiece.
  destruct (find _ allSquares) as [sq |] eqn:E; [eauto |].
  exfalso.
  pose proof (find_none _ _ E (r, c)) as H. simpl in H.
  rewrite Hp, Ascii.eqb_refl in H.
  assert (true = false) by (apply H; now apply In_allSquares). discriminate.
Qed.

(** ** C3: checkmate and stalemate *)

Lemma anyValidMoveFrom_true st fr fc :
  wf st ->
  (fst (anyValidMoveFrom st fr fc) = true <->
   exists tr tc, inBoard tr tc = true /\ fst (isValidMove st fr fc tr tc) = true).
Proof.
  intros Hw. unfold anyValidMoveFrom.
  rewrite anySquare_value; [| intros; now apply isValidMove_frame | exact Hw].
  rewrite existsb_exists. split.
  - intros [[tr tc] [Hin H]]. exists tr, tc. split; [now apply In_allSquares | exact H].
  - intros (tr & tc & Hb & H). exists (tr, tc). split; [now apply In_allSquares | exact H].
Qed.

Lemma isStalemate_value st :
  wf st ->
  fst (isStalemate st)
  = negb (fst (isInCheck st (isWhiteTurn st)))
    && negb (existsb (fun sq =>
         ownPiece (isWhiteTurn st) (peek st (fst sq) (snd sq))
         && fst (anyValidMoveFrom st (fst sq) (snd sq))) allSquares).
Proof.
  intros Hw. unfold isStalemate.
  pose proof (isInCheck_frame st (isWhiteTurn st) Hw) as H.
  destruct (isInCheck st (isWhiteTurn st)) as [b st']. simpl in H. subst st'.
  cbv beta iota.
  destruct b; [reflexivity |].
  change (negb (false, st).1) with true. rewrite andb_true_l.
  match goal with |- context [ anySquare ?body ?l st ] =>
    pose proof (anySquare_frame body l st) as K;
    pose proof (anySquare_value body l st) as V;
    destruct (anySquare body l st) as [a st'] end.
  cbn [fst snd] in K, V.
  assert (forall st0 sq, In sq allSquares -> wf st0 ->
            snd (let '(fromRow, fromCol) := sq in
                 if ownPiece (isWhiteTurn st0) (peek st0 fromRow fromCol)
                 then anyValidMoveFrom st0 fromRow fromCol else (false, st0)) = st0) as Hb.
  { intros st0 [r c] _ Hw0. destruct (ownPiece _ _); [| reflexivity].
    now apply anyValidMoveFrom_frame. }
  rewrite (K Hb Hw). rewrite (V Hb Hw).
  assert (forall (f g : Z * Z -> bool) l, (forall x, f x = g x) -> existsb f l = existsb g l)
    as Hext by (intros f g l E; induction l; simpl; [| rewrite E, IHl]; reflexivity).
  match goal with
  | |- context [ if existsb ?f allSquares then _ else _ ] =>
    rewrite (Hext f (fun sq => ownPiece (isWhiteTurn st) (peek st (fst sq) (snd sq))
                              && fst (anyValidMoveFrom st (fst sq) (snd sq))))
  end.
  - match goal with |- context [ if ?e then _ else _ ] => now destruct e end.
  - intros [r c]. simpl. now destruct (ownPiece _ _).
Qed.

Lemma existsb_false {A : Type} (f : A -> bool) l :
  existsb f l = false <-> forall x, In x l -> f x = false.
Proof.
  induction l as [| a rest IH]; simpl.
  - split; [intros _ x [] | reflexivity].
  - rewrite orb_false_iff, IH. split.
    + intros [Ha Hr] x [-> | Hx]; auto.
    + intros H. split; [apply H; now left | intros x Hx; apply H; now right].
Qed.

Lemma isCheckmate_value st :
  wf st ->
  fst (isCheckmate st)
  = fst (isInCheck st (isWhiteTurn st))
    && negb (match findPiece (board st) (kingOf (isWhiteTurn st)) with
             | Some (kingRow, kingCol) =>
               existsb (fun d =>
                 negb ((fst d =? 0) && (snd d =? 0))
                 && inBoard (kingRow + fst d) (kingCol + snd d)
                 && fst (isValidMove st kingRow kingCol (kingRow + fst d) (kingCol + snd d)))
                 kingSteps
             | None => false
             end)
    && negb (existsb (fun sq =>
         ownPiece (isWhiteTurn st) (peek st (fst sq) (snd sq))
         && negb (Ascii.eqb (toupper (peek st (fst sq) (snd sq))) WHITE_KING)
         && fst (anyValidMoveFrom st (fst sq) (snd sq))) allSquares).
Proof.
  intros Hw. unfold isCheckmate.
  pose proof (isInCheck_frame st (isWhiteTurn st) Hw) as H.
  destruct (isInCheck st (isWhiteTurn st)) as [b st']. simpl in H. subst st'.
  cbv beta iota.
  destruct b; [| reflexivity].
  change ((true, st).1) with true. change (negb true) with false.
  cbv iota. rewrite andb_true_l.
  assert (forall (f g : Z * Z -> bool) l, (forall x, f x = g x) -> existsb f l = existsb g l)
    as Hext by (intros f g l E; induction l; simpl; [| rewrite E, IHl]; reflexivity).
  match goal with
  | |- context [ let '(_, _) := ?esc in _ ] =>
    assert (snd esc = st) as He;
    [| assert (fst esc
               = match findPiece (board st) (kingOf (isWhiteTurn st)) with
                 | Some (kingRow, kingCol) =>
                   existsb (fun d =>
                     negb ((fst d =? 0) && (snd d =? 0))
                     && inBoard (kingRow + fst d) (kingCol + snd d)
                     && fst (isValidMove st kingRow kingCol
                               (kingRow + fst d) (kingCol + snd d))) kingSteps
                 | None => false
                 end) as Ve;
       [| destruct esc as [e st'] ] ]
  end.
  - destruct (findPiece _ _) as [[kr kc] |]; [| reflexivity].
    apply anySquare_frame; [| exact Hw].
    intros st0 [dr dc] _ Hw0.
    destruct (_ && _); [reflexivity |].
    destruct (inBoard _ _); [| reflexivity].
    now apply isValidMove_frame.
  - destruct (findPiece _ _) as [[kr kc] |]; [| reflexivity].
    rewrite anySquare_value; [| | exact Hw].
    + apply Hext. intros [dr dc]. simpl.
      destruct ((dr =? 0) && (dc =? 0)); [reflexivity |].
      now destruct (inBoard _ _).
    + intros st0 [dr dc] _ Hw0.
      destruct (_ && _); [reflexivity |].
      destruct (inBoard _ _); [| reflexivity].
      now apply isValidMove_frame.
  - cbn [fst snd] in He, Ve. subst st'. rewrite <- Ve.
    destruct e; [reflexivity |]. change (negb false) with true. rewrite andb_true_l.
    match goal with |- context [ anySquare ?body ?l st ] =>
      pose proof (anySquare_frame body l st) as K;
      pose proof (anySquare_value body l st) as V;
      destruct (anySquare body l st) as [a st'] end.
    cbn [fst snd] in K, V.
    assert (forall st0 sq, In sq allSquares -> wf st0 ->
              snd (let '(fromRow, fromCol) := sq in
                   if ownPiece (isWhiteTurn st) (peek st0 fromRow fromCol)
                   then if Ascii.eqb (toupper (peek st0 fromRow fromCol)) WHITE_KING
                        then (false, st0) else anyValidMoveFrom st0 fromRow fromCol
                   else (false, st0)) = st0) as Hb.
    { intros st0 [r c] _ Hw0. destruct (ownPiece _ _); [| reflexivity].
      destruct (Ascii.eqb _ _); [reflexivity |].
      now apply anyValidMoveFrom_frame. }
    rewrite (K Hb Hw). rewrite (V Hb Hw).
    match goal with
    | |- context [ if existsb ?f allSquares then _ else _ ] =>
      rewrite (Hext f (fun sq =>
         ownPiece (isWhiteTurn st) (peek st (fst sq) (snd sq))
         && negb (Ascii.eqb (toupper (peek st (fst sq) (snd sq))) WHITE_KING)
         && fst (anyValidMoveFrom st (fst sq) (snd sq))))
    end.
    + match goal with |- context [ if ?e then _ else _ ] => now destruct e end.
    + intros [r c]. simpl. destruct (ownPiece _ _); [| reflexivity].
      now destruct (Ascii.eqb _ _).
Qed.

Lemma no_move_existsb st (f : Z * Z -> bool) :
  wf st -> ~ legalMoveExists st ->
  (forall sq, f sq = true -> fst (anyValidMoveFrom st (fst sq) (snd sq)) = true) ->
  existsb f allSquares = false.
Proof.
  intros Hw Hno Hf. apply existsb_false. intros sq _.
  destruct (f sq) eqn:E; [| reflexivity].
  exfalso. apply Hno. apply Hf in E.
  apply anyValidMoveFrom_true in E; [| exact Hw].
  destruct E as (tr & tc & _ & H). now exists (fst sq), (snd sq), tr, tc.
Qed.

(** C3.  On a board with at most one king of the side to move (the Position
    invariant of the data model), [isCheckmate] is true exactly when the side
    to move is in check and the legality query accepts no pair of squares,
    and [isStalemate] is true exactly when the side to move is not in check
    and the legality query accepts no pair of squares. *)
Theorem isCheckmate_isStalemate_spec (st : GameState)
    (Hwf : wf st)
    (Hking : (countPiece (board st) (kingOf (isWhiteTurn st)) <= 1)%nat) :
  (fst (isCheckmate st) = true <->
   fst (isInCheck st (isWhiteTurn st)) = true /\ ~ legalMoveExists st)
  /\ (fst (isStalemate st) = true <->
      fst (isInCheck st (isWhiteTurn st)) = false /\ ~ legalMoveExists st).
Proof.
  split.
  - rewrite isCheckmate_value by exact Hwf.
    rewrite !andb_true_iff, !negb_true_iff. split.
    + intros [[Hc Hesc] Hoth]. split; [exact Hc |].
      intros (fr & fc & tr & tc & Hv).
      destruct (isValidMove_true st fr fc tr tc Hwf Hv) as (Hf & Ht & Hown & Hdest & Hk).
      destruct (Ascii.eqb (toupper (peek st fr fc)) WHITE_KING) eqn:Tk.
      * (* the king moves *)
        destruct (ownKing _ _ Hown Tk) as [Pk Pu].
        destruct (findPiece_exists (board st) _ fr fc Hf Pk) as [[kr kc] Hfind].
        pose proof (findPiece_unique _ _ _ _ _ _ Hking Hfind Hf Pk) as E.
        inversion E; subst kr kc. rewrite Hfind in Hesc.
        specialize (Hk eq_refl). unfold isValidKingMove in Hk.
        destruct ((Z.abs (tr - fr) <=? 1) && (Z.abs (tc - fc) <=? 1)) eqn:Near.
        -- rewrite existsb_false in Hesc.
           specialize (Hesc (tr - fr, tc - fc)). simpl in Hesc.
           replace (fr + (tr - fr)) with tr in Hesc by lia.
           replace (fc + (tc - fc)) with tc in Hesc by lia.
           rewrite Ht, Hv in Hesc.
           assert ((tr - fr =? 0) && (tc - fc =? 0) = false) as Z0.
           { destruct ((tr - fr =? 0) && (tc - fc =? 0)) eqn:Z0; [| reflexivity].
             assert (tr = fr /\ tc = fc) as [-> ->] by lia. congruence. }
           rewrite Z0 in Hesc. simpl in Hesc.
           assert (true = false); [| discriminate].
           apply Hesc. apply In_kingSteps. lia.
        -- destruct ((Z.abs (fc - tc) =? 2) && (fr =? tr)); [| discriminate].
           unfold isValidCastling in Hk.
           destruct (_ || _ || _); [discriminate |].
           destruct (_ || _); [discriminate |].
           rewrite Pu in Hk.
           pose proof (isInCheck_frame st (isWhiteTurn st) Hwf) as K.
           destruct (isInCheck st (isWhiteTurn st)) as [ic st']. simpl in K, Hc.
           subst st' ic. discriminate.
      * (* another piece moves *)
        rewrite existsb_false in Hoth.
        specialize (Hoth (fr, fc) (proj2 (In_allSquares fr fc) Hf)). simpl in Hoth.
        rewrite Hown, Tk in Hoth. simpl in Hoth.
        assert (fst (anyValidMoveFrom st fr fc) = true); [| congruence].
        apply anyValidMoveFrom_true; [exact Hwf |]. now exists tr, tc.
    + intros [Hc Hno]. repeat split; [exact Hc | |].
      * destruct (findPiece _ _) as [[kr kc] |]; [| reflexivity].
        apply existsb_false. intros [dr dc] _. simpl.
        destruct (isValidMove st kr kc (kr + dr) (kc + dc)) as [v st'] eqn:E.
        destruct v; [| now rewrite andb_false_r].
        exfalso. apply Hno. exists kr, kc, (kr + dr), (kc + dc). now rewrite E.
      * apply (no_move_existsb st); auto.
        intros sq H. now apply andb_prop in H.
  - rewrite isStalemate_value by exact Hwf.
    rewrite andb_true_iff, !negb_true_iff. split.
    + intros [Hc Hoth]. split; [exact Hc |].
      intros (fr & fc & tr & tc & Hv).
      destruct (isValidMove_true st fr fc tr tc Hwf Hv) as (Hf & Ht & Hown & _).
      rewrite existsb_false in Hoth.
      specialize (Hoth (fr, fc) (proj2 (In_allSquares fr fc) Hf)). simpl in Hoth.
      rewrite Hown in Hoth. simpl in Hoth.
      assert (fst (anyValidMoveFrom st fr fc) = true); [| congruence].
      apply anyValidMoveFrom_true; [exact Hwf |]. now exists tr, tc.
    + intros [Hc Hno]. split; [exact Hc |].
      apply (no_move_existsb st); auto.
      intros sq H. now apply andb_prop in H.
Qed.

Lemma isCheckmate_isStalemate_spec_witness :
  wf foolsMate
  /\ (countPiece (board foolsMate) (kingOf (isWhiteTurn foolsMate)) <= 1)%nat
  /\ fst (isInCheck foolsMate (isWhiteTurn foolsMate)) = true
  /\ ~ legalMoveExists foolsMate.
Proof.
  assert (wf foolsMate) as Hw by reflexivity.
  assert (countPiece (board foolsMate) (kingOf (isWhiteTurn foolsMate)) <= 1)%nat as Hk
    by (vm_compute; lia).
  split; [exact Hw |]. split; [exact Hk |].
  apply (proj1 (proj1 (isCheckmate_isStalemate_spec foolsMate Hw Hk))).
  vm_compute. reflexivity.
Defined.

(** The checkmate scenario of the specification. *)
Example foolsMate_is_checkmate :
  fst (isCheckmate foolsMate) = true /\ fst (isStalemate foolsMate) = false.
Proof. vm_compute. split; reflexivity. Qed.

(** ** Attack detection as a test over the squares *)

Lemma existsb_ext {A : Type} (f g : A -> bool) l :
  (forall x, In x l -> f x = g x) -> existsb f l = existsb g l.
Proof.
  induction l as [| a rest IH]; intros H; simpl; [reflexivity |].
  rewrite (H a (or_introl eq_refl)), IH; [reflexivity |].
  intros x Hx. apply H. now right.
Qed.

Lemma isSquareAttacked_value st row col byWhite :
  wf st ->
  fst (isSquareAttacked st row col byWhite) = existsb (attacks st byWhite row col) allSquares.
Proof.
  intros Hw. unfold isSquareAttacked.
  rewrite anySquare_value; [| intros; apply isSquareAttacked_body_frame | exact Hw].
  apply existsb_ext. intros [i j] _.
  unfold isSquareAttacked_body, attacks. simpl.
  destruct (negb _ && _); reflexivity.
Qed.

Lemma isInCheck_value st w r c :
  wf st -> findPiece (board st) (kingOf w) = Some (r, c) ->
  fst (isInCheck st w) = existsb (attacks st (negb w) r c) allSquares.
Proof.
  intros Hw Hf. unfold isInCheck. rewrite Hf. now apply isSquareAttacked_value.
Qed.

(** ** Ray walks on boards that agree along the ray *)

Lemma rookWalk_agree (Inv : Z -> Z -> Prop) b b' rs cs tr tc :
  (forall r c, Inv r c -> negb (r =? tr) || negb (c =? tc) = true -> inBoard r c = true ->
               getSq b r c = getSq b' r c /\ Inv (r + rs) (c + cs)) ->
  forall n r c, Inv r c -> rookWalk n b r c rs cs tr tc = rookWalk n b' r c rs cs tr tc.
Proof.
  intros Hstep. induction n as [| n IH]; intros r c Hi; simpl; [reflexivity |].
  destruct (negb (r =? tr) || negb (c =? tc)) eqn:Hc; [| reflexivity].
  destruct (inBoard r c) eqn:Hb; [| reflexivity]. simpl.
  destruct (Hstep r c Hi Hc Hb) as [E Hi']. rewrite E.
  destruct (negb (Ascii.eqb _ _)); [reflexivity |]. now apply IH.
Qed.

Lemma bishopWalk_agree (Inv : Z -> Z -> Prop) b b' rs cs tr tc :
  (forall r c, Inv r c -> negb (r =? tr) && negb (c =? tc) = true -> inBoard r c = true ->
               getSq b r c = getSq b' r c /\ Inv (r + rs) (c + cs)) ->
  forall n r c, Inv r c -> bishopWalk n b r c rs cs tr tc = bishopWalk n b' r c rs cs tr tc.
Proof.
  intros Hstep. induction n as [| n IH]; intros r c Hi; simpl; [reflexivity |].
  destruct (negb (r =? tr) && negb (c =? tc)) eqn:Hc; [| reflexivity].
  destruct (inBoard r c) eqn:Hb; [| reflexivity]. simpl.
  destruct (Hstep r c Hi Hc Hb) as [E Hi']. rewrite E.
  destruct (negb (Ascii.eqb _ _)); [reflexivity |]. now apply IH.
Qed.

(** A walk along a rank that is clear up to column [stop'] is clear up to
    any column [stop <= stop'] in between, on boards that agree before it. *)
Lemma rookWalk_prefix b b' row stop stop' :
  stop <= stop' ->
  (forall c, c < stop -> inBoard row c = true -> getSq b' row c = getSq b row c) ->
  forall n c, c <= stop ->
    rookWalk n b' row c 0 1 row stop' = true -> rookWalk n b row c 0 1 row stop = true.
Proof.
  intros Hs Hag. induction n as [| n IH]; intros c Hc H; simpl in *; [discriminate |].
  rewrite Z.eqb_refl in *. simpl in *.
  destruct (c =? stop) eqn:E1; simpl; [reflexivity |].
  destruct (c =? stop') eqn:E2; simpl in H; [lia |].
  destruct (inBoard row c) eqn:Hb; simpl in *; [| discriminate].
  rewrite <- (Hag c) by (auto; lia).
  destruct (negb (Ascii.eqb _ _)); [discriminate |].
  replace (row + 0) with row in * by lia.
  apply IH; [lia | exact H].
Qed.

Lemma peek_poke st r c x r' c' :
  wf st -> inBoard r c = true -> inBoard r' c' = true ->
  peek (poke st r c x) r' c' = if (r =? r') && (c =? c') then x else peek st r' c'.
Proof. intros Hw H H'. unfold peek, poke. simpl. now apply getSq_setSq. Qed.

Lemma isValidRookMove_rank st r a t :
  a < t -> isValidRookMove st r a r t = rookWalk walkBudget (board st) r (a + 1) 0 1 r t.
Proof.
  intros H. unfold isValidRookMove.
  rewrite Z.eqb_refl. simpl.
  destruct (Z.eqb_spec a t); [lia |].
  rewrite !Z.gtb_ltb, Z.ltb_irrefl.
  destruct (Z.ltb_spec a t); [| lia].
  replace (r + 0) with r by lia. reflexivity.
Qed.

Lemma isValidRookMove_file st a c t :
  a < t -> isValidRookMove st a c t c = rookWalk walkBudget (board st) (a + 1) c 1 0 t c.
Proof.
  intros H. unfold isValidRookMove.
  rewrite Z.eqb_refl. rewrite andb_false_r.
  destruct (Z.eqb_spec a t); [lia |]. simpl.
  rewrite !Z.gtb_ltb, Z.ltb_irrefl.
  destruct (Z.ltb_spec a t); [| lia].
  replace (c + 0) with c by lia. reflexivity.
Qed.

Lemma isValidRookMove_aligned st fr fc tr tc :
  isValidRookMove st fr fc tr tc = true -> fr = tr \/ fc = tc.
Proof.
  unfold isValidRookMove.
  destruct (Z.eqb_spec fr tr); [auto |].
  destruct (Z.eqb_spec fc tc); [auto |]. discriminate.
Qed.

(** ** Castling on the king's side: the simulated king move *)

Section KingsideCastling.

Variable st : GameState.
Hypothesis Hwf : wf st.
Hypothesis Hking : peek st 7 4 = WHITE_KING.
Hypothesis Hf1 : peek st 7 5 = EMPTY.
Hypothesis Hg1 : peek st 7 6 = EMPTY.
Hypothesis Hone : (countPiece (board st) WHITE_KING <= 1)%nat.

Lemma castled_wf : wf (castled st).
Proof. unfold castled. now rewrite !wf_poke. Qed.

Lemma castled_peek r c :
  inBoard r c = true ->
  peek (castled st) r c
  = if (r =? 7) && (c =? 4) then EMPTY
    else if (r =? 7) && (c =? 6) then WHITE_KING else peek st r c.
Proof.
  intros H. unfold castled.
  rewrite peek_poke; [| now rewrite wf_poke | reflexivity | exact H].
  rewrite Z.eqb_sym, (Z.eqb_sym 4).
  destruct ((r =? 7) && (c =? 4)); [reflexivity |].
  rewrite peek_poke; [| exact Hwf | reflexivity | exact H].
  rewrite Z.eqb_sym, (Z.eqb_sym 6), Hking. reflexivity.
Qed.

Lemma castled_peek_other r c :
  inBoard r c = true -> r <> 7 -> getSq (board (castled st)) r c = getSq (board st) r c.
Proof.
  intros H Hr. change (peek (castled st) r c = peek st r c).
  rewrite castled_peek by exact H.
  destruct (Z.eqb_spec r 7); [contradiction | reflexivity].
Qed.

Lemma castled_rook i j :
  inBoard i j = true -> (i, j) <> (7, 4) -> peek st i j <> EMPTY ->
  isValidRookMove (castled st) i j 7 6 = true ->
  isValidRookMove st i j 7 6 = true \/ (i = 7 /\ isValidRookMove st i j 7 4 = true).
Proof.
  intros Hb Hne Hp H.
  pose proof (proj1 (inBoard_spec i j) Hb) as [Hi Hj].
  destruct (isValidRookMove_aligned _ _ _ _ _ H) as [-> | ->].
  - (* on the first rank *)
    assert (j <> 4) by congruence.
    assert (j <> 5) by (intros ->; congruence).
    assert (j <> 6) by (intros ->; congruence).
    destruct (Z.eq_dec j 7) as [-> | Hj7]; [left; reflexivity |].
    right. split; [reflexivity |].
    rewrite isValidRookMove_rank in * by lia.
    revert H. apply rookWalk_prefix; [lia | | lia].
    intros c Hc Hcb. change (peek (castled st) 7 c = peek st 7 c).
    rewrite castled_peek by exact Hcb.
    destruct (Z.eqb_spec c 4); [lia |]. simpl.
    destruct (Z.eqb_spec c 6); [lia | reflexivity].
  - (* on the g file *)
    assert (i <> 7) by (intros ->; congruence).
    left. rewrite isValidRookMove_file in * by lia.
    rewrite <- H. symmetry.
    apply (rookWalk_agree (fun _ c => c = 6)); [| reflexivity].
    intros r c -> Hc Hrb. split; [| lia].
    apply castled_peek_other; [exact Hrb |].
    rewrite Z.eqb_refl in Hc. simpl in Hc. rewrite orb_false_r in Hc. lia.
Qed.

Lemma castled_bishop i j :
  isValidBishopMove (castled st) i j 7 6 = isValidBishopMove st i j 7 6.
Proof.
  unfold isValidBishopMove.
  destruct (negb _); [reflexivity |].
  destruct (_ && _); [reflexivity |].
  apply (bishopWalk_agree (fun _ _ => True)); [| exact I].
  intros r c _ Hc Hrb. split; [| exact I].
  apply castled_peek_other; [exact Hrb |]. lia.
Qed.

Lemma castled_attacks sq :
  In sq allSquares -> attacks (castled st) false 7 6 sq = true ->
  attacks st false 7 6 sq = true \/ attacks st false 7 4 sq = true.
Proof.
  destruct sq as [i j]. intros Hin H. apply In_allSquares in Hin.
  unfold attacks in *. simpl fst in *. simpl snd in *.
  rewrite castled_peek in H by exact Hin.
  destruct ((i =? 7) && (j =? 4)) eqn:E4; [discriminate |].
  destruct ((i =? 7) && (j =? 6)) eqn:E6; [discriminate |].
  apply andb_prop in H. destruct H as [Hcol Hpat]. rewrite Hcol.
  assert (peek st i j <> EMPTY) as Hp.
  { intros E. rewrite E in Hcol. discriminate. }
  assert ((i, j) <> (7, 4)) as Hne by (intros E; inversion E; subst; discriminate).
  unfold attackPattern in *.
  destruct (Ascii.eqb (toupper (peek st i j)) WHITE_PAWN); [left; exact Hpat |].
  destruct (Ascii.eqb (toupper (peek st i j)) WHITE_ROOK).
  { destruct ((i =? 7) || (j =? 6)) eqn:G; [| discriminate].
    destruct (castled_rook i j Hin Hne Hp Hpat) as [R | [-> R]].
    - left. exact R.
    - right. simpl. exact R. }
  destruct (Ascii.eqb (toupper (peek st i j)) WHITE_KNIGHT); [left; exact Hpat |].
  destruct (Ascii.eqb (toupper (peek st i j)) WHITE_BISHOP).
  { left. destruct (Z.abs (i - 7) =? Z.abs (j - 6)); [| discriminate].
    now rewrite <- castled_bishop. }
  destruct (Ascii.eqb (toupper (peek st i j)) WHITE_QUEEN).
  { destruct ((i =? 7) || (j =? 6) || (Z.abs (i - 7) =? Z.abs (j - 6))) eqn:G;
      [| discriminate].
    unfold isValidQueenMove in *. apply orb_prop in Hpat.
    destruct Hpat as [R | B].
    - destruct (castled_rook i j Hin Hne Hp R) as [R' | [-> R']].
      + left. now rewrite R'.
      + right. simpl. now rewrite R'.
    - left. rewrite castled_bishop in B. rewrite B. apply orb_true_r. }
  left. exact Hpat.
Qed.

Lemma castled_findKing : findPiece (board (castled st)) WHITE_KING = Some (7, 6).
Proof.
  destruct (findPiece_exists (board (castled st)) WHITE_KING 7 6 eq_refl) as [[r c] Hfind].
  { change (peek (castled st) 7 6 = WHITE_KING). now rewrite castled_peek. }
  rewrite Hfind. f_equal.
  pose proof Hfind as Hin. unfold findPiece in Hin. apply find_some in Hin.
  destruct Hin as [Hin Hp]. simpl in Hp. apply In_allSquares in Hin.
  apply Ascii.eqb_eq in Hp. change (peek (castled st) r c = WHITE_KING) in Hp.
  rewrite castled_peek in Hp by exact Hin.
  destruct ((r =? 7) && (c =? 4)) eqn:E4; [discriminate |].
  destruct ((r =? 7) && (c =? 6)) eqn:E6.
  - assert (r = 7 /\ c = 6) as [-> ->] by lia. reflexivity.
  - exfalso.
    destruct (findPiece_exists (board st) WHITE_KING 7 4 eq_refl Hking) as [[kr kc] Hk].
    pose proof (findPiece_unique _ _ _ _ _ _ Hone Hk Hin Hp) as U1.
    pose proof (findPiece_unique _ _ _ _ 7 4 Hone Hk eq_refl Hking) as U2.
    assert (r = 7 /\ c = 4) as [-> ->] by (split; congruence).
    discriminate.
Qed.

Lemma st_findKing : findPiece (board st) WHITE_KING = Some (7, 4).
Proof.
  destruct (findPiece_exists (board st) WHITE_KING 7 4 eq_refl Hking) as [[kr kc] Hk].
  rewrite Hk. f_equal. symmetry.
  exact (findPiece_unique _ _ _ _ 7 4 Hone Hk eq_refl Hking).
Qed.

(** The king does not land on an attacked square if neither its square nor
    the landing square was attacked before it moved. *)
Lemma castled_safe :
  fst (isSquareAttacked st 7 4 false) = false ->
  fst (isSquareAttacked st 7 6 false) = false ->
  fst (isInCheck (castled st) true) = false.
Proof.
  intros A4 A6.
  rewrite isSquareAttacked_value in A4, A6 by exact Hwf.
  rewrite (isInCheck_value (castled st) true 7 6 castled_wf castled_findKing).
  rewrite existsb_false in *. intros sq Hin.
  destruct (attacks (castled st) (negb true) 7 6 sq) eqn:E; [| reflexivity].
  destruct (castled_attacks sq Hin E) as [H | H].
  - now rewrite (A6 sq Hin) in H.
  - now rewrite (A4 sq Hin) in H.
Qed.

End KingsideCastling.

(** ** C5: castling on the king's side *)

Lemma pair_of_parts {A B : Type} (p : A * B) a b : fst p = a -> snd p = b -> p = (a, b).
Proof. destruct p. simpl. congruence. Qed.

Lemma isSquareAttacked_false st r c w :
  wf st -> fst (isSquareAttacked st r c w) = false -> isSquareAttacked st r c w = (false, st).
Proof. intros Hw H. apply pair_of_parts; [exact H | now apply isSquareAttacked_frame]. Qed.

Lemma updateCastlingRights_frame st fr fc tr tc :
  board (updateCastlingRights st fr fc tr tc) = board st
  /\ isWhiteTurn (updateCastlingRights st fr fc tr tc) = isWhiteTurn st
  /\ halfmoveClock (updateCastlingRights st fr fc tr tc) = halfmoveClock st
  /\ fullmoveNumber (updateCastlingRights st fr fc tr tc) = fullmoveNumber st.
Proof.
  unfold updateCastlingRights.
  match goal with
  | |- context [ let '(_, _) := ?x in _ ] => destruct x as [[[wk wq] bk] bq]
  end.
  repeat split.
Qed.

Lemma updateCastlingRights_whiteKing st fr fc tr tc :
  peek st tr tc = WHITE_KING ->
  canWhiteCastleKingside (updateCastlingRights st fr fc tr tc) = false
  /\ canWhiteCastleQueenside (updateCastlingRights st fr fc tr tc) = false.
Proof.
  intros H. unfold updateCastlingRights. rewrite H. simpl.
  destruct ((tr =? 7) && (tc =? 0)), ((tr =? 7) && (tc =? 7)); split; reflexivity.
Qed.

(** C5.  White to move, the white king on (7,4) (the only white king) and a
    white rook on (7,7), both white castling rights intact, (7,5) and (7,6)
    empty, and (7,4), (7,5), (7,6) not attacked by black: the king move
    (7,4) to (7,6) is accepted, and [makeMove] puts the king on (7,6) and the
    rook on (7,5), empties (7,4) and (7,7), and clears both white castling
    rights. *)
Theorem kingside_castling (st : GameState) (input : list ascii)
    (Hwf : wf st)
    (Hturn : isWhiteTurn st = true)
    (Hking : peek st 7 4 = WHITE_KING)
    (Hone : (countPiece (board st) WHITE_KING <= 1)%nat)
    (Hrook : peek st 7 7 = WHITE_ROOK)
    (Hks : canWhiteCastleKingside st = true)
    (Hqs : canWhiteCastleQueenside st = true)
    (Hf1 : peek st 7 5 = EMPTY)
    (Hg1 : peek st 7 6 = EMPTY)
    (A4 : fst (isSquareAttacked st 7 4 false) = false)
    (A5 : fst (isSquareAttacked st 7 5 false) = false)
    (A6 : fst (isSquareAttacked st 7 6 false) = false) :
  isValidMove st 7 4 7 6 = (true, st)
  /\ exists st',
      makeMove st input 7 4 7 6 = Some (st', input)
      /\ peek st' 7 6 = WHITE_KING /\ peek st' 7 5 = WHITE_ROOK
      /\ peek st' 7 4 = EMPTY /\ peek st' 7 7 = EMPTY
      /\ canWhiteCastleKingside st' = false /\ canWhiteCastleQueenside st' = false.
Proof.
  pose proof (st_findKing st Hking Hone) as Hfind.
  split.
  - (* the move is accepted *)
    assert (isValidKingMove st 7 4 7 6 = (true, st)) as Hmove.
    { unfold isValidKingMove. simpl.
      unfold isValidCastling. rewrite Hking. simpl.
      change (isupper WHITE_KING) with true.
      unfold isInCheck. change (kingOf true) with WHITE_KING. rewrite Hfind.
      change (negb true) with false.
      rewrite (isSquareAttacked_false st 7 4 false Hwf A4).
      change (4 + 1 + 1) with 6. change (4 + 1) with 5.
      rewrite Hks, Hrook, Hf1, Hg1. simpl.
      rewrite (isSquareAttacked_false st 7 4 false Hwf A4).
      rewrite (isSquareAttacked_false st 7 5 false Hwf A5).
      rewrite (isSquareAttacked_false st 7 6 false Hwf A6).
      reflexivity. }
    assert (isPinned (getPinInfo st 7 4) = false) as Hpin.
    { unfold getPinInfo. rewrite Hking. simpl.
      change (isupper WHITE_KING) with true. change (kingOf true) with WHITE_KING.
      rewrite Hfind. simpl. rewrite walkBudget_S. simpl.
      rewrite !Z.add_0_r. change (getSq (board st) 7 4) with (peek st 7 4).
      rewrite Hking. reflexivity. }
    assert (doesMovePutKingInCheck st 7 4 7 6 = (false, st)) as Hsafe.
    { apply pair_of_parts; [| now apply doesMovePutKingInCheck_frame].
      unfold doesMovePutKingInCheck. fold (castled st).
      change (isWhiteTurn (castled st)) with (isWhiteTurn st). rewrite Hturn.
      assert (fst (isInCheck (castled st) true) = false) as S
        by (apply castled_safe; assumption).
      destruct (isInCheck (castled st) true) as [b st2]. simpl in *. exact S. }
    unfold isValidMove. rewrite Hking, Hturn, Hg1. simpl.
    rewrite Hmove. simpl. rewrite Hpin. simpl. rewrite Hsafe. reflexivity.
  - (* the move as made *)
    unfold makeMove. rewrite Hking, Hg1. simpl. change (6 - 1) with 5.
    assert (wf (poke st 7 6 WHITE_KING)) as W1 by now rewrite wf_poke.
    assert (wf (poke (poke st 7 6 WHITE_KING) 7 4 EMPTY)) as W2 by now rewrite wf_poke.
    assert (peek (poke (poke st 7 6 WHITE_KING) 7 4 EMPTY) 7 7 = WHITE_ROOK) as R.
    { rewrite !peek_poke by (auto; reflexivity). simpl. exact Hrook. }
    rewrite !R.
    set (b4 := poke (poke (poke (poke st 7 6 WHITE_KING) 7 4 EMPTY) 7 5 WHITE_ROOK)
                 7 7 EMPTY).
    assert (wf (poke (poke (poke st 7 6 WHITE_KING) 7 4 EMPTY) 7 5 WHITE_ROOK)) as W3
      by now rewrite wf_poke.
    assert (peek b4 7 6 = WHITE_KING /\ peek b4 7 5 = WHITE_ROOK
            /\ peek b4 7 4 = EMPTY /\ peek b4 7 7 = EMPTY) as (P6 & P5 & P4 & P7).
    { subst b4. repeat split; rewrite !peek_poke by (auto; reflexivity); reflexivity. }
    destruct (updateCastlingRights_frame b4 7 4 7 6) as (Ub & Ut & _ & _).
    destruct (updateCastlingRights_whiteKing b4 7 4 7 6 P6) as [Uk Uq].
    rewrite Ut. change (isWhiteTurn b4) with (isWhiteTurn st). rewrite Hturn. simpl.
    eexists. split; [reflexivity |].
    unfold peek in *. simpl. rewrite Ub. repeat split; assumption.
Qed.

Lemma kingside_castling_witness :
  isValidMove castlingPosition 7 4 7 6 = (true, castlingPosition)
  /\ exists st',
      makeMove castlingPosition [] 7 4 7 6 = Some (st', [])
      /\ peek st' 7 6 = WHITE_KING /\ peek st' 7 5 = WHITE_ROOK
      /\ peek st' 7 4 = EMPTY /\ peek st' 7 7 = EMPTY
      /\ canWhiteCastleKingside st' = false /\ canWhiteCastleQueenside st' = false.
Proof.
  apply (kingside_castling castlingPosition []);
    first [ reflexivity | vm_compute; lia | vm_compute; reflexivity ].
Defined.

(** ** C6: capturing en passant *)

(** C6, as amended.  White to move with a pawn on (3,4), a black pawn on
    (3,3) that has just made its double step, so that the en-passant target
    is (2,3) and (2,3) is empty: the pawn move (3,4) to (2,3) passes the
    pattern check, and it is accepted whenever the pin check and the
    self-check guard let it through; [makeMove] then puts the white pawn on
    (2,3), takes the black pawn off (3,3), leaves every other square but
    (3,4) as it was, so that exactly one piece has left the board, and
    nothing was taken from (2,3), which was empty. *)
Theorem en_passant_capture (st : GameState) (input : list ascii)
    (Hwf : wf st)
    (Hturn : isWhiteTurn st = true)
    (Hwhite : peek st 3 4 = WHITE_PAWN)
    (Hblack : peek st 3 3 = BLACK_PAWN)
    (Hempty : peek st 2 3 = EMPTY)
    (Hrow : enPassantTargetRow st = 2)
    (Hcol : enPassantTargetCol st = 3)
    (Hpin : isPinned (getPinInfo st 3 4)
            && negb (isMoveAlongPinRay 3 4 2 3 (getPinInfo st 3 4)) = false)
    (Hsafe : fst (doesMovePutKingInCheck st 3 4 2 3) = false) :
  isValidPawnMove st 3 4 2 3 = true
  /\ isValidMove st 3 4 2 3 = (true, st)
  /\ exists st',
      makeMove st input 3 4 2 3 = Some (st', input)
      /\ peek st' 2 3 = WHITE_PAWN /\ peek st' 3 3 = EMPTY /\ peek st' 3 4 = EMPTY
      /\ (forall r c, inBoard r c = true ->
            (r, c) <> (2, 3) -> (r, c) <> (3, 3) -> (r, c) <> (3, 4) ->
            peek st' r c = peek st r c)
      /\ (pieceCount (board st') + 1 = pieceCount (board st))%nat.
Proof.
  assert (isValidPawnMove st 3 4 2 3 = true) as Hpat.
  { unfold isValidPawnMove. rewrite Hwhite, Hempty, Hrow, Hcol. reflexivity. }
  split; [exact Hpat |]. split.
  - unfold isValidMove. rewrite Hwhite, Hturn, Hempty. simpl.
    rewrite Hpat, Hpin. simpl.
    pose proof (doesMovePutKingInCheck_frame st 3 4 2 3 Hwf eq_refl eq_refl) as F.
    destruct (doesMovePutKingInCheck st 3 4 2 3) as [b st']. simpl in *.
    now subst.
  - unfold makeMove. rewrite Hwhite, Hempty. simpl. rewrite Hrow, Hcol. simpl.
    set (b3 := poke (poke (poke st 2 3 WHITE_PAWN) 3 4 EMPTY) 3 3 EMPTY).
    destruct (updateCastlingRights_frame b3 3 4 2 3) as (Ub & Ut & _ & _).
    rewrite Ut. change (isWhiteTurn b3) with (isWhiteTurn st). rewrite Hturn. simpl.
    eexists. split; [reflexivity |].
    assert (wf (poke st 2 3 WHITE_PAWN)) as W1 by now rewrite wf_poke.
    assert (wf (poke (poke st 2 3 WHITE_PAWN) 3 4 EMPTY)) as W2 by now rewrite wf_poke.
    assert (forall r c, inBoard r c = true ->
              peek b3 r c
              = if (3 =? r) && (3 =? c) then EMPTY
                else if (3 =? r) && (4 =? c) then EMPTY
                else if (2 =? r) && (3 =? c) then WHITE_PAWN else peek st r c) as Hb3.
    { intros r c Hb. subst b3. now rewrite !peek_poke by (auto; reflexivity). }
    unfold peek at 1 2 3. simpl. rewrite Ub. fold (peek b3 2 3) (peek b3 3 3) (peek b3 3 4).
    rewrite !Hb3 by reflexivity. simpl.
    repeat split.
    + intros r c Hb N1 N2 N3. unfold peek at 1. simpl. rewrite Ub. fold (peek b3 r c).
      rewrite Hb3 by exact Hb.
      destruct (Z.eqb_spec 3 r), (Z.eqb_spec 3 c), (Z.eqb_spec 4 c), (Z.eqb_spec 2 r);
        simpl; subst; try reflexivity; congruence.
    + subst b3. unfold poke. simpl. unfold setSq.
      pose proof (peek_Some st 2 3 Hwf eq_refl) as L1. rewrite Hempty in L1.
      pose proof (pieceCount_insert (board st) (cell 2 3) WHITE_PAWN _ L1) as P1.
      assert (<[cell 2 3 := WHITE_PAWN]> (board st) !! cell 3 4 = Some WHITE_PAWN) as L2.
      { rewrite list_lookup_insert_ne by (vm_compute; lia).
        rewrite <- Hwhite. now apply peek_Some. }
      pose proof (pieceCount_insert _ (cell 3 4) EMPTY _ L2) as P2.
      assert (<[cell 3 4 := EMPTY]> (<[cell 2 3 := WHITE_PAWN]> (board st)) !! cell 3 3
              = Some BLACK_PAWN) as L3.
      { rewrite !list_lookup_insert_ne by (vm_compute; lia).
        rewrite <- Hblack. now apply peek_Some. }
      pose proof (pieceCount_insert _ (cell 3 3) EMPTY _ L3) as P3.
      change (occupied WHITE_PAWN) with true in *.
      change (occupied BLACK_PAWN) with true in *.
      change (occupied EMPTY) with false in *.
      cbv iota in P1, P2, P3. lia.
Qed.

Lemma isValidMove_true_pawn st fr fc tr tc :
  fst (isValidMove st fr fc tr tc) = true ->
  Ascii.eqb (toupper (peek st fr fc)) WHITE_PAWN = true ->
  isValidPawnMove st fr fc tr tc = true.
Proof.
  intros H Tp. unfold isValidMove in H.
  destruct (negb (inBoard fr fc) || negb (inBoard tr tc)); [discriminate |].
  destruct (Ascii.eqb (peek st fr fc) EMPTY); [discriminate |].
  destruct (isWhiteTurn st && negb (isupper (peek st fr fc))); [discriminate |].
  destruct (negb (isWhiteTurn st) && isupper (peek st fr fc)); [discriminate |].
  destruct (isWhiteTurn st && isupper (peek st tr tc)); [discriminate |].
  destruct (negb (isWhiteTurn st) && islower (peek st tr tc)); [discriminate |].
  rewrite Tp in H. simpl in H.
  destruct (isValidPawnMove st fr fc tr tc); [reflexivity | discriminate].
Qed.

(** What a black pawn's double step to (3,3) leaves behind: the pawn on
    (3,3), the square (2,3) it passed over empty, and that square as the
    en-passant target. *)
Lemma black_double_step (st0 : GameState) (input : list ascii) :
  wf st0 -> isWhiteTurn st0 = false -> peek st0 1 3 = BLACK_PAWN ->
  fst (isValidMove st0 1 3 3 3) = true ->
  exists st1,
    makeMove st0 input 1 3 3 3 = Some (st1, input)
    /\ wf st1
    /\ enPassantTargetRow st1 = 2 /\ enPassantTargetCol st1 = 3
    /\ peek st1 3 3 = BLACK_PAWN /\ peek st1 2 3 = EMPTY
    /\ (forall r c, inBoard r c = true -> (r, c) <> (1, 3) -> (r, c) <> (3, 3) ->
          peek st1 r c = peek st0 r c).
Proof.
  intros Hwf Hturn Hp Hv.
  pose proof (isValidMove_true_pawn st0 1 3 3 3 Hv) as Hpat.
  rewrite Hp in Hpat. specialize (Hpat eq_refl).
  unfold isValidPawnMove in Hpat. rewrite Hp in Hpat. simpl in Hpat.
  change (1 + 1) with 2 in Hpat.
  destruct (Ascii.eqb_spec (peek st0 2 3) EMPTY) as [E2 |]; [| discriminate].
  destruct (Ascii.eqb_spec (peek st0 3 3) EMPTY) as [E3 |]; [| discriminate].
  unfold makeMove. rewrite Hp, E3. simpl.
  assert (wf (poke st0 3 3 BLACK_PAWN)) as W1 by now rewrite wf_poke.
  assert (wf (poke (poke st0 3 3 BLACK_PAWN) 1 3 EMPTY)) as W2 by now rewrite wf_poke.
  match goal with
  | |- context [ updateCastlingRights ?b 1 3 3 3 ] => set (b2 := b)
  end.
  assert (wf b2 /\ isWhiteTurn b2 = false
          /\ forall r c, inBoard r c = true ->
               peek b2 r c = if (1 =? r) && (3 =? c) then EMPTY
                             else if (3 =? r) && (3 =? c) then BLACK_PAWN
                             else peek st0 r c) as (W & T & Hb2).
  { subst b2.
    match goal with |- context [ if ?c then _ else _ ] => destruct c end.
    - split; [now rewrite wf_poke |]. split; [exact Hturn |].
      intros r c Hb. rewrite !peek_poke by (auto; try reflexivity; now rewrite wf_poke).
      now destruct ((1 =? r) && (3 =? c)).
    - split; [exact W2 |]. split; [exact Hturn |].
      intros r c Hb. now rewrite !peek_poke by (auto; reflexivity). }
  destruct (updateCastlingRights_frame b2 1 3 3 3) as (Ub & Ut & _ & _).
  rewrite Ut, T. simpl.
  eexists. split; [reflexivity |].
  unfold wf, peek in *. simpl. rewrite Ub.
  split; [exact W |]. split; [reflexivity |]. split; [reflexivity |].
  split; [now rewrite Hb2 |]. split; [now rewrite Hb2 |].
  intros r c Hb N1 N2. rewrite Hb2 by exact Hb.
  destruct (Z.eqb_spec 1 r), (Z.eqb_spec 3 c), (Z.eqb_spec 3 r);
    simpl; subst; try reflexivity; congruence.
Qed.

Lemma en_passant_capture_witness :
  isValidPawnMove afterDoubleStep 3 4 2 3 = true
  /\ isValidMove afterDoubleStep 3 4 2 3 = (true, afterDoubleStep)
  /\ exists st',
      makeMove afterDoubleStep [] 3 4 2 3 = Some (st', [])
      /\ peek st' 2 3 = WHITE_PAWN /\ peek st' 3 3 = EMPTY /\ peek st' 3 4 = EMPTY
      /\ (forall r c, inBoard r c = true ->
            (r, c) <> (2, 3) -> (r, c) <> (3, 3) -> (r, c) <> (3, 4) ->
            peek st' r c = peek afterDoubleStep r c)
      /\ (pieceCount (board st') + 1 = pieceCount (board afterDoubleStep))%nat.
Proof.
  apply (en_passant_capture afterDoubleStep []); vm_compute; reflexivity.
Defined.

(** C6 as stated fails: after the double step of the black pawn to
    (3,3), with the target (2,3) set by [makeMove] itself, the capture by
    the white pawn on (3,4) passes the pattern check and is still refused,
    because the pawn shields its king from the rook on its file. *)
Lemma en_passant_refused_when_pinned :
  isWhiteTurn enPassantPinned = true
  /\ peek enPassantPinned 3 4 = WHITE_PAWN
  /\ peek enPassantPinned 3 3 = BLACK_PAWN
  /\ enPassantTargetRow enPassantPinned = 2
  /\ enPassantTargetCol enPassantPinned = 3
  /\ isValidPawnMove enPassantPinned 3 4 2 3 = true
  /\ fst (isValidMove enPassantPinned 3 4 2 3) = false.
Proof. vm_compute. repeat split; reflexivity. Qed.

(** ** C2: a generated move that exposes the mover's king *)

(** C2 fails on the code.  In [enPassantExposed] white is not in check, and
    [generateAllMoves] emits the en-passant capture (3,4) to (2,3): the
    self-check guard tests the board with only the capturing pawn moved, on
    which the black pawn on (3,3) still shields the king.  [makeMove] takes
    that pawn off, and the white king on (3,0) is attacked by the rook on
    (3,7). *)
Theorem generated_en_passant_exposes_king :
  fst (isInCheck enPassantExposed true) = false
  /\ existsb (fun m => (moveFromRow m =? 3) && (moveFromCol m =? 4)
                       && (moveToRow m =? 2) && (moveToCol m =? 3))
       (fst (generateAllMoves enPassantExposed)) = true
  /\ fst (doesMovePutKingInCheck enPassantExposed 3 4 2 3) = false
  /\ match makeMove enPassantExposed [] 3 4 2 3 with
     | Some (st', _) =>
       peek st' 3 3 = EMPTY
       /\ isWhiteTurn st' = true
       /\ fst (isInCheck st' true) = true
       /\ fst (isSquareAttacked st' 3 0 false) = true
     | None => False
     end.
Proof. vm_compute. repeat split; reflexivity. Qed.

(** ** C4: the FEN round trip *)

(** C4 fails on the code.  Decoding the text that encodes the initial
    position gives back its board, side to move, castling rights,
    en-passant target and halfmove clock, but the fullmove number 11 for 1:
    [fenToGameState] starts its accumulator at 1, not at 0, so that the
    digits of the number are appended to a leading 1.  The same happens
    after a move: 2 is read back as 12. *)
Theorem fen_round_trip_fullmove :
  let st := initializeGameState in
  let st' := snd (fenToGameState (gameStateToFEN st)) in
  fst (fenToGameState (gameStateToFEN st)) = true
  /\ board st' = board st
  /\ isWhiteTurn st' = isWhiteTurn st
  /\ canWhiteCastleKingside st' = canWhiteCastleKingside st
  /\ canWhiteCastleQueenside st' = canWhiteCastleQueenside st
  /\ canBlackCastleKingside st' = canBlackCastleKingside st
  /\ canBlackCastleQueenside st' = canBlackCastleQueenside st
  /\ enPassantTargetRow st' = enPassantTargetRow st
  /\ enPassantTargetCol st' = enPassantTargetCol st
  /\ halfmoveClock st' = halfmoveClock st
  /\ fullmoveNumber st = 1 /\ fullmoveNumber st' = 11
  /\ fullmoveNumber afterDoubleStep = 2
  /\ fullmoveNumber (snd (fenToGameState (gameStateToFEN afterDoubleStep))) = 12.
Proof. vm_compute. repeat split; reflexivity. Qed.

Example afterDoubleStep_fen :
  gameStateToFEN afterDoubleStep
  = "rnbqkbnr/1pp1pppp/p7/3pP3/8/8/PPPP1PPP/RNBQKBNR w KQkq d6 0 2"%string.
Proof. vm_compute. reflexivity. Qed.

(** ** C7: pin detection *)

(** C7 fails on the code, both ways.  The knight of [pinnedKnight] stands
    between its king and a rook on the same rank with nothing else between
    them, and [getPinInfo] reports no pin; the knight of [unpinnedKnight] has
    the rook on the far side of its king, and [getPinInfo] reports it pinned
    by that rook: the scan starts from the king and walks away from the
    piece, not from the piece away from the king. *)
Theorem getPinInfo_scans_beyond_the_king :
  (peek pinnedKnight 4 0 = BLACK_ROOK /\ peek pinnedKnight 4 1 = EMPTY
   /\ peek pinnedKnight 4 2 = WHITE_KNIGHT /\ peek pinnedKnight 4 3 = EMPTY
   /\ peek pinnedKnight 4 4 = WHITE_KING
   /\ isPinned (getPinInfo pinnedKnight 4 2) = false)
  /\ (peek unpinnedKnight 4 2 = WHITE_KNIGHT /\ peek unpinnedKnight 4 4 = WHITE_KING
      /\ peek unpinnedKnight 4 7 = BLACK_ROOK
      /\ getPinInfo unpinnedKnight 4 2 = mkPinInfo true (0, 1) 4 7).
Proof. vm_compute. repeat split; reflexivity. Qed.

(** The second half of C7 holds of whatever [getPinInfo] reports: a
    move of a piece reported pinned that is not along the reported ray is
    refused. *)
Lemma pin_guard st fr fc tr tc :
  wf st ->
  isPinned (getPinInfo st fr fc) = true ->
  isMoveAlongPinRay fr fc tr tc (getPinInfo st fr fc) = false ->
  fst (isValidMove st fr fc tr tc) = false.
Proof.
  intros Hw Hp Hr. unfold isValidMove.
  destruct (negb (inBoard fr fc) || negb (inBoard tr tc)); [reflexivity |].
  destruct (Ascii.eqb (peek st fr fc) EMPTY); [reflexivity |].
  destruct (isWhiteTurn st && negb (isupper (peek st fr fc))); [reflexivity |].
  destruct (negb (isWhiteTurn st) && isupper (peek st fr fc)); [reflexivity |].
  destruct (isWhiteTurn st && isupper (peek st tr tc)); [reflexivity |].
  destruct (negb (isWhiteTurn st) && islower (peek st tr tc)); [reflexivity |].
  match goal with
  | |- context [ match ?pat with pair _ _ => _ end ] =>
    assert (snd (snd pat) = st) as Hs
  end.
  { repeat (match goal with |- context [ if ?c then _ else _ ] => destruct c end;
            try reflexivity).
    now apply isValidKingMove_frame. }
  match goal with
  | |- context [ match ?pat with pair _ _ => _ end ] =>
    destruct pat as [known [valid st']]
  end.
  simpl in Hs. subst st'.
  destruct (negb known); [reflexivity |].
  destruct (negb valid); [reflexivity |].
  now rewrite Hp, Hr.
Qed.

(** ** The guards of the legality query *)

Lemma doesMovePutKingInCheck_value st fr fc tr tc :
  wf st -> inBoard fr fc = true -> inBoard tr tc = true ->
  fst (doesMovePutKingInCheck st fr fc tr tc)
  = fst (isInCheck (simulated st fr fc tr tc) (isWhiteTurn st)).
Proof.
  intros Hw Hf Ht. unfold doesMovePutKingInCheck. fold (simulated st fr fc tr tc).
  change (isWhiteTurn (simulated st fr fc tr tc)) with (isWhiteTurn st).
  destruct (isInCheck (simulated st fr fc tr tc) (isWhiteTurn st)) as [k st1].
  reflexivity.
Qed.

Lemma isValidMove_guards st fr fc tr tc :
  wf st -> fst (isValidMove st fr fc tr tc) = true ->
  (isPinned (getPinInfo st fr fc) = true ->
   isMoveAlongPinRay fr fc tr tc (getPinInfo st fr fc) = true)
  /\ fst (doesMovePutKingInCheck st fr fc tr tc) = false.
Proof.
  intros Hw H. unfold isValidMove in H.
  destruct (negb (inBoard fr fc) || negb (inBoard tr tc)); [discriminate |].
  destruct (Ascii.eqb (peek st fr fc) EMPTY); [discriminate |].
  destruct (isWhiteTurn st && negb (isupper (peek st fr fc))); [discriminate |].
  destruct (negb (isWhiteTurn st) && isupper (peek st fr fc)); [discriminate |].
  destruct (isWhiteTurn st && isupper (peek st tr tc)); [discriminate |].
  destruct (negb (isWhiteTurn st) && islower (peek st tr tc)); [discriminate |].
  match type of H with
  | context [ match ?pat with pair _ _ => _ end ] =>
    assert (snd (snd pat) = st) as Hs
  end.
  { repeat (match goal with |- context [ if ?c then _ else _ ] => destruct c end;
            try reflexivity).
    now apply isValidKingMove_frame. }
  match type of H with
  | context [ match ?pat with pair _ _ => _ end ] =>
    destruct pat as [known [valid st']]
  end.
  cbn [snd] in Hs. subst st'.
  destruct (negb known); [discriminate |].
  destruct (negb valid); [discriminate |].
  destruct (isPinned (getPinInfo st fr fc)
            && negb (isMoveAlongPinRay fr fc tr tc (getPinInfo st fr fc))) eqn:P;
    [discriminate |].
  destruct (doesMovePutKingInCheck st fr fc tr tc) as [k st1]. cbn [fst].
  split.
  - intros Hp. rewrite Hp in P. cbn in P. now destruct (isMoveAlongPinRay _ _ _ _ _).
  - now destruct k.
Qed.

Lemma lower_not_upper c : islower c = true -> isupper c = false.
Proof. unfold islower, isupper. intros H. destruct (65 <=? code c) eqn:A; [| reflexivity].
  cbn. apply Z.leb_gt. apply andb_prop in H as [H _]. apply Z.leb_le in H. lia. Qed.

Lemma ownPiece_distinct w p q : ownPiece w p = true -> ownPiece w q = false -> p <> q.
Proof. intros H1 H2 E. subst q. congruence. Qed.

(** ** The generated moves *)

Lemma allMoves_cons sq rest :
  map (fun p : Z * Z * (Z * Z) => (fst (fst p), snd (fst p), fst (snd p), snd (snd p)))
    (list_prod (sq :: rest) allSquares)
  = map (fun t => (fst sq, snd sq, fst t, snd t)) allSquares
    ++ map (fun p : Z * Z * (Z * Z) => (fst (fst p), snd (fst p), fst (snd p), snd (snd p)))
         (list_prod rest allSquares).
Proof. cbn [list_prod]. rewrite List.map_app, List.map_map. reflexivity. Qed.

Lemma accepted_own st fr fc tr tc :
  wf st -> accepted st (fr, fc, tr, tc) = true ->
  ownPiece (isWhiteTurn st) (peek st fr fc) = true.
Proof. intros Hw H. now apply (isValidMove_true st fr fc tr tc Hw) in H. Qed.

Lemma take_app_full {A : Type} (X Y : list A) n :
  length X = n -> take n (X ++ Y) = X.
Proof. intros <-. now rewrite take_app_length. Qed.

Lemma generateAllMoves_to_spec st fr fc :
  wf st -> inBoard fr fc = true ->
  forall sqs ml,
    (forall sq, In sq sqs -> In sq allSquares) ->
    (length ml <= 256)%nat ->
    map moveCoords (fst (foldSquares (generateAllMoves_to fr fc) sqs ml st))
    = take 256 (map moveCoords ml
                ++ List.filter (accepted st) (map (fun t => (fr, fc, fst t, snd t)) sqs)).
Proof.
  intros Hw Hf. induction sqs as [| [tr tc] rest IH]; intros ml Hin Hlen.
  - simpl. rewrite app_nil_r, take_ge; [reflexivity |]. now rewrite length_map.
  - cbn [foldSquares].
    pose proof (generateAllMoves_to_frame fr fc ml st (tr, tc) Hf
                  (Hin _ (or_introl eq_refl)) Hw) as Hs.
    destruct (generateAllMoves_to fr fc ml st (tr, tc)) as [ml' st'] eqn:E.
    cbn [snd] in Hs. subst st'.
    assert (forall sq, In sq rest -> In sq allSquares) as Hin' by (intros; apply Hin; now right).
    unfold generateAllMoves_to in E.
    cbn [map List.filter fst snd]. unfold accepted at 1.
    pose proof (isValidMove_frame st fr fc tr tc Hw) as Hv.
    destruct (isValidMove st fr fc tr tc) as [valid st1]. cbn [fst snd] in *. subst st1.
    destruct valid.
    + destruct (length ml <? 256)%nat eqn:L.
      * destruct (scoreMoveForOrdering st fr fc tr tc) as [s st2].
        injection E as <- _.
        apply Nat.ltb_lt in L.
        rewrite IH; [| exact Hin' | rewrite length_app; simpl; lia].
        rewrite map_app. cbn [map]. unfold moveCoords at 2. cbn.
        now rewrite <- app_assoc.
      * injection E as <-.
        apply Nat.ltb_ge in L.
        rewrite IH by auto.
        rewrite !take_app_full; [reflexivity | |]; rewrite length_map; lia.
    + injection E as <-. now apply IH.
Qed.

Lemma filter_none {A : Type} (f : A -> bool) l :
  (forall x, In x l -> f x = false) -> List.filter f l = [].
Proof.
  induction l as [| x rest IH]; intros H; [reflexivity |].
  simpl. rewrite (H x (or_introl eq_refl)). apply IH. intros; apply H; now right.
Qed.

Lemma generateAllMoves_from_spec st :
  wf st ->
  forall sqs ml,
    (forall sq, In sq sqs -> In sq allSquares) ->
    (length ml <= 256)%nat ->
    map moveCoords (fst (foldSquares generateAllMoves_from sqs ml st))
    = take 256 (map moveCoords ml
                ++ List.filter (accepted st)
                     (map (fun p : Z * Z * (Z * Z) =>
                             (fst (fst p), snd (fst p), fst (snd p), snd (snd p)))
                        (list_prod sqs allSquares))).
Proof.
  intros Hw. induction sqs as [| [fr fc] rest IH]; intros ml Hin Hlen.
  - simpl. rewrite app_nil_r, take_ge; [reflexivity |]. now rewrite length_map.
  - cbn [foldSquares].
    pose proof (generateAllMoves_from_frame ml st (fr, fc) (Hin _ (or_introl eq_refl)) Hw)
      as Hs.
    destruct (generateAllMoves_from ml st (fr, fc)) as [ml' st'] eqn:E.
    cbn [snd] in Hs. subst st'.
    assert (forall sq, In sq rest -> In sq allSquares) as Hin' by (intros; apply Hin; now right).
    assert (inBoard fr fc = true) as Hf by (apply In_allSquares, Hin; now left).
    rewrite allMoves_cons, List.filter_app. cbn [fst snd].
    unfold generateAllMoves_from in E.
    destruct (ownPiece (isWhiteTurn st) (peek st fr fc)) eqn:O.
    + pose proof (generateAllMoves_to_spec st fr fc Hw Hf allSquares ml (fun _ H => H) Hlen)
        as T.
      rewrite E in T. cbn [fst] in T.
      assert (length ml' <= 256)%nat as Hlen'.
      { rewrite <- (length_map moveCoords), T, length_take. lia. }
      rewrite IH by auto. rewrite T.
      rewrite app_assoc.
      set (X := map moveCoords ml ++ _).
      destruct (Nat.le_gt_cases 256 (length X)) as [G | G].
      * rewrite (take_app_le X) by exact G.
        rewrite take_app_le by (rewrite length_take; lia).
        now rewrite take_take, Nat.min_id.
      * now rewrite (take_ge X) by lia.
    + injection E as <-.
      rewrite IH by auto.
      replace (List.filter (accepted st) (map (fun t => (fr, fc, fst t, snd t)) allSquares))
        with (@nil (Z * Z * Z * Z)); [reflexivity |].
      symmetry. apply filter_none. intros m Hm.
      apply in_map_iff in Hm as ([tr tc] & <- & _). cbn [fst snd].
      destruct (accepted st (fr, fc, tr, tc)) eqn:A; [| reflexivity].
      apply accepted_own in A; [congruence | exact Hw].
Qed.

Lemma foldSquares_invariant_at {A : Type} (P : A -> Prop)
    (body : A -> GameState -> Z * Z -> A * GameState) sqs st :
  (forall acc sq, In sq sqs -> snd (body acc st sq) = st) ->
  (forall acc sq, In sq sqs -> P acc -> P (fst (body acc st sq))) ->
  forall acc, P acc -> P (fst (foldSquares body sqs acc st)).
Proof.
  induction sqs as [| sq rest IH]; intros Hs Hb acc Hp; simpl; [exact Hp |].
  pose proof (Hs acc sq (or_introl eq_refl)) as S1.
  pose proof (Hb acc sq (or_introl eq_refl) Hp) as H.
  destruct (body acc st sq) as [acc' st']. simpl in H, S1. subst st'.
  apply IH; [| | exact H]; intros; [apply Hs | apply Hb]; auto; now right.
Qed.

Lemma generateAllMoves_coords st :
  wf st ->
  map moveCoords (fst (generateAllMoves st)) = take 256 (List.filter (accepted st) allMoves).
Proof.
  intros Hwf. unfold generateAllMoves, allMoves.
  now rewrite (generateAllMoves_from_spec st Hwf allSquares [] (fun _ H => H))
    by (simpl; lia).
Qed.

(** X1.  [generateAllMoves] lists the pairs of squares accepted by
    [isValidMove], in the order of the loops (source square first, rows
    before columns), cut after the 256 entries of the array; every entry
    carries the score [scoreMoveForOrdering] gives it, and the position is
    given back unchanged. *)
Theorem generateAllMoves_spec (st : GameState) (Hwf : wf st) :
  map moveCoords (fst (generateAllMoves st)) = take 256 (List.filter (accepted st) allMoves)
  /\ Forall (fun m => moveScore m
                      = fst (scoreMoveForOrdering st (moveFromRow m) (moveFromCol m)
                               (moveToRow m) (moveToCol m)))
       (fst (generateAllMoves st))
  /\ snd (generateAllMoves st) = st.
Proof.
  split; [| split].
  - now apply generateAllMoves_coords.
  - unfold generateAllMoves.
    match goal with
    | |- Forall ?P _ =>
      apply (foldSquares_invariant_at (fun ml => Forall P ml)); [| | constructor]
    end.
    + intros. now apply generateAllMoves_from_frame.
    + intros ml [fr fc] Hf Hml. apply In_allSquares in Hf.
      unfold generateAllMoves_from.
      destruct (ownPiece _ _); [| exact Hml].
      match goal with
      | |- Forall ?P _ =>
        apply (foldSquares_invariant_at (fun ml => Forall P ml)); [| | exact Hml]
      end.
      * intros. now apply generateAllMoves_to_frame.
      * intros ml1 [tr tc] Ht Hml1.
        unfold generateAllMoves_to.
        pose proof (isValidMove_frame st fr fc tr tc Hwf) as Hv.
        destruct (isValidMove st fr fc tr tc) as [valid st1]. cbn [snd] in Hv. subst st1.
        destruct valid; [| exact Hml1].
        destruct (_ <? _)%nat; [| exact Hml1].
        destruct (scoreMoveForOrdering st fr fc tr tc) as [s st3] eqn:E. cbn [fst].
        apply Forall_app. split; [exact Hml1 |].
        constructor; [| constructor]. cbn. now rewrite E.
  - now apply generateAllMoves_frame.
Qed.

Lemma generateAllMoves_spec_witness :
  wf capturePosition
  /\ map moveCoords (fst (generateAllMoves capturePosition))
     = take 256 (List.filter (accepted capturePosition) allMoves)
  /\ snd (generateAllMoves capturePosition) = capturePosition.
Proof.
  split; [reflexivity |].
  destruct (generateAllMoves_spec capturePosition eq_refl) as (Hm & _ & Hs).
  split; [exact Hm | exact Hs].
Defined.

Lemma In_allMoves fr fc tr tc :
  In (fr, fc, tr, tc) allMoves <-> inBoard fr fc = true /\ inBoard tr tc = true.
Proof.
  unfold allMoves. rewrite in_map_iff. split.
  - intros ([[a b] [c d]] & E & H). cbn in E. injection E as <- <- <- <-.
    apply in_prod_iff in H. now rewrite <- !In_allSquares.
  - intros [H1 H2]. exists ((fr, fc), (tr, tc)). split; [reflexivity |].
    apply in_prod_iff. now rewrite !In_allSquares.
Qed.

Lemma accepted_allMoves st m :
  wf st -> accepted st m = true -> In m allMoves.
Proof.
  destruct m as [[[fr fc] tr] tc]. intros Hw H.
  apply (isValidMove_true st fr fc tr tc Hw) in H as (H1 & H2 & _).
  now apply In_allMoves.
Qed.

Lemma In_take {A : Type} (x : A) n l : In x (take n l) -> In x l.
Proof.
  revert l. induction n as [| n IH]; intros [| y l] H; simpl in *; try contradiction.
  destruct H as [H | H]; [now left | right; now apply IH].
Qed.

Lemma generateAllMoves_accepted st :
  wf st -> Forall (fun m => accepted st (moveCoords m) = true) (fst (generateAllMoves st)).
Proof.
  intros Hw. apply List.Forall_forall. intros m Hm.
  apply (in_map moveCoords) in Hm. rewrite generateAllMoves_coords in Hm by exact Hw.
  apply In_take, List.filter_In in Hm. tauto.
Qed.

Lemma generateAllMoves_none st :
  wf st -> (fst (generateAllMoves st) = [] <-> ~ legalMoveExists st).
Proof.
  intros Hw. split.
  - intros E (fr & fc & tr & tc & H).
    pose proof (generateAllMoves_coords st Hw) as C. rewrite E in C. cbn [map] in C.
    assert (In (fr, fc, tr, tc) (List.filter (accepted st) allMoves)) as Hin.
    { apply List.filter_In. split; [| exact H]. now apply (accepted_allMoves st). }
    destruct (List.filter (accepted st) allMoves); [destruct Hin | discriminate].
  - intros N.
    pose proof (generateAllMoves_accepted st Hw) as A.
    destruct (fst (generateAllMoves st)) as [| m rest]; [reflexivity |].
    exfalso. apply N. inversion A as [| ? ? H _]; subst.
    destruct m as [fr fc tr tc s]. now exists fr, fc, tr, tc.
Qed.

(** ** The emergency move *)

Lemma findSquare_frame (body : GameState -> Z * Z -> bool * GameState) sqs st :
  (forall sq, In sq sqs -> snd (body st sq) = st) ->
  snd (findSquare body sqs st) = st.
Proof.
  intros Hb. induction sqs as [| sq rest IH]; simpl; [reflexivity |].
  pose proof (Hb sq (or_introl eq_refl)) as H.
  destruct (body st sq) as [hit st']. simpl in H. subst st'.
  destruct hit; [reflexivity |].
  apply IH. intros sq' Hin. apply Hb. now right.
Qed.

Lemma findSquare_value (body : GameState -> Z * Z -> bool * GameState) sqs st :
  (forall sq, In sq sqs -> snd (body st sq) = st) ->
  fst (findSquare body sqs st) = List.find (fun sq => fst (body st sq)) sqs.
Proof.
  intros Hb. induction sqs as [| sq rest IH]; simpl; [reflexivity |].
  pose proof (Hb sq (or_introl eq_refl)) as H.
  destruct (body st sq) as [hit st']. simpl in H. subst st'. simpl.
  destruct hit; [reflexivity |].
  apply IH. intros sq' Hin. apply Hb. now right.
Qed.

Lemma find_head_filter {A B : Type} (f : B -> bool) (g : A -> B) l :
  option_map g (List.find (fun x => f (g x)) l) = head (List.filter f (map g l)).
Proof.
  induction l as [| x rest IH]; [reflexivity |].
  simpl. destruct (f (g x)); [reflexivity | exact IH].
Qed.

Lemma getEmergencyMove_from_spec st :
  wf st ->
  forall sqs,
    (forall sq, In sq sqs -> In sq allSquares) ->
    getEmergencyMove_from sqs st
    = (head (List.filter (accepted st)
               (map (fun p : Z * Z * (Z * Z) =>
                       (fst (fst p), snd (fst p), fst (snd p), snd (snd p)))
                  (list_prod sqs allSquares))), st).
Proof.
  intros Hw. induction sqs as [| [fr fc] rest IH]; intros Hin; [reflexivity |].
  cbn [getEmergencyMove_from].
  assert (forall sq, In sq rest -> In sq allSquares) as Hin' by (intros; apply Hin; now right).
  rewrite allMoves_cons, List.filter_app. cbn [fst snd].
  pose proof (find_head_filter (accepted st) (fun t => (fr, fc, fst t, snd t)) allSquares)
    as F.
  destruct (ownPiece (isWhiteTurn st) (peek st fr fc)) eqn:O.
  - assert (forall sq, In sq allSquares ->
              snd (isValidMove st fr fc (fst sq) (snd sq)) = st) as Hb
      by (intros; now apply isValidMove_frame).
    pose proof (findSquare_frame
                  (fun st sq => isValidMove st fr fc (fst sq) (snd sq)) allSquares st Hb) as S.
    pose proof (findSquare_value
                  (fun st sq => isValidMove st fr fc (fst sq) (snd sq)) allSquares st Hb) as V.
    destruct (findSquare _ allSquares st) as [found st']. cbn [fst snd] in S, V. subst st'.
    unfold accepted in F at 1. rewrite <- V in F.
    destruct found as [[tr tc] |]; cbn [option_map fst snd] in F.
    + destruct (List.filter (accepted st) (map _ allSquares)); [discriminate |].
      cbn in F. injection F as <-. reflexivity.
    + destruct (List.filter (accepted st) (map _ allSquares)); [| discriminate].
      now apply IH.
  - rewrite (filter_none (accepted st) (map _ allSquares)); [now apply IH |].
    intros m Hm. apply in_map_iff in Hm as ([tr tc] & <- & _). cbn [fst snd].
    destruct (accepted st (fr, fc, tr, tc)) eqn:A; [| reflexivity].
    apply accepted_own in A; [congruence | exact Hw].
Qed.

Lemma getEmergencyMove_value st :
  wf st ->
  getEmergencyMove st
  = (match List.filter (accepted st) allMoves with [] => noMove | m :: _ => m end, st).
Proof.
  intros Hw. unfold getEmergencyMove.
  rewrite (getEmergencyMove_from_spec st Hw allSquares (fun _ H => H)).
  fold allMoves. now destruct (List.filter (accepted st) allMoves).
Qed.

Lemma noMove_not_accepted st : wf st -> accepted st noMove = false.
Proof.
  intros Hw. destruct (accepted st noMove) eqn:A; [| reflexivity].
  apply (isValidMove_true st _ _ _ _ Hw) in A as (H & _). discriminate.
Qed.

Lemma getEmergencyMove_legal st :
  wf st ->
  snd (getEmergencyMove st) = st
  /\ (accepted st (fst (getEmergencyMove st)) = true
      \/ (fst (getEmergencyMove st) = noMove /\ ~ legalMoveExists st)).
Proof.
  intros Hw. rewrite getEmergencyMove_value by exact Hw. cbn [fst snd].
  split; [reflexivity |].
  destruct (List.filter (accepted st) allMoves) as [| m rest] eqn:E.
  - right. split; [reflexivity |].
    intros (fr & fc & tr & tc & H).
    assert (In (fr, fc, tr, tc) (List.filter (accepted st) allMoves)) as Hin.
    { apply List.filter_In. split; [| exact H]. apply (accepted_allMoves st _ Hw). exact H. }
    rewrite E in Hin. destruct Hin.
  - left. assert (In m (List.filter (accepted st) allMoves)) as Hin.
    { rewrite E. left. reflexivity. }
    apply List.filter_In in Hin. destruct Hin as [_ Hin]. exact Hin.
Qed.

(** X2.  [getEmergencyMove] gives back the position unchanged and returns
    the first pair of squares, in the order of its loops, that
    [isValidMove] accepts; it returns -1 in all four outputs exactly when
    no pair of squares is accepted. *)
Theorem getEmergencyMove_spec (st : GameState) (Hwf : wf st) :
  snd (getEmergencyMove st) = st
  /\ fst (getEmergencyMove st)
     = match List.filter (accepted st) allMoves with [] => noMove | m :: _ => m end
  /\ (fst (getEmergencyMove st) = noMove <-> ~ legalMoveExists st)
  /\ (fst (getEmergencyMove st) <> noMove -> accepted st (fst (getEmergencyMove st)) = true).
Proof.
  destruct (getEmergencyMove_legal st Hwf) as (S & L).
  rewrite getEmergencyMove_value in * by exact Hwf. cbn [fst snd] in *.
  split; [reflexivity |]. split; [reflexivity |]. split.
  - split.
    + intros E. destruct L as [A | [_ N]]; [| exact N].
      rewrite E, noMove_not_accepted in A by exact Hwf. discriminate.
    + intros N. destruct L as [A | [E _]]; [| exact E].
      exfalso. apply N.
      destruct (match List.filter (accepted st) allMoves with [] => noMove | m :: _ => m end)
        as [[[fr fc] tr] tc].
      exists fr, fc, tr, tc. exact A.
  - intros N. destruct L as [A | [E _]]; [exact A | contradiction].
Qed.

Lemma getEmergencyMove_spec_witness :
  wf foolsMate
  /\ snd (getEmergencyMove foolsMate) = foolsMate
  /\ (fst (getEmergencyMove foolsMate) = noMove <-> ~ legalMoveExists foolsMate).
Proof.
  split; [reflexivity |].
  destruct (getEmergencyMove_spec foolsMate eq_refl) as (Hs & _ & Hn & _).
  split; [exact Hs | exact Hn].
Defined.

(** ** The move of the engine *)

Lemma getAIMove_moves_spec (rec : GameState -> EvalCache -> SearchResult) moves :
  (forall st c, wf st -> exists r c', rec st c = Some (r, st, c')) ->
  Forall moveInBoard moves ->
  forall st c bestScore best,
    wf st ->
    exists s best' c',
      getAIMove_moves rec moves st c bestScore best = Some (s, best', st, c')
      /\ (best' = best \/ In best' (map moveCoords moves)).
Proof.
  intros Hrec. induction moves as [| m rest IH]; intros Hm st c bestScore best Hw.
  - exists bestScore, best, c. split; [reflexivity | now left].
  - inversion Hm as [| ? ? [Hf Ht] Hrest]; subst.
    cbn [getAIMove_moves].
    set (st1 := poke (poke st (moveToRow m) (moveToCol m)
                        (peek st (moveFromRow m) (moveFromCol m)))
                  (moveFromRow m) (moveFromCol m) EMPTY).
    assert (wf st1) as W1 by (subst st1; now rewrite !wf_poke).
    destruct (Hrec st1 c W1) as (r & c1 & E). rewrite E.
    pose proof (undo_move st _ _ _ _ Hw Hf Ht) as U. cbv zeta in U. fold st1 in U.
    rewrite U.
    destruct (isWhiteTurn st).
    + destruct (r >? bestScore).
      * destruct (IH Hrest st c1 r (moveCoords m) Hw) as (s & b' & c' & E' & Hb).
        exists s, b', c'. split; [exact E' |].
        right. destruct Hb as [-> | Hb]; [now left | now right].
      * destruct (IH Hrest st c1 bestScore best Hw) as (s & b' & c' & E' & Hb).
        exists s, b', c'. split; [exact E' |].
        destruct Hb as [-> | Hb]; [now left | right; now right].
    + destruct (r <? bestScore).
      * destruct (IH Hrest st c1 r (moveCoords m) Hw) as (s & b' & c' & E' & Hb).
        exists s, b', c'. split; [exact E' |].
        right. destruct Hb as [-> | Hb]; [now left | now right].
      * destruct (IH Hrest st c1 bestScore best Hw) as (s & b' & c' & E' & Hb).
        exists s, b', c'. split; [exact E' |].
        destruct Hb as [-> | Hb]; [now left | right; now right].
Qed.

(** What [getAIMove] returns. *)
Lemma getAIMove_result (st : GameState) (c : EvalCache) (aiDepth : Z) (budget : nat)
    (Hwf : wf st) (Hdepth : 1 <= aiDepth) (Hbudget : (Z.to_nat aiDepth + 65 <= budget)%nat) :
  exists m c',
    getAIMove budget aiDepth st c = Some (m, st, c')
    /\ (accepted st m = true \/ (m = noMove /\ ~ legalMoveExists st))
    /\ (legalMoveExists st -> accepted st m = true).
Proof.
  assert (forall (X : option (Z * Z * Z * Z * GameState * EvalCache)) m c',
            X = Some (m, st, c') ->
            accepted st m = true \/ (m = noMove /\ ~ legalMoveExists st) ->
            exists m c',
              X = Some (m, st, c')
              /\ (accepted st m = true \/ (m = noMove /\ ~ legalMoveExists st))
              /\ (legalMoveExists st -> accepted st m = true)) as Done.
  { intros X m c' E H. exists m, c'. split; [exact E |]. split; [exact H |].
    intros L. destruct H as [H | [_ N]]; [exact H | contradiction]. }
  unfold getAIMove.
  match goal with
  | |- context [ match ?X with pair _ _ => _ end ] =>
    assert (exists booked, X = (booked, st)
            /\ (forall m, booked = Some m -> accepted st m = true)) as (booked & Eb & Hb)
  end.
  { destruct (fullmoveNumber st <=? 4); [| exists None; split; [reflexivity | discriminate]].
    cbv zeta.
    destruct (negb (getOpeningBookMove st =? -1));
      [| exists None; split; [reflexivity | discriminate]].
    match goal with
    | |- context [ isValidMove st ?a ?b ?c ?d ] =>
      pose proof (isValidMove_frame st a b c d Hwf) as F;
      destruct (isValidMove st a b c d) as [valid st'] eqn:E
    end.
    cbn [snd] in F. subst st'.
    destruct valid.
    - eexists. split; [reflexivity |]. intros m [= <-]. unfold accepted. now rewrite E.
    - exists None. split; [reflexivity | discriminate]. }
  rewrite Eb.
  destruct booked as [m |].
  { apply (Done _ m c); [reflexivity | left; now apply Hb]. }
  pose proof (generateAllMoves_frame st Hwf) as Fg.
  pose proof (generateAllMoves_none st Hwf) as Ng.
  pose proof (generateAllMoves_accepted st Hwf) as Ag.
  pose proof (generateAllMoves_inBoard st) as Ig.
  destruct (generateAllMoves st) as [moveList st'] eqn:Eg. cbn [fst snd] in *. subst st'.
  destruct (getEmergencyMove_legal st Hwf) as (Se & Le).
  destruct (getEmergencyMove st) as [em st'] eqn:Ee. cbn [fst snd] in *. subst st'.
  destruct (length moveList =? 0)%nat eqn:Len.
  { apply (Done _ em c); [reflexivity | exact Le]. }
  set (rec := fun (st0 : GameState) (c0 : EvalCache) =>
                minimax budget st0 c0 (aiDepth - 1) (-100000) 100000 (negb (isWhiteTurn st0))).
  assert (forall st0 c0, wf st0 -> exists r c', rec st0 c0 = Some (r, st0, c')) as Hrec.
  { intros st0 c0 W0. subst rec. cbv beta.
    replace (aiDepth - 1) with (Z.of_nat (Z.to_nat (aiDepth - 1))) by lia.
    apply minimax_total; [exact W0 | lia]. }
  destruct (getAIMove_moves_spec rec (sortMoves moveList) Hrec
              (sortMoves_Forall _ _ Ig) st c
              (if isWhiteTurn st then -100000 else 100000) noMove Hwf)
    as (s & best & c' & E & Hbest).
  rewrite E.
  destruct (fst (fst (fst best)) =? -1) eqn:B.
  { rewrite Ee. apply (Done _ em c'); [reflexivity | exact Le]. }
  apply (Done _ best c'); [reflexivity |]. left.
  destruct Hbest as [-> | Hin]; [discriminate |].
  apply in_map_iff in Hin as (m & <- & Hin).
  pose proof (sortMoves_Forall _ _ Ag) as As.
  rewrite List.Forall_forall in As. now apply As.
Qed.

(** X3.  [getAIMove] returns, with the position given back unchanged, a move
    that [isValidMove] accepts whenever the side to move has one: from the
    opening book when the book move is accepted, else the best scored move
    of the search, else the emergency move; all four outputs are -1 only
    when no pair of squares is accepted.  The search depth [aiDepth] is at
    least 1, as [main] reads it. *)
Theorem getAIMove_legal (st : GameState) (c : EvalCache) (aiDepth : Z) (budget : nat)
    (Hwf : wf st) (Hdepth : 1 <= aiDepth) (Hbudget : (Z.to_nat aiDepth + 65 <= budget)%nat) :
  exists m c',
    getAIMove budget aiDepth st c = Some (m, st, c')
    /\ (accepted st m = true \/ (m = noMove /\ ~ legalMoveExists st))
    /\ (legalMoveExists st -> accepted st m = true).
Proof. now apply getAIMove_result. Qed.

Lemma getAIMove_legal_witness :
  wf capturePosition /\ 1 <= 1 /\ (Z.to_nat 1 + 65 <= 66)%nat
  /\ exists m c',
      getAIMove 66 1 capturePosition emptyCache = Some (m, capturePosition, c')
      /\ (accepted capturePosition m = true
          \/ (m = noMove /\ ~ legalMoveExists capturePosition))
      /\ (legalMoveExists capturePosition -> accepted capturePosition m = true).
Proof.
  split; [reflexivity |]. split; [lia |]. split; [simpl; lia |].
  apply (getAIMove_legal capturePosition emptyCache 1 66); [reflexivity | lia | simpl; lia].
Defined.

(** ** The exchange sort of the move list *)

Lemma length_swapMoves ml i j : length (swapMoves ml i j) = length ml.
Proof.
  unfold swapMoves. destruct (ml !! i); [| reflexivity].
  destruct (ml !! j); [| reflexivity]. now rewrite !length_insert.
Qed.

Lemma lookup_swapMoves ml i j q :
  (i < length ml)%nat -> (j < length ml)%nat ->
  swapMoves ml i j !! q
  = if Nat.eqb q j then ml !! i else if Nat.eqb q i then ml !! j else ml !! q.
Proof.
  intros Hi Hj. unfold swapMoves.
  destruct (lookup_lt_is_Some_2 ml i Hi) as [a Ea].
  destruct (lookup_lt_is_Some_2 ml j Hj) as [b Eb].
  rewrite Ea, Eb.
  destruct (Nat.eqb_spec q j) as [-> | Nj].
  - rewrite list_lookup_insert_eq; [reflexivity | now rewrite length_insert].
  - rewrite list_lookup_insert_ne by congruence.
    destruct (Nat.eqb_spec q i) as [-> | Ni].
    + now rewrite list_lookup_insert_eq.
    + now rewrite list_lookup_insert_ne by congruence.
Qed.

Lemma swapMoves_Permutation ml i j : Permutation (swapMoves ml i j) ml.
Proof.
  unfold swapMoves.
  destruct (ml !! i) as [a |] eqn:Ea; [| reflexivity].
  destruct (ml !! j) as [b |] eqn:Eb; [| reflexivity].
  now apply Permutation_insert_swap.
Qed.

Lemma scoreAt_swapMoves ml i j q :
  (i < length ml)%nat -> (j < length ml)%nat ->
  scoreAt (swapMoves ml i j) q
  = if Nat.eqb q j then scoreAt ml i else if Nat.eqb q i then scoreAt ml j else scoreAt ml q.
Proof.
  intros Hi Hj. unfold scoreAt. rewrite lookup_swapMoves by assumption.
  destruct (Nat.eqb q j); [reflexivity |]. now destruct (Nat.eqb q i).
Qed.

Lemma sortPass_spec i ml0 k :
  (S i + k <= length ml0)%nat ->
  let ml1 := sortPass i ml0 (seq (S i) k) in
  length ml1 = length ml0
  /\ (forall p, (p < i)%nat -> ml1 !! p = ml0 !! p)
  /\ (forall q, (i < q < S i + k)%nat -> scoreAt ml1 q <= scoreAt ml1 i)
  /\ (forall q, (i <= q < length ml0)%nat ->
        exists q', (i <= q' < length ml0)%nat /\ ml1 !! q = ml0 !! q').
Proof.
  induction k as [| k IH]; intros Hk; cbv zeta.
  - cbn. split; [reflexivity |]. split; [reflexivity |]. split; [lia |].
    intros q Hq. now exists q.
  - unfold sortPass. rewrite seq_S, fold_left_app. fold (sortPass i ml0 (seq (S i) k)).
    destruct IH as (L & P & S3 & M); [lia |].
    set (ml' := sortPass i ml0 (seq (S i) k)) in *.
    cbn [fold_left].
    set (j := (S i + k)%nat).
    assert (i < length ml')%nat as Hi by lia.
    assert (j < length ml')%nat as Hj by (subst j; lia).
    destruct (scoreAt ml' j >? scoreAt ml' i) eqn:G.
    + apply Z.gtb_lt in G.
      split; [now rewrite length_swapMoves |].
      split.
      { intros p Hp. rewrite lookup_swapMoves by assumption.
        destruct (Nat.eqb_spec p j); [subst j; lia |].
        destruct (Nat.eqb_spec p i); [lia |]. now apply P. }
      split.
      { intros q Hq. rewrite !scoreAt_swapMoves by assumption.
        destruct (Nat.eqb_spec i j); [subst j; lia |].
        rewrite Nat.eqb_refl.
        destruct (Nat.eqb_spec q j); [lia |].
        destruct (Nat.eqb_spec q i); [lia |].
        assert (scoreAt ml' q <= scoreAt ml' i) by (apply S3; subst j; lia). lia. }
      intros q Hq. rewrite lookup_swapMoves by assumption.
      destruct (Nat.eqb_spec q j).
      * apply M. lia.
      * destruct (Nat.eqb_spec q i).
        -- apply M. subst j. lia.
        -- now apply M.
    + assert (scoreAt ml' j <= scoreAt ml' i) as G'.
      { destruct (Z.gtb_spec (scoreAt ml' j) (scoreAt ml' i)); [discriminate | lia]. }
      split; [exact L |]. split; [exact P |]. split; [| exact M].
      intros q Hq. destruct (Nat.eq_dec q j) as [-> | Nq]; [exact G' |].
      apply S3. subst j. lia.
Qed.

Lemma sortPass_Permutation i js : forall ml, Permutation (sortPass i ml js) ml.
Proof.
  induction js as [| j rest IH]; intros ml; [reflexivity |].
  cbn [sortPass fold_left]. fold (sortPass i).
  etransitivity; [apply IH |].
  destruct (_ >? _); [apply swapMoves_Permutation | reflexivity].
Qed.

Lemma sortOuter_spec ml0 k :
  (k <= length ml0)%nat ->
  let ml1 := sortOuter (length ml0) ml0 (seq 0 k) in
  length ml1 = length ml0
  /\ (forall p q, (p < k)%nat -> (p <= q < length ml0)%nat ->
        scoreAt ml1 q <= scoreAt ml1 p).
Proof.
  induction k as [| k IH]; intros Hk; cbv zeta.
  - cbn. split; [reflexivity | lia].
  - unfold sortOuter. rewrite seq_S, fold_left_app.
    fold (sortOuter (length ml0) ml0 (seq 0 k)).
    destruct IH as (L & S1); [lia |].
    set (ml' := sortOuter (length ml0) ml0 (seq 0 k)) in *.
    cbn [fold_left]. change (0 + k)%nat with k.
    destruct (sortPass_spec k ml' (length ml0 - S k)) as (L2 & P & S3 & M); [lia |].
    set (ml2 := sortPass k ml' (seq (S k) (length ml0 - S k))) in *.
    split; [lia |].
    intros p q Hp Hq.
    destruct (Nat.eq_dec p k) as [-> | Np].
    + destruct (Nat.eq_dec q k) as [-> | Nq]; [lia |]. apply S3. lia.
    + assert (p < k)%nat as Hp' by lia.
      unfold scoreAt at 2. rewrite (P p Hp'). fold (scoreAt ml' p).
      destruct (Nat.lt_ge_cases q k) as [Hq' | Hq'].
      * unfold scoreAt at 1. rewrite (P q Hq'). fold (scoreAt ml' q). apply S1; lia.
      * destruct (M q) as (q' & Hq2 & E); [lia |].
        unfold scoreAt at 1. rewrite E. fold (scoreAt ml' q'). apply S1; lia.
Qed.

(** X4.  The sort of [minimax] and [getAIMove] keeps the moves and their
    scores (the sorted list is a permutation of the list) and orders them
    by score, highest first. *)
Theorem sortMoves_sorted (moveList : MoveList) :
  Permutation (sortMoves moveList) moveList
  /\ length (sortMoves moveList) = length moveList
  /\ forall i j, (i <= j < length moveList)%nat ->
       scoreAt (sortMoves moveList) j <= scoreAt (sortMoves moveList) i.
Proof.
  change (sortMoves moveList)
    with (sortOuter (length moveList) moveList (seq 0 (length moveList - 1))).
  split; [| split].
  - unfold sortOuter. generalize (seq 0 (length moveList - 1)). intros idxs.
    generalize moveList at 2 3. generalize (length moveList).
    induction idxs as [| i rest IH]; intros n ml; [reflexivity |].
    cbn [fold_left]. etransitivity; [apply IH |]. apply sortPass_Permutation.
  - apply sortOuter_spec. lia.
  - intros i j Hij.
    destruct (sortOuter_spec moveList (length moveList - 1)) as (L & S1); [lia |].
    destruct (Nat.eq_dec i (length moveList - 1)%nat) as [Ei | Ni].
    + replace j with i by lia. lia.
    + apply S1; lia.
Qed.

(** ** The search window *)

Lemma searchLoop_window {X : Type} lo hi
    (body : X -> GameState -> EvalCache -> Z -> Z -> option (Flow * GameState * EvalCache))
    (xs : list X) :
  (forall x st c a b fl st' c',
      In x xs -> inWindow lo hi (Running a b) ->
      body x st c a b = Some (fl, st', c') -> inWindow lo hi fl) ->
  forall st c a b fl st' c',
    inWindow lo hi (Running a b) ->
    searchLoop body xs st c a b = Some (fl, st', c') -> inWindow lo hi fl.
Proof.
  induction xs as [| x rest IH]; intros Hb st c a b fl st' c' Hi E.
  - cbn in E. injection E as <- _ _. exact Hi.
  - cbn [searchLoop] in E.
    destruct (body x st c a b) as [[[fl1 st1] c1] |] eqn:E1; [| discriminate].
    pose proof (Hb x st c a b fl1 st1 c1 (or_introl eq_refl) Hi E1) as H1.
    destruct fl1 as [v | a1 b1].
    + injection E as <- _ _. exact H1.
    + eapply IH; [| exact H1 | exact E]. intros. eapply Hb; eauto. now right.
Qed.

Lemma quiescence_capture_window lo hi rec isMax fr fc sq st c a b fl st' c' :
  inWindow lo hi (Running a b) ->
  quiescence_capture rec isMax fr fc sq st c a b = Some (fl, st', c') ->
  inWindow lo hi fl.
Proof.
  intros Hi E. unfold quiescence_capture in E. destruct sq as [tr tc].
  destruct (negb (Ascii.eqb (peek st tr tc) EMPTY) && _);
    [| injection E as <- _ _; exact Hi].
  destruct (isValidMove st fr fc tr tc) as [valid st1].
  destruct valid; [| injection E as <- _ _; exact Hi].
  destruct (rec _ c a b (negb isMax)) as [[[score st2] c2] |]; [| discriminate].
  cbn in Hi.
  destruct isMax.
  - destruct (Z.geb_spec score b).
    + injection E as <- _ _. cbn. lia.
    + injection E as <- _ _. cbn. destruct (Z.gtb_spec score a); lia.
  - destruct (Z.leb_spec score a).
    + injection E as <- _ _. cbn. lia.
    + injection E as <- _ _. cbn. destruct (Z.ltb_spec score b); lia.
Qed.

Lemma quiescence_from_window lo hi rec isMax sq st c a b fl st' c' :
  inWindow lo hi (Running a b) ->
  quiescence_from rec isMax sq st c a b = Some (fl, st', c') ->
  inWindow lo hi fl.
Proof.
  intros Hi E. unfold quiescence_from in E. destruct sq as [fr fc].
  destruct (ownPiece isMax (peek st fr fc)); [| injection E as <- _ _; exact Hi].
  eapply searchLoop_window; [| exact Hi | exact E].
  intros. eapply quiescence_capture_window; eauto.
Qed.

Lemma quiescence_window budget st c alpha beta m r st' c' :
  alpha <= beta ->
  quiescence budget st c alpha beta m = Some (r, st', c') ->
  alpha <= r <= beta.
Proof.
  intros Hab E. destruct budget as [| budget]; [discriminate |].
  cbn [quiescence] in E.
  destruct (evaluateBoard st c) as [[standPat st1] c1].
  destruct m; cbn [andb negb] in E.
  - destruct (Z.geb_spec standPat beta) as [G | G]; [injection E as <- _ _; lia |].
    match type of E with
    | match searchLoop ?body ?xs ?s ?k ?a ?b with _ => _ end = _ =>
      pose proof (searchLoop_window alpha beta body xs) as W;
      destruct (searchLoop body xs s k a b) as [[[fl st2] c2] |] eqn:El; [| discriminate]
    end.
    eapply W in El.
    + destruct fl as [v | a1 b1]; injection E as <- _ _; cbn in El; lia.
    + intros. eapply quiescence_from_window; eauto.
    + cbn. destruct (Z.ltb_spec alpha standPat); lia.
  - destruct (Z.leb_spec standPat alpha) as [G | G]; [injection E as <- _ _; lia |].
    match type of E with
    | match searchLoop ?body ?xs ?s ?k ?a ?b with _ => _ end = _ =>
      pose proof (searchLoop_window alpha beta body xs) as W;
      destruct (searchLoop body xs s k a b) as [[[fl st2] c2] |] eqn:El; [| discriminate]
    end.
    eapply W in El.
    + destruct fl as [v | a1 b1]; injection E as <- _ _; cbn in El; lia.
    + intros. eapply quiescence_from_window; eauto.
    + cbn. destruct (Z.gtb_spec beta standPat); lia.
Qed.

(** X5.  [quiescence] returns, and it is fail-hard: called with a window
    [alpha <= beta] it gives the position back and returns a value inside
    the window, whatever the position, the cache and the scores of the
    captures it tries.  The budget of the recursion only has to exceed the
    number of pieces on the board. *)
Theorem quiescence_within_window (budget : nat) (st : GameState) (c : EvalCache)
    (alpha beta : Z) (isMaximizingPlayer : bool)
    (Hwf : wf st) (Hbudget : (pieceCount (board st) < budget)%nat)
    (Hwindow : alpha <= beta) :
  exists r c',
    quiescence budget st c alpha beta isMaximizingPlayer = Some (r, st, c')
    /\ alpha <= r <= beta.
Proof.
  destruct (quiescence_total budget st c alpha beta isMaximizingPlayer Hwf Hbudget)
    as (r & c' & E).
  exists r, c'. split; [exact E |].
  exact (quiescence_window budget st c alpha beta isMaximizingPlayer r st c' Hwindow E).
Qed.

Lemma quiescence_within_window_witness :
  wf capturePosition /\ (pieceCount (board capturePosition) < 5)%nat
  /\ -100000 <= 100000
  /\ exists r c',
      quiescence 5 capturePosition emptyCache (-100000) 100000 true
      = Some (r, capturePosition, c')
      /\ -100000 <= r <= 100000.
Proof.
  assert ((pieceCount (board capturePosition) < 5)%nat) as B by (vm_compute; lia).
  split; [reflexivity |]. split; [exact B |]. split; [lia |].
  exact (quiescence_within_window 5 capturePosition emptyCache (-100000) 100000 true
           eq_refl B ltac:(lia)).
Defined.

Lemma minimax_moves_bounded (rec : GameState -> EvalCache -> Z -> Z -> bool -> SearchResult)
    isMax moves :
  (forall st c a b m r st' c',
      -100000 <= a -> a <= b -> b <= 100000 ->
      rec st c a b m = Some (r, st', c') -> -100000 <= r <= 100000) ->
  forall st c best a b r st' c',
    -100000 <= best <= 100000 -> -100000 <= a -> a <= b -> b <= 100000 ->
    minimax_moves rec isMax moves st c best a b = Some (r, st', c') ->
    -100000 <= r <= 100000.
Proof.
  intros Hrec. induction moves as [| m rest IH]; intros st c best a b r st' c' Hb Ha Hab Hb2 E.
  - cbn in E. injection E as <- _ _. exact Hb.
  - cbn [minimax_moves] in E.
    match type of E with
    | match rec ?s ?k a b ?mm with _ => _ end = _ =>
      destruct (rec s k a b mm) as [[[score st1] c1] |] eqn:Er; [| discriminate];
      pose proof (Hrec s k a b mm score st1 c1 Ha Hab Hb2 Er) as Hs
    end.
    destruct isMax.
    + destruct (Z.gtb_spec score best) as [G1 | G1].
      * destruct (Z.gtb_spec a score) as [G2 | G2].
        -- destruct (Z.leb_spec b a) as [G3 | G3]; [injection E as <- _ _; lia |].
           eapply IH; [| | | | exact E]; lia.
        -- destruct (Z.leb_spec b score) as [G3 | G3]; [injection E as <- _ _; lia |].
           eapply IH; [| | | | exact E]; lia.
      * destruct (Z.gtb_spec a best) as [G2 | G2].
        -- destruct (Z.leb_spec b a) as [G3 | G3]; [injection E as <- _ _; lia |].
           eapply IH; [| | | | exact E]; lia.
        -- destruct (Z.leb_spec b best) as [G3 | G3]; [injection E as <- _ _; lia |].
           eapply IH; [| | | | exact E]; lia.
    + destruct (Z.ltb_spec score best) as [G1 | G1].
      * destruct (Z.ltb_spec b score) as [G2 | G2].
        -- destruct (Z.leb_spec b a) as [G3 | G3]; [injection E as <- _ _; lia |].
           eapply IH; [| | | | exact E]; lia.
        -- destruct (Z.leb_spec score a) as [G3 | G3]; [injection E as <- _ _; lia |].
           eapply IH; [| | | | exact E]; lia.
      * destruct (Z.ltb_spec b best) as [G2 | G2].
        -- destruct (Z.leb_spec b a) as [G3 | G3]; [injection E as <- _ _; lia |].
           eapply IH; [| | | | exact E]; lia.
        -- destruct (Z.leb_spec best a) as [G3 | G3]; [injection E as <- _ _; lia |].
           eapply IH; [| | | | exact E]; lia.
Qed.

Lemma minimax_bounded budget :
  forall st c depth a b m r st' c',
    -100000 <= a -> a <= b -> b <= 100000 ->
    minimax budget st c depth a b m = Some (r, st', c') -> -100000 <= r <= 100000.
Proof.
  induction budget as [| budget IH]; intros st c depth a b m r st' c' Ha Hab Hb E;
    [discriminate |].
  cbn [minimax] in E.
  destruct (depth =? 0).
  - pose proof (quiescence_window _ _ _ _ _ _ _ _ _ Hab E). lia.
  - destruct (generateAllMoves st) as [moveList st1].
    destruct (length moveList =? 0)%nat.
    + destruct (isInCheck st1 m) as [inCheck st2].
      injection E as <- _ _. destruct inCheck; lia.
    + eapply minimax_moves_bounded; [| | | | | exact E]; try lia.
      * cbv beta. intros. eapply IH; [| | | eassumption]; lia.
      * destruct m; lia.
Qed.

(** X6.  [minimax] returns, and its score is bounded: called with a depth
    that is not negative and a window inside [-100000, 100000], it gives
    the position back and returns a score inside [-100000, 100000], the
    two scores it gives to a side without a move and to the start of its
    loop. *)
Theorem minimax_score_bounded (budget : nat) (st : GameState) (c : EvalCache)
    (depth alpha beta : Z) (isMaximizingPlayer : bool)
    (Hwf : wf st) (Hdepth : 0 <= depth) (Hbudget : (Z.to_nat depth + 66 <= budget)%nat)
    (Hlo : -100000 <= alpha) (Hwindow : alpha <= beta) (Hhi : beta <= 100000) :
  exists r c',
    minimax budget st c depth alpha beta isMaximizingPlayer = Some (r, st, c')
    /\ -100000 <= r <= 100000.
Proof.
  destruct (minimax_total (Z.to_nat depth) budget st c alpha beta isMaximizingPlayer
              Hwf Hbudget) as (r & c' & E).
  rewrite Z2Nat.id in E by exact Hdepth.
  exists r, c'. split; [exact E |].
  exact (minimax_bounded budget st c depth alpha beta isMaximizingPlayer r st c'
           Hlo Hwindow Hhi E).
Qed.

Lemma minimax_score_bounded_witness :
  wf capturePosition /\ 0 <= 2 /\ (Z.to_nat 2 + 66 <= 68)%nat
  /\ -100000 <= -100000 /\ -100000 <= 100000 /\ 100000 <= 100000
  /\ exists r c',
      minimax 68 capturePosition emptyCache 2 (-100000) 100000 true
      = Some (r, capturePosition, c')
      /\ -100000 <= r <= 100000.
Proof.
  split; [reflexivity |]. split; [lia |]. split; [simpl; lia |].
  split; [lia |]. split; [lia |]. split; [lia |].
  exact (minimax_score_bounded 68 capturePosition emptyCache 2 (-100000) 100000 true
           eq_refl ltac:(lia) ltac:(simpl; lia) ltac:(lia) ltac:(lia) ltac:(lia)).
Defined.

(** ** The evaluation cache *)

Lemma getCachedEvaluation_find c st :
  getCachedEvaluation c st
  = match List.find (cacheMatch st) (evalCache c) with
    | Some e => evaluation e
    | None => INT_MIN
    end.
Proof. reflexivity. Qed.

Lemma find_insert_first {A : Type} (f : A -> bool) l k y :
  (forall x, In x l -> f x = false) -> (k < length l)%nat -> f y = true ->
  List.find f (<[k:=y]> l) = Some y.
Proof.
  revert k. induction l as [| x rest IH]; intros k Hl Hk Hy; [simpl in Hk; lia |].
  destruct k as [| k]; simpl.
  - now rewrite Hy.
  - rewrite (Hl x (or_introl eq_refl)). apply IH; [| simpl in Hk; lia | exact Hy].
    intros; apply Hl; now right.
Qed.

Lemma cacheMatch_self st v :
  cacheMatch st (mkPositionCache (board st) (isWhiteTurn st) v true) = true.
Proof.
  unfold cacheMatch. cbn [isValid cacheIsWhiteTurn cacheBoard andb].
  rewrite Bool.eqb_reflx. cbn [andb].
  apply forallb_forall. intros sq _. unfold peek. apply Ascii.eqb_refl.
Qed.

Lemma cache_miss c st :
  cacheOk c -> getCachedEvaluation c st = INT_MIN ->
  forall e, In e (evalCache c) -> cacheMatch st e = false.
Proof.
  intros (_ & _ & Hs) Hm e He. rewrite getCachedEvaluation_find in Hm.
  destruct (List.find (cacheMatch st) (evalCache c)) as [e' |] eqn:F.
  - apply List.find_some in F as (Hin & Hmatch).
    rewrite List.Forall_forall in Hs. exfalso. apply (Hs e' Hin); [| exact Hm].
    unfold cacheMatch in Hmatch. now destruct (isValid e').
  - now apply (List.find_none _ _ F).
Qed.

Lemma cacheEvaluation_hit c st v :
  cacheOk c -> getCachedEvaluation c st = INT_MIN ->
  getCachedEvaluation (cacheEvaluation c st v) st = v.
Proof.
  intros Hok Hm. pose proof (cache_miss c st Hok Hm) as Hall.
  destruct Hok as (Hl & Hi & _).
  rewrite getCachedEvaluation_find. unfold cacheEvaluation. cbn [evalCache].
  rewrite (find_insert_first (cacheMatch st) (evalCache c)); [reflexivity | exact Hall | |].
  - rewrite Hl. pose proof (Z.rem_bound_pos (cacheIndex c) 64 Hi ltac:(lia)). lia.
  - apply cacheMatch_self.
Qed.

Lemma cacheEvaluation_ok c st v : cacheOk c -> v <> INT_MIN -> cacheOk (cacheEvaluation c st v).
Proof.
  intros (Hl & Hi & Hs) Hv. unfold cacheOk, cacheEvaluation. cbn [evalCache cacheIndex].
  rewrite length_insert. split; [exact Hl |]. split; [lia |].
  apply Forall_insert; [exact Hs |]. intros _. exact Hv.
Qed.


Lemma emptyCache_ok : cacheOk emptyCache.
Proof.
  unfold cacheOk. split; [reflexivity |]. split; [reflexivity |].
  apply List.Forall_forall. intros e He.
  unfold emptyCache in He. cbn [evalCache] in He.
  apply list_elem_of_In, elem_of_replicate in He as [-> _]. discriminate.
Qed.


(** X8.  A second [evaluateBoard] of the same position is answered from the
    cache: it returns the score of the first call and leaves the cache as
    the first call left it.  The first call gives the position back
    unchanged. *)
Theorem evaluateBoard_cached (st : GameState) (c : EvalCache)
    (v : Z) (st' : GameState) (c' : EvalCache)
    (Hwf : wf st) (Hcache : cacheOk c)
    (Hcall : evaluateBoard st c = (v, st', c')) (Hscore : v <> INT_MIN) :
  st' = st /\ cacheOk c' /\ getCachedEvaluation c' st = v
  /\ evaluateBoard st c' = (v, st, c').
Proof.
  pose proof (evaluateBoard_frame st c Hwf) as F. rewrite Hcall in F. cbn [fst snd] in F.
  subst st'. split; [reflexivity |].
  assert (cacheOk c' /\ getCachedEvaluation c' st = v) as [Hok Hhit].
  { unfold evaluateBoard in Hcall.
    destruct (Z.eqb_spec (getCachedEvaluation c st) INT_MIN) as [Hm | Hm]; cbn [negb] in Hcall.
    - destruct (foldSquares evaluateBoard_body allSquares (0, 0, 0) st)
        as [[[score aw] ab] st1].
      destruct (evaluateKingSafety st1) as [ks st2].
      destruct (isInCheck st2 true) as [wc st3].
      destruct (isInCheck st3 false) as [bc st4].
      match type of Hcall with
      | (?s, _, _) = _ => remember s as sc eqn:Esc; clear Esc
      end.
      pose proof (f_equal (fun x => fst (fst x)) Hcall) as H1.
      pose proof (f_equal (fun x => snd (fst x)) Hcall) as H2.
      pose proof (f_equal snd Hcall) as H3.
      cbn [fst snd] in H1, H2, H3. subst sc st4 c'.
      split.
      + apply cacheEvaluation_ok; [exact Hcache | exact Hscore].
      + now apply cacheEvaluation_hit.
    - injection Hcall as <- <-. split; [exact Hcache | reflexivity]. }
  split; [exact Hok |]. split; [exact Hhit |].
  unfold evaluateBoard. rewrite Hhit.
  destruct (Z.eqb_spec v INT_MIN); [contradiction | reflexivity].
Qed.

Lemma evaluateBoard_cached_witness :
  wf capturePosition /\ cacheOk emptyCache
  /\ evaluateBoard capturePosition emptyCache
     = (45, capturePosition, cacheEvaluation emptyCache capturePosition 45)
  /\ 45 <> INT_MIN
  /\ evaluateBoard capturePosition (cacheEvaluation emptyCache capturePosition 45)
     = (45, capturePosition, cacheEvaluation emptyCache capturePosition 45).
Proof.
  assert (evaluateBoard capturePosition emptyCache
          = (45, capturePosition, cacheEvaluation emptyCache capturePosition 45)) as E
    by (vm_compute; reflexivity).
  split; [reflexivity |]. split; [exact emptyCache_ok |]. split; [exact E |].
  split; [discriminate |].
  exact (proj2 (proj2 (proj2 (evaluateBoard_cached capturePosition emptyCache 45
                                capturePosition _ eq_refl emptyCache_ok E
                                ltac:(discriminate))))).
Defined.

(** ** Check detection on boards with the same occupied squares *)

Lemma ownPiece_occupied w p : ownPiece w p = true -> Ascii.eqb p EMPTY = false.
Proof.
  unfold ownPiece. intros H.
  assert (occupied p = true) as O.
  { destruct w; cbn in H.
    - rewrite orb_false_r in H. now apply upper_occupied.
    - now apply lower_occupied. }
  unfold occupied in O. now destruct (Ascii.eqb p EMPTY).
Qed.

Lemma sameButOwn_empty w b b' r c :
  sameButOwn w b b' -> inBoard r c = true ->
  Ascii.eqb (getSq b r c) EMPTY = Ascii.eqb (getSq b' r c) EMPTY.
Proof.
  intros H Hb. destruct (H r c Hb) as [E | (O1 & O2 & _)]; [now rewrite E |].
  now rewrite (ownPiece_occupied w _ O1), (ownPiece_occupied w _ O2).
Qed.

Lemma rookWalk_shape w b b' rs cs tr tc :
  sameButOwn w b b' ->
  forall n r c, rookWalk n b r c rs cs tr tc = rookWalk n b' r c rs cs tr tc.
Proof.
  intros H. induction n as [| n IH]; intros r c; cbn [rookWalk]; [reflexivity |].
  destruct (negb (r =? tr) || negb (c =? tc)); [| reflexivity].
  destruct (inBoard r c) eqn:Hb; [| reflexivity]. cbn [negb].
  rewrite (sameButOwn_empty w b b' r c H Hb).
  destruct (negb (Ascii.eqb _ _)); [reflexivity | apply IH].
Qed.

Lemma bishopWalk_shape w b b' rs cs tr tc :
  sameButOwn w b b' ->
  forall n r c, bishopWalk n b r c rs cs tr tc = bishopWalk n b' r c rs cs tr tc.
Proof.
  intros H. induction n as [| n IH]; intros r c; cbn [bishopWalk]; [reflexivity |].
  destruct (negb (r =? tr) && negb (c =? tc)); [| reflexivity].
  destruct (inBoard r c) eqn:Hb; [| reflexivity]. cbn [negb].
  rewrite (sameButOwn_empty w b b' r c H Hb).
  destruct (negb (Ascii.eqb _ _)); [reflexivity | apply IH].
Qed.

Lemma attackPattern_shape w st st' i j row col piece :
  sameButOwn w (board st) (board st') ->
  attackPattern st i j row col piece = attackPattern st' i j row col piece.
Proof.
  intros H. unfold attackPattern, isValidQueenMove, isValidRookMove, isValidBishopMove.
  rewrite !(rookWalk_shape w (board st) (board st') _ _ _ _ H).
  rewrite !(bishopWalk_shape w (board st) (board st') _ _ _ _ H).
  reflexivity.
Qed.

Lemma attacks_shape w st st' row col sq :
  sameButOwn w (board st) (board st') -> In sq allSquares ->
  attacks st (negb w) row col sq = attacks st' (negb w) row col sq.
Proof.
  intros H Hin. unfold attacks. destruct sq as [i j]. cbn [fst snd].
  apply In_allSquares in Hin. unfold peek.
  destruct (H i j Hin) as [E | (O1 & O2 & _)].
  - rewrite E. now rewrite (attackPattern_shape w st st').
  - assert (forall p, ownPiece w p = true ->
              (negb w && isupper p) || (negb (negb w) && islower p) = false) as K.
    { intros p O. unfold ownPiece in O. destruct w; cbn in *.
      - rewrite orb_false_r in O. now apply upper_not_lower.
      - rewrite (lower_not_upper p O). reflexivity. }
    rewrite (K _ O1), (K _ O2). now rewrite !andb_false_r.
Qed.

Lemma find_ext {A : Type} (f g : A -> bool) l :
  (forall x, In x l -> f x = g x) -> List.find f l = List.find g l.
Proof.
  induction l as [| a rest IH]; intros H; [reflexivity |].
  cbn [List.find]. rewrite (H a (or_introl eq_refl)), IH; [reflexivity |].
  intros x Hx. apply H. now right.
Qed.

Lemma findPiece_shape w b b' :
  sameButOwn w b b' -> findPiece b (kingOf w) = findPiece b' (kingOf w).
Proof.
  intros H. unfold findPiece. apply find_ext. intros [r c] Hin. cbn [fst snd].
  apply In_allSquares in Hin.
  destruct (H r c Hin) as [E | (_ & _ & N1 & N2)]; [now rewrite E |].
  destruct (Ascii.eqb_spec (getSq b r c) (kingOf w)); [contradiction |].
  destruct (Ascii.eqb_spec (getSq b' r c) (kingOf w)); [contradiction | reflexivity].
Qed.

Lemma isInCheck_shape w st st' :
  wf st -> wf st' -> sameButOwn w (board st) (board st') ->
  fst (isInCheck st w) = fst (isInCheck st' w).
Proof.
  intros Hw Hw' H.
  pose proof (findPiece_shape w _ _ H) as F.
  destruct (findPiece (board st) (kingOf w)) as [[r c] |] eqn:E.
  - rewrite (isInCheck_value st w r c Hw E).
    rewrite (isInCheck_value st' w r c Hw' (eq_sym F)).
    apply existsb_ext. intros sq Hin. now apply attacks_shape.
  - unfold isInCheck. now rewrite E, <- F.
Qed.

(** ** Promotion *)

Lemma readPromotion_piece input p rest :
  readPromotion input = Some (p, rest) ->
  p = "Q"%char \/ p = "R"%char \/ p = "B"%char \/ p = "N"%char.
Proof.
  induction input as [| ch input IH]; [discriminate |].
  cbn [readPromotion]. destruct (isspace ch); [exact IH |].
  destruct (Ascii.eqb_spec (toupper ch) "Q") as [-> | NQ]; cbn [negb andb].
  { intros [= <- _]. now left. }
  destruct (Ascii.eqb_spec (toupper ch) "R") as [-> | NR]; cbn [negb andb].
  { intros [= <- _]. right; now left. }
  destruct (Ascii.eqb_spec (toupper ch) "B") as [-> | NB]; cbn [negb andb].
  { intros [= <- _]. right; right; now left. }
  destruct (Ascii.eqb_spec (toupper ch) "N") as [-> | NN]; cbn [negb andb].
  { intros [= <- _]. right; right; now right. }
  exact IH.
Qed.

Lemma readPromotion_none input :
  readPromotion input = None
  <-> Forall (fun ch => toupper ch <> "Q"%char /\ toupper ch <> "R"%char
                        /\ toupper ch <> "B"%char /\ toupper ch <> "N"%char) input.
Proof.
  induction input as [| ch input IH]; [split; [constructor | reflexivity] |].
  cbn [readPromotion].
  assert (isspace ch = true ->
          toupper ch <> "Q"%char /\ toupper ch <> "R"%char
          /\ toupper ch <> "B"%char /\ toupper ch <> "N"%char) as Hsp.
  { destruct ch as [[] [] [] [] [] [] [] []]; intros H; try discriminate H;
      repeat split; discriminate. }
  destruct (isspace ch) eqn:S.
  { rewrite IH. split; [intros H; constructor; auto | intros H; now inversion H]. }
  destruct (Ascii.eqb_spec (toupper ch) "Q") as [EQ | NQ]; cbn [negb andb].
  { split; [discriminate | intros H; inversion H; tauto]. }
  destruct (Ascii.eqb_spec (toupper ch) "R") as [ER | NR]; cbn [negb andb].
  { split; [discriminate | intros H; inversion H; tauto]. }
  destruct (Ascii.eqb_spec (toupper ch) "B") as [EB | NB]; cbn [negb andb].
  { split; [discriminate | intros H; inversion H; tauto]. }
  destruct (Ascii.eqb_spec (toupper ch) "N") as [EN | NN]; cbn [negb andb].
  { split; [discriminate | intros H; inversion H; tauto]. }
  rewrite IH. split; [intros H; constructor; auto | intros H; now inversion H].
Qed.

Lemma promotePawn_result (st : GameState) (input : list ascii) (row col : Z)
    (Hwf : wf st) (Hsq : inBoard row col = true) (st' : GameState) (rest : list ascii) :
  promotePawn st input row col = Some (st', rest) ->
  (if isupper (peek st row col)
   then In (peek st' row col) ["Q"; "R"; "B"; "N"]%char
   else In (peek st' row col) ["q"; "r"; "b"; "n"]%char)
  /\ st' = poke st row col (peek st' row col)
  /\ exists typed, input = typed ++ rest.
Proof.
  intros H. unfold promotePawn in H.
  destruct (readPromotion input) as [[p rest'] |] eqn:R; [| discriminate].
  assert (exists typed, input = typed ++ rest') as Hsuffix.
  { clear H. revert R. induction input as [| ch input IH]; [discriminate |].
    cbn [readPromotion]. intros R.
    assert (readPromotion input = Some (p, rest') -> exists typed, ch :: input = typed ++ rest')
      as Hrec.
    { intros R'. destruct (IH R') as (typed & ->). now exists (ch :: typed). }
    destruct (isspace ch); [now apply Hrec |].
    match type of R with
    | (if ?e then _ else _) = _ => destruct e
    end; [now apply Hrec |].
    injection R as _ <-. now exists [ch]. }
  pose proof (readPromotion_piece _ _ _ R) as Hp.
  destruct (isupper (peek st row col)); injection H as <- <-.
  + rewrite peek_poke, !Z.eqb_refl by assumption. cbn [andb].
    split; [| split; [reflexivity | exact Hsuffix]].
    cbn. destruct Hp as [-> | [-> | [-> | ->]]]; auto.
  + rewrite peek_poke, !Z.eqb_refl by assumption. cbn [andb].
    split; [| split; [reflexivity | exact Hsuffix]].
    destruct Hp as [-> | [-> | [-> | ->]]]; cbn; auto.
Qed.



(** ** The board after an ordinary move *)


Lemma simulated_wf st fr fc tr tc : wf st -> wf (simulated st fr fc tr tc).
Proof. intros H. unfold simulated. now rewrite !wf_poke. Qed.

Lemma simulated_peek_to st fr fc tr tc :
  wf st -> inBoard fr fc = true -> inBoard tr tc = true -> (fr, fc) <> (tr, tc) ->
  peek (simulated st fr fc tr tc) tr tc = peek st fr fc.
Proof.
  intros Hw Hf Ht N. unfold simulated.
  rewrite peek_poke by (auto; now rewrite wf_poke).
  destruct (Z.eqb_spec fr tr) as [-> |]; destruct (Z.eqb_spec fc tc) as [-> |];
    cbn [andb]; try congruence;
    rewrite peek_poke, !Z.eqb_refl by auto; reflexivity.
Qed.

(** The board [makeMove] leaves after a move that is neither a castling
    move nor an en-passant capture: the simulated board, with the promoted
    piece in place of the pawn after a promotion. *)
Lemma makeMove_ordinary st input fr fc tr tc st' input' :
  wf st -> inBoard fr fc = true -> inBoard tr tc = true -> (fr, fc) <> (tr, tc) ->
  isCastlingMove st fr fc tr tc = false -> isEnPassantMove st fr fc tr tc = false ->
  makeMove st input fr fc tr tc = Some (st', input') ->
  board st' = board (simulated st fr fc tr tc)
  \/ ((peek st fr fc = WHITE_PAWN \/ peek st fr fc = BLACK_PAWN)
      /\ exists q, board st' = setSq (board (simulated st fr fc tr tc)) tr tc q
                   /\ if isupper (peek st fr fc)
                      then In q ["Q"; "R"; "B"; "N"]%char
                      else In q ["q"; "r"; "b"; "n"]%char).
Proof.
  intros Hw Hf Ht N Hc He H. unfold makeMove in H.
  fold (simulated st fr fc tr tc) in H.
  unfold isCastlingMove in Hc. rewrite Hc in H.
  unfold isEnPassantMove in He.
  change (enPassantTargetCol (simulated st fr fc tr tc)) with (enPassantTargetCol st) in H.
  change (enPassantTargetRow (simulated st fr fc tr tc)) with (enPassantTargetRow st) in H.
  rewrite He in H.
  pose proof (simulated_wf st fr fc tr tc Hw) as Ws.
  pose proof (simulated_peek_to st fr fc tr tc Hw Hf Ht N) as Pt.
  set (sim := simulated st fr fc tr tc) in *.
  assert (forall s (i : list ascii),
             Some (let st0 := updateCastlingRights s fr fc tr tc in
                   let st1 := withEnPassant st0 (-1) (-1) in
                   let st2 :=
                     if Ascii.eqb (toupper (peek st fr fc)) WHITE_PAWN
                        && (Z.abs (fr - tr) =? 2)
                     then withEnPassant st1 (Z.quot (fr + tr) 2) tc else st1 in
                   let st3 :=
                     if Ascii.eqb (toupper (peek st fr fc)) WHITE_PAWN
                        || negb (Ascii.eqb (peek st tr tc) EMPTY)
                     then withClocks st2 0 (fullmoveNumber st2)
                     else withClocks st2 (halfmoveClock st2 + 1) (fullmoveNumber st2) in
                   let st4 :=
                     if negb (isWhiteTurn st3)
                     then withClocks st3 (halfmoveClock st3) (fullmoveNumber st3 + 1)
                     else st3 in
                   (st4, i)) = Some (st', input') ->
             board st' = board s) as Tail.
  { intros s i E. injection E as <- _.
    destruct (updateCastlingRights_frame s fr fc tr tc) as (Ub & _).
    repeat (match goal with |- context [ if ?e then _ else _ ] => destruct e end);
      cbn; exact Ub. }
  match type of H with
  | match (if ?c then _ else _) with _ => _ end = _ => destruct c eqn:Promo
  end.
  - right.
    split.
    { apply orb_prop in Promo as [P | P]; apply andb_prop in P as [P _];
        apply Ascii.eqb_eq in P; auto. }
    pose proof (promotePawn_result sim input tr tc Ws Ht) as Hp.
    destruct (promotePawn sim input tr tc) as [[s1 rest] |]; [| discriminate].
    destruct (Hp s1 rest eq_refl) as (Hq & Es & _).
    rewrite Pt in Hq.
    exists (peek s1 tr tc). split; [| exact Hq].
    rewrite (Tail s1 rest H). rewrite Es at 1. reflexivity.
  - left. exact (Tail sim input H).
Qed.

Lemma getSq_simulated_promoted st fr fc tr tc q r c :
  wf st -> inBoard tr tc = true -> inBoard r c = true ->
  getSq (setSq (board (simulated st fr fc tr tc)) tr tc q) r c
  = if (tr =? r) && (tc =? c) then q else getSq (board (simulated st fr fc tr tc)) r c.
Proof.
  intros Hw Ht Hb. apply getSq_setSq; auto. apply (simulated_wf st fr fc tr tc Hw).
Qed.

(** X10.  A move accepted by [isValidMove] that is neither a castling move
    nor an en-passant capture leaves, once [makeMove] has applied it, the
    king of the side that moved not attacked: the guard of [isValidMove]
    tests the board that [makeMove] produces, up to the piece a promoted
    pawn becomes. *)
Theorem ordinary_move_keeps_king_safe (st : GameState) (input : list ascii)
    (fromRow fromCol toRow toCol : Z) (st' : GameState) (input' : list ascii)
    (Hwf : wf st)
    (Hvalid : fst (isValidMove st fromRow fromCol toRow toCol) = true)
    (Hcastling : isCastlingMove st fromRow fromCol toRow toCol = false)
    (HenPassant : isEnPassantMove st fromRow fromCol toRow toCol = false)
    (Hmove : makeMove st input fromRow fromCol toRow toCol = Some (st', input')) :
  wf st' /\ fst (isInCheck st' (isWhiteTurn st)) = false.
Proof.
  destruct (isValidMove_true st _ _ _ _ Hwf Hvalid) as (Hf & Ht & Ho & Hd & _).
  destruct (isValidMove_guards st _ _ _ _ Hwf Hvalid) as (_ & Hs).
  rewrite doesMovePutKingInCheck_value in Hs by assumption.
  assert ((fromRow, fromCol) <> (toRow, toCol)) as N
    by (intros E; injection E as -> ->; congruence).
  pose proof (simulated_wf st fromRow fromCol toRow toCol Hwf) as Ws.
  pose proof (simulated_peek_to st _ _ _ _ Hwf Hf Ht N) as Pt.
  pose proof (makeMove_ordinary st input _ _ _ _ st' input' Hwf Hf Ht N
                Hcastling HenPassant Hmove) as Hb.
  assert (wf st') as W'.
  { unfold wf. destruct Hb as [-> | (_ & q & -> & _)]; [exact Ws |].
    rewrite length_setSq. exact Ws. }
  split; [exact W' |].
  rewrite <- Hs. symmetry.
  apply isInCheck_shape; [exact Ws | exact W' |].
  intros r c Hrc.
  destruct Hb as [-> | (Hpawn & q & -> & Hq)]; [now left |].
  rewrite getSq_simulated_promoted by assumption.
  destruct ((toRow =? r) && (toCol =? c)) eqn:E; [| now left].
  right.
  apply andb_prop in E as [E1 E2]. apply Z.eqb_eq in E1, E2. subst r c.
  fold (peek (simulated st fromRow fromCol toRow toCol) toRow toCol). rewrite Pt.
  split; [exact Ho |].
  assert (ownPiece (isWhiteTurn st) q = true /\ q <> kingOf (isWhiteTurn st)) as [Oq Nq].
  { unfold ownPiece in *.
    destruct Hpawn as [E | E]; rewrite E in *; cbn in Hq, Ho;
      destruct (isWhiteTurn st); cbn in Ho; try discriminate;
      cbn; destruct Hq as [<- | [<- | [<- | [<- | []]]]]; split; try reflexivity;
      discriminate. }
  split; [exact Oq |]. split; [| exact Nq].
  destruct Hpawn as [E | E]; rewrite E; destruct (isWhiteTurn st); discriminate.
Qed.

Lemma ordinary_move_keeps_king_safe_witness :
  wf initializeGameState
  /\ fst (isValidMove initializeGameState 6 4 4 4) = true
  /\ isCastlingMove initializeGameState 6 4 4 4 = false
  /\ isEnPassantMove initializeGameState 6 4 4 4 = false
  /\ makeMove initializeGameState [] 6 4 4 4 = Some (afterKingPawn, [])
  /\ wf afterKingPawn
  /\ fst (isInCheck afterKingPawn (isWhiteTurn initializeGameState)) = false.
Proof.
  assert (makeMove initializeGameState [] 6 4 4 4 = Some (afterKingPawn, [])) as E
    by (vm_compute; reflexivity).
  assert (fst (isValidMove initializeGameState 6 4 4 4) = true) as V
    by (vm_compute; reflexivity).
  split; [reflexivity |]. split; [exact V |]. split; [reflexivity |].
  split; [reflexivity |]. split; [exact E |].
  exact (ordinary_move_keeps_king_safe initializeGameState [] 6 4 4 4 afterKingPawn []
           eq_refl V eq_refl eq_refl E).
Defined.

(** ** The castling rights after a move *)





(** ** The en-passant target after a move *)

Lemma toupper_pawn p :
  Ascii.eqb (toupper p) WHITE_PAWN = true -> p = WHITE_PAWN \/ p = BLACK_PAWN.
Proof.
  destruct p as [[] [] [] [] [] [] [] []]; intros H; try discriminate H;
    [right | left]; reflexivity.
Qed.

Lemma makeMove_target st input fr fc tr tc st' input' :
  makeMove st input fr fc tr tc = Some (st', input') ->
  (enPassantTargetRow st', enPassantTargetCol st')
  = if Ascii.eqb (toupper (peek st fr fc)) WHITE_PAWN && (Z.abs (fr - tr) =? 2)
    then (Z.quot (fr + tr) 2, tc) else (-1, -1).
Proof.
  unfold makeMove. intros H.
  match type of H with
  | match ?x with _ => _ end = _ => destruct x as [[s1 rest] |]; [| discriminate]
  end.
  set (u := updateCastlingRights s1 fr fc tr tc) in *. clearbody u.
  destruct (Ascii.eqb (toupper (peek st fr fc)) WHITE_PAWN && (Z.abs (fr - tr) =? 2)).
  all: repeat (match type of H with context [ if ?e then _ else _ ] => destruct e end);
    injection H as <- _; reflexivity.
Qed.

Lemma double_step_pattern st fr fc tr tc :
  peek st fr fc = WHITE_PAWN \/ peek st fr fc = BLACK_PAWN ->
  Z.abs (fr - tr) = 2 ->
  isValidPawnMove st fr fc tr tc = true ->
  fc = tc
  /\ (if isupper (peek st fr fc) then fr = 6 /\ tr = 4 else fr = 1 /\ tr = 3)
  /\ peek st (Z.quot (fr + tr) 2) fc = EMPTY
  /\ peek st tr tc = EMPTY.
Proof.
  intros Hp Habs H. unfold isValidPawnMove in H.
  destruct (negb (inBoard tr tc)); [discriminate |].
  assert (isupper (peek st fr fc) = true /\ peek st fr fc = WHITE_PAWN
          \/ isupper (peek st fr fc) = false /\ peek st fr fc = BLACK_PAWN) as Hc.
  { destruct Hp as [E | E]; rewrite E; [left | right]; split; reflexivity. }
  destruct Hc as [[U E] | [U E]]; rewrite U in *.
  - destruct (Z.eqb_spec tr (fr + -1)); [lia |].
    rewrite !andb_false_r in H. cbn [andb] in H.
    destruct (Z.eqb_spec fc tc) as [-> |]; cbn [andb] in H; [| discriminate].
    destruct (Z.eqb_spec fr 6) as [-> |]; cbn [andb] in H; [| discriminate].
    destruct (Z.eqb_spec tr (6 + 2 * -1)) as [-> |]; cbn [andb] in H; [| discriminate].
    change (6 + -1) with 5 in H. change (6 + 2 * -1) with 4 in *.
    destruct (Ascii.eqb_spec (peek st 5 tc) EMPTY) as [E5 |]; [| discriminate].
    destruct (Ascii.eqb_spec (peek st 4 tc) EMPTY) as [E4 |]; [| discriminate].
    repeat split; assumption.
  - destruct (Z.eqb_spec tr (fr + 1)); [lia |].
    rewrite !andb_false_r in H. cbn [andb] in H.
    destruct (Z.eqb_spec fc tc) as [-> |]; cbn [andb] in H; [| discriminate].
    destruct (Z.eqb_spec fr 1) as [-> |]; cbn [andb] in H; [| discriminate].
    destruct (Z.eqb_spec tr (1 + 2 * 1)) as [-> |]; cbn [andb] in H; [| discriminate].
    change (1 + 1) with 2 in H. change (1 + 2 * 1) with 3 in *.
    destruct (Ascii.eqb_spec (peek st 2 tc) EMPTY) as [E5 |]; [| discriminate].
    destruct (Ascii.eqb_spec (peek st 3 tc) EMPTY) as [E4 |]; [| discriminate].
    repeat split; assumption.
Qed.

Lemma makeMove_double_step_board st input fr tr c st' input' :
  peek st fr c = WHITE_PAWN \/ peek st fr c = BLACK_PAWN ->
  (if isupper (peek st fr c) then fr = 6 /\ tr = 4 else fr = 1 /\ tr = 3) ->
  makeMove st input fr c tr c = Some (st', input') ->
  board st' = board (simulated st fr c tr c).
Proof.
  intros Hp Hrows H. unfold makeMove in H.
  fold (simulated st fr c tr c) in H.
  assert (Ascii.eqb (toupper (peek st fr c)) WHITE_KING = false) as Hk
    by (destruct Hp as [E | E]; rewrite E; reflexivity).
  rewrite Hk in H. cbn [andb] in H.
  match type of H with
  | match (if ?p then _ else _) with _ => _ end = _ =>
    assert (p = false) as Hpromo
  end.
  { destruct Hp as [E | E]; rewrite E in *; cbn in Hrows; destruct Hrows as [-> ->];
      reflexivity. }
  rewrite Hpromo in H.
  match type of H with
  | context [ updateCastlingRights ?s _ _ _ _ ] =>
    assert (board s = board (simulated st fr c tr c)) as Hb;
    [| set (s0 := s) in *; clearbody s0 ]
  end.
  { match goal with |- context [ if ?e then _ else _ ] => destruct e end; [| reflexivity].
    unfold simulated, poke, setSq. cbn [board withBoard].
    now rewrite list_insert_insert_eq. }
  destruct (updateCastlingRights_frame s0 fr c tr c) as (Ub & _).
  set (u := updateCastlingRights s0 fr c tr c) in *. clearbody u.
  repeat (match type of H with context [ if ?e then _ else _ ] => destruct e end);
    injection H as <- _; cbn [board withClocks withEnPassant]; rewrite Ub; exact Hb.
Qed.

(** X12.  After a move accepted by [isValidMove], [makeMove] leaves an
    en-passant target exactly when a pawn has moved two rows: the pawn has
    left its starting row (6 for White, 1 for Black) along its file, the
    target is the square it passed over (row 5 or 2), that square is empty
    and the pawn stands on the square beyond it.  After any other move the
    target is (-1, -1). *)
Theorem makeMove_en_passant_target (st : GameState) (input : list ascii)
    (fromRow fromCol toRow toCol : Z) (st' : GameState) (input' : list ascii)
    (Hwf : wf st)
    (Hvalid : fst (isValidMove st fromRow fromCol toRow toCol) = true)
    (Hmove : makeMove st input fromRow fromCol toRow toCol = Some (st', input')) :
  if Ascii.eqb (toupper (peek st fromRow fromCol)) WHITE_PAWN
     && (Z.abs (fromRow - toRow) =? 2)
  then fromCol = toCol
       /\ (if isWhiteTurn st
           then fromRow = 6 /\ toRow = 4 /\ enPassantTargetRow st' = 5
           else fromRow = 1 /\ toRow = 3 /\ enPassantTargetRow st' = 2)
       /\ enPassantTargetCol st' = toCol
       /\ peek st' (enPassantTargetRow st') toCol = EMPTY
       /\ peek st' toRow toCol = peek st fromRow fromCol
  else enPassantTargetRow st' = -1 /\ enPassantTargetCol st' = -1.
Proof.
  pose proof (makeMove_target _ _ _ _ _ _ _ _ Hmove) as T.
  destruct (Ascii.eqb (toupper (peek st fromRow fromCol)) WHITE_PAWN) eqn:Tp;
    cbn [andb] in *; [| now injection T].
  destruct (Z.eqb_spec (Z.abs (fromRow - toRow)) 2) as [Habs |]; [| now injection T].
  injection T as Tr Tc.
  destruct (isValidMove_true st _ _ _ _ Hwf Hvalid) as (Hf & Ht & Ho & _).
  pose proof (isValidMove_true_pawn st _ _ _ _ Hvalid Tp) as Hpat.
  pose proof (toupper_pawn _ Tp) as Hp.
  destruct (double_step_pattern st _ _ _ _ Hp Habs Hpat) as (Ec & Hrows & Emid & Eto).
  rewrite <- Ec in *. clear Ec.
  pose proof (makeMove_double_step_board st input _ _ _ st' input' Hp Hrows Hmove) as Hb.
  assert (isupper (peek st fromRow fromCol) = isWhiteTurn st) as Hcol.
  { unfold ownPiece in Ho. destruct Hp as [E | E]; rewrite E in Ho |- *;
      destruct (isWhiteTurn st); vm_compute in Ho |- *; congruence. }
  rewrite Hcol in Hrows.
  assert (forall r, inBoard r fromCol = true -> r <> fromRow -> r <> toRow ->
            peek st' r fromCol = peek st r fromCol) as Hother.
  { intros r Hr N1 N2. unfold peek at 1. rewrite Hb. fold (peek (simulated st fromRow fromCol toRow fromCol) r fromCol).
    unfold simulated. rewrite !peek_poke by (auto; now rewrite ?wf_poke).
    destruct (Z.eqb_spec fromRow r); [congruence |].
    destruct (Z.eqb_spec toRow r); [congruence |]. reflexivity. }
  assert (peek st' toRow fromCol = peek st fromRow fromCol) as Hto.
  { unfold peek at 1. rewrite Hb.
    fold (peek (simulated st fromRow fromCol toRow fromCol) toRow fromCol).
    apply simulated_peek_to; auto. intros E. injection E as E. lia. }
  assert (inBoard 5 fromCol = true /\ inBoard 2 fromCol = true) as [H5 H2].
  { apply inBoard_spec in Hf. split; apply inBoard_spec; lia. }
  split; [reflexivity |].
  destruct (isWhiteTurn st); destruct Hrows as [-> ->]; cbn in Tr, Emid; rewrite Tr.
  - split; [auto |]. split; [exact Tc |]. split; [| exact Hto].
    rewrite Hother by (auto; lia). exact Emid.
  - split; [auto |]. split; [exact Tc |]. split; [| exact Hto].
    rewrite Hother by (auto; lia). exact Emid.
Qed.

Lemma makeMove_en_passant_target_witness :
  wf beforeDoubleStep
  /\ fst (isValidMove beforeDoubleStep 1 3 3 3) = true
  /\ makeMove beforeDoubleStep [] 1 3 3 3 = Some (passTurn afterDoubleStep, [])
  /\ enPassantTargetRow (passTurn afterDoubleStep) = 2
  /\ enPassantTargetCol (passTurn afterDoubleStep) = 3
  /\ peek (passTurn afterDoubleStep) 2 3 = EMPTY
  /\ peek (passTurn afterDoubleStep) 3 3 = BLACK_PAWN.
Proof.
  assert (makeMove beforeDoubleStep [] 1 3 3 3 = Some (passTurn afterDoubleStep, [])) as E
    by (vm_compute; reflexivity).
  assert (fst (isValidMove beforeDoubleStep 1 3 3 3) = true) as V
    by (vm_compute; reflexivity).
  pose proof (makeMove_en_passant_target beforeDoubleStep [] 1 3 3 3
                (passTurn afterDoubleStep) [] eq_refl V E) as H.
  change (Ascii.eqb (toupper (peek beforeDoubleStep 1 3)) WHITE_PAWN
          && (Z.abs (1 - 3) =? 2)) with true in H.
  change (isWhiteTurn beforeDoubleStep) with false in H.
  cbv iota in H. destruct H as (_ & (_ & _ & Hr) & Hc & He & Hp).
  split; [reflexivity |]. split; [exact V |]. split; [exact E |].
  split; [exact Hr |]. split; [exact Hc |].
  split; [rewrite <- Hr; exact He | rewrite Hp; reflexivity].
Defined.

(** ** The end of the game *)

Lemma isCheckmate_inCheck st :
  wf st -> fst (isCheckmate st) = true -> fst (isInCheck st (isWhiteTurn st)) = true.
Proof.
  intros Hw H. rewrite isCheckmate_value in H by exact Hw.
  destruct (fst (isInCheck st (isWhiteTurn st))); [reflexivity | discriminate].
Qed.

Lemma isStalemate_notInCheck st :
  wf st -> fst (isStalemate st) = true -> fst (isInCheck st (isWhiteTurn st)) = false.
Proof.
  intros Hw H. rewrite isStalemate_value in H by exact Hw.
  destruct (fst (isInCheck st (isWhiteTurn st))); [discriminate | reflexivity].
Qed.

(** X13.  [isGameOver] holds exactly when [isCheckmate] or [isDraw] does (its
    own test of [isStalemate] is one of the tests of [isDraw]), it gives the
    position back unchanged, and [isCheckmate] and [isStalemate] never hold
    of the same position. *)
Theorem isGameOver_spec (st : GameState) (Hwf : wf st) :
  isGameOver st = (fst (isCheckmate st) || fst (isDraw st), st)
  /\ fst (isGameOver st)
     = fst (isCheckmate st) || fst (isStalemate st) || isInsufficientMaterial st
       || (100 <=? halfmoveClock st)
  /\ ~ (fst (isCheckmate st) = true /\ fst (isStalemate st) = true).
Proof.
  assert (isGameOver st = (fst (isCheckmate st) || fst (isDraw st), st)
          /\ fst (isDraw st)
             = fst (isStalemate st) || isInsufficientMaterial st
               || (100 <=? halfmoveClock st)) as [E D].
  { unfold isGameOver.
    pose proof (isCheckmate_frame st Hwf) as F1.
    destruct (isCheckmate st) as [mate st1]. cbn [fst snd] in *. subst st1.
    unfold isDraw.
    pose proof (isStalemate_frame st Hwf) as F2.
    destruct (isStalemate st) as [stale st2] eqn:ES. cbn [fst snd] in *. subst st2.
    rewrite ?ES.
    unfold isFiftyMoveRule, isThreefoldRepetition. rewrite !Z.geb_leb.
    destruct mate, stale; cbn [orb fst]; try (split; reflexivity);
      destruct (isInsufficientMaterial st); cbn [orb fst]; try (split; reflexivity);
      destruct (100 <=? halfmoveClock st); split; reflexivity. }
  split; [exact E |]. split.
  - rewrite E. cbn [fst]. rewrite D. now rewrite !orb_assoc.
  - intros [M S].
    pose proof (isCheckmate_inCheck st Hwf M). pose proof (isStalemate_notInCheck st Hwf S).
    congruence.
Qed.

Lemma isGameOver_spec_witness :
  wf foolsMate
  /\ isGameOver foolsMate = (true, foolsMate)
  /\ fst (isCheckmate foolsMate) = true.
Proof.
  pose proof (isGameOver_spec foolsMate eq_refl) as (E & _).
  split; [reflexivity |]. split; [| reflexivity].
  rewrite E. reflexivity.
Defined.

(** ** Insufficient material *)

Lemma countMaterial_heavy b r c :
  (let p := getSq b r c in
   Ascii.eqb p WHITE_PAWN || Ascii.eqb p WHITE_ROOK || Ascii.eqb p WHITE_QUEEN
   || Ascii.eqb p BLACK_PAWN || Ascii.eqb p BLACK_ROOK || Ascii.eqb p BLACK_QUEEN) = true ->
  forall sqs m, In (r, c) sqs -> countMaterial b sqs m = None.
Proof.
  cbv zeta. intros Hp. induction sqs as [| [i j] rest IH]; intros m Hin; [destruct Hin |].
  cbn [countMaterial].
  destruct (Ascii.eqb (getSq b i j) WHITE_PAWN || Ascii.eqb (getSq b i j) WHITE_ROOK
            || Ascii.eqb (getSq b i j) WHITE_QUEEN) eqn:W; [reflexivity |].
  destruct (Ascii.eqb (getSq b i j) BLACK_PAWN || Ascii.eqb (getSq b i j) BLACK_ROOK
            || Ascii.eqb (getSq b i j) BLACK_QUEEN) eqn:B; [reflexivity |].
  destruct Hin as [E | Hin].
  - injection E as -> ->. rewrite W in Hp. cbn [orb] in Hp.
    rewrite <- !orb_assoc in Hp. rewrite <- !orb_assoc in B. congruence.
  - destruct m as [wp bp wn bn wb bb wc bc]. apply IH. exact Hin.
Qed.

(** The kings counted on a board that holds nothing else. *)
Lemma countMaterial_kings b :
  forall sqs m,
    (forall sq, In sq sqs ->
       getSq b (fst sq) (snd sq) = EMPTY \/ getSq b (fst sq) (snd sq) = WHITE_KING
       \/ getSq b (fst sq) (snd sq) = BLACK_KING) ->
    countMaterial b sqs m
    = Some (mkMaterial
              (whitePieces m
               + Z.of_nat (length (List.filter
                    (fun sq => Ascii.eqb (getSq b (fst sq) (snd sq)) WHITE_KING) sqs)))
              (blackPieces m
               + Z.of_nat (length (List.filter
                    (fun sq => Ascii.eqb (getSq b (fst sq) (snd sq)) BLACK_KING) sqs)))
              (whiteKnights m) (blackKnights m) (whiteBishops m) (blackBishops m)
              (whiteBishopSquareColor m) (blackBishopSquareColor m)).
Proof.
  induction sqs as [| [i j] rest IH]; intros m H.
  - destruct m as [wp bp wn bn wb bb wc bc]. cbn. now rewrite !Z.add_0_r.
  - cbn [countMaterial List.filter fst snd].
    assert (forall sq, In sq rest ->
              getSq b (fst sq) (snd sq) = EMPTY \/ getSq b (fst sq) (snd sq) = WHITE_KING
              \/ getSq b (fst sq) (snd sq) = BLACK_KING) as H' by (intros; apply H; now right).
    destruct (H (i, j) (or_introl eq_refl)) as [E | [E | E]]; cbn [fst snd] in E; rewrite E;
      destruct m as [wp bp wn bn wb bb wc bc]; cbn -[Z.add Z.of_nat];
      rewrite IH by exact H'; cbn [whitePieces blackPieces
        whiteKnights blackKnights whiteBishops blackBishops whiteBishopSquareColor
        blackBishopSquareColor length]; f_equal; f_equal; lia.
Qed.

(** X14.  [isInsufficientMaterial] never holds while a pawn, a rook or a
    queen of either colour is on the board; on a board that holds only
    kings it holds exactly when each side has one king. *)
Theorem isInsufficientMaterial_spec (st : GameState) :
  (forall r c,
      inBoard r c = true ->
      In (peek st r c) [WHITE_PAWN; WHITE_ROOK; WHITE_QUEEN;
                        BLACK_PAWN; BLACK_ROOK; BLACK_QUEEN] ->
      isInsufficientMaterial st = false)
  /\ ((forall r c, inBoard r c = true -> In (peek st r c) [EMPTY; WHITE_KING; BLACK_KING]) ->
      isInsufficientMaterial st
      = (Nat.eqb (countPiece (board st) WHITE_KING) 1
         && Nat.eqb (countPiece (board st) BLACK_KING) 1)).
Proof.
  split.
  - intros r c Hb Hp. unfold isInsufficientMaterial.
    rewrite (countMaterial_heavy (board st) r c); [reflexivity | | now apply In_allSquares].
    cbv zeta. fold (peek st r c).
    cbn [In] in Hp. destruct Hp as [<- | [<- | [<- | [<- | [<- | [<- | []]]]]]]; reflexivity.
  - intros H. unfold isInsufficientMaterial.
    rewrite countMaterial_kings.
    + fold (countPiece (board st) WHITE_KING). fold (countPiece (board st) BLACK_KING).
      cbn [whitePieces blackPieces whiteKnights blackKnights whiteBishops blackBishops
           whiteBishopSquareColor blackBishopSquareColor].
      destruct (Nat.eqb_spec (countPiece (board st) WHITE_KING) 1) as [-> | N1];
        destruct (Nat.eqb_spec (countPiece (board st) BLACK_KING) 1) as [-> | N2];
        cbn [andb Z.of_nat]; try reflexivity.
      * destruct (Z.eqb_spec (0 + 1) 1); [| lia]. cbn [andb].
        destruct (Z.eqb_spec (0 + Z.of_nat (countPiece (board st) BLACK_KING)) 1); [lia |].
        destruct (Z.eqb_spec (0 + 1) 2); [lia |]. cbn [andb orb].
        destruct (Z.eqb_spec (0 + Z.of_nat (countPiece (board st) BLACK_KING)) 2);
          cbn [andb orb]; reflexivity.
      * destruct (Z.eqb_spec (0 + Z.of_nat (countPiece (board st) WHITE_KING)) 1); [lia |].
        cbn [andb].
        destruct (Z.eqb_spec (0 + Z.of_nat (countPiece (board st) WHITE_KING)) 2);
          cbn [andb orb]; destruct (Z.eqb_spec (0 + 1) 2); try lia; cbn [andb orb];
          try reflexivity; destruct (Z.eqb_spec (0 + 1) 1); cbn [andb orb]; reflexivity.
      * destruct (Z.eqb_spec (0 + Z.of_nat (countPiece (board st) WHITE_KING)) 1); [lia |].
        cbn [andb].
        destruct (Z.eqb_spec (0 + Z.of_nat (countPiece (board st) WHITE_KING)) 2);
          destruct (Z.eqb_spec (0 + Z.of_nat (countPiece (board st) BLACK_KING)) 1);
          destruct (Z.eqb_spec (0 + Z.of_nat (countPiece (board st) BLACK_KING)) 2);
          try lia; cbn [andb orb]; reflexivity.
    + intros [r c] Hin. cbn [fst snd]. apply In_allSquares in Hin.
      specialize (H r c Hin). unfold peek in H. cbn [In] in H.
      destruct H as [<- | [<- | [<- | []]]]; auto.
Qed.

(** ** The cursor *)

Lemma rem8_wrap x : 0 <= x < 8 -> 0 <= Z.rem (x - 1 + 8) 8 < 8 /\ 0 <= Z.rem (x + 1) 8 < 8
  /\ Z.rem (Z.rem (x - 1 + 8) 8 + 1) 8 = x /\ Z.rem (Z.rem (x + 1) 8 - 1 + 8) 8 = x.
Proof.
  intros H.
  assert (x = 0 \/ x = 1 \/ x = 2 \/ x = 3 \/ x = 4 \/ x = 5 \/ x = 6 \/ x = 7) as C by lia.
  destruct C as [-> | [-> | [-> | [-> | [-> | [-> | [-> | ->]]]]]]]; vm_compute;
    repeat split; congruence.
Qed.

(** X15.  [moveCursor] keeps the cursor on the board, wrapping around at the
    edges: from a cursor on the board every key leaves it on the board, the
    keys w and s undo each other, as do a and d, any other key changes
    nothing, and the selection is never touched. *)
Theorem moveCursor_spec (cu : Cursor) (direction : ascii)
    (Hcursor : inBoard (cursorRow cu) (cursorCol cu) = true) :
  inBoard (cursorRow (moveCursor cu direction)) (cursorCol (moveCursor cu direction)) = true
  /\ pieceSelected (moveCursor cu direction) = pieceSelected cu
  /\ selectedRow (moveCursor cu direction) = selectedRow cu
  /\ selectedCol (moveCursor cu direction) = selectedCol cu
  /\ moveCursor (moveCursor cu "w") "s" = cu
  /\ moveCursor (moveCursor cu "s") "w" = cu
  /\ moveCursor (moveCursor cu "a") "d" = cu
  /\ moveCursor (moveCursor cu "d") "a" = cu
  /\ (~ In direction ["w"; "W"; "s"; "S"; "a"; "A"; "d"; "D"]%char ->
      moveCursor cu direction = cu).
Proof.
  destruct cu as [row col sel sr sc]. cbn [cursorRow cursorCol] in Hcursor.
  apply inBoard_spec in Hcursor as [Hr Hc].
  destruct (rem8_wrap row Hr) as (R1 & R2 & R3 & R4).
  destruct (rem8_wrap col Hc) as (C1 & C2 & C3 & C4).
  split; [| split; [| split; [| split]]].
  1-4: unfold moveCursor;
    repeat (match goal with |- context [ if ?e then _ else _ ] => destruct e end);
    cbn [cursorRow cursorCol pieceSelected selectedRow selectedCol]; try reflexivity;
    apply inBoard_spec; unfold BOARD_SIZE; lia.
  unfold moveCursor. cbn. unfold BOARD_SIZE.
  split; [now rewrite R3 |]. split; [now rewrite R4 |].
  split; [now rewrite C3 |]. split; [now rewrite C4 |].
  intros N.
  repeat (match goal with
          | |- context [ Ascii.eqb direction ?k ] =>
            destruct (Ascii.eqb_spec direction k) as [-> | ?];
            [exfalso; apply N; cbn; tauto |]
          end).
  reflexivity.
Qed.

Lemma moveCursor_spec_witness :
  inBoard (cursorRow initialCursor) (cursorCol initialCursor) = true
  /\ moveCursor initialCursor "w" = mkCursor 7 0 false (-1) (-1)
  /\ moveCursor (moveCursor initialCursor "w") "s" = initialCursor.
Proof.
  split; [reflexivity |]. split; [reflexivity |].
  exact (proj1 (proj2 (proj2 (proj2 (proj2 (moveCursor_spec initialCursor "x" eq_refl)))))).
Defined.

(** X16.  [handleCursorSelection] selects only a piece of the side to move;
    with a piece selected, the position changes only by [makeMove] of a
    pair of squares that [isValidMove] accepts, followed by the change of
    turn; a second press on the selected square cancels the selection and
    leaves the position as it was; and when it returns false neither the
    position nor the cursor has changed. *)
Theorem handleCursorSelection_spec (st : GameState) (cu : Cursor) (input : list ascii)
    (Hwf : wf st) :
  (pieceSelected cu = false ->
   exists ok cu',
     handleCursorSelection st cu input = Some (ok, st, cu', input)
     /\ (if ok
         then pieceSelected cu' = true
              /\ selectedRow cu' = cursorRow cu /\ selectedCol cu' = cursorCol cu
              /\ ownPiece (isWhiteTurn st) (peek st (cursorRow cu) (cursorCol cu)) = true
         else cu' = cu))
  /\ (pieceSelected cu = true ->
      forall ok st' cu' input',
        handleCursorSelection st cu input = Some (ok, st', cu', input') ->
        (fst (isValidMove st (selectedRow cu) (selectedCol cu)
                (cursorRow cu) (cursorCol cu)) = true
         /\ ok = true /\ pieceSelected cu' = false
         /\ exists st1,
             makeMove st input (selectedRow cu) (selectedCol cu)
               (cursorRow cu) (cursorCol cu) = Some (st1, input')
             /\ st' = withTurn st1 (negb (isWhiteTurn st1)))
        \/ (fst (isValidMove st (selectedRow cu) (selectedCol cu)
                   (cursorRow cu) (cursorCol cu)) = false
            /\ st' = st /\ input' = input
            /\ (if ok then pieceSelected cu' = false else cu' = cu)))
  /\ (pieceSelected cu = true ->
      cursorRow cu = selectedRow cu -> cursorCol cu = selectedCol cu ->
      handleCursorSelection st cu input
      = Some (true, st, mkCursor (cursorRow cu) (cursorCol cu) false (-1) (-1), input)).
Proof.
  split; [| split].
  - intros Hs. unfold handleCursorSelection. rewrite Hs. cbn [negb].
    fold (ownPiece (isWhiteTurn st) (peek st (cursorRow cu) (cursorCol cu))).
    destruct (ownPiece (isWhiteTurn st) (peek st (cursorRow cu) (cursorCol cu))) eqn:O.
    + eexists true, _. split; [reflexivity |]. cbn. auto.
    + exists false, cu. split; reflexivity.
  - intros Hs ok st' cu' input' H. unfold handleCursorSelection in H.
    rewrite Hs in H. cbn [negb] in H.
    pose proof (isValidMove_frame st (selectedRow cu) (selectedCol cu)
                  (cursorRow cu) (cursorCol cu) Hwf) as F.
    destruct (isValidMove st (selectedRow cu) (selectedCol cu) (cursorRow cu) (cursorCol cu))
      as [valid st0]. cbn [fst snd] in *. subst st0.
    destruct valid.
    + left. destruct (makeMove st input _ _ _ _) as [[st1 input1] |]; [| discriminate].
      injection H as <- <- <- <-. repeat split. now exists st1.
    + right. split; [reflexivity |].
      destruct ((cursorRow cu =? selectedRow cu) && (cursorCol cu =? selectedCol cu));
        injection H as <- <- <- <-; repeat split.
  - intros Hs Er Ec. unfold handleCursorSelection. rewrite Hs. cbn [negb].
    pose proof (isValidMove_frame st (selectedRow cu) (selectedCol cu)
                  (cursorRow cu) (cursorCol cu) Hwf) as F.
    destruct (isValidMove st (selectedRow cu) (selectedCol cu) (cursorRow cu) (cursorCol cu))
      as [valid st0] eqn:E. cbn [fst snd] in *. subst st0.
    destruct valid.
    + exfalso.
      assert (fst (isValidMove st (selectedRow cu) (selectedCol cu)
                     (cursorRow cu) (cursorCol cu)) = true) as V by now rewrite E.
      destruct (isValidMove_true st _ _ _ _ Hwf V) as (_ & _ & Ho & Hd & _).
      rewrite Er, Ec in Hd. congruence.
    + now rewrite Er, Ec, !Z.eqb_refl.
Qed.

Lemma handleCursorSelection_spec_witness :
  wf initializeGameState
  /\ handleCursorSelection initializeGameState (mkCursor 6 4 true 6 4) []
     = Some (true, initializeGameState, mkCursor 6 4 false (-1) (-1), []).
Proof.
  split; [reflexivity |].
  exact (proj2 (proj2 (handleCursorSelection_spec initializeGameState
                         (mkCursor 6 4 true 6 4) [] eq_refl)) eq_refl eq_refl eq_refl).
Defined.

(** ** Room codes *)




(** ** The paths of the sliding pieces *)

Lemma forallb_seq_shift (f : nat -> bool) a n :
  forallb f (seq (S a) n) = forallb (fun k => f (S k)) (seq a n).
Proof.
  revert a. induction n as [| n IH]; intros a; [reflexivity |].
  cbn [seq forallb]. now rewrite IH.
Qed.

Lemma forallb_pointwise {A : Type} (f g : A -> bool) l :
  (forall x, f x = g x) -> forallb f l = forallb g l.
Proof.
  intros H. induction l as [| x rest IH]; [reflexivity |].
  cbn [forallb]. now rewrite H, IH.
Qed.

Lemma forallb_mapped {A B : Type} (f : B -> bool) (g : A -> B) l :
  forallb f (map g l) = forallb (fun x => f (g x)) l.
Proof.
  induction l as [| x rest IH]; [reflexivity |]. cbn [map forallb]. now rewrite IH.
Qed.

Lemma rookWalk_path b rs cs tr tc :
  (rs <> 0 \/ cs <> 0) ->
  forall m budget r c,
    (m < budget)%nat ->
    tr = r + Z.of_nat m * rs -> tc = c + Z.of_nat m * cs ->
    (forall k, (k < m)%nat -> inBoard (r + Z.of_nat k * rs) (c + Z.of_nat k * cs) = true) ->
    rookWalk budget b r c rs cs tr tc
    = forallb (fun k => Ascii.eqb (getSq b (r + Z.of_nat k * rs) (c + Z.of_nat k * cs)) EMPTY)
        (seq 0 m).
Proof.
  intros Hstep. induction m as [| m IH]; intros budget r c Hb Er Ec Hin;
    (destruct budget as [| budget]; [lia |]); cbn [rookWalk].
  - replace tr with r by lia. replace tc with c by lia. now rewrite !Z.eqb_refl.
  - assert (negb (r =? tr) || negb (c =? tc) = true) as Hne.
    { destruct (Z.eqb_spec r tr); destruct (Z.eqb_spec c tc); try reflexivity. nia. }
    rewrite Hne.
    pose proof (Hin 0%nat ltac:(lia)) as H0. cbn in H0. rewrite !Z.add_0_r in H0.
    rewrite H0. cbn [negb seq forallb].
    replace (r + Z.of_nat 0 * rs) with r by lia. replace (c + Z.of_nat 0 * cs) with c by lia.
    destruct (Ascii.eqb (getSq b r c) EMPTY); cbn [negb andb]; [| reflexivity].
    rewrite forallb_seq_shift.
    rewrite (IH budget (r + rs) (c + cs)); try lia.
    + apply forallb_pointwise. intros k. do 2 f_equal; lia.
    + intros k Hk. specialize (Hin (S k) ltac:(lia)).
      replace (r + rs + Z.of_nat k * rs) with (r + Z.of_nat (S k) * rs) by lia.
      replace (c + cs + Z.of_nat k * cs) with (c + Z.of_nat (S k) * cs) by lia.
      exact Hin.
Qed.

Lemma bishopWalk_path b rs cs tr tc :
  rs <> 0 -> cs <> 0 ->
  forall m budget r c,
    (m < budget)%nat ->
    tr = r + Z.of_nat m * rs -> tc = c + Z.of_nat m * cs ->
    (forall k, (k < m)%nat -> inBoard (r + Z.of_nat k * rs) (c + Z.of_nat k * cs) = true) ->
    bishopWalk budget b r c rs cs tr tc
    = forallb (fun k => Ascii.eqb (getSq b (r + Z.of_nat k * rs) (c + Z.of_nat k * cs)) EMPTY)
        (seq 0 m).
Proof.
  intros Hrs Hcs. induction m as [| m IH]; intros budget r c Hb Er Ec Hin;
    (destruct budget as [| budget]; [lia |]); cbn [bishopWalk].
  - replace tr with r by lia. now rewrite Z.eqb_refl.
  - assert (negb (r =? tr) && negb (c =? tc) = true) as Hne.
    { destruct (Z.eqb_spec r tr); destruct (Z.eqb_spec c tc); try reflexivity; nia. }
    rewrite Hne.
    pose proof (Hin 0%nat ltac:(lia)) as H0. cbn in H0. rewrite !Z.add_0_r in H0.
    rewrite H0. cbn [negb seq forallb].
    replace (r + Z.of_nat 0 * rs) with r by lia. replace (c + Z.of_nat 0 * cs) with c by lia.
    destruct (Ascii.eqb (getSq b r c) EMPTY); cbn [negb andb]; [| reflexivity].
    rewrite forallb_seq_shift.
    rewrite (IH budget (r + rs) (c + cs)); try lia.
    + apply forallb_pointwise. intros k. do 2 f_equal; lia.
    + intros k Hk. specialize (Hin (S k) ltac:(lia)).
      replace (r + rs + Z.of_nat k * rs) with (r + Z.of_nat (S k) * rs) by lia.
      replace (c + cs + Z.of_nat k * cs) with (c + Z.of_nat (S k) * cs) by lia.
      exact Hin.
Qed.

Lemma pathClear_walk st fr fc tr tc :
  pathClear st fr fc tr tc
  = forallb (fun k => Ascii.eqb (getSq (board st)
                                   (fr + Z.sgn (tr - fr) + Z.of_nat k * Z.sgn (tr - fr))
                                   (fc + Z.sgn (tc - fc) + Z.of_nat k * Z.sgn (tc - fc)))
                        EMPTY)
      (seq 0 (Z.to_nat (Z.max (Z.abs (tr - fr)) (Z.abs (tc - fc))) - 1)).
Proof.
  unfold pathClear, pathSquares. cbv zeta. rewrite forallb_mapped, forallb_seq_shift.
  apply forallb_pointwise. intros k. cbn [fst snd]. unfold peek. do 2 f_equal; lia.
Qed.

Lemma sgn_steps a b :
  (if b >? a then 1 else if b <? a then -1 else 0) = Z.sgn (b - a)
  /\ (a <> b -> (if b >? a then 1 else -1) = Z.sgn (b - a)).
Proof.
  destruct (Z.gtb_spec b a); destruct (Z.ltb_spec b a); split; intros; lia.
Qed.

Lemma isValidRookMove_path st fr fc tr tc :
  inBoard fr fc = true -> inBoard tr tc = true ->
  isValidRookMove st fr fc tr tc
  = ((fr =? tr) || (fc =? tc)) && negb ((fr =? tr) && (fc =? tc))
    && pathClear st fr fc tr tc.
Proof.
  intros Hf Ht. apply inBoard_spec in Hf as Hf', Ht as Ht'.
  unfold isValidRookMove.
  destruct (Z.eqb_spec fr tr) as [Er | Nr]; destruct (Z.eqb_spec fc tc) as [Ec | Nc];
    cbn [negb andb orb]; try reflexivity.
  - (* along the rank *)
    rewrite (proj1 (sgn_steps fr tr)), (proj1 (sgn_steps fc tc)), pathClear_walk.
    rewrite walkBudget_S.
    apply rookWalk_path; try lia.
    + intros k Hk. apply inBoard_spec. lia.
  - rewrite (proj1 (sgn_steps fr tr)), (proj1 (sgn_steps fc tc)), pathClear_walk.
    rewrite walkBudget_S.
    apply rookWalk_path; try lia.
    + intros k Hk. apply inBoard_spec. lia.
Qed.

Lemma isValidBishopMove_path st fr fc tr tc :
  inBoard fr fc = true -> inBoard tr tc = true ->
  isValidBishopMove st fr fc tr tc
  = (Z.abs (tr - fr) =? Z.abs (tc - fc)) && negb ((fr =? tr) && (fc =? tc))
    && pathClear st fr fc tr tc.
Proof.
  intros Hf Ht. apply inBoard_spec in Hf as Hf', Ht as Ht'.
  unfold isValidBishopMove.
  destruct (Z.eqb_spec (Z.abs (tr - fr)) (Z.abs (tc - fc))) as [Ea | Na];
    cbn [negb andb]; [| reflexivity].
  destruct (Z.eqb_spec fr tr) as [Er | Nr]; destruct (Z.eqb_spec fc tc) as [Ec | Nc];
    cbn [negb andb orb]; try reflexivity; try lia.
  rewrite (proj2 (sgn_steps fr tr) Nr), (proj2 (sgn_steps fc tc) Nc), pathClear_walk.
  rewrite walkBudget_S.
  apply bishopWalk_path; try lia.
  intros k Hk. apply inBoard_spec. lia.
Qed.

(** X18.  The sliding pieces do not jump: between two squares of the board,
    [isValidRookMove] holds exactly when the squares differ, share a rank
    or a file and every square strictly between them is empty;
    [isValidBishopMove] exactly when they differ, lie on one diagonal and
    every square strictly between them is empty; [isValidQueenMove] when
    one of the two holds.  The squares at the two ends are not looked at. *)
Theorem sliding_moves_spec (st : GameState) (fromRow fromCol toRow toCol : Z)
    (Hfrom : inBoard fromRow fromCol = true) (Hto : inBoard toRow toCol = true) :
  isValidRookMove st fromRow fromCol toRow toCol
  = ((fromRow =? toRow) || (fromCol =? toCol))
    && negb ((fromRow =? toRow) && (fromCol =? toCol))
    && pathClear st fromRow fromCol toRow toCol
  /\ isValidBishopMove st fromRow fromCol toRow toCol
     = (Z.abs (toRow - fromRow) =? Z.abs (toCol - fromCol))
       && negb ((fromRow =? toRow) && (fromCol =? toCol))
       && pathClear st fromRow fromCol toRow toCol
  /\ isValidQueenMove st fromRow fromCol toRow toCol
     = ((fromRow =? toRow) || (fromCol =? toCol)
        || (Z.abs (toRow - fromRow) =? Z.abs (toCol - fromCol)))
       && negb ((fromRow =? toRow) && (fromCol =? toCol))
       && pathClear st fromRow fromCol toRow toCol.
Proof.
  split; [now apply isValidRookMove_path |].
  split; [now apply isValidBishopMove_path |].
  unfold isValidQueenMove.
  rewrite isValidRookMove_path, isValidBishopMove_path by assumption.
  destruct ((fromRow =? toRow) || (fromCol =? toCol));
    destruct (Z.abs (toRow - fromRow) =? Z.abs (toCol - fromCol));
    destruct (negb ((fromRow =? toRow) && (fromCol =? toCol)));
    destruct (pathClear st fromRow fromCol toRow toCol); reflexivity.
Qed.

Lemma sliding_moves_spec_witness :
  inBoard 7 0 = true /\ inBoard 4 0 = true
  /\ pathSquares 7 0 4 0 = [(6, 0); (5, 0)]
  /\ isValidRookMove initializeGameState 7 0 4 0 = false
  /\ pathClear initializeGameState 7 0 4 0 = false.
Proof.
  pose proof (proj1 (sliding_moves_spec initializeGameState 7 0 4 0 eq_refl eq_refl)) as H.
  split; [reflexivity |]. split; [reflexivity |]. split; [reflexivity |].
  split; [| reflexivity]. rewrite H. reflexivity.
Defined.

(** ** Decoding what the encoder writes *)











(** *** The piece placement *)













(** *** The other fields *)








(** ** The squares and the clocks that [makeMove] writes *)

Lemma simulated_peek st fr fc tr tc r c :
  wf st -> inBoard fr fc = true -> inBoard tr tc = true -> inBoard r c = true ->
  peek (simulated st fr fc tr tc) r c
  = if (fr =? r) && (fc =? c) then EMPTY
    else if (tr =? r) && (tc =? c) then peek st fr fc else peek st r c.
Proof.
  intros Hw Hf Ht Hb. unfold simulated.
  rewrite peek_poke by (auto; now rewrite wf_poke).
  destruct ((fr =? r) && (fc =? c)); [reflexivity |].
  now rewrite peek_poke.
Qed.

Lemma makeMove_stages st input fr fc tr tc st' input' :
  wf st -> inBoard tr tc = true ->
  makeMove st input fr fc tr tc = Some (st', input') ->
  (if isPromotionMove st fr fc tr tc
   then exists q, occupied q = true
                  /\ board st' = setSq (board (placed st fr fc tr tc)) tr tc q
   else board st' = board (placed st fr fc tr tc) /\ input' = input)
  /\ halfmoveClock st'
     = (if Ascii.eqb (toupper (peek st fr fc)) WHITE_PAWN
           || negb (Ascii.eqb (peek st tr tc) EMPTY)
        then 0 else halfmoveClock st + 1)
  /\ fullmoveNumber st'
     = (if isWhiteTurn st then fullmoveNumber st else fullmoveNumber st + 1).
Proof.
  intros Hw Ht H. unfold makeMove in H.
  match type of H with
  | match (if ?c then promotePawn ?s _ _ _ else _) with _ => _ end = _ =>
    change s with (placed st fr fc tr tc) in H;
    change c with (isPromotionMove st fr fc tr tc) in H
  end.
  assert (isWhiteTurn (placed st fr fc tr tc) = isWhiteTurn st
          /\ halfmoveClock (placed st fr fc tr tc) = halfmoveClock st
          /\ fullmoveNumber (placed st fr fc tr tc) = fullmoveNumber st
          /\ wf (placed st fr fc tr tc)) as (Pt & Ph & Pf & Pw).
  { unfold placed.
    repeat (match goal with |- context [ if ?e then _ else _ ] => destruct e end);
      repeat split; rewrite ?wf_poke; exact Hw. }
  set (pl := placed st fr fc tr tc) in *. clearbody pl.
  assert (forall s (i : list ascii),
             isWhiteTurn s = isWhiteTurn st -> halfmoveClock s = halfmoveClock st ->
             fullmoveNumber s = fullmoveNumber st ->
             Some (let st0 := updateCastlingRights s fr fc tr tc in
                   let st1 := withEnPassant st0 (-1) (-1) in
                   let st2 :=
                     if Ascii.eqb (toupper (peek st fr fc)) WHITE_PAWN
                        && (Z.abs (fr - tr) =? 2)
                     then withEnPassant st1 (Z.quot (fr + tr) 2) tc else st1 in
                   let st3 :=
                     if Ascii.eqb (toupper (peek st fr fc)) WHITE_PAWN
                        || negb (Ascii.eqb (peek st tr tc) EMPTY)
                     then withClocks st2 0 (fullmoveNumber st2)
                     else withClocks st2 (halfmoveClock st2 + 1) (fullmoveNumber st2) in
                   let st4 :=
                     if negb (isWhiteTurn st3)
                     then withClocks st3 (halfmoveClock st3) (fullmoveNumber st3 + 1)
                     else st3 in
                   (st4, i)) = Some (st', input') ->
             board st' = board s /\ i = input'
             /\ halfmoveClock st'
                = (if Ascii.eqb (toupper (peek st fr fc)) WHITE_PAWN
                      || negb (Ascii.eqb (peek st tr tc) EMPTY)
                   then 0 else halfmoveClock st + 1)
             /\ fullmoveNumber st'
                = (if isWhiteTurn st then fullmoveNumber st else fullmoveNumber st + 1))
    as Tail.
  { intros s i Et Eh Ef E. injection E as <- <-.
    destruct (updateCastlingRights_frame s fr fc tr tc) as (Ub & Ut & Uh & Uf).
    destruct (Ascii.eqb (toupper (peek st fr fc)) WHITE_PAWN && (Z.abs (fr - tr) =? 2));
      destruct (Ascii.eqb (toupper (peek st fr fc)) WHITE_PAWN
                || negb (Ascii.eqb (peek st tr tc) EMPTY));
      cbn [isWhiteTurn withClocks withEnPassant]; rewrite Ut, Et;
      destruct (isWhiteTurn st);
      cbn [negb board halfmoveClock fullmoveNumber withClocks withEnPassant];
      rewrite ?Ub, ?Uh, ?Uf, ?Eh, ?Ef; repeat split. }
  destruct (isPromotionMove st fr fc tr tc).
  - unfold promotePawn in H.
    destruct (readPromotion input) as [[p rest] |] eqn:R; [| discriminate H].
    pose proof (readPromotion_piece _ _ _ R) as Hp.
    destruct (isupper (peek pl tr tc)).
    + destruct (Tail (poke pl tr tc p) rest Pt Ph Pf H) as (Eb & _ & Eh & Ef).
      split; [| split; assumption].
      exists p. split; [| exact Eb].
      destruct Hp as [-> | [-> | [-> | ->]]]; reflexivity.
    + destruct (Tail (poke pl tr tc (tolower p)) rest Pt Ph Pf H) as (Eb & _ & Eh & Ef).
      split; [| split; assumption].
      exists (tolower p). split; [| exact Eb].
      destruct Hp as [-> | [-> | [-> | ->]]]; reflexivity.
  - destruct (Tail pl input Pt Ph Pf H) as (Eb & Ei & Eh & Ef).
    split; [split; [exact Eb | now symmetry] | split; assumption].
Qed.


(** [makeMove] returns unless [promotePawn] reads on for ever. *)
Lemma makeMove_None st input fr fc tr tc :
  makeMove st input fr fc tr tc = None
  <-> isPromotionMove st fr fc tr tc = true
      /\ Forall (fun ch => toupper ch <> "Q"%char /\ toupper ch <> "R"%char
                           /\ toupper ch <> "B"%char /\ toupper ch <> "N"%char) input.
Proof.
  rewrite <- readPromotion_none. unfold makeMove.
  match goal with
  | |- match (if ?c then promotePawn ?s _ _ _ else _) with _ => _ end = _ <-> _ =>
    change c with (isPromotionMove st fr fc tr tc); set (pl := s)
  end.
  destruct (isPromotionMove st fr fc tr tc).
  - unfold promotePawn. destruct (readPromotion input) as [[p rest] |].
    + destruct (isupper (peek pl tr tc)); split; [discriminate | intros [_ H]; discriminate H
                                                  | discriminate | intros [_ H]; discriminate H].
    + split; [intros _; split; reflexivity | reflexivity].
  - split; [discriminate | intros [H _]; discriminate H].
Qed.

(** ** Castling as [isValidMove] accepts it and [makeMove] plays it *)

Lemma pathSquares_inner fr fc tr tc r c :
  inBoard fr fc = true -> inBoard tr tc = true ->
  fr = tr \/ fc = tc \/ Z.abs (tr - fr) = Z.abs (tc - fc) ->
  In (r, c) (pathSquares fr fc tr tc) ->
  inBoard r c = true /\ isCorner r c = false.
Proof.
  intros Hf Ht Hl Hin. apply inBoard_spec in Hf, Ht.
  unfold pathSquares in Hin. cbv zeta in Hin.
  apply List.in_map_iff in Hin as (k & E & Hk). apply List.in_seq in Hk.
  injection E as <- <-.
  assert (inBoard (fr + Z.of_nat k * Z.sgn (tr - fr)) (fc + Z.of_nat k * Z.sgn (tc - fc)) = true
          /\ isCorner (fr + Z.of_nat k * Z.sgn (tr - fr))
               (fc + Z.of_nat k * Z.sgn (tc - fc)) = false) as G.
  { rewrite inBoard_spec. unfold isCorner.
    destruct (Z.sgn_spec (tr - fr)) as [[S1 ->] | [[S1 ->] | [S1 ->]]];
      destruct (Z.sgn_spec (tc - fc)) as [[S2 ->] | [[S2 ->] | [S2 ->]]];
      lia. }
  exact G.
Qed.

Lemma pathClear_blocksOnly w stS stF fr fc tr tc :
  blocksOnly w (board stS) (board stF) ->
  inBoard fr fc = true -> inBoard tr tc = true ->
  fr = tr \/ fc = tc \/ Z.abs (tr - fr) = Z.abs (tc - fc) ->
  pathClear stF fr fc tr tc = true -> pathClear stS fr fc tr tc = true.
Proof.
  intros B Hf Ht Hl H. unfold pathClear in *.
  rewrite List.forallb_forall in *. intros [r c] Hin. cbn [fst snd].
  specialize (H (r, c) Hin). cbn [fst snd] in H.
  destruct (pathSquares_inner fr fc tr tc r c Hf Ht Hl Hin) as [Hb Hc].
  unfold peek in *. apply Ascii.eqb_eq in H. apply Ascii.eqb_eq.
  destruct (B r c Hb) as [E | [(E & _) | (_ & _ & _ & C)]].
  - now rewrite <- E.
  - exact E.
  - congruence.
Qed.

Lemma attackPattern_blocksOnly w stS stF i j row col piece :
  blocksOnly w (board stS) (board stF) ->
  inBoard i j = true -> inBoard row col = true ->
  attackPattern stF i j row col piece = true ->
  attackPattern stS i j row col piece = true.
Proof.
  intros B Hf Ht.
  assert (i = row \/ j = col \/ Z.abs (row - i) = Z.abs (col - j) ->
          pathClear stF i j row col = true -> pathClear stS i j row col = true) as Hpc
    by (intros L; now apply (pathClear_blocksOnly w)).
  assert (isValidRookMove stF i j row col = true -> isValidRookMove stS i j row col = true)
    as HR.
  { rewrite !isValidRookMove_path by assumption. intros H.
    apply andb_prop in H as [H1 H2]. rewrite H1. cbn [andb]. apply Hpc; [| exact H2].
    apply andb_prop in H1 as [H1 _]. lia. }
  assert (isValidBishopMove stF i j row col = true
          -> isValidBishopMove stS i j row col = true) as HB.
  { rewrite !isValidBishopMove_path by assumption. intros H.
    apply andb_prop in H as [H1 H2]. rewrite H1. cbn [andb]. apply Hpc; [| exact H2].
    apply andb_prop in H1 as [H1 _]. lia. }
  unfold attackPattern, isValidQueenMove.
  destruct (Ascii.eqb (toupper piece) WHITE_PAWN); [exact (fun H => H) |].
  destruct (Ascii.eqb (toupper piece) WHITE_ROOK).
  { destruct ((i =? row) || (j =? col)); [exact HR | discriminate]. }
  destruct (Ascii.eqb (toupper piece) WHITE_KNIGHT); [exact (fun H => H) |].
  destruct (Ascii.eqb (toupper piece) WHITE_BISHOP).
  { destruct (Z.abs (i - row) =? Z.abs (j - col)); [exact HB | discriminate]. }
  destruct (Ascii.eqb (toupper piece) WHITE_QUEEN).
  { destruct ((i =? row) || (j =? col) || (Z.abs (i - row) =? Z.abs (j - col)));
      [| discriminate].
    intros H. apply orb_prop in H as [H | H].
    - now rewrite (HR H).
    - rewrite (HB H). apply orb_true_r. }
  exact (fun H => H).
Qed.

Lemma attacks_blocksOnly w stS stF row col sq :
  blocksOnly w (board stS) (board stF) ->
  In sq allSquares -> inBoard row col = true ->
  attacks stF (negb w) row col sq = true -> attacks stS (negb w) row col sq = true.
Proof.
  intros B Hin Ht H. destruct sq as [i j]. apply In_allSquares in Hin.
  unfold attacks in *. cbn [fst snd] in *.
  apply andb_prop in H as [H Ha]. apply andb_prop in H as [He Hc].
  assert (ownPiece w (peek stF i j) = false) as NO.
  { unfold ownPiece. destruct w; cbn in Hc |- *.
    - rewrite orb_false_r. destruct (isupper (peek stF i j)) eqn:U; [| reflexivity].
      rewrite (upper_not_lower _ U) in Hc. discriminate.
    - rewrite orb_false_r in Hc. now apply upper_not_lower in Hc. }
  assert (peek stS i j = peek stF i j) as E.
  { unfold peek in *. destruct (B i j Hin) as [E | [(_ & O & _) | (E & _)]].
    - now rewrite E.
    - congruence.
    - rewrite E in He. discriminate. }
  rewrite E, He, Hc. cbn [andb].
  now apply (attackPattern_blocksOnly w stS stF).
Qed.

Lemma kingOf_occupied w : kingOf w <> EMPTY.
Proof. destruct w; discriminate. Qed.

Lemma findPiece_blocksOnly w b b' :
  blocksOnly w b b' -> findPiece b (kingOf w) = findPiece b' (kingOf w).
Proof.
  intros H. unfold findPiece. apply find_ext. intros [r c] Hin. cbn [fst snd].
  apply In_allSquares in Hin. pose proof (kingOf_occupied w) as K.
  destruct (H r c Hin) as [E | [(E & _ & N) | (E & _ & N & _)]].
  - now rewrite E.
  - rewrite E.
    destruct (Ascii.eqb_spec EMPTY (kingOf w)); [congruence |].
    destruct (Ascii.eqb_spec (getSq b' r c) (kingOf w)); [contradiction | reflexivity].
  - rewrite E.
    destruct (Ascii.eqb_spec EMPTY (kingOf w)); [congruence |].
    destruct (Ascii.eqb_spec (getSq b r c) (kingOf w)); [contradiction | reflexivity].
Qed.

Lemma isInCheck_blocksOnly w stS stF :
  wf stS -> wf stF -> blocksOnly w (board stS) (board stF) ->
  fst (isInCheck stS w) = false -> fst (isInCheck stF w) = false.
Proof.
  intros Ws Wf B H.
  pose proof (findPiece_blocksOnly w _ _ B) as F.
  destruct (findPiece (board stS) (kingOf w)) as [[r c] |] eqn:E.
  - rewrite (isInCheck_value stS w r c Ws E) in H.
    rewrite (isInCheck_value stF w r c Wf (eq_sym F)).
    assert (inBoard r c = true) as Hk.
    { unfold findPiece in E. apply List.find_some in E as [E _]. now apply In_allSquares. }
    destruct (existsb (attacks stF (negb w) r c) allSquares) eqn:X; [| reflexivity].
    apply List.existsb_exists in X as (sq & Hin & Ha).
    assert (existsb (attacks stS (negb w) r c) allSquares = true) as Y.
    { apply List.existsb_exists. exists sq. split; [exact Hin |].
      now apply (attacks_blocksOnly w stS stF). }
    congruence.
  - unfold isInCheck. now rewrite <- F.
Qed.

Lemma toupper_king p :
  Ascii.eqb (toupper p) WHITE_KING = true -> p = WHITE_KING \/ p = BLACK_KING.
Proof.
  destruct p as [[] [] [] [] [] [] [] []]; intros H; try discriminate H;
    [right | left]; reflexivity.
Qed.

(** What [isValidCastling] has tested when it accepts. *)
Lemma isValidCastling_true st fr fc tr tc :
  wf st -> fst (isValidCastling st fr fc tr tc) = true ->
  Ascii.eqb (toupper (peek st fr fc)) WHITE_KING = true
  /\ fr = (if isupper (peek st fr fc) then 7 else 0) /\ fc = 4
  /\ (tc = 6 \/ tc = 2) /\ tr = fr
  /\ fst (isInCheck st (isupper (peek st fr fc))) = false
  /\ castlingRight st (isupper (peek st fr fc)) (tc >? 4) = true
  /\ peek st fr (rookFromCol tc) = rookOf (isupper (peek st fr fc))
  /\ (forall c, Z.min 4 (rookFromCol tc) < c < Z.max 4 (rookFromCol tc) ->
                peek st fr c = EMPTY)
  /\ (forall c, Z.min 4 tc <= c <= Z.max 4 tc ->
                fst (isSquareAttacked st fr c (negb (isupper (peek st fr fc)))) = false).
Proof.
  intros Hw H. unfold isValidCastling in H.
  destruct (Ascii.eqb (toupper (peek st fr fc)) WHITE_KING) eqn:K; [| discriminate H].
  destruct (Z.eqb_spec fr (if isupper (peek st fr fc) then 7 else 0)) as [Er | Nr];
    [| discriminate H].
  destruct (Z.eqb_spec fc 4) as [Ec | Nc]; [| discriminate H].
  subst fc. cbn [negb orb] in H.
  destruct (Z.eqb_spec (Z.abs (tc - 4)) 2) as [Ea | Na]; [| discriminate H].
  destruct (Z.eqb_spec tr fr) as [Et | Nt]; [| discriminate H].
  cbn [negb orb] in H.
  pose proof (isInCheck_frame st (isupper (peek st fr 4)) Hw) as Hfr.
  destruct (isInCheck st (isupper (peek st fr 4))) as [chk st1]. cbn [snd] in Hfr.
  subst st1. destruct chk; [discriminate H |].
  assert (tc = 6 \/ tc = 2) as Htc by lia.
  split; [reflexivity |]. split; [exact Er |]. split; [reflexivity |].
  split; [exact Htc |]. split; [exact Et |]. split; [reflexivity |].
  match type of H with
  | fst (if ?g then _ else _) = true => destruct g eqn:G; [discriminate H |]
  end.
  match type of H with
  | fst (if negb (Ascii.eqb ?p ?q) then _ else _) = true =>
    destruct (Ascii.eqb_spec p q) as [Rk | Rk]; [| discriminate H]
  end.
  cbn [negb] in H.
  match type of H with
  | fst (if ?g then _ else _) = true => destruct g eqn:Bt; [discriminate H |]
  end.
  match type of H with
  | fst (match ?a with pair _ _ => _ end) = true =>
    assert (fst a = false) as At
      by (destruct a as [[] ?]; [discriminate H | reflexivity])
  end.
  clear H. unfold castlingRight, rookFromCol, rookOf.
  split.
  { destruct (isupper (peek st fr 4)); destruct (tc >? 4); cbn in G |- *;
      rewrite ?orb_false_r in G; now apply negb_false_iff in G. }
  split; [exact Rk |].
  split; [| intros c Hc;
             rewrite anySquare_value in At;
               [| intros; now apply isSquareAttacked_frame | exact Hw];
             destruct (fst (isSquareAttacked st fr c (negb (isupper (peek st fr 4)))))
               eqn:X; [exfalso | reflexivity];
             assert (existsb
                       (fun sq => fst (isSquareAttacked st (fst sq) (snd sq)
                                         (negb (isupper (peek st fr 4)))))
                       (map (fun col => (fr, col))
                          (colRange 8 4 (tc + (if tc >? 4 then 1 else -1))
                             (if tc >? 4 then 1 else -1))) = true) as Y;
             [| congruence];
             apply List.existsb_exists; exists (fr, c); split; [| exact X];
             apply List.in_map_iff; exists c; split; [reflexivity |];
             destruct Htc as [-> | ->];
               [change (4 <= c <= 6) in Hc; change (In c [4; 5; 6])
               | change (2 <= c <= 4) in Hc; change (In c [4; 3; 2])]; cbn [In]; lia].
  intros c Hc.
  destruct (Ascii.eqb_spec (peek st fr c) EMPTY) as [E | N]; [exact E | exfalso].
  assert (existsb (fun col => negb (Ascii.eqb (peek st fr col) EMPTY))
            (colRange 8 (4 + (if tc >? 4 then 1 else -1)) (if tc >? 4 then 7 else 0)
               (if tc >? 4 then 1 else -1)) = true) as X; [| congruence].
  apply List.existsb_exists. exists c. split.
  - destruct Htc as [-> | ->];
      [change (4 < c < 7) in Hc; change (In c [5; 6])
      | change (0 < c < 4) in Hc; change (In c [3; 2; 1])]; cbn [In]; lia.
  - destruct (Ascii.eqb_spec (peek st fr c) EMPTY); [contradiction | reflexivity].
Qed.

(** The board [makeMove] leaves after a king's move of two columns. *)
Lemma makeMove_castling st input fr fc tr tc st' input' :
  wf st -> inBoard tr tc = true ->
  Ascii.eqb (toupper (peek st fr fc)) WHITE_KING = true -> Z.abs (fc - tc) = 2 ->
  makeMove st input fr fc tr tc = Some (st', input') ->
  input' = input
  /\ board st'
     = board (poke (poke (simulated st fr fc tr tc) tr
                      (if tc >? fc then tc - 1 else tc + 1)
                      (peek (simulated st fr fc tr tc) fr (if tc >? fc then 7 else 0)))
                fr (if tc >? fc then 7 else 0) EMPTY).
Proof.
  intros Hw Ht K A H.
  destruct (makeMove_stages st input _ _ _ _ st' input' Hw Ht H) as (Hb & _).
  assert (isPromotionMove st fr fc tr tc = false) as NP.
  { unfold isPromotionMove. destruct (toupper_king _ K) as [-> | ->]; reflexivity. }
  rewrite NP in Hb. destruct Hb as [Eb Ei]. split; [exact Ei |].
  rewrite Eb. unfold placed. cbv zeta. fold (simulated st fr fc tr tc).
  rewrite K. apply Z.eqb_eq in A. rewrite A. cbn [andb].
  apply Ascii.eqb_eq in K. rewrite K.
  change (Ascii.eqb WHITE_KING WHITE_PAWN) with false. reflexivity.
Qed.

Lemma ownPiece_king w p :
  Ascii.eqb (toupper p) WHITE_KING = true -> ownPiece w p = true ->
  p = kingOf w /\ isupper p = w.
Proof.
  intros K O. destruct (toupper_king p K) as [-> | ->]; destruct w;
    try discriminate O; split; reflexivity.
Qed.

(** The squares of the board after a castling move. *)
Lemma castling_board st fr tc b' w r c :
  wf st -> (fr = 0 \/ fr = 7) -> (tc = 6 \/ tc = 2) ->
  peek st fr 4 = kingOf w -> peek st fr (rookFromCol tc) = rookOf w ->
  b' = board (poke (poke (simulated st fr 4 fr tc) fr
                      (if tc >? 4 then tc - 1 else tc + 1)
                      (peek (simulated st fr 4 fr tc) fr (if tc >? 4 then 7 else 0)))
                fr (if tc >? 4 then 7 else 0) EMPTY) ->
  inBoard r c = true ->
  getSq b' r c
  = if (r =? fr) && (c =? rookFromCol tc) then EMPTY
    else if (r =? fr) && (c =? rookToCol tc) then rookOf w
    else if (r =? fr) && (c =? 4) then EMPTY
    else if (r =? fr) && (c =? tc) then kingOf w
    else peek st r c.
Proof.
  intros Hw Hfr Htc Hk Hr -> Hb.
  assert (inBoard fr 4 = true /\ inBoard fr tc = true /\ inBoard fr (rookFromCol tc) = true
          /\ inBoard fr (rookToCol tc) = true) as (B4 & Bt & Bf & Bo).
  { unfold rookFromCol, rookToCol. rewrite !inBoard_spec.
    destruct Htc as [-> | ->]; cbn; lia. }
  pose proof (simulated_wf st fr 4 fr tc Hw) as Ws.
  fold (rookFromCol tc) (rookToCol tc).
  change (getSq (board ?s) r c) with (peek s r c).
  rewrite peek_poke by (auto; now rewrite wf_poke).
  rewrite (Z.eqb_sym fr r), (Z.eqb_sym (rookFromCol tc) c).
  destruct ((r =? fr) && (c =? rookFromCol tc)) eqn:E1; [reflexivity |].
  rewrite peek_poke by auto.
  rewrite (Z.eqb_sym fr r), (Z.eqb_sym (rookToCol tc) c).
  destruct ((r =? fr) && (c =? rookToCol tc)) eqn:E2.
  { rewrite simulated_peek by auto.
    assert ((4 =? rookFromCol tc) = false /\ (tc =? rookFromCol tc) = false) as [N4 Nt]
      by (unfold rookFromCol; destruct Htc as [-> | ->]; split; reflexivity).
    now rewrite N4, Nt, !andb_false_r. }
  rewrite simulated_peek by auto.
  rewrite (Z.eqb_sym fr r), (Z.eqb_sym 4 c), (Z.eqb_sym tc c), Hk.
  reflexivity.
Qed.

(** What [isValidMove] has tested when it accepts a king's move of two
    columns. *)
Lemma accepted_castling st fr fc tr tc :
  wf st -> fst (isValidMove st fr fc tr tc) = true ->
  isCastlingMove st fr fc tr tc = true ->
  (fr = (if isWhiteTurn st then 7 else 0) /\ tr = fr /\ fc = 4 /\ (tc = 6 \/ tc = 2))
  /\ (peek st fr 4 = kingOf (isWhiteTurn st)
      /\ peek st fr (rookFromCol tc) = rookOf (isWhiteTurn st)
      /\ castlingRight st (isWhiteTurn st) (tc >? 4) = true
      /\ fst (isInCheck st (isWhiteTurn st)) = false
      /\ (forall c, Z.min 4 (rookFromCol tc) < c < Z.max 4 (rookFromCol tc) ->
                    peek st fr c = EMPTY)
      /\ (forall c, Z.min 4 tc <= c <= Z.max 4 tc ->
                    fst (isSquareAttacked st fr c (negb (isWhiteTurn st))) = false)).
Proof.
  intros Hwf Hvalid Hcastling.
  destruct (isValidMove_true st _ _ _ _ Hwf Hvalid) as (Hf & Ht & Ho & Hd & HK).
  unfold isCastlingMove in Hcastling.
  apply andb_prop in Hcastling as [K A]. apply Z.eqb_eq in A.
  specialize (HK K).
  assert (fst (isValidCastling st fr fc tr tc) = true) as HC.
  { unfold isValidKingMove in HK.
    destruct (Z.leb_spec (Z.abs (tc - fc)) 1) as [L | _]; [lia |].
    rewrite andb_false_r in HK.
    destruct ((Z.abs (fc - tc) =? 2) && (fr =? tr));
      [exact HK | discriminate HK]. }
  destruct (ownPiece_king _ _ K Ho) as [Pk Pu].
  destruct (isValidCastling_true st _ _ _ _ Hwf HC)
    as (_ & Er & Ec & Htc & Et & Hchk & Hright & Hrook & Hempty & Hatt).
  rewrite Pu in *. subst fc tr.
  split; [repeat split; auto |]. repeat split; auto.
Qed.

(** X20.  A king's move of two columns that [isValidMove] accepts is a
    castling move in full: the king of the side to move stands on column 4
    of its home row and stays on that row, its rook stands in the corner,
    the castling right of that side and wing is still held, the king is not
    in check, the squares between king and rook are empty and no square the
    king crosses is attacked.  [makeMove] then puts the king two columns
    further and the rook next to it on the inner side, empties their two
    squares, changes no other square, reads no input, and leaves the king
    not attacked. *)
Theorem castling_move_spec (st : GameState) (input : list ascii)
    (fromRow fromCol toRow toCol : Z)
    (Hwf : wf st)
    (Hvalid : fst (isValidMove st fromRow fromCol toRow toCol) = true)
    (Hcastling : isCastlingMove st fromRow fromCol toRow toCol = true) :
  (fromRow = (if isWhiteTurn st then 7 else 0) /\ toRow = fromRow
   /\ fromCol = 4 /\ (toCol = 6 \/ toCol = 2))
  /\ (peek st fromRow 4 = kingOf (isWhiteTurn st)
      /\ peek st fromRow (rookFromCol toCol) = rookOf (isWhiteTurn st)
      /\ castlingRight st (isWhiteTurn st) (toCol >? 4) = true
      /\ fst (isInCheck st (isWhiteTurn st)) = false
      /\ (forall c, Z.min 4 (rookFromCol toCol) < c < Z.max 4 (rookFromCol toCol) ->
                    peek st fromRow c = EMPTY)
      /\ (forall c, Z.min 4 toCol <= c <= Z.max 4 toCol ->
                    fst (isSquareAttacked st fromRow c (negb (isWhiteTurn st))) = false))
  /\ exists st',
      makeMove st input fromRow fromCol toRow toCol = Some (st', input)
      /\ wf st'
      /\ peek st' fromRow toCol = kingOf (isWhiteTurn st)
      /\ peek st' fromRow (rookToCol toCol) = rookOf (isWhiteTurn st)
      /\ peek st' fromRow 4 = EMPTY
      /\ peek st' fromRow (rookFromCol toCol) = EMPTY
      /\ (forall r c, inBoard r c = true ->
            r <> fromRow \/ (c <> 4 /\ c <> toCol /\ c <> rookFromCol toCol
                             /\ c <> rookToCol toCol) ->
            peek st' r c = peek st r c)
      /\ fst (isInCheck st' (isWhiteTurn st)) = false.
Proof.
  destruct (makeMove st input fromRow fromCol toRow toCol) as [[st' input'] |] eqn:Hmove.
  2:{ exfalso. apply makeMove_None in Hmove as [Pr _].
      unfold isCastlingMove in Hcastling. apply andb_prop in Hcastling as [K _].
      unfold isPromotionMove in Pr.
      destruct (toupper_king _ K) as [E | E]; rewrite E in Pr; discriminate Pr. }
  destruct (isValidMove_true st _ _ _ _ Hwf Hvalid) as (Hf & Ht & _).
  destruct (isValidMove_guards st _ _ _ _ Hwf Hvalid) as (_ & Hs).
  rewrite doesMovePutKingInCheck_value in Hs by assumption.
  destruct (accepted_castling st _ _ _ _ Hwf Hvalid Hcastling)
    as ((Er & Et & Ec & Htc) & (Pk & Hrook & Hright & Hchk & Hempty & Hatt)).
  unfold isCastlingMove in Hcastling.
  apply andb_prop in Hcastling as [K A]. apply Z.eqb_eq in A.
  subst fromCol toRow.
  set (w := isWhiteTurn st) in *.
  assert (fromRow = 0 \/ fromRow = 7) as Hfr by (destruct w; lia).
  destruct (makeMove_castling st input _ _ _ _ st' input' Hwf Ht K A Hmove) as [Ei Eb].
  pose proof (simulated_wf st fromRow 4 fromRow toCol Hwf) as Ws.
  assert (wf st') as W'.
  { unfold wf. rewrite Eb. change (wf (poke (poke (simulated st fromRow 4 fromRow toCol)
      fromRow (if toCol >? 4 then toCol - 1 else toCol + 1)
      (peek (simulated st fromRow 4 fromRow toCol) fromRow (if toCol >? 4 then 7 else 0)))
      fromRow (if toCol >? 4 then 7 else 0) EMPTY)).
    now rewrite !wf_poke. }
  pose proof (fun r c => castling_board st fromRow toCol (board st') w r c
                           Hwf Hfr Htc Pk Hrook Eb) as Hsq.
  change (forall r c, inBoard r c = true ->
            peek st' r c
            = if (r =? fromRow) && (c =? rookFromCol toCol) then EMPTY
              else if (r =? fromRow) && (c =? rookToCol toCol) then rookOf w
              else if (r =? fromRow) && (c =? 4) then EMPTY
              else if (r =? fromRow) && (c =? toCol) then kingOf w
              else peek st r c) in Hsq.
  assert (inBoard fromRow 4 = true /\ inBoard fromRow toCol = true
          /\ inBoard fromRow (rookFromCol toCol) = true
          /\ inBoard fromRow (rookToCol toCol) = true) as (B4 & Bt & Bf & Bo).
  { unfold rookFromCol, rookToCol. rewrite !inBoard_spec.
    destruct Htc as [-> | ->]; cbn; lia. }
  assert (rookFromCol toCol <> 4 /\ rookFromCol toCol <> toCol
          /\ rookToCol toCol <> 4 /\ rookToCol toCol <> toCol
          /\ rookToCol toCol <> rookFromCol toCol
          /\ Z.min 4 (rookFromCol toCol) < rookToCol toCol < Z.max 4 (rookFromCol toCol)
          /\ (rookFromCol toCol = 0 \/ rookFromCol toCol = 7))
    as (N1 & N2 & N3 & N4 & N5 & N6 & N7).
  { unfold rookFromCol, rookToCol. destruct Htc as [-> | ->]; cbn; lia. }
  split; [repeat split; auto |].
  split; [repeat split; auto |].
  exists st'. rewrite Ei. split; [reflexivity |]. split; [exact W' |].
  assert (forall A B C D E F : Prop, (A /\ B /\ C /\ D /\ E) -> F ->
                                     A /\ B /\ C /\ D /\ E /\ F) as Glue by tauto.
  apply Glue.
  { rewrite !Hsq by assumption. rewrite !Z.eqb_refl. cbn [andb].
    repeat split.
    - destruct (Z.eqb_spec toCol (rookFromCol toCol)); [lia |].
      destruct (Z.eqb_spec toCol (rookToCol toCol)); [lia |].
      destruct (Z.eqb_spec toCol 4); [lia | reflexivity].
    - destruct (Z.eqb_spec (rookToCol toCol) (rookFromCol toCol)); [lia | reflexivity].
    - destruct (Z.eqb_spec 4 (rookFromCol toCol)); [lia |].
      destruct (Z.eqb_spec 4 (rookToCol toCol)); [lia | reflexivity].
    - intros r c Hb Hrc. rewrite Hsq by exact Hb.
      destruct (Z.eqb_spec r fromRow); cbn [andb]; [| reflexivity].
      destruct (Z.eqb_spec c (rookFromCol toCol)); [lia |].
      destruct (Z.eqb_spec c (rookToCol toCol)); [lia |].
      destruct (Z.eqb_spec c 4); [lia |].
      destruct (Z.eqb_spec c toCol); [lia | reflexivity]. }
  apply (isInCheck_blocksOnly w (simulated st fromRow 4 fromRow toCol) st' Ws W');
    [| exact Hs].
  intros r c Hb.
  change (getSq (board st') r c) with (peek st' r c). rewrite Hsq by exact Hb.
  change (getSq (board (simulated st fromRow 4 fromRow toCol)) r c)
    with (peek (simulated st fromRow 4 fromRow toCol) r c).
  rewrite simulated_peek by assumption.
  rewrite (Z.eqb_sym fromRow r), (Z.eqb_sym 4 c), (Z.eqb_sym toCol c), Pk.
  assert (ownPiece w (rookOf w) = true /\ rookOf w <> kingOf w) as [Or Nr]
    by (destruct w; split; first [reflexivity | discriminate]).
  destruct (Z.eqb_spec r fromRow) as [-> | Nrow]; cbn [andb]; [| now left].
  destruct (Z.eqb_spec c (rookFromCol toCol)) as [-> | Nf].
  { right. right.
    destruct (Z.eqb_spec (rookFromCol toCol) 4); [lia |].
    destruct (Z.eqb_spec (rookFromCol toCol) toCol); [lia |].
    rewrite Hrook. split; [reflexivity |]. split; [exact Or |]. split; [exact Nr |].
    unfold isCorner. lia. }
  destruct (Z.eqb_spec c (rookToCol toCol)) as [-> | No].
  { right. left.
    destruct (Z.eqb_spec (rookToCol toCol) 4); [lia |].
    destruct (Z.eqb_spec (rookToCol toCol) toCol); [lia |].
    split; [| split; [exact Or | exact Nr]].
    apply Hempty. exact N6. }
  left. reflexivity.
Qed.

Lemma castling_move_spec_witness :
  wf castlingPosition
  /\ fst (isValidMove castlingPosition 7 4 7 6) = true
  /\ isCastlingMove castlingPosition 7 4 7 6 = true
  /\ makeMove castlingPosition [] 7 4 7 6 = Some (afterCastling, [])
  /\ peek afterCastling 7 6 = WHITE_KING
  /\ peek afterCastling 7 5 = WHITE_ROOK
  /\ fst (isInCheck afterCastling true) = false.
Proof.
  assert (makeMove castlingPosition [] 7 4 7 6 = Some (afterCastling, [])) as E
    by (vm_compute; reflexivity).
  assert (fst (isValidMove castlingPosition 7 4 7 6) = true) as V
    by (vm_compute; reflexivity).
  split; [reflexivity |]. split; [exact V |]. split; [reflexivity |].
  split; [exact E |].
  destruct (castling_move_spec castlingPosition [] 7 4 7 6 eq_refl V eq_refl)
    as (_ & _ & st' & E' & _ & Pk & Pr & _ & _ & _ & Hc).
  assert (st' = afterCastling) as -> by congruence.
  split; [exact Pk |]. split; [exact Pr | exact Hc].
Defined.

(** ** A piece reported under attack stands on an attacked square *)

Lemma isValidMove_pieceMove st fr fc tr tc :
  fst (isValidMove st fr fc tr tc) = true -> pieceMove st fr fc tr tc = true.
Proof.
  intros H. unfold isValidMove in H. unfold pieceMove. cbv zeta.
  destruct (negb (inBoard fr fc) || negb (inBoard tr tc)); [discriminate |].
  destruct (Ascii.eqb (peek st fr fc) EMPTY); [discriminate |].
  destruct (isWhiteTurn st && negb (isupper (peek st fr fc))); [discriminate |].
  destruct (negb (isWhiteTurn st) && isupper (peek st fr fc)); [discriminate |].
  destruct (isWhiteTurn st && isupper (peek st tr tc)); [discriminate |].
  destruct (negb (isWhiteTurn st) && islower (peek st tr tc)); [discriminate |].
  cbv zeta in H.
  destruct (Ascii.eqb (toupper (peek st fr fc)) WHITE_PAWN).
  { cbn in H. destruct (isValidPawnMove st fr fc tr tc); [reflexivity | discriminate]. }
  destruct (Ascii.eqb (toupper (peek st fr fc)) WHITE_ROOK).
  { cbn in H. destruct (isValidRookMove st fr fc tr tc); [reflexivity | discriminate]. }
  destruct (Ascii.eqb (toupper (peek st fr fc)) WHITE_KNIGHT).
  { cbn in H. destruct (isValidKnightMove st fr fc tr tc); [reflexivity | discriminate]. }
  destruct (Ascii.eqb (toupper (peek st fr fc)) WHITE_BISHOP).
  { cbn in H. destruct (isValidBishopMove st fr fc tr tc); [reflexivity | discriminate]. }
  destruct (Ascii.eqb (toupper (peek st fr fc)) WHITE_QUEEN).
  { cbn in H. destruct (isValidQueenMove st fr fc tr tc); [reflexivity | discriminate]. }
  destruct (Ascii.eqb (toupper (peek st fr fc)) WHITE_KING); [| discriminate].
  destruct (isValidKingMove st fr fc tr tc) as [[] s]; [reflexivity | discriminate].
Qed.

(** The tests of [isValidMove], one by one. *)
Lemma isValidMove_iff (st : GameState) (fromRow fromCol toRow toCol : Z) :
  wf st ->
  (fst (isValidMove st fromRow fromCol toRow toCol) = true
   <-> inBoard fromRow fromCol = true /\ inBoard toRow toCol = true
       /\ ownPiece (isWhiteTurn st) (peek st fromRow fromCol) = true
       /\ ownPiece (isWhiteTurn st) (peek st toRow toCol) = false
       /\ pieceMove st fromRow fromCol toRow toCol = true
       /\ (isPinned (getPinInfo st fromRow fromCol) = true ->
           isMoveAlongPinRay fromRow fromCol toRow toCol
             (getPinInfo st fromRow fromCol) = true)
       /\ fst (isInCheck (simulated st fromRow fromCol toRow toCol)
                 (isWhiteTurn st)) = false).
Proof.
  intros Hwf.
  assert (fst (isValidMove st fromRow fromCol toRow toCol) = true ->
          inBoard fromRow fromCol = true /\ inBoard toRow toCol = true
          /\ ownPiece (isWhiteTurn st) (peek st fromRow fromCol) = true
          /\ ownPiece (isWhiteTurn st) (peek st toRow toCol) = false
          /\ pieceMove st fromRow fromCol toRow toCol = true
          /\ (isPinned (getPinInfo st fromRow fromCol) = true ->
              isMoveAlongPinRay fromRow fromCol toRow toCol
                (getPinInfo st fromRow fromCol) = true)
          /\ fst (isInCheck (simulated st fromRow fromCol toRow toCol)
                    (isWhiteTurn st)) = false) as Only.
  { intros Hvalid.
    destruct (isValidMove_true st _ _ _ _ Hwf Hvalid) as (Hf & Ht & Ho & Hd & _).
    destruct (isValidMove_guards st _ _ _ _ Hwf Hvalid) as (Hp & Hs).
    repeat split; try assumption.
    - now apply isValidMove_pieceMove.
    - now rewrite <- doesMovePutKingInCheck_value. }
  split; [exact Only |].
  (* the tests suffice *)
  intros (Hf & Ht & Ho & Hd & Hm & Hp & Hs).
  rewrite <- doesMovePutKingInCheck_value in Hs by assumption.
  unfold isValidMove. rewrite Hf, Ht. cbn [negb orb].
  rewrite (ownPiece_occupied _ _ Ho).
  assert (isWhiteTurn st && negb (isupper (peek st fromRow fromCol)) = false
          /\ negb (isWhiteTurn st) && isupper (peek st fromRow fromCol) = false) as [C1 C2].
  { unfold ownPiece in Ho. destruct (isWhiteTurn st); cbn [andb negb orb] in *.
    - rewrite orb_false_r in Ho. now rewrite Ho.
    - now rewrite (lower_not_upper _ Ho). }
  assert (isWhiteTurn st && isupper (peek st toRow toCol) = false
          /\ negb (isWhiteTurn st) && islower (peek st toRow toCol) = false) as [C3 C4].
  { unfold ownPiece in Hd. destruct (isWhiteTurn st); cbn [andb negb orb] in *.
    - now rewrite orb_false_r in Hd.
    - auto. }
  rewrite C1, C2, C3, C4. cbv zeta.
  unfold pieceMove in Hm. cbv zeta in Hm.
  assert (forall (rest : bool * GameState),
             fst rest = false -> snd rest = st ->
             (if isPinned (getPinInfo st fromRow fromCol)
                 && negb (isMoveAlongPinRay fromRow fromCol toRow toCol
                            (getPinInfo st fromRow fromCol))
              then (false, st)
              else let '(inCheck, st0) := rest in
                   if inCheck then (false, st0) else (true, st0)) = (true, st)) as Tail.
  { intros [k s] Ek Es. cbn [fst snd] in Ek, Es. subst k s.
    destruct (isPinned (getPinInfo st fromRow fromCol)); [| reflexivity].
    now rewrite (Hp eq_refl). }
  pose proof (Tail (doesMovePutKingInCheck st fromRow fromCol toRow toCol) Hs
                (doesMovePutKingInCheck_frame st _ _ _ _ Hwf Hf Ht)) as T.
  destruct (Ascii.eqb (toupper (peek st fromRow fromCol)) WHITE_PAWN).
  { rewrite Hm. cbn [negb]. now rewrite T. }
  destruct (Ascii.eqb (toupper (peek st fromRow fromCol)) WHITE_ROOK).
  { rewrite Hm. cbn [negb]. now rewrite T. }
  destruct (Ascii.eqb (toupper (peek st fromRow fromCol)) WHITE_KNIGHT).
  { rewrite Hm. cbn [negb]. now rewrite T. }
  destruct (Ascii.eqb (toupper (peek st fromRow fromCol)) WHITE_BISHOP).
  { rewrite Hm. cbn [negb]. now rewrite T. }
  destruct (Ascii.eqb (toupper (peek st fromRow fromCol)) WHITE_QUEEN).
  { rewrite Hm. cbn [negb]. now rewrite T. }
  destruct (Ascii.eqb (toupper (peek st fromRow fromCol)) WHITE_KING);
    [| discriminate Hm].
  pose proof (isValidKingMove_frame st fromRow fromCol toRow toCol Hwf) as Kf.
  destruct (isValidKingMove st fromRow fromCol toRow toCol) as [k s].
  cbn [fst snd] in Hm, Kf. subst k s. cbn [negb]. now rewrite T.
Qed.

(** X21.  [isValidMove] accepts a pair of squares exactly when both lie on
    the board, the first holds a piece of the side to move and the second
    does not, the move fits the kind of the piece, a piece reported pinned
    moves along the reported ray, and the king of the side to move is not
    attacked on the board with the piece moved.  The two squares of an
    accepted pair differ, and the position is given back unchanged. *)
Theorem isValidMove_accepts_exactly (st : GameState) (fromRow fromCol toRow toCol : Z)
    (Hwf : wf st) :
  snd (isValidMove st fromRow fromCol toRow toCol) = st
  /\ (fst (isValidMove st fromRow fromCol toRow toCol) = true
      <-> inBoard fromRow fromCol = true /\ inBoard toRow toCol = true
          /\ ownPiece (isWhiteTurn st) (peek st fromRow fromCol) = true
          /\ ownPiece (isWhiteTurn st) (peek st toRow toCol) = false
          /\ pieceMove st fromRow fromCol toRow toCol = true
          /\ (isPinned (getPinInfo st fromRow fromCol) = true ->
              isMoveAlongPinRay fromRow fromCol toRow toCol
                (getPinInfo st fromRow fromCol) = true)
          /\ fst (isInCheck (simulated st fromRow fromCol toRow toCol)
                    (isWhiteTurn st)) = false)
  /\ (fst (isValidMove st fromRow fromCol toRow toCol) = true ->
      (fromRow, fromCol) <> (toRow, toCol)).
Proof.
  split; [now apply isValidMove_frame |].
  split; [now apply isValidMove_iff |].
  intros Hvalid.
  destruct (proj1 (isValidMove_iff st _ _ _ _ Hwf) Hvalid) as (_ & _ & Ho & Hd & _).
  intros E. injection E as -> ->. congruence.
Qed.

Lemma isValidMove_accepts_exactly_witness :
  wf initializeGameState
  /\ fst (isValidMove initializeGameState 6 4 4 4) = true
  /\ pieceMove initializeGameState 6 4 4 4 = true
  /\ fst (isInCheck (simulated initializeGameState 6 4 4 4)
            (isWhiteTurn initializeGameState)) = false.
Proof.
  assert (fst (isValidMove initializeGameState 6 4 4 4) = true) as V
    by (vm_compute; reflexivity).
  split; [reflexivity |]. split; [exact V |].
  destruct (proj1 (proj1 (proj2 (isValidMove_accepts_exactly initializeGameState 6 4 4 4
                                   eq_refl))) V) as (_ & _ & _ & _ & Hm & _ & Hs).
  split; [exact Hm | exact Hs].
Defined.

(** A piece move onto an occupied square other than its own follows the
    attack pattern of the piece. *)
Lemma pieceMove_attackPattern st i j row col :
  wf st -> inBoard i j = true -> inBoard row col = true ->
  (i, j) <> (row, col) -> peek st row col <> EMPTY ->
  pieceMove st i j row col = true ->
  attackPattern st i j row col (peek st i j) = true.
Proof.
  intros Hw Hf Ht N Occ H. unfold pieceMove in H. unfold attackPattern. cbv zeta in *.
  assert (Ascii.eqb (peek st row col) EMPTY = false) as Occ'
    by (now destruct (Ascii.eqb_spec (peek st row col) EMPTY)).
  destruct (Ascii.eqb (toupper (peek st i j)) WHITE_PAWN).
  { unfold isValidPawnMove in H. rewrite Ht, Occ' in H. cbn [negb] in H.
    rewrite !andb_false_r in H. cbn [andb negb] in H.
    destruct ((j =? col) && (i =? (if isupper (peek st i j) then 6 else 1))
              && (row =? i + 2 * (if isupper (peek st i j) then -1 else 1)));
      [discriminate H |].
    match type of H with
    | (if ?a && ?b && true && ?c then _ else _) = true =>
      destruct a eqn:A; destruct b eqn:B; cbn [andb] in H; try discriminate H
    end.
    reflexivity. }
  destruct (Ascii.eqb (toupper (peek st i j)) WHITE_ROOK).
  { rewrite H. rewrite isValidRookMove_path in H by assumption.
    apply andb_prop in H as [H _]. apply andb_prop in H as [H _].
    now rewrite H. }
  destruct (Ascii.eqb (toupper (peek st i j)) WHITE_KNIGHT); [exact H |].
  destruct (Ascii.eqb (toupper (peek st i j)) WHITE_BISHOP).
  { rewrite H. rewrite isValidBishopMove_path in H by assumption.
    apply andb_prop in H as [H _]. apply andb_prop in H as [H _].
    apply Z.eqb_eq in H.
    destruct (Z.eqb_spec (Z.abs (i - row)) (Z.abs (j - col))); [reflexivity | lia]. }
  destruct (Ascii.eqb (toupper (peek st i j)) WHITE_QUEEN).
  { rewrite H. unfold isValidQueenMove in H.
    rewrite isValidRookMove_path, isValidBishopMove_path in H by assumption.
    assert (i = row \/ j = col \/ Z.abs (i - row) = Z.abs (j - col)) as L.
    { apply orb_prop in H as [H | H];
        apply andb_prop in H as [H _]; apply andb_prop in H as [H _]; lia. }
    destruct (Z.eqb_spec i row); [reflexivity |].
    destruct (Z.eqb_spec j col); [reflexivity |]. cbn [orb].
    destruct (Z.eqb_spec (Z.abs (i - row)) (Z.abs (j - col))); [reflexivity | lia]. }
  destruct (Ascii.eqb (toupper (peek st i j)) WHITE_KING) eqn:K; [| discriminate H].
  unfold isValidKingMove in H.
  destruct ((Z.abs (row - i) <=? 1) && (Z.abs (col - j) <=? 1)) eqn:Near.
  { assert (i <> row \/ j <> col) as D.
    { destruct (Z.eq_dec i row) as [-> |]; [| now left].
      right. intros ->. now apply N. }
    apply andb_prop in Near as [N1 N2].
    destruct (Z.leb_spec (Z.abs (i - row)) 1); [| lia].
    destruct (Z.leb_spec (Z.abs (j - col)) 1); [| lia].
    destruct (Z.eqb_spec i row); destruct (Z.eqb_spec j col); try reflexivity; lia. }
  exfalso.
  destruct ((Z.abs (j - col) =? 2) && (i =? row)); [| discriminate H].
  destruct (isValidCastling_true st i j row col Hw H)
    as (_ & _ & Ec & Htc & Et & _ & _ & _ & Hempty & _).
  subst row. apply Occ. apply Hempty. unfold rookFromCol.
  destruct Htc as [-> | ->]; cbn; lia.
Qed.

(** X22.  A piece that [isPieceUnderAttack] reports as attacked stands on a
    square that [isSquareAttacked] reports as attacked by the other colour:
    a capture that [isValidMove] accepts follows the attack pattern of the
    capturing piece.  The query gives the position back unchanged, the side
    to move included, and is false for an empty square. *)
Theorem isPieceUnderAttack_sound (st : GameState) (row col : Z)
    (Hwf : wf st) (Hsq : inBoard row col = true) :
  snd (isPieceUnderAttack st row col) = st
  /\ (peek st row col = EMPTY -> fst (isPieceUnderAttack st row col) = false)
  /\ (fst (isPieceUnderAttack st row col) = true ->
      fst (isSquareAttacked st row col (negb (isupper (peek st row col)))) = true).
Proof.
  split; [now apply isPieceUnderAttack_frame |].
  split.
  { intros E. unfold isPieceUnderAttack. rewrite E. reflexivity. }
  intros H. unfold isPieceUnderAttack in H.
  destruct (Ascii.eqb_spec (peek st row col) EMPTY) as [E | Occ]; [discriminate H |].
  rewrite anySquare_value in H;
    [| intros; now apply isPieceUnderAttack_body_frame | exact Hwf].
  apply List.existsb_exists in H as ([i j] & Hin & Hb).
  apply In_allSquares in Hin.
  rewrite isSquareAttacked_value by exact Hwf.
  apply List.existsb_exists. exists (i, j). split; [now apply In_allSquares |].
  unfold isPieceUnderAttack_body in Hb.
  destruct (Ascii.eqb (peek st i j) EMPTY) eqn:Ea; [discriminate Hb |].
  cbn [negb andb] in Hb.
  destruct ((isupper (peek st row col) && islower (peek st i j))
            || (negb (isupper (peek st row col)) && isupper (peek st i j))) eqn:Colour;
    [| discriminate Hb].
  set (st1 := withTurn st (isupper (peek st i j))) in *.
  assert (fst (isValidMove st1 i j row col) = true) as V.
  { destruct (isValidMove st1 i j row col) as [[] s]; [reflexivity | discriminate Hb]. }
  assert ((i, j) <> (row, col)) as N.
  { intros X. injection X as -> ->.
    destruct (isupper (peek st row col)) eqn:U; cbn in Colour.
    - rewrite orb_false_r, (upper_not_lower _ U) in Colour. discriminate.
    - discriminate. }
  pose proof (isValidMove_pieceMove st1 i j row col V) as PM.
  pose proof (pieceMove_attackPattern st1 i j row col Hwf Hin Hsq N Occ PM) as AP.
  change (peek st1 i j) with (peek st i j) in AP.
  unfold attacks. cbn [fst snd]. rewrite Ea. cbn [negb andb].
  rewrite (attackPattern_shape true st st1 i j row col (peek st i j)) by (intros r c _; now left).
  rewrite AP, andb_true_r.
  destruct (isupper (peek st row col)) eqn:U; cbn [negb andb orb] in *.
  - now rewrite orb_false_r in Colour.
  - rewrite Colour. reflexivity.
Qed.

Lemma isPieceUnderAttack_sound_witness :
  wf capturePosition /\ inBoard 3 3 = true
  /\ fst (isPieceUnderAttack capturePosition 3 3) = true
  /\ fst (isSquareAttacked capturePosition 3 3
            (negb (isupper (peek capturePosition 3 3)))) = true.
Proof.
  assert (fst (isPieceUnderAttack capturePosition 3 3) = true) as A
    by (vm_compute; reflexivity).
  split; [reflexivity |]. split; [reflexivity |]. split; [exact A |].
  exact (proj2 (proj2 (isPieceUnderAttack_sound capturePosition 3 3 eq_refl eq_refl)) A).
Defined.

(** ** Reading any text as a FEN *)

Lemma parsePlacement_length ptr : forall b rank file,
  length (fst (parsePlacement ptr b rank file)) = length b.
Proof.
  induction ptr as [| ch rest IH]; intros b rank file; cbn [parsePlacement];
    [reflexivity |].
  destruct (Ascii.eqb ch NUL || Ascii.eqb ch " "); [reflexivity |].
  destruct (Ascii.eqb ch "/"); [apply IH |].
  destruct (isdigit ch); [apply IH |].
  destruct ((rank <? BOARD_SIZE) && (file <? BOARD_SIZE)); [| apply IH].
  rewrite IH. apply length_setSq.
Qed.

(** X23.  [fenToGameState] rejects no text: whatever it is given, it returns
    true and a position whose board has its 64 squares (a piece is written
    only inside the board), whose en-passant target has row and column
    between -1 and 7, the row being -1 whenever the column is, and whose
    four duplicate castling fields equal the four castling rights. *)
Theorem fenToGameState_total (fen : string) :
  fst (fenToGameState fen) = true
  /\ wf (snd (fenToGameState fen))
  /\ (-1 <= enPassantTargetCol (snd (fenToGameState fen)) <= 7
      /\ -1 <= enPassantTargetRow (snd (fenToGameState fen)) <= 7
      /\ (enPassantTargetCol (snd (fenToGameState fen)) = -1 ->
          enPassantTargetRow (snd (fenToGameState fen)) = -1))
  /\ (whiteCastleKingside (snd (fenToGameState fen))
      = canWhiteCastleKingside (snd (fenToGameState fen))
      /\ whiteCastleQueenside (snd (fenToGameState fen))
         = canWhiteCastleQueenside (snd (fenToGameState fen))
      /\ blackCastleKingside (snd (fenToGameState fen))
         = canBlackCastleKingside (snd (fenToGameState fen))
      /\ blackCastleQueenside (snd (fenToGameState fen))
         = canBlackCastleQueenside (snd (fenToGameState fen))).
Proof.
  unfold fenToGameState.
  pose proof (parsePlacement_length fen (replicate 64 EMPTY) 0 0) as L.
  destruct (parsePlacement fen (replicate 64 EMPTY) 0 0) as [b p1]. cbn [fst] in L.
  rewrite length_replicate in L.
  destruct (parseCastling _ _) as [[[[wk wq] bk] bq] p2].
  match goal with
  | |- context [ match ?e with pair _ _ => _ end ] =>
    match type of e with
    | (Z * Z * string)%type =>
      assert (-1 <= snd (fst e) <= 7 /\ -1 <= fst (fst e) <= 7
              /\ (snd (fst e) = -1 -> fst (fst e) = -1)) as B;
      [| destruct e as [[epRow epCol] p3] ]
    end
  end.
  { destruct (negb (Ascii.eqb (cur (skipSpace p2)) "-")); [| cbn; lia].
    destruct (Z.leb_spec (code "a") (code (cur (skipSpace p2)))) as [A1 | A1];
      [| cbn; lia].
    destruct (Z.leb_spec (code (cur (skipSpace p2))) (code "h")) as [A2 | A2];
      [| cbn; lia].
    cbn [andb].
    change (code "a") with 97 in *. change (code "h") with 104 in *.
    destruct (Z.leb_spec (code "1") (code (cur (next (skipSpace p2))))) as [A3 | A3];
      [| cbn; lia].
    destruct (Z.leb_spec (code (cur (next (skipSpace p2)))) (code "8")) as [A4 | A4];
      [| cbn; lia].
    change (code "1") with 49 in *. change (code "8") with 56 in *.
    cbn [andb fst snd]. lia. }
  cbn [fst snd] in B.
  destruct (parseNumber (skipSpace p3) 0) as [h p4].
  destruct (parseNumber (skipSpace p4) 1) as [f p5].
  cbn [fst snd enPassantTargetCol enPassantTargetRow whiteCastleKingside
       whiteCastleQueenside blackCastleKingside blackCastleQueenside
       canWhiteCastleKingside canWhiteCastleQueenside canBlackCastleKingside
       canBlackCastleQueenside].
  split; [reflexivity |]. split; [exact L |]. split; [exact B |].
  repeat split.
Qed.

(** ** The footprint of a move *)



(** ** The number of pieces after a move *)

Lemma poke_count st r c x :
  wf st -> inBoard r c = true ->
  (pieceCount (board (poke st r c x)) + occ (peek st r c)
   = pieceCount (board st) + occ x)%nat.
Proof.
  intros Hw Hb. unfold poke, occ. cbn [board withBoard]. unfold setSq.
  apply pieceCount_insert. now apply peek_Some.
Qed.

(** Moving the content of one square onto another and emptying the first
    loses what stood on the second. *)
Lemma simulated_count st fr fc tr tc :
  wf st -> inBoard fr fc = true -> inBoard tr tc = true ->
  (pieceCount (board (simulated st fr fc tr tc)) + occ (peek st tr tc)
   = pieceCount (board st))%nat.
Proof.
  intros Hw Hf Ht. unfold simulated.
  pose proof (poke_count st tr tc (peek st fr fc) Hw Ht) as C1.
  assert (wf (poke st tr tc (peek st fr fc))) as W1 by now rewrite wf_poke.
  pose proof (poke_count _ fr fc EMPTY W1 Hf) as C2.
  assert (peek (poke st tr tc (peek st fr fc)) fr fc = peek st fr fc) as E.
  { rewrite peek_poke by assumption.
    destruct (Z.eqb_spec tr fr) as [-> |]; destruct (Z.eqb_spec tc fc) as [-> |];
      reflexivity. }
  rewrite E in C2. change (occ EMPTY) with 0%nat in C2. lia.
Qed.

Lemma placed_count st fr fc tr tc :
  wf st -> inBoard fr fc = true -> inBoard tr tc = true ->
  (pieceCount (board (placed st fr fc tr tc)) + occ (peek st tr tc)
   + (if isCastlingMove st fr fc tr tc
      then occ (peek (simulated st fr fc tr tc) tr
                  (if (tc >? fc)%Z then (tc - 1)%Z else (tc + 1)%Z))
      else 0)
   + (if isEnPassantMove st fr fc tr tc
      then occ (peek (if isCastlingMove st fr fc tr tc
                      then simulated (simulated st fr fc tr tc)
                             fr (if (tc >? fc)%Z then 7%Z else 0%Z)
                             tr (if (tc >? fc)%Z then (tc - 1)%Z else (tc + 1)%Z)
                      else simulated st fr fc tr tc) fr tc)
      else 0)
   = pieceCount (board st))%nat.
Proof.
  intros Hw Hf Ht.
  pose proof (simulated_count st fr fc tr tc Hw Hf Ht) as C2.
  pose proof (simulated_wf st fr fc tr tc Hw) as Ws.
  assert (inBoard fr tc = true) as Bft
    by (apply inBoard_spec in Hf, Ht; apply inBoard_spec; lia).
  unfold placed. cbv zeta. fold (simulated st fr fc tr tc).
  fold (isCastlingMove st fr fc tr tc).
  set (sim := simulated st fr fc tr tc) in *.
  destruct (isCastlingMove st fr fc tr tc) eqn:C.
  - unfold isCastlingMove in C. apply andb_prop in C as [_ A]. apply Z.eqb_eq in A.
    assert (inBoard tr (if tc >? fc then tc - 1 else tc + 1) = true
            /\ inBoard fr (if tc >? fc then 7 else 0) = true) as [B1 B2].
    { apply inBoard_spec in Hf, Ht. rewrite !inBoard_spec.
      destruct (Z.gtb_spec tc fc); lia. }
    fold (simulated sim fr (if tc >? fc then 7 else 0)
            tr (if tc >? fc then tc - 1 else tc + 1)).
    pose proof (simulated_count sim _ _ _ _ Ws B2 B1) as C4.
    pose proof (simulated_wf sim fr (if tc >? fc then 7 else 0)
                  tr (if tc >? fc then tc - 1 else tc + 1) Ws) as W4.
    set (s4 := simulated sim _ _ _ _) in *.
    change (enPassantTargetCol s4) with (enPassantTargetCol st).
    change (enPassantTargetRow s4) with (enPassantTargetRow st).
    fold (isEnPassantMove st fr fc tr tc).
    destruct (isEnPassantMove st fr fc tr tc).
    + pose proof (poke_count s4 fr tc EMPTY W4 Bft) as C5.
      change (occ EMPTY) with 0%nat in C5. lia.
    + lia.
  - change (enPassantTargetCol sim) with (enPassantTargetCol st).
    change (enPassantTargetRow sim) with (enPassantTargetRow st).
    fold (isEnPassantMove st fr fc tr tc).
    destruct (isEnPassantMove st fr fc tr tc).
    + pose proof (poke_count sim fr tc EMPTY Ws Bft) as C5.
      change (occ EMPTY) with 0%nat in C5. lia.
    + lia.
Qed.

Lemma pawn_occupied p : p = WHITE_PAWN \/ p = BLACK_PAWN -> occ p = 1%nat.
Proof. intros [-> | ->]; reflexivity. Qed.

Lemma isPromotionMove_pawn st fr fc tr tc :
  isPromotionMove st fr fc tr tc = true ->
  (peek st fr fc = WHITE_PAWN \/ peek st fr fc = BLACK_PAWN)
  /\ isCastlingMove st fr fc tr tc = false.
Proof.
  unfold isPromotionMove, isCastlingMove. intros H.
  apply orb_prop in H as [H | H]; apply andb_prop in H as [H _];
    apply Ascii.eqb_eq in H; rewrite H; split; auto.
Qed.

(** A pawn move that [isValidPawnMove] accepts changes the row. *)
Lemma isValidPawnMove_row st fr fc tr tc :
  isValidPawnMove st fr fc tr tc = true -> tr <> fr.
Proof.
  unfold isValidPawnMove. intros H E. subst tr.
  destruct (negb (inBoard fr tc)); [discriminate H |].
  destruct (isupper (peek st fr fc)).
  - destruct (Z.eqb_spec fr (fr + -1)); [lia |].
    destruct (Z.eqb_spec fr (fr + 2 * -1)); [lia |].
    rewrite !andb_false_r in H. cbn [andb] in H. discriminate H.
  - destruct (Z.eqb_spec fr (fr + 1)); [lia |].
    destruct (Z.eqb_spec fr (fr + 2 * 1)); [lia |].
    rewrite !andb_false_r in H. cbn [andb] in H. discriminate H.
Qed.

(** X25.  [makeMove] between two squares of the board never adds a piece:
    the board holds at most as many pieces after it as before.  After a
    move that [isValidMove] accepts the count is exact: the piece on the
    square entered is lost, if there was one, and for a pawn that moves
    diagonally onto the en-passant target also the piece beside it, on the
    row left and the column entered; a castling move and a promotion keep
    the number of pieces. *)
Theorem makeMove_material (st : GameState) (input : list ascii)
    (fromRow fromCol toRow toCol : Z) (st' : GameState) (input' : list ascii)
    (Hwf : wf st)
    (Hfrom : inBoard fromRow fromCol = true) (Hto : inBoard toRow toCol = true)
    (Hmove : makeMove st input fromRow fromCol toRow toCol = Some (st', input')) :
  (pieceCount (board st') <= pieceCount (board st))%nat
  /\ (fst (isValidMove st fromRow fromCol toRow toCol) = true ->
      (pieceCount (board st') + occ (peek st toRow toCol)
       + (if isEnPassantMove st fromRow fromCol toRow toCol && negb (fromCol =? toCol)%Z
          then occ (peek st fromRow toCol) else 0)
       = pieceCount (board st))%nat).
Proof.
  destruct (makeMove_stages st input _ _ _ _ st' input' Hwf Hto Hmove) as (Hb & _).
  pose proof (placed_count st fromRow fromCol toRow toCol Hwf Hfrom Hto) as Cp.
  pose proof (simulated_wf st fromRow fromCol toRow toCol Hwf) as Ws.
  assert (wf (placed st fromRow fromCol toRow toCol)) as Pw.
  { unfold placed.
    repeat (match goal with |- context [ if ?e then _ else _ ] => destruct e end);
      rewrite ?wf_poke; exact Hwf. }
  assert (inBoard fromRow toCol = true) as Bft
    by (apply inBoard_spec in Hfrom, Hto; apply inBoard_spec; lia).
  split.
  - (* never more pieces *)
    destruct (isPromotionMove st fromRow fromCol toRow toCol) eqn:Pr.
    + destruct Hb as (q & Oq & ->).
      destruct (isPromotionMove_pawn _ _ _ _ _ Pr) as [Hp NC].
      pose proof (pawn_occupied _ Hp) as Op.
      pose proof (poke_count (placed st fromRow fromCol toRow toCol) toRow toCol q Pw Hto)
        as C6.
      unfold poke in C6. cbn [board withBoard] in C6.
      unfold occ at 2 in C6. rewrite Oq in C6.
      rewrite NC in Cp.
      assert (peek (placed st fromRow fromCol toRow toCol) toRow toCol
              = if isEnPassantMove st fromRow fromCol toRow toCol && (fromRow =? toRow)
                then EMPTY
                else peek (simulated st fromRow fromCol toRow toCol) toRow toCol) as Ept.
      { unfold placed. cbv zeta. fold (simulated st fromRow fromCol toRow toCol).
        fold (isCastlingMove st fromRow fromCol toRow toCol). rewrite NC.
        change (enPassantTargetCol (simulated st fromRow fromCol toRow toCol))
          with (enPassantTargetCol st).
        change (enPassantTargetRow (simulated st fromRow fromCol toRow toCol))
          with (enPassantTargetRow st).
        fold (isEnPassantMove st fromRow fromCol toRow toCol).
        destruct (isEnPassantMove st fromRow fromCol toRow toCol); [| reflexivity].
        rewrite peek_poke by assumption. rewrite Z.eqb_refl, andb_true_r.
        reflexivity. }
      rewrite Ept in C6.
      rewrite (simulated_peek st fromRow fromCol toRow toCol toRow toCol) in C6
        by assumption.
      rewrite (simulated_peek st fromRow fromCol toRow toCol fromRow toCol) in Cp
        by assumption.
      rewrite !Z.eqb_refl in *. cbn [andb] in *.
      destruct (isEnPassantMove st fromRow fromCol toRow toCol);
        destruct (Z.eqb_spec fromRow toRow) as [Er | Nr];
        destruct (Z.eqb_spec fromCol toCol) as [Ec | Nc];
        cbn [andb] in *; try subst toRow; try subst toCol;
        rewrite ?Z.eqb_refl in *; cbn [andb] in *;
        change (occ EMPTY) with 0%nat in *; rewrite ?Op in *; lia.
    + destruct Hb as [-> _]. lia.
  - (* the exact count after an accepted move *)
    intros Hvalid.
    destruct (isValidMove_true st _ _ _ _ Hwf Hvalid) as (_ & _ & Ho & Hd & _).
    assert ((fromRow, fromCol) <> (toRow, toCol)) as N
      by (intros E; injection E as -> ->; congruence).
    assert (peek (simulated st fromRow fromCol toRow toCol) toRow toCol
            = peek st fromRow fromCol) as Et by now apply simulated_peek_to.
    destruct (isCastlingMove st fromRow fromCol toRow toCol) eqn:C.
    + (* castling: the rook enters an empty square *)
      destruct (accepted_castling st _ _ _ _ Hwf Hvalid C)
        as ((Er & Etr & Ec & Htc) & (Pk & Hrook & _ & _ & Hempty & _)).
      assert (isEnPassantMove st fromRow fromCol toRow toCol = false) as NE.
      { unfold isEnPassantMove. subst fromCol. rewrite Pk.
        destruct (isWhiteTurn st); reflexivity. }
      assert (isPromotionMove st fromRow fromCol toRow toCol = false) as NP.
      { unfold isPromotionMove. subst fromCol. rewrite Pk.
        destruct (isWhiteTurn st); reflexivity. }
      rewrite NE in *. rewrite NP in Hb. destruct Hb as [-> _]. cbn [andb].
      assert (peek (simulated st fromRow fromCol toRow toCol) toRow
                (if toCol >? fromCol then toCol - 1 else toCol + 1) = EMPTY) as Erook.
      { subst fromCol toRow.
        assert (inBoard fromRow (if toCol >? 4 then toCol - 1 else toCol + 1) = true)
          as Bo by (apply inBoard_spec in Hfrom; rewrite inBoard_spec;
                    destruct Htc as [-> | ->]; cbn; lia).
        rewrite simulated_peek by assumption.
        destruct Htc as [-> | ->]; cbn [Z.gtb Z.compare Pos.compare Pos.compare_cont];
          rewrite Z.eqb_refl; cbn [andb Z.eqb Z.sub Z.add Z.opp Z.pos_sub Pos.add
                                      Pos.eqb Pos.succ Pos.pred_double Z.succ_double
                                      Z.pred_double Z.double];
          apply Hempty; cbn; lia. }
      rewrite Erook in Cp. change (occ EMPTY) with 0%nat in Cp. lia.
    + destruct (isEnPassantMove st fromRow fromCol toRow toCol) eqn:EP.
      * (* a pawn enters the en-passant target *)
        assert (Ascii.eqb (toupper (peek st fromRow fromCol)) WHITE_PAWN = true) as Tp.
        { unfold isEnPassantMove in EP. apply andb_prop in EP as [EP _].
          now apply andb_prop in EP as [EP _]. }
        pose proof (isValidMove_true_pawn st _ _ _ _ Hvalid Tp) as Vp.
        pose proof (isValidPawnMove_row st _ _ _ _ Vp) as Nrow.
        rewrite (simulated_peek st fromRow fromCol toRow toCol fromRow toCol) in Cp
          by assumption.
        rewrite Z.eqb_refl in Cp. cbn [andb] in Cp |- *.
        destruct (Z.eqb_spec toRow fromRow) as [X | _]; [contradiction |].
        cbn [andb] in Cp.
        assert (pieceCount (board st') = pieceCount (board (placed st fromRow fromCol
                                                               toRow toCol))) as Ec.
        { destruct (isPromotionMove st fromRow fromCol toRow toCol) eqn:Pr.
          - destruct Hb as (q & Oq & ->).
            pose proof (poke_count (placed st fromRow fromCol toRow toCol) toRow toCol q
                          Pw Hto) as C6.
            unfold poke in C6. cbn [board withBoard] in C6.
            unfold occ at 2 in C6. rewrite Oq in C6.
            assert (peek (placed st fromRow fromCol toRow toCol) toRow toCol
                    = peek st fromRow fromCol) as Ept.
            { unfold placed. cbv zeta. fold (simulated st fromRow fromCol toRow toCol).
              fold (isCastlingMove st fromRow fromCol toRow toCol). rewrite C.
              change (enPassantTargetCol (simulated st fromRow fromCol toRow toCol))
                with (enPassantTargetCol st).
              change (enPassantTargetRow (simulated st fromRow fromCol toRow toCol))
                with (enPassantTargetRow st).
              fold (isEnPassantMove st fromRow fromCol toRow toCol). rewrite EP.
              rewrite peek_poke by assumption.
              destruct (Z.eqb_spec fromRow toRow) as [X | _];
                [exfalso; now apply Nrow |].
              cbn [andb]. exact Et. }
            rewrite Ept in C6.
            destruct (isPromotionMove_pawn _ _ _ _ _ Pr) as [Hp _].
            rewrite (pawn_occupied _ Hp) in C6. lia.
          - destruct Hb as [-> _]. reflexivity. }
        rewrite Ec.
        destruct (Z.eqb_spec fromCol toCol) as [Ecol | Ncol]; cbn [negb andb] in *.
        -- change (occ EMPTY) with 0%nat in Cp. lia.
        -- lia.
      * (* any other move *)
        cbn [andb].
        destruct (isPromotionMove st fromRow fromCol toRow toCol) eqn:Pr.
        -- destruct Hb as (q & Oq & ->).
           pose proof (poke_count (placed st fromRow fromCol toRow toCol) toRow toCol q
                         Pw Hto) as C6.
           unfold poke in C6. cbn [board withBoard] in C6.
           unfold occ at 2 in C6. rewrite Oq in C6.
           assert (peek (placed st fromRow fromCol toRow toCol) toRow toCol
                   = peek st fromRow fromCol) as Ept.
           { unfold placed. cbv zeta. fold (simulated st fromRow fromCol toRow toCol).
             fold (isCastlingMove st fromRow fromCol toRow toCol). rewrite C.
             change (enPassantTargetCol (simulated st fromRow fromCol toRow toCol))
               with (enPassantTargetCol st).
             change (enPassantTargetRow (simulated st fromRow fromCol toRow toCol))
               with (enPassantTargetRow st).
             fold (isEnPassantMove st fromRow fromCol toRow toCol). rewrite EP.
             exact Et. }
           rewrite Ept in C6.
           destruct (isPromotionMove_pawn _ _ _ _ _ Pr) as [Hp _].
           rewrite (pawn_occupied _ Hp) in C6. lia.
        -- destruct Hb as [-> _]. lia.
Qed.

Lemma makeMove_material_witness :
  wf enPassantExposed /\ inBoard 3 4 = true /\ inBoard 2 3 = true
  /\ fst (isValidMove enPassantExposed 3 4 2 3) = true
  /\ exists st',
       makeMove enPassantExposed [] 3 4 2 3 = Some (st', [])
       /\ (pieceCount (board st') + 1 = pieceCount (board enPassantExposed))%nat.
Proof.
  assert (fst (isValidMove enPassantExposed 3 4 2 3) = true) as V
    by (vm_compute; reflexivity).
  split; [reflexivity |]. split; [reflexivity |]. split; [reflexivity |].
  split; [exact V |].
  destruct (makeMove enPassantExposed [] 3 4 2 3) as [[st' rest] |] eqn:E;
    [| vm_compute in E; discriminate E].
  assert (rest = []) as -> by (vm_compute in E; now injection E as _ <-).
  exists st'. split; [reflexivity |].
  pose proof (proj2 (makeMove_material enPassantExposed [] 3 4 2 3 st' []
                       eq_refl eq_refl eq_refl E) V) as H.
  change (occ (peek enPassantExposed 2 3)) with 0%nat in H.
  change (if isEnPassantMove enPassantExposed 3 4 2 3 && negb (4 =? 3)
          then occ (peek enPassantExposed 3 3) else 0%nat) with 1%nat in H.
  rewrite Nat.add_0_r in H. exact H.
Defined.

(** ** The opening book *)

Ltac book_facts :=
  repeat match goal with
         | H : _ && _ = true |- _ => apply andb_prop in H as [? ?]
         | H : Ascii.eqb _ _ = true |- _ => apply Ascii.eqb_eq in H
         | H : negb _ = true |- _ => apply negb_true_iff in H
         | H : (_ =? _) = true |- _ => apply Z.eqb_eq in H
         end.

Ltac book_case :=
  match goal with
  | |- context [ if ?g then _ else _ ] =>
    destruct g eqn:?;
    [ book_facts; unfold bookSquares;
      repeat match goal with
             | |- context [ Z.quot ?a ?b ] =>
               let v := eval vm_compute in (Z.quot a b) in change (Z.quot a b) with v
             | |- context [ Z.rem ?a ?b ] =>
               let v := eval vm_compute in (Z.rem a b) in change (Z.rem a b) with v
             end;
      intros _;
      repeat match goal with
             | H : peek _ _ _ = _ |- _ => rewrite H
             | H : isWhiteTurn _ = _ |- _ => rewrite H
             end;
      repeat split; first [ reflexivity | lia | (left; reflexivity)
                          | (right; split; reflexivity) ]
    | ]
  end.

(** X26.  A code that [getOpeningBookMove] returns, read as [getAIMove]
    reads it (thousands, hundreds, tens, units), names two squares of the
    board: the first holds a piece of the side to move, the second is
    empty or, for Black, holds the white queen.  The book answers only in
    the first three moves. *)
Theorem getOpeningBookMove_decodes (st : GameState)
    (Hbook : getOpeningBookMove st <> -1) :
  let '(fromRow, fromCol, toRow, toCol) := bookSquares (getOpeningBookMove st) in
  inBoard fromRow fromCol = true /\ inBoard toRow toCol = true
  /\ 1 <= fullmoveNumber st <= 3
  /\ ownPiece (isWhiteTurn st) (peek st fromRow fromCol) = true
  /\ (peek st toRow toCol = EMPTY
      \/ (peek st toRow toCol = WHITE_QUEEN /\ isWhiteTurn st = false)).
Proof.
  revert Hbook. unfold getOpeningBookMove. cbv zeta.
  do 13 book_case.
  intros H. now contradiction H.
Qed.

Lemma getOpeningBookMove_decodes_witness :
  getOpeningBookMove initializeGameState <> -1
  /\ bookSquares (getOpeningBookMove initializeGameState) = (6, 4, 4, 4)
  /\ ownPiece (isWhiteTurn initializeGameState) (peek initializeGameState 6 4) = true
  /\ (peek initializeGameState 4 4 = EMPTY
      \/ (peek initializeGameState 4 4 = WHITE_QUEEN
          /\ isWhiteTurn initializeGameState = false)).
Proof.
  assert (getOpeningBookMove initializeGameState <> -1) as N by (vm_compute; discriminate).
  split; [exact N |]. split; [reflexivity |].
  pose proof (getOpeningBookMove_decodes initializeGameState N) as H.
  change (bookSquares (getOpeningBookMove initializeGameState)) with (6, 4, 4, 4) in H.
  destruct H as (_ & _ & _ & Ho & Ht). split; [exact Ho | exact Ht].
Defined.

(** ** The key of the evaluation cache *)

(** *** Captures on two positions with the same board and side to move *)

Lemma isValidPawnMove_key sA sB fr fc tr tc :
  board sA = board sB -> peek sA tr tc <> EMPTY ->
  isValidPawnMove sA fr fc tr tc = isValidPawnMove sB fr fc tr tc.
Proof.
  intros Hb Occ. unfold isValidPawnMove, peek in *. rewrite <- Hb.
  destruct (Ascii.eqb_spec (getSq (board sA) tr tc) EMPTY); [contradiction |].
  rewrite !andb_false_r. reflexivity.
Qed.

Lemma isValidCastling_occupied st fr fc tr tc :
  wf st -> peek st tr tc <> EMPTY -> fst (isValidCastling st fr fc tr tc) = false.
Proof.
  intros Hw Occ.
  destruct (fst (isValidCastling st fr fc tr tc)) eqn:E; [exfalso | reflexivity].
  destruct (isValidCastling_true st _ _ _ _ Hw E)
    as (_ & _ & _ & Htc & Et & _ & _ & _ & Hempty & _).
  subst tr. apply Occ. apply Hempty. unfold rookFromCol.
  destruct Htc as [-> | ->]; cbn; lia.
Qed.

Lemma isValidKingMove_key sA sB fr fc tr tc :
  wf sA -> wf sB -> peek sA tr tc <> EMPTY -> peek sB tr tc <> EMPTY ->
  fst (isValidKingMove sA fr fc tr tc) = fst (isValidKingMove sB fr fc tr tc).
Proof.
  intros Wa Wb Oa Ob. unfold isValidKingMove.
  destruct ((Z.abs (tr - fr) <=? 1) && (Z.abs (tc - fc) <=? 1)); [reflexivity |].
  destruct ((Z.abs (fc - tc) =? 2) && (fr =? tr)); [| reflexivity].
  now rewrite !isValidCastling_occupied.
Qed.

Lemma pieceMove_key sA sB fr fc tr tc :
  wf sA -> board sA = board sB -> peek sA tr tc <> EMPTY ->
  pieceMove sA fr fc tr tc = pieceMove sB fr fc tr tc.
Proof.
  intros Wa Hb Occ.
  assert (wf sB) as Wb by (unfold wf; now rewrite <- Hb).
  assert (forall r c, peek sB r c = peek sA r c) as Hp
    by (intros; unfold peek; now rewrite Hb).
  unfold pieceMove. rewrite !Hp.
  rewrite (isValidPawnMove_key sA sB) by assumption.
  rewrite (isValidKingMove_key sA sB) by (rewrite ?Hp; assumption).
  unfold isValidRookMove, isValidBishopMove, isValidQueenMove, isValidKnightMove,
    isValidRookMove, isValidBishopMove.
  rewrite Hb. reflexivity.
Qed.

Lemma isInCheck_key sA sB w :
  wf sA -> board sA = board sB -> fst (isInCheck sA w) = fst (isInCheck sB w).
Proof.
  intros Wa Hb. apply isInCheck_shape; [exact Wa | unfold wf; now rewrite <- Hb |].
  intros r c _. left. now rewrite Hb.
Qed.

Lemma isValidMove_key sA sB fr fc tr tc :
  wf sA -> board sA = board sB -> isWhiteTurn sA = isWhiteTurn sB ->
  peek sA tr tc <> EMPTY ->
  fst (isValidMove sA fr fc tr tc) = fst (isValidMove sB fr fc tr tc).
Proof.
  intros Wa Hb Ht Occ.
  assert (wf sB) as Wb by (unfold wf; now rewrite <- Hb).
  assert (forall r c, peek sB r c = peek sA r c) as Hp
    by (intros; unfold peek; now rewrite Hb).
  apply Bool.eq_true_iff_eq.
  rewrite (isValidMove_iff sA) by exact Wa. rewrite (isValidMove_iff sB) by exact Wb.
  rewrite !Hp, <- Ht, <- (pieceMove_key sA sB) by assumption.
  assert (getPinInfo sB fr fc = getPinInfo sA fr fc) as ->
    by (unfold getPinInfo, peek; now rewrite Hb).
  assert (fst (isInCheck (simulated sB fr fc tr tc) (isWhiteTurn sA))
          = fst (isInCheck (simulated sA fr fc tr tc) (isWhiteTurn sA))) as ->.
  { symmetry. apply isInCheck_key.
    - unfold simulated. now rewrite !wf_poke.
    - unfold simulated, poke, peek. cbn [board withBoard]. now rewrite Hb. }
  reflexivity.
Qed.

(** *** Loops on two positions *)

Lemma foldSquares_key {A : Type} (body : A -> GameState -> Z * Z -> A * GameState)
    sqs sA sB :
  (forall acc sq, In sq sqs ->
     snd (body acc sA sq) = sA /\ snd (body acc sB sq) = sB
     /\ fst (body acc sA sq) = fst (body acc sB sq)) ->
  forall acc,
    fst (foldSquares body sqs acc sA) = fst (foldSquares body sqs acc sB)
    /\ snd (foldSquares body sqs acc sA) = sA
    /\ snd (foldSquares body sqs acc sB) = sB.
Proof.
  induction sqs as [| sq rest IH]; intros H acc; cbn [foldSquares];
    [repeat split |].
  destruct (H acc sq (or_introl eq_refl)) as (Fa & Fb & E).
  destruct (body acc sA sq) as [a1 s1]. destruct (body acc sB sq) as [a2 s2].
  cbn [fst snd] in Fa, Fb, E. subst s1 s2 a2.
  apply IH. intros acc' sq' Hin. apply H. now right.
Qed.

Section SameKey.

Variables sA sB : GameState.
Hypothesis Wa : wf sA.
Hypothesis Hb : board sA = board sB.
Hypothesis Ht : isWhiteTurn sA = isWhiteTurn sB.

Lemma key_wf : wf sB.
Proof. unfold wf. now rewrite <- Hb. Qed.

Lemma key_peek r c : peek sB r c = peek sA r c.
Proof. unfold peek. now rewrite Hb. Qed.

Lemma countAttacks_body_key row col w n sq :
  fst (countAttacks_body row col w n sA sq) = fst (countAttacks_body row col w n sB sq).
Proof.
  unfold countAttacks_body. destruct sq as [tr tc]. rewrite !key_peek.
  destruct (Ascii.eqb_spec (peek sA tr tc) EMPTY) as [E | Occ]; [reflexivity |].
  cbn [negb andb].
  destruct (if w then islower (peek sA tr tc) else isupper (peek sA tr tc));
    [| reflexivity].
  pose proof (isValidMove_key (withTurn sA w) (withTurn sB w) row col tr tc Wa Hb
                eq_refl Occ) as E.
  destruct (isValidMove (withTurn sA w) row col tr tc) as [v1 s1].
  destruct (isValidMove (withTurn sB w) row col tr tc) as [v2 s2].
  cbn [fst] in E. subst v2. reflexivity.
Qed.

Lemma isPieceUnderAttack_key row col :
  fst (isPieceUnderAttack sA row col) = fst (isPieceUnderAttack sB row col).
Proof.
  unfold isPieceUnderAttack. rewrite !key_peek.
  destruct (Ascii.eqb_spec (peek sA row col) EMPTY) as [E | Occ]; [reflexivity |].
  rewrite !anySquare_value;
    try (intros; now apply isPieceUnderAttack_body_frame);
    try exact Wa; try exact key_wf.
  apply existsb_ext. intros [i j] _. unfold isPieceUnderAttack_body.
  rewrite !key_peek.
  destruct (negb (Ascii.eqb (peek sA i j) EMPTY)
            && ((isupper (peek sA row col) && islower (peek sA i j))
                || (negb (isupper (peek sA row col)) && isupper (peek sA i j))));
    [| reflexivity].
  pose proof (isValidMove_key (withTurn sA (isupper (peek sA i j)))
                (withTurn sB (isupper (peek sA i j))) i j row col Wa Hb eq_refl Occ) as E.
  destruct (isValidMove (withTurn sA (isupper (peek sA i j))) i j row col) as [v1 s1].
  destruct (isValidMove (withTurn sB (isupper (peek sA i j))) i j row col) as [v2 s2].
  cbn [fst] in E. subst v2. now destruct v1.
Qed.

Lemma evaluateBoard_body_key acc sq :
  fst (evaluateBoard_body acc sA sq) = fst (evaluateBoard_body acc sB sq).
Proof.
  unfold evaluateBoard_body. destruct acc as [[score aw] ab]. destruct sq as [row col].
  rewrite !key_peek.
  destruct (Ascii.eqb (peek sA row col) EMPTY); [reflexivity |].
  match goal with
  | |- context [ match ?pat with pair _ _ => _ end ] =>
    match type of pat with (Z * Z)%type => destruct pat as [pv posv] end
  end.
  pose proof (isPieceUnderAttack_key row col) as Eu.
  pose proof (isPieceUnderAttack_frame sA row col Wa) as Fa.
  pose proof (isPieceUnderAttack_frame sB row col key_wf) as Fb.
  destruct (isupper (peek sA row col)).
  - destruct (foldSquares_key (countAttacks_body row col true) allSquares sA sB) with (acc := aw)
      as (E & Ea & Eb).
    { intros n sq _. split; [now apply countAttacks_body_frame |].
      split; [apply countAttacks_body_frame; exact key_wf |].
      apply countAttacks_body_key. }
    destruct (foldSquares (countAttacks_body row col true) allSquares aw sA) as [n1 s1].
    destruct (foldSquares (countAttacks_body row col true) allSquares aw sB) as [n2 s2].
    cbn [fst snd] in E, Ea, Eb. subst n2 s1 s2.
    destruct (isPieceUnderAttack sA row col) as [u1 t1].
    destruct (isPieceUnderAttack sB row col) as [u2 t2].
    cbn [fst snd] in Eu, Fa, Fb. subst u2 t1 t2. reflexivity.
  - destruct (foldSquares_key (countAttacks_body row col false) allSquares sA sB) with (acc := ab)
      as (E & Ea & Eb).
    { intros n sq _. split; [now apply countAttacks_body_frame |].
      split; [apply countAttacks_body_frame; exact key_wf |].
      apply countAttacks_body_key. }
    destruct (foldSquares (countAttacks_body row col false) allSquares ab sA) as [n1 s1].
    destruct (foldSquares (countAttacks_body row col false) allSquares ab sB) as [n2 s2].
    cbn [fst snd] in E, Ea, Eb. subst n2 s1 s2.
    destruct (isPieceUnderAttack sA row col) as [u1 t1].
    destruct (isPieceUnderAttack sB row col) as [u2 t2].
    cbn [fst snd] in Eu, Fa, Fb. subst u2 t1 t2. reflexivity.
Qed.

Lemma evaluatePawnStructure_key : evaluatePawnStructure sA = evaluatePawnStructure sB.
Proof. unfold evaluatePawnStructure, columnCount, peek. now rewrite Hb. Qed.

Lemma evaluateScholarsMateDefense_key :
  evaluateScholarsMateDefense sA = evaluateScholarsMateDefense sB.
Proof.
  unfold evaluateScholarsMateDefense, isScholarsMateThreat, peek. now rewrite Hb, Ht.
Qed.

Lemma evaluateKingSafety_key :
  fst (evaluateKingSafety sA) = fst (evaluateKingSafety sB).
Proof.
  unfold evaluateKingSafety.
  assert (forall p, lastPiece sB p = lastPiece sA p) as Hl
    by (intros; unfold lastPiece, peek; now rewrite Hb).
  rewrite !Hl.
  destruct (lastPiece sA WHITE_KING) as [wr wc].
  destruct (lastPiece sA BLACK_KING) as [br bc].
  pose proof (isInCheck_key sA sB true Wa Hb) as E1.
  pose proof (isInCheck_frame sA true Wa) as F1.
  pose proof (isInCheck_frame sB true key_wf) as G1.
  destruct (isInCheck sA true) as [a1 s1]. destruct (isInCheck sB true) as [a2 s2].
  cbn [fst snd] in E1, F1, G1. subst a2 s1 s2.
  pose proof (isInCheck_key sA sB false Wa Hb) as E2.
  destruct (isInCheck sA false) as [b1 t1]. destruct (isInCheck sB false) as [b2 t2].
  cbn [fst snd] in E2 |- *. subst b2.
  unfold peek. rewrite Hb. reflexivity.
Qed.

Lemma getCachedEvaluation_key c : getCachedEvaluation c sA = getCachedEvaluation c sB.
Proof. unfold getCachedEvaluation, peek. now rewrite Hb, Ht. Qed.

Lemma evaluateBoard_key c :
  fst (fst (evaluateBoard sA c)) = fst (fst (evaluateBoard sB c))
  /\ snd (evaluateBoard sA c) = snd (evaluateBoard sB c).
Proof.
  unfold evaluateBoard. rewrite <- getCachedEvaluation_key.
  destruct (negb (getCachedEvaluation c sA =? INT_MIN)); [split; reflexivity |].
  destruct (foldSquares_key evaluateBoard_body allSquares sA sB) with (acc := (0, 0, 0))
    as (E & Ea & Eb).
  { intros acc sq _. split; [now apply evaluateBoard_body_frame |].
    split; [apply evaluateBoard_body_frame; exact key_wf |].
    apply evaluateBoard_body_key. }
  destruct (foldSquares evaluateBoard_body allSquares (0, 0, 0) sA)
    as [[[score aw] ab] s1].
  destruct (foldSquares evaluateBoard_body allSquares (0, 0, 0) sB) as [acc2 s2].
  cbn [fst snd] in E, Ea, Eb. subst acc2 s1 s2.
  pose proof evaluateKingSafety_key as Ek.
  pose proof (evaluateKingSafety_frame sA Wa) as Fk.
  pose proof (evaluateKingSafety_frame sB key_wf) as Gk.
  destruct (evaluateKingSafety sA) as [k1 s1]. destruct (evaluateKingSafety sB) as [k2 s2].
  cbn [fst snd] in Ek, Fk, Gk. subst k2 s1 s2.
  pose proof (isInCheck_key sA sB true Wa Hb) as E1.
  pose proof (isInCheck_frame sA true Wa) as F1.
  pose proof (isInCheck_frame sB true key_wf) as G1.
  destruct (isInCheck sA true) as [a1 s1]. destruct (isInCheck sB true) as [a2 s2].
  cbn [fst snd] in E1, F1, G1. subst a2 s1 s2.
  pose proof (isInCheck_key sA sB false Wa Hb) as E2.
  pose proof (isInCheck_frame sA false Wa) as F2.
  pose proof (isInCheck_frame sB false key_wf) as G2.
  destruct (isInCheck sA false) as [b1 t1]. destruct (isInCheck sB false) as [b2 t2].
  cbn [fst snd] in E2, F2, G2. subst b2 t1 t2.
  rewrite <- evaluatePawnStructure_key, <- evaluateScholarsMateDefense_key.
  cbn [fst snd]. unfold cacheEvaluation, peek. rewrite Hb, Ht. split; reflexivity.
Qed.

End SameKey.

(** *** The cache does not change the evaluation *)

Lemma emptyCache_miss st : getCachedEvaluation emptyCache st = INT_MIN.
Proof.
  rewrite getCachedEvaluation_find.
  destruct (List.find (cacheMatch st) (evalCache emptyCache)) as [e |] eqn:F;
    [| reflexivity].
  apply List.find_some in F as [Hin Hm]. exfalso.
  unfold emptyCache in Hin. cbn [evalCache] in Hin.
  apply list_elem_of_In, elem_of_replicate in Hin as [-> _].
  discriminate Hm.
Qed.

Lemma evaluateBoard_miss st c :
  wf st -> getCachedEvaluation c st = INT_MIN ->
  fst (fst (evaluateBoard st c)) = staticEval st
  /\ snd (evaluateBoard st c) = cacheEvaluation c st (staticEval st).
Proof.
  intros Hw Hm. unfold staticEval, evaluateBoard. rewrite Hm, emptyCache_miss.
  change (negb (INT_MIN =? INT_MIN)) with false. cbv iota.
  pose proof (foldSquares_frame evaluateBoard_body allSquares (0, 0, 0) st) as K.
  destruct (foldSquares evaluateBoard_body allSquares (0, 0, 0) st)
    as [[[score aw] ab] s1].
  cbn [snd] in K. rewrite K;
    [| intros; now apply evaluateBoard_body_frame | exact Hw].
  pose proof (evaluateKingSafety_frame st Hw) as Fk.
  destruct (evaluateKingSafety st) as [k1 s2]. cbn [snd] in Fk. subst s2.
  pose proof (isInCheck_frame st true Hw) as F1.
  destruct (isInCheck st true) as [a1 s3]. cbn [snd] in F1. subst s3.
  pose proof (isInCheck_frame st false Hw) as F2.
  destruct (isInCheck st false) as [b1 s4]. cbn [snd] in F2. subst s4.
  cbn [fst snd]. split; reflexivity.
Qed.

Lemma boards_agree bA bB :
  length bA = 64%nat -> length bB = 64%nat ->
  (forall sq, In sq allSquares -> getSq bA (fst sq) (snd sq) = getSq bB (fst sq) (snd sq)) ->
  bA = bB.
Proof.
  intros La Lb H. apply list_eq. intros i.
  destruct (Nat.lt_ge_cases i 64) as [Hi | Hi].
  - specialize (H (Z.of_nat (i / 8), Z.of_nat (i mod 8))).
    assert (inBoard (Z.of_nat (i / 8)) (Z.of_nat (i mod 8)) = true) as Hb.
    { apply inBoard_spec.
      pose proof (Nat.mod_upper_bound i 8 ltac:(lia)).
      pose proof (Nat.Div0.div_lt_upper_bound i 8 8 ltac:(lia)). lia. }
    specialize (H (proj2 (In_allSquares _ _) Hb)). cbn [fst snd] in H.
    unfold getSq in H.
    assert (cell (Z.of_nat (i / 8)) (Z.of_nat (i mod 8)) = i) as Ec.
    { unfold cell. pose proof (Nat.div_mod_eq i 8). lia. }
    rewrite Ec in H.
    destruct (lookup_lt_is_Some_2 bA i ltac:(lia)) as [x Hx].
    destruct (lookup_lt_is_Some_2 bB i ltac:(lia)) as [y Hy].
    rewrite Hx, Hy in *. now subst y.
  - rewrite !lookup_ge_None_2 by lia. reflexivity.
Qed.

Lemma cacheMatch_key st st' v :
  wf st -> wf st' ->
  cacheMatch st' (mkPositionCache (board st) (isWhiteTurn st) v true) = true ->
  board st = board st' /\ isWhiteTurn st = isWhiteTurn st'.
Proof.
  intros Hw Hw' H. unfold cacheMatch in H.
  cbn [isValid cacheIsWhiteTurn cacheBoard andb] in H.
  apply andb_prop in H as [Ht Hb]. apply Bool.eqb_prop in Ht.
  split; [| exact Ht].
  apply boards_agree; [exact Hw | exact Hw' |].
  rewrite List.forallb_forall in Hb. intros sq Hin.
  specialize (Hb sq Hin). now apply Ascii.eqb_eq in Hb.
Qed.

Lemma coherent_empty : coherent emptyCache.
Proof.
  split; [reflexivity |]. split; [reflexivity |].
  apply List.Forall_forall. intros e Hin Hv. exfalso.
  unfold emptyCache in Hin. cbn [evalCache] in Hin.
  apply list_elem_of_In, elem_of_replicate in Hin as [-> _]. discriminate Hv.
Qed.

(** [evaluateBoard] on a coherent cache. *)
Lemma evaluateBoard_coherent st c :
  wf st -> coherent c ->
  fst (fst (evaluateBoard st c)) = staticEval st
  /\ snd (fst (evaluateBoard st c)) = st
  /\ coherent (snd (evaluateBoard st c)).
Proof.
  intros Hwf Hcache.
  split; [| split; [now apply evaluateBoard_frame |]].
  - unfold evaluateBoard.
    destruct (Z.eqb_spec (getCachedEvaluation c st) INT_MIN) as [Hm | Hh]; cbn [negb].
    + rewrite <- (proj1 (evaluateBoard_miss st c Hwf Hm)).
      unfold evaluateBoard. rewrite Hm. reflexivity.
    + cbn [fst]. rewrite getCachedEvaluation_find in Hh |- *.
      destruct (List.find (cacheMatch st) (evalCache c)) as [e |] eqn:F;
        [| contradiction].
      apply List.find_some in F as [Hin Hmatch].
      destruct Hcache as (_ & _ & Hall). rewrite List.Forall_forall in Hall.
      apply (Hall e Hin); [| exact Hwf | exact Hmatch].
      unfold cacheMatch in Hmatch. now destruct (isValid e).
  - destruct (Z.eq_dec (getCachedEvaluation c st) INT_MIN) as [Hm | Hh].
    + rewrite (proj2 (evaluateBoard_miss st c Hwf Hm)).
      destruct Hcache as (Hl & Hi & Hall).
      unfold coherent, cacheEvaluation. cbn [evalCache cacheIndex].
      rewrite length_insert. split; [exact Hl |]. split; [lia |].
      apply Forall_insert; [exact Hall |].
      intros _ st' Hw' Hmatch.
      cbn [evaluation].
      destruct (cacheMatch_key st st' _ Hwf Hw' Hmatch) as [Eb Et].
      unfold staticEval.
      exact (proj1 (evaluateBoard_key st st' Hwf Eb Et emptyCache)).
    + unfold evaluateBoard.
      destruct (Z.eqb_spec (getCachedEvaluation c st) INT_MIN); [contradiction |].
      exact Hcache.
Qed.

(** X27.  The score of [evaluateBoard] depends on the board and the side to
    move only, which are what an entry of the cache records: two positions
    with the same board and the same side to move get the same score and
    leave the same cache, whatever their castling rights, en-passant
    target and clocks. *)
Theorem evaluateBoard_board_and_turn (st1 st2 : GameState) (c : EvalCache)
    (Hwf : wf st1)
    (Hboard : board st1 = board st2) (Hturn : isWhiteTurn st1 = isWhiteTurn st2) :
  fst (fst (evaluateBoard st1 c)) = fst (fst (evaluateBoard st2 c))
  /\ snd (evaluateBoard st1 c) = snd (evaluateBoard st2 c)
  /\ snd (fst (evaluateBoard st1 c)) = st1
  /\ snd (fst (evaluateBoard st2 c)) = st2.
Proof.
  destruct (evaluateBoard_key st1 st2 Hwf Hboard Hturn c) as [E1 E2].
  split; [exact E1 |]. split; [exact E2 |].
  split; apply evaluateBoard_frame; [exact Hwf |].
  unfold wf. now rewrite <- Hboard.
Qed.

Lemma evaluateBoard_board_and_turn_witness :
  wf capturePosition
  /\ board capturePosition
     = board (withCastling (withEnPassant capturePosition 2 3) true true true true)
  /\ fst (fst (evaluateBoard capturePosition emptyCache))
     = fst (fst (evaluateBoard
                   (withCastling (withEnPassant capturePosition 2 3) true true true true)
                   emptyCache)).
Proof.
  split; [reflexivity |]. split; [reflexivity |].
  exact (proj1 (evaluateBoard_board_and_turn capturePosition
                  (withCastling (withEnPassant capturePosition 2 3) true true true true)
                  emptyCache eq_refl eq_refl eq_refl)).
Defined.

(** X28.  The cache does not change what [evaluateBoard] returns.  On a
    cache whose valid entries hold the fresh evaluation of every position
    they match (the empty cache is one), [evaluateBoard] returns the score
    it computes on an empty cache, gives the position back, and leaves
    such a cache again, so that every later call is answered alike. *)
Theorem evaluateBoard_cache_transparent (st : GameState) (c : EvalCache)
    (Hwf : wf st) (Hcache : coherent c) :
  fst (fst (evaluateBoard st c)) = staticEval st
  /\ snd (fst (evaluateBoard st c)) = st
  /\ coherent (snd (evaluateBoard st c))
  /\ coherent emptyCache.
Proof.
  destruct (evaluateBoard_coherent st c Hwf Hcache) as (V & S & C).
  split; [exact V |]. split; [exact S |]. split; [exact C | exact coherent_empty].
Qed.

Lemma evaluateBoard_cache_transparent_witness :
  wf capturePosition /\ coherent (snd (evaluateBoard capturePosition emptyCache))
  /\ fst (fst (evaluateBoard capturePosition
                 (snd (evaluateBoard capturePosition emptyCache))))
     = staticEval capturePosition.
Proof.
  destruct (evaluateBoard_cache_transparent capturePosition emptyCache eq_refl
              coherent_empty) as (_ & _ & Hc & _).
  split; [reflexivity |]. split; [exact Hc |].
  exact (proj1 (evaluateBoard_cache_transparent capturePosition
                  (snd (evaluateBoard capturePosition emptyCache)) eq_refl Hc)).
Defined.

(** ** The search does not depend on the cache *)

Lemma searchLoop_agree {X : Type}
    (body : X -> GameState -> EvalCache -> Z -> Z -> option (Flow * GameState * EvalCache))
    (xs : list X) :
  (forall x st c a b r st' c',
      In x xs -> wf st -> body x st c a b = Some (r, st', c') -> st' = st) ->
  (forall x st c1 c2 a b,
      In x xs -> wf st -> coherent c1 -> coherent c2 ->
      agree (body x st c1 a b) (body x st c2 a b)) ->
  forall st c1 c2 a b,
    wf st -> coherent c1 -> coherent c2 ->
    agree (searchLoop body xs st c1 a b) (searchLoop body xs st c2 a b).
Proof.
  induction xs as [| x rest IH]; intros Hf Ha st c1 c2 a b Hw C1 C2;
    cbn [searchLoop].
  - cbn. auto.
  - pose proof (Ha x st c1 c2 a b (or_introl eq_refl) Hw C1 C2) as A.
    destruct (body x st c1 a b) as [[[fl1 s1] d1] |] eqn:E1;
      destruct (body x st c2 a b) as [[[fl2 s2] d2] |] eqn:E2;
      cbn in A; try contradiction; [| exact I].
    destruct A as (-> & -> & D1 & D2).
    assert (s2 = st) as -> by (eapply Hf; eauto; now left).
    destruct fl2 as [v | a1 b1].
    + cbn. auto.
    + apply IH; auto.
      * intros; eapply Hf; eauto. now right.
      * intros; apply Ha; auto. now right.
Qed.

Lemma quiescence_capture_agree rec isMax fr fc sq st c1 c2 a b :
  transparent rec -> In sq allSquares -> wf st -> coherent c1 -> coherent c2 ->
  agree (quiescence_capture rec isMax fr fc sq st c1 a b)
        (quiescence_capture rec isMax fr fc sq st c2 a b).
Proof.
  intros Ht Hin Hw C1 C2. unfold quiescence_capture. destruct sq as [tr tc].
  destruct (_ && _); [| cbn; auto].
  pose proof (isValidMove_frame st fr fc tr tc Hw) as K.
  destruct (isValidMove st fr fc tr tc) as [valid st1]. cbn [snd] in K. subst st1.
  destruct valid; [| cbn; auto].
  set (st1 := poke (poke st tr tc (peek st fr fc)) fr fc EMPTY).
  assert (wf st1) as Hw1 by (subst st1; now rewrite !wf_poke).
  pose proof (Ht st1 c1 c2 a b (negb isMax) Hw1 C1 C2) as A.
  destruct (rec st1 c1 a b (negb isMax)) as [[[score1 s1] d1] |];
    destruct (rec st1 c2 a b (negb isMax)) as [[[score2 s2] d2] |];
    cbn in A; try contradiction; [| exact I].
  destruct A as (-> & -> & D1 & D2).
  destruct isMax; cbn [negb];
    match goal with |- context [ if ?g then _ else _ ] => destruct g end;
    cbn; auto.
Qed.

Lemma quiescence_from_agree rec isMax sq st c1 c2 a b :
  restoring rec -> transparent rec ->
  In sq allSquares -> wf st -> coherent c1 -> coherent c2 ->
  agree (quiescence_from rec isMax sq st c1 a b) (quiescence_from rec isMax sq st c2 a b).
Proof.
  intros Hr Ht Hin Hw C1 C2. unfold quiescence_from. destruct sq as [fr fc].
  apply In_allSquares in Hin.
  destruct (ownPiece _ _); [| cbn; auto].
  apply searchLoop_agree; auto.
  - intros. eapply quiescence_capture_frame; eauto.
  - intros. now apply quiescence_capture_agree.
Qed.

Lemma quiescence_agree budget : transparent (quiescence budget).
Proof.
  induction budget as [| n IH]; intros st c1 c2 a b m Hw C1 C2;
    cbn [quiescence]; [exact I |].
  destruct (evaluateBoard_coherent st c1 Hw C1) as (V1 & S1 & D1).
  destruct (evaluateBoard_coherent st c2 Hw C2) as (V2 & S2 & D2).
  destruct (evaluateBoard st c1) as [[sp1 s1] d1].
  destruct (evaluateBoard st c2) as [[sp2 s2] d2].
  cbn [fst snd] in *. subst sp1 sp2 s1 s2.
  destruct (m && _); [cbn; auto |].
  destruct (negb m && _); [cbn; auto |].
  match goal with
  | |- agree (match searchLoop ?body ?xs st d1 ?a1 ?b1 with _ => _ end) _ =>
    pose proof (searchLoop_agree body xs) as L;
    specialize (L (fun x st c a b r st' c' Hin Hw E =>
                     quiescence_from_frame (quiescence n) m x st c a b r st' c'
                       (quiescence_frame n) Hin Hw E));
    specialize (L (fun x st c1 c2 a b Hin Hw C1 C2 =>
                     quiescence_from_agree (quiescence n) m x st c1 c2 a b
                       (quiescence_frame n) IH Hin Hw C1 C2));
    specialize (L st d1 d2 a1 b1 Hw D1 D2);
    destruct (searchLoop body xs st d1 a1 b1) as [[[fl1 t1] e1] |];
    destruct (searchLoop body xs st d2 a1 b1) as [[[fl2 t2] e2] |]
  end; cbn in L; try contradiction; [| exact I].
  destruct L as (-> & -> & E1 & E2).
  destruct fl2; cbn; auto.
Qed.

Lemma minimax_moves_agree rec isMax moves :
  restoring rec -> transparent rec -> Forall moveInBoard moves ->
  forall st c1 c2 best a b,
    wf st -> coherent c1 -> coherent c2 ->
    agree (minimax_moves rec isMax moves st c1 best a b)
          (minimax_moves rec isMax moves st c2 best a b).
Proof.
  intros Hr Ht Hm. induction Hm as [| mv rest [Hf Hto] Hrest IH];
    intros st c1 c2 best a b Hw C1 C2; cbn [minimax_moves].
  - cbn. auto.
  - set (st1 := poke (poke st (moveToRow mv) (moveToCol mv)
                        (peek st (moveFromRow mv) (moveFromCol mv)))
                  (moveFromRow mv) (moveFromCol mv) EMPTY).
    assert (wf st1) as Hw1 by (subst st1; now rewrite !wf_poke).
    pose proof (Ht st1 c1 c2 a b (negb isMax) Hw1 C1 C2) as A.
    destruct (rec st1 c1 a b (negb isMax)) as [[[score1 s1] d1] |] eqn:E1;
      destruct (rec st1 c2 a b (negb isMax)) as [[[score2 s2] d2] |] eqn:E2;
      cbn in A; try contradiction; [| exact I].
    destruct A as (-> & -> & D1 & D2).
    apply Hr in E2; [| exact Hw1]. subst s2.
    pose proof (undo_move st _ _ _ _ Hw Hf Hto) as U. cbn zeta in U. fold st1 in U.
    rewrite U.
    match goal with
    | |- agree (let '(_, _) := ?upd in _) _ => destruct upd as [[best' a'] b']
    end.
    destruct (b' <=? a'); [cbn; auto |].
    now apply IH.
Qed.

Lemma minimax_agree budget : forall depth,
  transparent (fun st c alpha beta m => minimax budget st c depth alpha beta m).
Proof.
  induction budget as [| n IH]; intros depth st c1 c2 a b m Hw C1 C2;
    cbn [minimax]; [exact I |].
  destruct (depth =? 0); [now apply quiescence_agree |].
  pose proof (generateAllMoves_frame st Hw) as K.
  pose proof (generateAllMoves_inBoard st) as Hin.
  destruct (generateAllMoves st) as [ml st1]. cbn [fst snd] in K, Hin. subst st1.
  destruct (_ =? _)%nat.
  - destruct (isInCheck st m) as [ic st1]. cbn. auto.
  - apply minimax_moves_agree;
      [ apply (minimax_frame n (depth - 1)) | apply (IH (depth - 1))
      | now apply sortMoves_Forall | exact Hw | exact C1 | exact C2 ].
Qed.

Lemma getAIMove_moves_agree (rec : GameState -> EvalCache -> SearchResult) moves :
  (forall st c r st' c', wf st -> rec st c = Some (r, st', c') -> st' = st) ->
  (forall st c1 c2, wf st -> coherent c1 -> coherent c2 -> agree (rec st c1) (rec st c2)) ->
  Forall moveInBoard moves ->
  forall st c1 c2 bestScore best,
    wf st -> coherent c1 -> coherent c2 ->
    agree (getAIMove_moves rec moves st c1 bestScore best)
          (getAIMove_moves rec moves st c2 bestScore best).
Proof.
  intros Hr Ht Hm. induction Hm as [| mv rest [Hf Hto] Hrest IH];
    intros st c1 c2 bestScore best Hw C1 C2; cbn [getAIMove_moves].
  - cbn. auto.
  - set (st1 := poke (poke st (moveToRow mv) (moveToCol mv)
                        (peek st (moveFromRow mv) (moveFromCol mv)))
                  (moveFromRow mv) (moveFromCol mv) EMPTY).
    assert (wf st1) as Hw1 by (subst st1; now rewrite !wf_poke).
    pose proof (Ht st1 c1 c2 Hw1 C1 C2) as A.
    destruct (rec st1 c1) as [[[score1 s1] d1] |] eqn:E1;
      destruct (rec st1 c2) as [[[score2 s2] d2] |] eqn:E2;
      cbn in A; try contradiction; [| exact I].
    destruct A as (-> & -> & D1 & D2).
    apply Hr in E2; [| exact Hw1]. subst s2.
    pose proof (undo_move st _ _ _ _ Hw Hf Hto) as U. cbn zeta in U. fold st1 in U.
    rewrite U.
    destruct (isWhiteTurn st);
      match goal with |- context [ if ?g then _ else _ ] => destruct g end;
      now apply IH.
Qed.

Lemma getAIMove_agree budget aiDepth st c1 c2 :
  wf st -> coherent c1 -> coherent c2 ->
  agree (getAIMove budget aiDepth st c1) (getAIMove budget aiDepth st c2).
Proof.
  intros Hw C1 C2. unfold getAIMove.
  match goal with
  | |- agree (let '(_, _) := ?e in _) _ =>
    assert (snd e = st) as Eb;
    [| destruct e as [booked st0]; cbn [snd] in Eb; subst st0 ]
  end.
  { destruct (fullmoveNumber st <=? 4); [| reflexivity].
    destruct (negb (getOpeningBookMove st =? -1)); [| reflexivity].
    pose proof (isValidMove_frame st (Z.quot (getOpeningBookMove st) 1000)
                  (Z.quot (Z.rem (getOpeningBookMove st) 1000) 100)
                  (Z.quot (Z.rem (getOpeningBookMove st) 100) 10)
                  (Z.rem (getOpeningBookMove st) 10) Hw) as K.
    destruct (isValidMove st _ _ _ _) as [v s]. exact K. }
  destruct booked as [mv |]; [cbn; auto |].
  pose proof (generateAllMoves_frame st Hw) as K.
  pose proof (generateAllMoves_inBoard st) as Hin.
  destruct (generateAllMoves st) as [ml st1]. cbn [fst snd] in K, Hin. subst st1.
  destruct (_ =? _)%nat.
  - pose proof (getEmergencyMove_value st Hw) as Ee.
    destruct (getEmergencyMove st) as [mv s]. cbn. auto.
  - match goal with
    | |- agree (match getAIMove_moves ?rec ?l st c1 ?bs ?b0 with _ => _ end) _ =>
      pose proof (getAIMove_moves_agree rec l) as L;
      specialize (L (fun st c r st' c' Hw E =>
                       minimax_frame budget (aiDepth - 1) st c (-100000) 100000
                         (negb (isWhiteTurn st)) r st' c' Hw E));
      specialize (L (fun st c1 c2 Hw C1 C2 =>
                       minimax_agree budget (aiDepth - 1) st c1 c2 (-100000) 100000
                         (negb (isWhiteTurn st)) Hw C1 C2));
      specialize (L (sortMoves_Forall _ _ Hin) st c1 c2 bs b0 Hw C1 C2);
      destruct (getAIMove_moves rec l st c1 bs b0) as [[[[s1 b1] t1] d1] |];
      destruct (getAIMove_moves rec l st c2 bs b0) as [[[[s2 b2] t2] d2] |]
    end; cbn in L; try contradiction; [| exact I].
    destruct L as (E & -> & D1 & D2). injection E as -> ->.
    destruct (fst (fst (fst b2)) =? -1).
    + destruct (getEmergencyMove t2) as [mv s]. cbn. auto.
    + cbn. auto.
Qed.

(** X29.  The search does not depend on what the cache holds.  On any two
    caches whose valid entries hold the fresh evaluation of the positions
    they match (the empty cache is one), [minimax], [quiescence] and
    [getAIMove] return the same score, respectively the same move, give
    the position back, and leave caches of that kind again. *)
Theorem search_ignores_cache (budget : nat) (st : GameState) (c1 c2 : EvalCache)
    (depth alpha beta : Z) (isMaximizingPlayer : bool)
    (Hwf : wf st) (Hcache1 : coherent c1) (Hcache2 : coherent c2)
    (Hdepth : 0 <= depth) (Hbudget : (Z.to_nat depth + 66 <= budget)%nat) :
  (exists r d1 d2,
      minimax budget st c1 depth alpha beta isMaximizingPlayer = Some (r, st, d1)
      /\ minimax budget st c2 depth alpha beta isMaximizingPlayer = Some (r, st, d2)
      /\ coherent d1 /\ coherent d2)
  /\ (exists r d1 d2,
         quiescence budget st c1 alpha beta isMaximizingPlayer = Some (r, st, d1)
         /\ quiescence budget st c2 alpha beta isMaximizingPlayer = Some (r, st, d2)
         /\ coherent d1 /\ coherent d2)
  /\ (exists mv d1 d2,
         getAIMove budget (depth + 1) st c1 = Some (mv, st, d1)
         /\ getAIMove budget (depth + 1) st c2 = Some (mv, st, d2)
         /\ coherent d1 /\ coherent d2).
Proof.
  split; [| split].
  - pose proof (minimax_agree budget depth st c1 c2 alpha beta isMaximizingPlayer
                  Hwf Hcache1 Hcache2) as A. cbv beta in A.
    destruct (minimax_total (Z.to_nat depth) budget st c1 alpha beta isMaximizingPlayer
                Hwf Hbudget) as (r1 & d1 & E1).
    destruct (minimax_total (Z.to_nat depth) budget st c2 alpha beta isMaximizingPlayer
                Hwf Hbudget) as (r2 & d2 & E2).
    rewrite Z2Nat.id in E1, E2 by exact Hdepth.
    rewrite E1, E2 in A. destruct A as (-> & _ & D1 & D2).
    exists r2, d1, d2. auto.
  - pose proof (quiescence_agree budget st c1 c2 alpha beta isMaximizingPlayer
                  Hwf Hcache1 Hcache2) as A.
    assert ((pieceCount (board st) < budget)%nat) as Hb.
    { pose proof (pieceCount_le (board st)) as L. rewrite Hwf in L. lia. }
    destruct (quiescence_total budget st c1 alpha beta isMaximizingPlayer Hwf Hb)
      as (r1 & d1 & E1).
    destruct (quiescence_total budget st c2 alpha beta isMaximizingPlayer Hwf Hb)
      as (r2 & d2 & E2).
    rewrite E1, E2 in A. destruct A as (-> & _ & D1 & D2).
    exists r2, d1, d2. auto.
  - pose proof (getAIMove_agree budget (depth + 1) st c1 c2 Hwf Hcache1 Hcache2) as A.
    destruct (getAIMove_result st c1 (depth + 1) budget Hwf ltac:(lia) ltac:(lia))
      as (m1 & d1 & E1 & _).
    destruct (getAIMove_result st c2 (depth + 1) budget Hwf ltac:(lia) ltac:(lia))
      as (m2 & d2 & E2 & _).
    rewrite E1, E2 in A. destruct A as (-> & _ & D1 & D2).
    exists m2, d1, d2. auto.
Qed.

Lemma search_ignores_cache_witness :
  wf capturePosition
  /\ coherent (snd (evaluateBoard capturePosition emptyCache)) /\ coherent emptyCache
  /\ 0 <= 1 /\ (Z.to_nat 1 + 66 <= 67)%nat
  /\ exists r d1 d2,
      minimax 67 capturePosition (snd (evaluateBoard capturePosition emptyCache))
        1 (-100000) 100000 true = Some (r, capturePosition, d1)
      /\ minimax 67 capturePosition emptyCache 1 (-100000) 100000 true
         = Some (r, capturePosition, d2)
      /\ coherent d1 /\ coherent d2.
Proof.
  pose proof (proj2 (proj2 (evaluateBoard_coherent capturePosition emptyCache eq_refl
                              coherent_empty))) as C.
  split; [reflexivity |]. split; [exact C |]. split; [exact coherent_empty |].
  split; [lia |]. split; [simpl; lia |].
  exact (proj1 (search_ignores_cache 67 capturePosition
                  (snd (evaluateBoard capturePosition emptyCache)) emptyCache
                  1 (-100000) 100000 true eq_refl C coherent_empty
                  ltac:(lia) ltac:(simpl; lia))).
Defined.
